(** * Ven Agents: the gateway telemetry collector and the session archive analyzer

    A shallow embedding of [collector.mjs] (class [AgentCollector]) and of the
    analytics / trace functions of [server.mjs] ([getAnalytics],
    [getTokenAnalytics], [getTraces]), with the properties of the design
    document checked against them.

    Conventions
    - a JS [Map] is a [gmap]; a JS object that is spread, merged or extended is
      an ordered association list ([JObj]);
    - JS numbers are binary64 floats ([PrimFloat.float]);
    - objects with identity that closures capture (gateway records, sockets,
      timers) live in explicit stores indexed by allocation number;
    - effects on the outside world (frames written to a socket, emitted
      events, resolved promises, console output) are appended to logs.

    Idealisations
    - the loops of [loadConfig] over a [Map] and the keys of a snapshot run
      in the order of [map_to_list], where JS runs in insertion order; this
      changes the order of the removal events of [loadConfig] and of the keys
      of a snapshot, nothing else. The loops of [start()], [stop()] and
      [_pollAll()] over the gateways, which give out socket numbers and
      request ids, run in insertion order;
    - a string is a sequence of characters, where JS counts UTF-16 code
      units in [slice(0, 8)]; the two agree on ASCII tokens;
    - [_reqCounter] is an unbounded natural number, where JS counts in a
      binary64 float: the two agree while the counter is below 2^53, and
      what is proved of request ids is stated for such counters;
    - one callback turn reads [Date.now()] once: the reading is an argument
      of the turn;
    - the [modelId] of a [model_change] line is a string when it is truthy.
      On another truthy value [getTraces] throws at [model.replace] and
      leaves out the remaining sessions of that agent directory; what is
      proved of the forest is stated of the sessions it holds. *)

From Stdlib Require Import Floats ZArith NArith Lia.
From Stdlib Require Import Ascii String.
From stdpp Require Import gmap strings list fin_maps pretty sorting.
From coqutil Require Import Datatypes.RecordSettersUsingExistingGetters.

#[local] Set Warnings "-register-all".
Local Open Scope string_scope.
Local Open Scope list_scope.


(* ===================================================================== *)
(** * JavaScript strings *)
(* ===================================================================== *)

Module JsString.

(** [s.startsWith(p)] *)
Fixpoint startsWith (p s : string) : bool :=
  match p, s with
  | EmptyString, _ => true
  | String a p', String b s' => if decide (a = b) then startsWith p' s' else false
  | String _ _, EmptyString => false
  end.

(** [s.includes(sub)] *)
Fixpoint includes (sub s : string) : bool :=
  startsWith sub s ||
  match s with
  | EmptyString => false
  | String _ s' => includes sub s'
  end.

(** [s.endsWith(suf)] *)
Fixpoint endsWith (suf s : string) : bool :=
  bool_decide (s = suf) ||
  match s with
  | EmptyString => false
  | String _ s' => endsWith suf s'
  end.

(** [s.slice(0, n)] *)
Fixpoint slice0 (n : nat) (s : string) : string :=
  match n, s with
  | S n', String a s' => String a (slice0 n' s')
  | _, _ => EmptyString
  end.

(** [s.split(sep)] for a one-character separator: never empty, and
    [n] separators give [n + 1] parts. *)
Fixpoint split (sep : ascii) (s : string) : list string :=
  match s with
  | EmptyString => [EmptyString]
  | String a s' =>
      if decide (a = sep) then EmptyString :: split sep s'
      else match split sep s' with
           | [] => [String a EmptyString]
           | p :: ps => String a p :: ps
           end
  end.

(** Dropping the first [n] characters. *)
Fixpoint drop (n : nat) (s : string) : string :=
  match n, s with
  | O, _ => s
  | S _, EmptyString => EmptyString
  | S n', String _ s' => drop n' s'
  end.

(** [s.replace(pat, by)] with a string pattern: the first occurrence only. *)
Fixpoint replace (pat by_ s : string) : string :=
  if startsWith pat s then by_ +:+ drop (String.length pat) s
  else match s with
       | EmptyString => EmptyString
       | String a s' => String a (replace pat by_ s')
       end.

End JsString.


(* ===================================================================== *)
(** * JavaScript values *)
(* ===================================================================== *)

(** The values that [JSON.parse] produces, plus [undefined]. *)
Inductive Json : Type :=
  | JUndefined
  | JNull
  | JBool (b : bool)
  | JNum (f : float)
  | JStr (s : string)
  | JArr (l : list Json)
  | JObj (fields : list (string * Json)).

Module Js.

(** Floats with a truthy value: every number except [0], [-0] and [NaN]. *)
Definition num_truthy (f : float) : bool :=
  negb (PrimFloat.eqb f 0%float) && PrimFloat.eqb f f.

(** ToBoolean *)
Definition truthy (v : Json) : bool :=
  match v with
  | JUndefined | JNull => false
  | JBool b => b
  | JNum f => num_truthy f
  | JStr s => negb (bool_decide (s = ""))
  | JArr _ | JObj _ => true
  end.

(** [a || b] *)
Definition or (a b : Json) : Json := if truthy a then a else b.

(** Own-property lookup in an association list. *)
Fixpoint assoc (k : string) (l : list (string * Json)) : option Json :=
  match l with
  | [] => None
  | (k', v) :: l' => if decide (k = k') then Some v else assoc k l'
  end.

(** [o.k] on a value that is neither [null] nor [undefined]: the own property
    of an object, [undefined] otherwise. (The properties read in this
    development are never array indices or [length].) *)
Definition field (o : Json) (k : string) : Json :=
  match o with
  | JObj l => default JUndefined (assoc k l)
  | _ => JUndefined
  end.

(** [o.k] as JS evaluates it: a TypeError ([None]) on [null] and
    [undefined]. *)
Definition get (o : Json) (k : string) : option Json :=
  match o with
  | JUndefined | JNull => None
  | _ => Some (field o k)
  end.

(** [o?.k] *)
Definition opt_get (o : Json) (k : string) : Json :=
  match o with
  | JUndefined | JNull => JUndefined
  | _ => field o k
  end.

(** [v === "lit"] *)
Definition is_str (v : Json) (lit : string) : bool :=
  match v with
  | JStr s => bool_decide (s = lit)
  | _ => false
  end.

(** [Array.isArray(v)] *)
Definition isArray (v : Json) : bool :=
  match v with JArr _ => true | _ => false end.

(** Assignment [o.k = v] on property lists: an existing key keeps its place,
    a new key is appended. *)
Fixpoint set (k : string) (v : Json) (l : list (string * Json)) : list (string * Json) :=
  match l with
  | [] => [(k, v)]
  | (k', v') :: l' => if decide (k = k') then (k, v) :: l' else (k', v') :: set k v l'
  end.

(** [{...a, ...b}] on property lists. *)
Definition merge (a b : list (string * Json)) : list (string * Json) :=
  foldl (λ acc kv, set kv.1 kv.2 acc) a b.

Fixpoint index_from (i : N) (l : list Json) : list (string * Json) :=
  match l with
  | [] => []
  | v :: l' => (pretty i, v) :: index_from (N.succ i) l'
  end.

Fixpoint chars_of (s : string) : list Json :=
  match s with
  | EmptyString => []
  | String a s' => JStr (String a EmptyString) :: chars_of s'
  end.

(** The own enumerable properties that [{...v}] copies. *)
Definition spread (v : Json) : list (string * Json) :=
  match v with
  | JObj l => l
  | JArr l => index_from 0 l
  | JStr s => index_from 0 (chars_of s)
  | _ => []
  end.

End Js.


(* ===================================================================== *)
(** * JavaScript numbers *)
(* ===================================================================== *)

Module JsNum.

Local Open Scope float_scope.

(** [x || 0] for a numeric property that may be absent. *)
Definition or_zero (x : option float) : float :=
  match x with
  | Some f => if Js.num_truthy f then f else 0
  | None => 0
  end.

Definition two52 : float := 4503599627370496.

(** The integer nearest to [x] (ties to even), for [|x| < 2^52]. *)
Definition nearest_int (x : float) : float :=
  if 0 <=? x then (x + two52) - two52 else (x - two52) + two52.

(** [Math.floor(x)] *)
Definition Math_floor (x : float) : float :=
  if abs x <? two52 then
    let r := nearest_int x in
    if x <? r then r - 1 else r
  else x.

(** [Math.round(x)]: the nearest integer, ties towards [+∞]; zeros, [NaN],
    infinities and numbers from [2^52] on are returned as they are, and
    [-0.5 <= x < 0] gives [-0]. *)
Definition Math_round (x : float) : float :=
  if abs x <? two52 then
    if x =? 0 then x
    else
      let f := Math_floor x in
      let r := if (x - f) <? 0.5 then f else f + 1 in
      if (r =? 0) && (x <? 0) then -0 else r
  else x.

(** [Math.round(x * 10000) / 10000] *)
Definition round4 (x : float) : float := Math_round (x * 10000) / 10000.

End JsNum.

(* ===================================================================== *)
(** * The collector ([class AgentCollector]) *)
(* ===================================================================== *)

Module Collector.

(** ** Configuration *)

(** One entry of [config.agents]. [agent_gatewayAgentId] is [None] when the
    key is absent; [name], [emoji] and [machine] are copied, never read. *)
Record AgentCfg := {
  agent_id : string;
  agent_gatewayAgentId : option string;
  agent_name : Json;
  agent_emoji : Json;
  agent_machine : Json;
  agent_host : string;
  agent_port : N;
  agent_token : string;
}.

(** The parsed [agents.json]; the polling intervals it may carry are read by
    [start()] only. *)
Record Config := { cfg_agents : list AgentCfg }.

(** [agent.gatewayAgentId || agent.id] *)
Definition agentKey (a : AgentCfg) : string :=
  match agent_gatewayAgentId a with
  | Some s => if decide (s = "") then agent_id a else s
  | None => agent_id a
  end.

(** [`${agent.host}:${agent.port}:${agent.token.slice(0, 8)}`] *)
Definition gwKey_of (a : AgentCfg) : string :=
  agent_host a +:+ ":" +:+ pretty (agent_port a) +:+ ":" +:+ JsString.slice0 8 (agent_token a).

(** ** Objects with identity *)

Inductive GwState := Disconnected | Connecting | WaitingChallenge | Connected | GwError.

#[global] Instance GwState_eq_dec : EqDecision GwState.
Proof. solve_decision. Defined.

(** A value of the [gateways] map. [gw_ws] and [gw_reconnectTimer] are
    references into the socket and timer stores. *)
Record Gateway := {
  gw_key : string;
  gw_host : string;
  gw_port : N;
  gw_token : string;
  gw_ws : option nat;
  gw_state : GwState;
  gw_reconnectTimer : option nat;
  gw_agents : list AgentCfg;
  gw_rawData : list (string * Json);
}.

Inductive ReadyState := CONNECTING | OPEN | CLOSING | CLOSED.

#[global] Instance ReadyState_eq_dec : EqDecision ReadyState.
Proof. solve_decision. Defined.

(** A [WebSocket]: its ready state and the frames handed to [send], oldest
    first (each frame before [JSON.stringify]). *)
Record Socket := {
  sock_url : string;
  sock_readyState : ReadyState;
  sock_sent : list Json;
}.

(** What a pending [setTimeout] will run. *)
Inductive TimerAction :=
  | TReconnect (gwKey : string)              (* () => this._connect(gwKey) *)
  | TRequestTimeout (reqId : string)         (* () => { pending.delete(reqId); resolve(null) } *)
  | TPollGateway (gwKey : string).           (* () => this._pollGateway(gwKey) *)

Record Timer := { timer_action : TimerAction; timer_delay : N }.

(** A value of the [_pending] map. The promise of a request is identified
    by the request id; [pend_timer] is its timeout timer. *)
Record Pending := { pend_timer : nat }.

(** ** The collector and the stores it works on *)

Record State := {
  (* fields of the class *)
  config : option Config;
  agents : gmap string AgentCfg;
  gateways : gmap string nat;
  agentGateway : gmap string string;
  state : gmap string (list (string * Json));
  hostMetrics : Json;
  reqCounter : N;
  pending : gmap string Pending;
  (* gateway objects *)
  gwHeap : gmap nat Gateway;
  nextGw : nat;
  (* sockets *)
  sockets : gmap nat Socket;
  nextSock : nat;
  (* armed timers *)
  timers : gmap nat Timer;
  nextTimer : nat;
  (* settled request promises and their values *)
  resolved : gmap string Json;
  (* [this.emit(name, payload)], oldest first *)
  emitted : list (string * Json);
  (* [console.error], oldest first *)
  console : list (list Json);
}.

(** [new AgentCollector()] *)
Definition init : State := {|
  config := None; agents := ∅; gateways := ∅; agentGateway := ∅; state := ∅;
  hostMetrics := JObj []; reqCounter := 0; pending := ∅;
  gwHeap := ∅; nextGw := 0; sockets := ∅; nextSock := 0;
  timers := ∅; nextTimer := 0; resolved := ∅; emitted := []; console := [];
|}.

(** ** Runtime primitives *)

Definition emit (name : string) (payload : Json) (st : State) : State :=
  st <| emitted ::= (λ l, l ++ [(name, payload)]) |>.

Definition setTimeout (act : TimerAction) (delay : N) (st : State) : nat * State :=
  (nextTimer st,
   st <| timers ::= insert (nextTimer st) {| timer_action := act; timer_delay := delay |} |>
      <| nextTimer ::= S |>).

Definition clearTimeout (t : nat) (st : State) : State :=
  st <| timers ::= delete t |>.

(** [ws.close()]: the socket starts closing; its [close] event comes later. *)
Definition ws_close (s : nat) (st : State) : State :=
  st <| sockets ::= alter (λ k, if decide (sock_readyState k = CLOSED) then k
                                else k <| sock_readyState := CLOSING |>) s |>.

(** Settling the promise of request [reqId]; a settled promise stays as it is. *)
Definition resolve (reqId : string) (v : Json) (st : State) : State :=
  match resolved st !! reqId with
  | Some _ => st
  | None => st <| resolved ::= insert reqId v |>
  end.

(** [this.gateways.get(gwKey)]: the reference and the object behind it. *)
Definition gw_get (gwKey : string) (st : State) : option (nat * Gateway) :=
  r ← gateways st !! gwKey; g ← gwHeap st !! r; Some (r, g).

(** Agents listed on a gateway object. *)
Definition gw_agents_of (g : nat) (st : State) : list AgentCfg :=
  match gwHeap st !! g with Some gw => gw_agents gw | None => [] end.

(** ** State *)

(** [_updateState(id, partial)] *)
Definition updateState (id : string) (partial : list (string * Json)) (st : State) : State :=
  let current := default [] (state st !! id) in
  let st := st <| state ::= insert id (Js.merge current partial) |> in
  emit "update" (JObj [("id", JStr id); ("state", JObj (default [] (state st !! id)))]) st.

(** [for (const agent of l) this._updateState(agent.id, partial)] *)
Definition updateAll (l : list AgentCfg) (partial : list (string * Json)) (st : State) : State :=
  foldl (λ s a, updateState (agent_id a) partial s) st l.

(** [getSnapshot()], with the clock reading [now] of [Date.now()]. *)
Definition getSnapshot (now : float) (st : State) : Json :=
  JObj [("ts", JNum now);
        ("agents", JObj (prod_map Datatypes.id JObj <$> map_to_list (state st)));
        ("host", hostMetrics st)].

(** ** loadConfig *)

(** The record a newly configured agent starts with. *)
Definition fresh_state (a : AgentCfg) : list (string * Json) :=
  [("id", JStr (agent_id a)); ("gatewayAgentId", JStr (agentKey a));
   ("name", agent_name a); ("emoji", agent_emoji a);
   ("machine", agent_machine a); ("online", JBool false); ("lastSeen", JNull);
   ("health", JNull); ("sessions", JNull); ("usage", JNull); ("heartbeat", JNull);
   ("presence", JNull); ("channels", JNull); ("cron", JNull); ("error", JNull)].

Definition fresh_gateway (gwKey : string) (a : AgentCfg) : Gateway := {|
  gw_key := gwKey; gw_host := agent_host a; gw_port := agent_port a;
  gw_token := agent_token a; gw_ws := None; gw_state := Disconnected;
  gw_reconnectTimer := None; gw_agents := []; gw_rawData := [];
|}.

(** Body of the pruning loop over [this.agents.keys()]. *)
Definition prune_one (currentIds : gset string) (st : State) (id : string) : State :=
  if decide (id ∈ currentIds) then st
  else emit "update" (JObj [("id", JStr id); ("state", JNull); ("removed", JBool true)])
         (st <| agents ::= delete id |> <| state ::= delete id |>
             <| agentGateway ::= delete id |>).

Definition prune (currentIds : gset string) (st : State) : State :=
  foldl (prune_one currentIds) st (fst <$> map_to_list (agents st)).

(** [for (const [, gw] of this.gateways) gw.agents = []] *)
Definition clear_agents (g : Gateway) : Gateway := g <| gw_agents := [] |>.

Definition clear_agent_lists (st : State) : State :=
  foldl (λ s (kr : string * nat), s <| gwHeap ::= alter clear_agents kr.2 |>)
        st (map_to_list (gateways st)).

(** The loop over [this.config.agents], statement by statement. *)

(** [this.agents.set(agent.id, agent); this.agentGateway.set(agent.id, gwKey)] *)
Definition register_agent (a : AgentCfg) (st : State) : State :=
  st <| agents ::= insert (agent_id a) a |>
     <| agentGateway ::= insert (agent_id a) (gwKey_of a) |>.

(** [if (!this.gateways.has(gwKey)) this.gateways.set(gwKey, {...})] *)
Definition ensure_gateway (a : AgentCfg) (st : State) : State :=
  match gateways st !! gwKey_of a with
  | Some _ => st
  | None => st <| gwHeap ::= insert (nextGw st) (fresh_gateway (gwKey_of a) a) |>
               <| gateways ::= insert (gwKey_of a) (nextGw st) |>
               <| nextGw ::= S |>
  end.

(** [this.gateways.get(gwKey).agents.push(agent)] *)
Definition push_agent (a : AgentCfg) (g : Gateway) : Gateway :=
  g <| gw_agents ::= (λ l, l ++ [a]) |>.

Definition list_agent (a : AgentCfg) (st : State) : State :=
  match gateways st !! gwKey_of a with
  | Some r => st <| gwHeap ::= alter (push_agent a) r |>
  | None => st
  end.

(** [if (!this.state.has(agent.id)) this.state.set(agent.id, {...})] *)
Definition ensure_record (a : AgentCfg) (st : State) : State :=
  match state st !! agent_id a with
  | Some _ => st
  | None => st <| state ::= insert (agent_id a) (fresh_state a) |>
  end.

Definition add_agent (st : State) (a : AgentCfg) : State :=
  ensure_record a (list_agent a (ensure_gateway a (register_agent a st))).

(** Body of the final loop that removes gateways left without agents. *)
Definition remove_if_empty (st : State) (kr : string * nat) : State :=
  match gwHeap st !! kr.2 with
  | Some gw =>
      if decide (length (gw_agents gw) = 0) then
        let st := match gw_ws gw with Some s => ws_close s st | None => st end in
        let st := match gw_reconnectTimer gw with Some t => clearTimeout t st | None => st end in
        st <| gateways ::= delete kr.1 |>
      else st
  | None => st
  end.

Definition remove_empty (st : State) : State :=
  foldl remove_if_empty st (map_to_list (gateways st)).

(** [loadConfig()] once the file has been read and parsed into [cfg]. *)
Definition loadConfig_parsed (cfg : Config) (st : State) : State :=
  let st := st <| config := Some cfg |> in
  let currentIds : gset string := list_to_set (agent_id <$> cfg_agents cfg) in
  let st := prune currentIds st in
  let st := clear_agent_lists st in
  let st := foldl add_agent st (cfg_agents cfg) in
  remove_empty st.

(** [loadConfig()]: [file] is [None] when [readFileSync] or [JSON.parse]
    throws, and then the call throws before it has changed anything. *)
Definition loadConfig (file : option Config) (st : State) : option State :=
  cfg ← file; Some (loadConfig_parsed cfg st).

(** ** Connection *)

(** [_scheduleReconnect(gwKey)] *)
Definition scheduleReconnect (gwKey : string) (st : State) : State :=
  match gw_get gwKey st with
  | None => st
  | Some (r, gw) =>
      let st := match gw_reconnectTimer gw with
                | Some t => clearTimeout t st
                | None => st
                end in
      let '(t, st) := setTimeout (TReconnect gwKey) 10000 st in
      st <| gwHeap ::= alter (λ g, g <| gw_reconnectTimer := Some t |>) r |>
  end.

(** The handlers that [_connect] registers close over [gwKey] and over the
    gateway object [gw] looked up when [_connect] ran. *)

(** [ws.on('open', ...)] *)
Definition on_open (gw : nat) (st : State) : State :=
  st <| gwHeap ::= alter (λ g, g <| gw_state := WaitingChallenge |>) gw |>.

(** [ws.on('close', (code) => ...)] *)
Definition on_close (gwKey : string) (gw : nat) (code : N) (st : State) : State :=
  let st := st <| gwHeap ::= alter (λ g, g <| gw_state := Disconnected |>) gw |> in
  let st := updateAll (gw_agents_of gw st)
              [("online", JBool false);
               ("error", JStr ("disconnected (code " +:+ pretty code +:+ ")"))] st in
  scheduleReconnect gwKey st.

(** [ws.on('error', (err) => ...)]; [message] is [err.message]. *)
Definition on_error (gw : nat) (message : Json) (st : State) : State :=
  let st := st <| gwHeap ::= alter (λ g, g <| gw_state := GwError |>) gw |> in
  updateAll (gw_agents_of gw st) [("online", JBool false); ("error", message)] st.

(** The socket library changes [readyState] before it runs a handler. *)
Definition set_readyState (s : nat) (rs : ReadyState) (st : State) : State :=
  st <| sockets ::= alter (λ k, k <| sock_readyState := rs |>) s |>.

(** The [open], [close] and [error] events of the socket [s] whose handlers
    were registered for [gwKey] and the gateway object [gw]. *)
Definition ws_opened (s gw : nat) (st : State) : State :=
  on_open gw (set_readyState s OPEN st).

Definition ws_closed (s : nat) (gwKey : string) (gw : nat) (code : N) (st : State) : State :=
  on_close gwKey gw code (set_readyState s CLOSED st).

Definition ws_errored (s gw : nat) (message : Json) (st : State) : State :=
  on_error gw message (set_readyState s CLOSING st).

(** [_connect(gwKey)]. [ctor] is [Some m] when [new WebSocket(url)] throws
    an error whose message is [m]. *)
Definition connect (gwKey : string) (ctor : option Json) (st : State) : State :=
  match gw_get gwKey st with
  | None => st
  | Some (r, gw) =>
      let st := match gw_ws gw with Some s => ws_close s st | None => st end in
      match ctor with
      | Some m =>
          let st := updateAll (gw_agents gw) [("online", JBool false); ("error", m)] st in
          scheduleReconnect gwKey st
      | None =>
          let url := "ws://" +:+ gw_host gw +:+ ":" +:+ pretty (gw_port gw) in
          let ws := nextSock st in
          let st := st <| sockets ::= insert ws {| sock_url := url;
                                                  sock_readyState := CONNECTING;
                                                  sock_sent := [] |} |>
                      <| nextSock ::= S |> in
          st <| gwHeap ::= alter (λ g, g <| gw_ws := Some ws |> <| gw_state := Connecting |>) r |>
      end
  end.

(** ** Requests *)

(** The open socket of a gateway, if it has one:
    [gw?.ws && gw.ws.readyState === WebSocket.OPEN]. *)
Definition open_socket (gwKey : string) (st : State) : option nat :=
  '(_, gw) ← gw_get gwKey st;
  s ← gw_ws gw;
  k ← sockets st !! s;
  if decide (sock_readyState k = OPEN) then Some s else None.

(** [_sendFrame(gwKey, frame)] *)
Definition sendFrame (gwKey : string) (frame : Json) (st : State) : State :=
  match open_socket gwKey st with
  | None => st
  | Some s => st <| sockets ::= alter (λ k, k <| sock_sent ::= (λ l, l ++ [frame]) |>) s |>
  end.

(** What the promise returned by [_call] is when [_call] returns. *)
Inductive CallResult :=
  | Resolved (v : Json)          (* already settled with [v] *)
  | Awaiting (reqId : string).   (* settled later, by the response or the timeout *)

(** [String(++this._reqCounter)] *)
Definition next_reqId (st : State) : string * State :=
  let n := N.succ (reqCounter st) in (pretty n, st <| reqCounter := n |>).

(** [_call(gwKey, method, params)] *)
Definition call (gwKey method : string) (params : Json) (st : State) : CallResult * State :=
  let is_connected :=
    match gw_get gwKey st with
    | Some (_, gw) => bool_decide (gw_state gw = Connected)
    | None => false
    end in
  match open_socket gwKey st with
  | Some _ =>
      if is_connected then
        let '(reqId, st) := next_reqId st in
        let st := sendFrame gwKey
                    (JObj [("type", JStr "req"); ("id", JStr reqId);
                           ("method", JStr method);
                           ("params", Js.or params (JObj []))]) st in
        let '(timer, st) := setTimeout (TRequestTimeout reqId) 10000 st in
        (Awaiting reqId, st <| pending ::= insert reqId {| pend_timer := timer |} |>)
      else (Resolved JNull, st)
  | None => (Resolved JNull, st)
  end.

(** The timeout callback armed by [_call]. *)
Definition on_request_timeout (reqId : string) (st : State) : State :=
  resolve reqId JNull (st <| pending ::= delete reqId |>).

(** ** Inbound frames *)

(** How a call ends: normally, or by throwing. Either way the state reached
    is kept. *)
Inductive Outcome :=
  | Returned (st : State)
  | Threw (st : State).

Definition outcome_state (o : Outcome) : State :=
  match o with Returned st | Threw st => st end.

(** The frame of the [connect] request sent on a challenge. *)
Definition connect_frame (reqId token : string) : Json :=
  JObj [("type", JStr "req"); ("id", JStr reqId); ("method", JStr "connect");
        ("params",
         JObj [("minProtocol", JNum 3); ("maxProtocol", JNum 3);
               ("client", JObj [("id", JStr "openclaw-probe"); ("version", JStr "2.0.0");
                                ("platform", JStr "linux"); ("mode", JStr "backend")]);
               ("auth", JObj [("token", JStr token)])])].

(** [this._pending.has(msg.id)] with [msg.id] truthy: the keys of [_pending]
    are strings, so only a non-empty string can be one. *)
Definition pending_entry (id : Json) (st : State) : option (string * Pending) :=
  match id with
  | JStr s => if decide (s = "") then None else p ← pending st !! s; Some (s, p)
  | _ => None
  end.

(** [_handleMessage(gwKey, msg)] for [msg] other than [null] and
    [undefined]; [now] is the reading of [Date.now()]. *)
Definition handleMessage_obj (gwKey : string) (msg : Json) (now : float) (st : State) : Outcome :=
  let gw := gw_get gwKey st in
  if Js.is_str (Js.field msg "type") "event" then
    if Js.is_str (Js.field msg "event") "connect.challenge" then
      let '(reqId, st) := next_reqId st in
      match gw with
      | None => Threw st
      | Some (_, g) => Returned (sendFrame gwKey (connect_frame reqId (gw_token g)) st)
      end
    else if Js.is_str (Js.field msg "event") "health" then
      match gw with
      | None => Threw st
      | Some (_, g) =>
          Returned (updateAll (gw_agents g)
                      [("health", Js.field msg "payload"); ("lastSeen", JNum now)] st)
      end
    else if Js.is_str (Js.field msg "event") "presence" then
      match gw with
      | None => Threw st
      | Some (_, g) =>
          Returned (updateAll (gw_agents g)
                      [("presence", Js.opt_get (Js.field msg "payload") "presence");
                       ("lastSeen", JNum now)] st)
      end
    else if Js.is_str (Js.field msg "event") "tick" then
      match gw with
      | None => Threw st
      | Some (_, g) => Returned (updateAll (gw_agents g) [("lastSeen", JNum now)] st)
      end
    else Returned st
  else if Js.is_str (Js.field msg "type") "res" then
    let ok := Js.truthy (Js.field msg "ok") in
    let payload := Js.field msg "payload" in
    let error := Js.field msg "error" in
    if ok && Js.is_str (Js.opt_get payload "type") "hello-ok" then
      match gw with
      | None => Threw st
      | Some (r, g) =>
          let st := st <| gwHeap ::= alter (λ g, g <| gw_state := Connected |>) r |> in
          let snap := Js.or (Js.field payload "snapshot") (JObj []) in
          let st := updateAll (gw_agents g)
                      [("online", JBool true); ("error", JNull);
                       ("lastSeen", JNum now); ("health", snap)] st in
          Returned (setTimeout (TPollGateway gwKey) 500 st).2
      end
    else if negb ok && Js.truthy error then
      let st := st <| console ::= (λ l, l ++ [[JStr ("[" +:+ gwKey +:+ "] connect error:");
                                               Js.field error "message"]]) |> in
      match gw with
      | None => Threw st
      | Some (_, g) =>
          Returned (updateAll (gw_agents g)
                      [("online", JBool false); ("error", Js.field error "message")] st)
      end
    else
      match pending_entry (Js.field msg "id") st with
      | Some (reqId, p) =>
          let st := clearTimeout (pend_timer p) st in
          let st := st <| pending ::= delete reqId |> in
          Returned (resolve reqId (if ok then payload else JNull) st)
      | None => Returned st
      end
  else Returned st.

(** [_handleMessage(gwKey, msg)]: reading [msg.type] throws on [null] and
    [undefined]. *)
Definition handleMessage (gwKey : string) (msg : Json) (now : float) (st : State) : Outcome :=
  match Js.get msg "type" with
  | None => Threw st
  | Some _ => handleMessage_obj gwKey msg now st
  end.

(** [ws.on('message', ...)]: [parsed] is [None] when [JSON.parse] throws;
    whatever is thrown is swallowed. *)
Definition on_message (gwKey : string) (parsed : option Json) (now : float) (st : State) : State :=
  match parsed with
  | None => st
  | Some msg => outcome_state (handleMessage gwKey msg now st)
  end.

(** ** Polling *)

(** The six requests of one poll round, in the order they are issued. *)
Definition poll_requests : list (string * Json) :=
  [("health", JObj []);
   ("sessions.list", JObj [("activeMinutes", JNum 1440); ("limit", JNum 50)]);
   ("usage.cost", JObj [("days", JNum 7)]);
   ("last-heartbeat", JObj []);
   ("channels.status", JObj []);
   ("cron.list", JObj [])].

(** [_pollGateway(gwKey)] up to its [await]: [None] when it returns at once,
    otherwise the gateway object it holds on to and the six promises. *)
Definition pollGateway_issue (gwKey : string) (st : State)
  : option (nat * list CallResult) * State :=
  match gw_get gwKey st with
  | Some (r, gw) =>
      if decide (gw_state gw = Connected) then
        let '(rs, st) :=
          foldl (λ '(acc, s) '(m, p), let '(c, s') := call gwKey m p s in (acc ++ [c], s'))
                ([], st) poll_requests in
        (Some (r, rs), st)
      else (None, st)
  | None => (None, st)
  end.

(** [health.agents.find(a => a.agentId === agentKey)]; [None] when the
    callback throws. *)
Fixpoint find_agentHealth (key : string) (l : list Json) : option Json :=
  match l with
  | [] => Some JUndefined
  | a :: l' =>
      v ← Js.get a "agentId";
      if Js.is_str v key then Some a else find_agentHealth key l'
  end.

(** The callback of [allSessions.filter]; [None] when it throws. *)
Definition session_matches (prefix : string) (s : Json) : option bool :=
  k ← Js.get s "key";
  match Js.or k (JStr "") with
  | JStr key => Some (JsString.startsWith prefix key)
  | _ => None
  end.

Fixpoint filter_sessions (prefix : string) (l : list Json) : option (list Json) :=
  match l with
  | [] => Some []
  | s :: l' =>
      b ← session_matches prefix s;
      r ← filter_sessions prefix l';
      Some (if b : bool then s :: r else r)
  end.

(** [`agent:${agentKey}:`] *)
Definition session_prefix (key : string) : string := "agent:" +:+ key +:+ ":".

Definition health_update (key : string) (health : Json) : option (list (string * Json)) :=
  if Js.truthy health then
    match Js.field health "agents" with
    | JArr l =>
        ah ← find_agentHealth key l;
        Some [("health", JObj (if Js.truthy ah
                               then Js.set "_agentHealth" ah (Js.spread health)
                               else Js.spread health))]
    | _ => Some [("health", JObj (Js.spread health))]
    end
  else Some [].

Definition sessions_update (key : string) (sessions : Json) : option (list (string * Json)) :=
  if Js.truthy sessions then
    match Js.or (Js.field sessions "sessions") sessions with
    | JArr l =>
        filtered ← filter_sessions (session_prefix key) l;
        Some [("sessions", JObj (Js.set "sessions" (JArr filtered) (Js.spread sessions)))]
    | _ => Some [("sessions", sessions)]
    end
  else Some [].

Definition usage_update (sharing : nat) (usage : Json) : list (string * Json) :=
  if Js.truthy usage
  then [("usage", JObj (Js.set "shared" (JBool (bool_decide (1 < sharing))) (Js.spread usage)))]
  else [].

Definition plain_update (k : string) (v : Json) : list (string * Json) :=
  if Js.truthy v then [(k, v)] else [].

(** The six results of a poll round. *)
Record PollResults := {
  r_health : Json; r_sessions : Json; r_usage : Json;
  r_heartbeat : Json; r_channels : Json; r_cron : Json;
}.

(** The [update] object built for one agent; [None] when building it throws. *)
Definition agent_update (sharing : nat) (res : PollResults) (now : float) (a : AgentCfg)
  : option (list (string * Json)) :=
  h ← health_update (agentKey a) (r_health res);
  s ← sessions_update (agentKey a) (r_sessions res);
  Some ([("lastSeen", JNum now)] ++ h ++ s ++ usage_update sharing (r_usage res)
        ++ plain_update "heartbeat" (r_heartbeat res)
        ++ plain_update "channels" (r_channels res)
        ++ plain_update "cron" (r_cron res)).

(** The loop [for (const agent of gw.agents)]. *)
Fixpoint poll_split (sharing : nat) (res : PollResults) (now : float)
         (l : list AgentCfg) (st : State) : Outcome :=
  match l with
  | [] => Returned st
  | a :: l' =>
      match agent_update sharing res now a with
      | None => Threw st
      | Some u => poll_split sharing res now l' (updateState (agent_id a) u st)
      end
  end.

(** [_pollGateway] after its [await], on the gateway object [gw] it looked
    up before. *)
Definition pollGateway_resume (gw : nat) (res : PollResults) (now : float) (st : State) : Outcome :=
  let raw := [("health", r_health res); ("sessions", r_sessions res);
              ("usage", r_usage res); ("heartbeat", r_heartbeat res);
              ("channels", r_channels res); ("cron", r_cron res)] in
  let st := st <| gwHeap ::= alter (λ g, g <| gw_rawData := raw |>) gw |> in
  poll_split (length (gw_agents_of gw st)) res now (gw_agents_of gw st) st.

(** ** Timers *)

(** An armed timer fires: it leaves the set of armed timers and its callback
    runs. [ctor] is the outcome of [new WebSocket(url)] for a reconnect. *)
Definition fire_timer (t : nat) (ctor : option Json) (st : State) : State :=
  match timers st !! t with
  | None => st
  | Some tm =>
      let st := st <| timers ::= delete t |> in
      match timer_action tm with
      | TReconnect gwKey => connect gwKey ctor st
      | TRequestTimeout reqId => on_request_timeout reqId st
      | TPollGateway gwKey => (pollGateway_issue gwKey st).2
      end
  end.

End Collector.


(* ===================================================================== *)
(** * Starting, stopping and polling the collector *)
(* ===================================================================== *)

Module CollectorRun.
Import Js Collector.

(** What a [setInterval] of the collector runs. *)
Inductive IntervalAction :=
  | IPollAll                (* () => this._pollAll() *)
  | ICollectHostMetrics.    (* () => this._collectHostMetrics() *)

(** An armed interval; [iv_period] is the period handed to [setInterval]. *)
Record Interval := { iv_action : IntervalAction; iv_period : Json }.

(** The collector together with its two interval handles ([_pollTimer],
    [_metricsTimer]) and the store of armed intervals. *)
Record Runner := {
  core : State;
  pollTimer : option nat;
  metricsTimer : option nat;
  intervals : gmap nat Interval;
  nextInterval : nat;
}.

(** [new AgentCollector(configPath)] *)
Definition new_runner : Runner := {|
  core := init; pollTimer := None; metricsTimer := None; intervals := ∅; nextInterval := 0 |}.

Definition setInterval (act : IntervalAction) (period : Json) (rn : Runner) : nat * Runner :=
  (nextInterval rn,
   rn <| intervals ::= insert (nextInterval rn) {| iv_action := act; iv_period := period |} |>
      <| nextInterval ::= S |>).

Definition clearInterval (i : nat) (rn : Runner) : Runner :=
  rn <| intervals ::= delete i |>.

(** [_collectHostMetrics()]. [reading] is the metrics object assembled from
    [/proc/loadavg], [/proc/meminfo], [df], [/proc/uptime], [hostname] and
    the clock; it is [None] when one of the unguarded reads throws, and the
    call then changes nothing. *)
Definition collectHostMetrics (reading : option Json) (st : State) : State :=
  match reading with
  | Some m => emit "hostMetrics" m (st <| hostMetrics := m |>)
  | None => st
  end.

(** The entries of [this.gateways] in the order in which a loop over the
    [Map] visits them: the order of insertion. An entry is set once, when
    its gateway object is created ([loadConfig]), and gateway objects are
    numbered as they are created; so the order of insertion is the order of
    the references. *)
Definition created_before (a b : string * nat) : Prop := (a.2 ≤ b.2)%nat.

#[global] Instance created_before_dec a b : Decision (created_before a b).
Proof. unfold created_before. apply _. Defined.

Definition gateway_entries (st : State) : list (string * nat) :=
  merge_sort created_before (map_to_list (gateways st)).

(** [for (const [key] of this.gateways) this._connect(key)]; [ctor k] is the
    outcome of [new WebSocket(url)] for the gateway [k]. *)
Definition connect_all (ctor : string → option Json) (st : State) : State :=
  foldl (λ s (kr : string * nat), connect kr.1 (ctor kr.1) s) st (gateway_entries st).

(** [start()]. [file] is the parsed configuration ([None] when reading or
    parsing it throws, and [start] then throws); [pollIntervalMs] and
    [hostMetricsIntervalMs] are the properties of that name of the parsed
    file. *)
Definition start (file : option Config) (pollIntervalMs hostMetricsIntervalMs : Json)
    (ctor : string → option Json) (reading : option Json) (rn : Runner) : option Runner :=
  st ← loadConfig file (core rn);
  let rn := rn <| core := connect_all ctor st |> in
  let '(p, rn) := setInterval IPollAll (Js.or pollIntervalMs (JNum 15000)) rn in
  let rn := rn <| pollTimer := Some p |> in
  let '(m, rn) :=
    setInterval ICollectHostMetrics (Js.or hostMetricsIntervalMs (JNum 30000)) rn in
  let rn := rn <| metricsTimer := Some m |> in
  Some (rn <| core ::= collectHostMetrics reading |>).

(** The body of the loop of [stop()] over [this.gateways]. *)
Definition stop_gateway (st : State) (kr : string * nat) : State :=
  match gwHeap st !! kr.2 with
  | Some gw =>
      let st := match gw_reconnectTimer gw with Some t => clearTimeout t st | None => st end in
      match gw_ws gw with Some s => ws_close s st | None => st end
  | None => st
  end.

Definition stop_gateways (st : State) : State :=
  foldl stop_gateway st (gateway_entries st).

(** [stop()] *)
Definition stop (rn : Runner) : Runner :=
  let rn := match pollTimer rn with Some i => clearInterval i rn | None => rn end in
  let rn := match metricsTimer rn with Some i => clearInterval i rn | None => rn end in
  rn <| core ::= stop_gateways |>.

(** [_pollAll()]: every [_pollGateway(gwKey)] runs up to its [await]; the
    rounds that wait for their six answers are returned, oldest first. *)
Definition pollAll (st : State) : list (nat * list CallResult) * State :=
  foldl (λ '(acc, s) (kr : string * nat),
           match pollGateway_issue kr.1 s with
           | (Some round, s') => (acc ++ [round], s')
           | (None, s') => (acc, s')
           end)
        ([], st) (gateway_entries st).

(** An interval fires; [reading] as for [start]. *)
Definition fire_interval (i : nat) (reading : option Json) (rn : Runner) : Runner :=
  match intervals rn !! i with
  | None => rn
  | Some iv =>
      match iv_action iv with
      | IPollAll => rn <| core ::= (λ st, (pollAll st).2) |>
      | ICollectHostMetrics => rn <| core ::= collectHostMetrics reading |>
      end
  end.

End CollectorRun.


(* ===================================================================== *)
(** * Properties of collector states *)
(* ===================================================================== *)

Module CollectorProps.
Import Js Collector.

(** ** Well-formed stores *)

(** Every reference in [gateways] points to an allocated object, allocation
    numbers below [nextGw] only are in use, and no object sits under two keys. *)
Definition gw_wf (st : State) : Prop :=
  (∀ k r, gateways st !! k = Some r → is_Some (gwHeap st !! r)) ∧
  (∀ r, is_Some (gwHeap st !! r) → r < nextGw st) ∧
  (∀ k1 k2 r, gateways st !! k1 = Some r → gateways st !! k2 = Some r → k1 = k2).

(** Gateway objects that are no longer in [gateways] list no agents. *)
Definition unlisted_empty (st : State) : Prop :=
  ∀ r gw, gwHeap st !! r = Some gw → (∀ k, gateways st !! k ≠ Some r) → gw_agents gw = [].

(** Every state record belongs to a configured agent. *)
Definition records_configured (st : State) : Prop := dom (state st) ⊆ dom (agents st).

(** Every armed reconnect timer is the one its gateway object remembers. *)
Definition reconnects_tracked (st : State) : Prop :=
  ∀ t k d, timers st !! t = Some {| timer_action := TReconnect k; timer_delay := d |} →
           ∃ r gw, gw_get k st = Some (r, gw) ∧ gw_reconnectTimer gw = Some t.

(** Every agent listed on a gateway object is a configured agent. *)
Definition listed_configured (st : State) : Prop :=
  ∀ r gw a, gwHeap st !! r = Some gw → a ∈ gw_agents gw → agent_id a ∈ dom (agents st).

(** The invariant of the collector. *)
Record Inv (st : State) : Prop := {
  inv_wf : gw_wf st;
  inv_records : records_configured st;
  inv_listed : listed_configured st;
  inv_unlisted : unlisted_empty st;
  inv_reconnects : reconnects_tracked st;
}.

(** One callback turn of the collector: a configuration load, a connection
    attempt, a socket event, a request, a timer, a poll round that resumes,
    a reading of the host metrics, or the loop of [stop()] over the
    gateways. The socket handlers may run for any gateway key and gateway
    object, which covers the closures of every socket ever opened.
    [start()] is a load, a connection attempt for every gateway and a
    reading of the host metrics; a tick of the poll interval is a poll for
    every gateway. *)
Inductive step : State → State → Prop :=
  | step_loadConfig cfg st : step st (loadConfig_parsed cfg st)
  | step_connect gwKey ctor st : step st (connect gwKey ctor st)
  | step_open s gw st : step st (ws_opened s gw st)
  | step_close s gwKey gw code st : step st (ws_closed s gwKey gw code st)
  | step_error s gw message st : step st (ws_errored s gw message st)
  | step_message gwKey parsed now st : step st (on_message gwKey parsed now st)
  | step_call gwKey method params st : step st (call gwKey method params st).2
  | step_poll gwKey st : step st (pollGateway_issue gwKey st).2
  | step_resume gw res now st : step st (outcome_state (pollGateway_resume gw res now st))
  | step_timer t ctor st : step st (fire_timer t ctor st)
  | step_hostMetrics reading st : step st (CollectorRun.collectHostMetrics reading st)
  | step_stop st : step st (CollectorRun.stop_gateways st).

(** The states the collector can be in. *)
Inductive reachable : State → Prop :=
  | reachable_init : reachable init
  | reachable_step st st' : reachable st → step st st' → reachable st'.

(** What a gateway object keeps in a turn that neither loads a
    configuration nor schedules a reconnect. *)
Definition gw_kept (g : Gateway) : list AgentCfg * option nat :=
  (gw_agents g, gw_reconnectTimer g).

(** A turn that leaves the configuration and the links as they are: records
    appear for listed agents only, and no reconnect timer is armed. *)
Record quiet (st st' : State) : Prop := {
  q_agents : agents st' = agents st;
  q_gateways : gateways st' = gateways st;
  q_nextGw : nextGw st' = nextGw st;
  q_heap : ∀ r, gw_kept <$> gwHeap st' !! r = gw_kept <$> gwHeap st !! r;
  q_state : ∀ id, id ∈ dom (state st') →
                  id ∈ dom (state st) ∨
                  ∃ r gw a, gwHeap st !! r = Some gw ∧ a ∈ gw_agents gw ∧ agent_id a = id;
  q_timers : ∀ t k d, timers st' !! t = Some {| timer_action := TReconnect k; timer_delay := d |} →
                      timers st !! t = Some {| timer_action := TReconnect k; timer_delay := d |};
}.

(** A record that carries every field of the update [partial]. *)
Definition carries (partial rec : list (string * Json)) : Prop :=
  ∀ k v, Js.assoc k (reverse partial) = Some v → Js.assoc k rec = Some v.

(** The reason recorded when a socket closes with [code]. *)
Definition close_reason (code : N) : string := "disconnected (code " +:+ pretty code +:+ ")".

(** The reconnect timer: [setTimeout(() => this._connect(gwKey), 10000)]. *)
Definition reconnect_timer (gwKey : string) : Timer :=
  {| timer_action := TReconnect gwKey; timer_delay := 10000 |}.

(** ** Configuration loads *)

(** The (host, port, token) triple of an agent, and the connection key that
    [loadConfig] derives from it. *)
Definition endpoint (a : AgentCfg) : string * N * string :=
  (agent_host a, agent_port a, agent_token a).

Definition endpoint_key (e : string * N * string) : string :=
  e.1.1 +:+ ":" +:+ pretty e.1.2 +:+ ":" +:+ JsString.slice0 8 e.2.

(** The agents of [l] whose connection key is [k], in the order of [l]. *)
Definition listed (k : string) (l : list AgentCfg) : list AgentCfg :=
  filter (λ a, gwKey_of a = k) l.

(** The invariant of the loop over [config.agents], when the agents [seen]
    have been handled. *)
Definition loop_inv (seen : list AgentCfg) (st : State) : Prop :=
  gw_wf st ∧
  (∀ k r gw, gateways st !! k = Some r → gwHeap st !! r = Some gw →
             gw_agents gw = listed k seen) ∧
  (∀ a, a ∈ seen → is_Some (gateways st !! gwKey_of a)).

(** The state when the loop over [config.agents] has ended. *)
Definition loaded (cfg : Config) (st : State) : State :=
  foldl add_agent
    (clear_agent_lists (prune (list_to_set (agent_id <$> cfg_agents cfg))
                              (st <| config := Some cfg |>)))
    (cfg_agents cfg).

(** Whether the final loop of [loadConfig] removes the gateway object [r]. *)
Definition dropped (st : State) (r : nat) : bool :=
  match gwHeap st !! r with
  | Some gw => bool_decide (length (gw_agents gw) = 0)
  | None => false
  end.

(** The data fields of a state record. *)
Definition data_fields : list string :=
  ["health"; "sessions"; "usage"; "heartbeat"; "channels"; "cron"; "error"; "lastSeen"].

(** ** Poll results *)

(** The array that [_pollGateway] filters: [sessions.sessions || sessions]
    when that is an array. *)
Definition sessions_array (sessions : Json) : option (list Json) :=
  match Js.or (Js.field sessions "sessions") sessions with
  | JArr l => Some l
  | _ => None
  end.

(** The sessions of [l] whose key starts with [prefix]. *)
Definition sessions_with_prefix (prefix : string) (l : list Json) : list Json :=
  filter (λ s, session_matches prefix s = Some true) l.

(** The value of the [sessions] field that a poll round gives an agent whose
    gateway agent id is [key], when the result carries the array [l]. *)
Definition split_sessions (key : string) (sessions : Json) (l : list Json) : Json :=
  JObj (Js.set "sessions" (JArr (sessions_with_prefix (session_prefix key) l))
          (Js.spread sessions)).

(** The agent whose update a poll round writes last into the record under
    [id]: the last of the agents listed on the link under that id. *)
Definition last_listed (id : string) (l : list AgentCfg) : option AgentCfg :=
  last (filter (λ b, agent_id b = id) l).

End CollectorProps.

(* ===================================================================== *)
(** * Sample configurations and states *)
(* ===================================================================== *)

Module Samples.
Import Collector.

Definition agent (id token : string) : AgentCfg := {|
  agent_id := id; agent_gatewayAgentId := None; agent_name := JStr id;
  agent_emoji := JUndefined; agent_machine := JUndefined;
  agent_host := "127.0.0.1"; agent_port := 18789; agent_token := token |}.

(** Two agents on one host and port whose tokens agree on the first eight
    characters only. *)
Definition two_tokens : Config :=
  {| cfg_agents := [agent "alice" "abcdefgh-alice"; agent "bob" "abcdefgh-bob"] |}.

Definition key_alice : string := gwKey_of (agent "alice" "abcdefgh-alice").

(** After [start()]: the configuration is loaded and the one gateway is
    being connected (socket 0, gateway object 0). *)
Definition started : State := connect key_alice None (loadConfig_parsed two_tokens init).

(** The socket has opened; the handshake has not been done. *)
Definition waiting : State := ws_opened 0 0 started.

Definition hello_ok : Json :=
  JObj [("type", JStr "res"); ("id", JStr "1"); ("ok", JBool true);
        ("payload", JObj [("type", JStr "hello-ok"); ("snapshot", JObj [])])].

Definition challenge : Json :=
  JObj [("type", JStr "event"); ("event", JStr "connect.challenge")].

(** The handshake is done: both agents are online. *)
Definition online : State :=
  on_message key_alice (Some hello_ok) 1000
    (on_message key_alice (Some challenge) 900 waiting).

(** A failed response that answers no request of the collector. *)
Definition stray_error : Json :=
  JObj [("type", JStr "res"); ("id", JStr "999"); ("ok", JBool false);
        ("error", JObj [("message", JStr "boom")])].

(** A response that answers no request and carries neither a greeting nor
    an error. *)
Definition stray_result : Json :=
  JObj [("type", JStr "res"); ("id", JStr "999"); ("ok", JBool true);
        ("payload", JObj [("answer", JNum 42)])].

(** Two agents on one gateway whose gateway agent ids are [a] and [a:b]. *)
Definition nested_ids : Config :=
  {| cfg_agents :=
       [(agent "x" "tok") <| agent_gatewayAgentId := Some "a" |>;
        (agent "y" "tok") <| agent_gatewayAgentId := Some "a:b" |>] |}.

(** The id [x] listed twice on one gateway, under the gateway agent ids [a]
    and [b]. *)
Definition one_id_twice : Config :=
  {| cfg_agents :=
       [(agent "x" "tok") <| agent_gatewayAgentId := Some "a" |>;
        (agent "x" "tok") <| agent_gatewayAgentId := Some "b" |>] |}.

Definition a_b_sessions : PollResults := {|
  r_health := JNull;
  r_sessions := JObj [("sessions", JArr [JObj [("key", JStr "agent:a:main")];
                                         JObj [("key", JStr "agent:b:main")]])];
  r_usage := JNull; r_heartbeat := JNull; r_channels := JNull; r_cron := JNull |}.

Definition one_session : PollResults := {|
  r_health := JNull;
  r_sessions := JObj [("sessions", JArr [JObj [("key", JStr "agent:a:b:main")]])];
  r_usage := JNull; r_heartbeat := JNull; r_channels := JNull; r_cron := JNull |}.

Definition alice_bob_sessions : PollResults := {|
  r_health := JNull;
  r_sessions := JObj [("sessions", JArr [JObj [("key", JStr "agent:alice:main")];
                                         JObj [("key", JStr "agent:bob:main")]])];
  r_usage := JNull; r_heartbeat := JNull; r_channels := JNull; r_cron := JNull |}.

End Samples.

(* ===================================================================== *)
(** * The session archive analyzer *)
(* ===================================================================== *)

Module Analyzer.

Local Open Scope float_scope.

(** ** Transcripts *)

(** A timestamp as it stands in a transcript: a string or a number. *)
Inductive Ts :=
  | TsStr (s : string)
  | TsNum (f : float).

(** The built-ins the analyzer applies to timestamps:
    [new Date(ts).getTime()] ([NaN] for an invalid date),
    [new Date(ts).toISOString().split('T')[0]] ([None] when [toISOString]
    throws a RangeError) and the relational operator [a < b]. *)
Class JsDate := {
  getTime : Ts → float;
  isoDate : Ts → option string;
  ts_lt : Ts → Ts → bool;
}.

(** Truthiness of a timestamp property ([None]: absent or [null]). *)
Definition ts_truthy (t : option Ts) : bool :=
  match t with
  | None => false
  | Some (TsStr s) => negb (bool_decide (s = ""))
  | Some (TsNum f) => Js.num_truthy f
  end.

(** [a || b] on timestamp properties. *)
Definition ts_or (a b : option Ts) : option Ts := if ts_truthy a then a else b.

(** [msg.usage]; the numeric properties are numbers when present, [u_cost]
    is [usage.cost?.total]. *)
Record Usage := {
  u_input : option float;
  u_output : option float;
  u_cacheRead : option float;
  u_cacheWrite : option float;
  u_cost : option float;
}.

(** [msg.usage || {}] *)
Definition no_usage : Usage :=
  {| u_input := None; u_output := None; u_cacheRead := None; u_cacheWrite := None;
     u_cost := None |}.

Record Message := {
  m_role : option string;
  m_usage : option Usage;
  m_timestamp : option Ts;
}.

(** A parsed transcript line, by the value of [type]. [modelId] is [None]
    when it is absent or not truthy; [message] is [None] when it is absent or
    not truthy. *)
Inductive Entry :=
  | ModelChange (modelId : option string)
  | MessageEntry (timestamp : option Ts) (message : option Message)
  | OtherEntry.

(** One non-blank line of a transcript: [None] when reading its [type]
    after [JSON.parse] throws. *)
Definition Line := option Entry.

Definition usage_of (m : Message) : Usage := default no_usage (m_usage m).
Definition cost_of (m : Message) : float := JsNum.or_zero (u_cost (usage_of m)).
Definition input_of (m : Message) : float := JsNum.or_zero (u_input (usage_of m)).
Definition output_of (m : Message) : float := JsNum.or_zero (u_output (usage_of m)).
Definition cacheRead_of (m : Message) : float := JsNum.or_zero (u_cacheRead (usage_of m)).
Definition cacheWrite_of (m : Message) : float := JsNum.or_zero (u_cacheWrite (usage_of m)).

(** [input + output + cache] *)
Definition tokens_of (m : Message) : float := input_of m + output_of m + cacheRead_of m.

(** [msg.role === 'user'] *)
Definition is_user (m : Message) : bool := bool_decide (m_role m = Some "user").

(** ** The file tree *)

(** A file of a [sessions] directory: [f_mtimeMs] is [None] when [statSync]
    throws, [f_lines] is [None] when [readFileSync] throws. *)
Record TranscriptFile := {
  f_name : string;
  f_mtimeMs : option float;
  f_lines : option (list Line);
}.

(** [d_sessions] is [None] when the [sessions] directory does not exist and
    [Some None] when [readdirSync] throws on it. *)
Record AgentDir := {
  d_name : string;
  d_sessions : option (option (list TranscriptFile));
}.

(** The directories under [~/.openclaw/agents]; [None] when the directory
    cannot be read. *)
Definition Archive := option (list AgentDir).

(** [rangeStr]: ['all'], or a string whose [parseInt] is [n]. *)
Inductive Range :=
  | AllTime
  | Days (n : float).

(** [cutoffDate] *)
Definition cutoffDate (range : Range) (now : float) : float :=
  match range with
  | AllTime => 0
  | Days n => now - n * 86400000
  end.

(** [f.endsWith('.jsonl') && !f.includes('.deleted.') && !f.includes('.archived.')] *)
Definition is_transcript_name (f : string) : bool :=
  JsString.endsWith ".jsonl" f && negb (JsString.includes ".deleted." f)
  && negb (JsString.includes ".archived." f).

(** The agent directories a call looks at. *)
Definition agent_dirs (agentFilter : string) (fs : Archive) : list AgentDir :=
  let dirs := default [] fs in
  if decide (agentFilter = "all") then dirs
  else filter (λ d, d_name d = agentFilter) dirs.

(** ** Aggregates keyed by a string *)

(** A [Map] from strings to counters, in insertion order. *)
Fixpoint bump {A} (zero : A) (f : A → A) (k : string) (m : list (string * A)) : list (string * A) :=
  match m with
  | [] => [(k, f zero)]
  | (k', v) :: m' => if decide (k = k') then (k', f v) :: m' else (k', v) :: bump zero f k m'
  end.

(** [{cost, tokens}] *)
Definition add_cost_tokens (cost tokens : float) (v : float * float) : float * float :=
  (v.1 + cost, v.2 + tokens).

Section WithDate.
Context `{JsDate}.

(** ** getAnalytics *)

(** The accumulators of one transcript, and the two maps that the scan of a
    transcript updates in place. *)
Record Scan := {
  sessionCost : float;
  sessionTokens : float;
  sessionInput : float;
  sessionOutput : float;
  sessionCache : float;
  sessionCalls : N;
  sessionModel : option string;
  byDate : list (string * (float * float));
  byModel : list (string * (float * float));
}.

Definition new_scan (dates models : list (string * (float * float))) : Scan := {|
  sessionCost := 0; sessionTokens := 0; sessionInput := 0; sessionOutput := 0;
  sessionCache := 0; sessionCalls := 0; sessionModel := None;
  byDate := dates; byModel := models |}.

(** [ts && new Date(ts).getTime() < cutoffDate] *)
Definition before_cutoff (cutoff : float) (ts : option Ts) : bool :=
  match ts with
  | Some t => ts_truthy ts && (getTime t <? cutoff)
  | None => false
  end.

(** The body of the loop over the lines of a transcript. *)
Definition scan_line (cutoff : float) (s : Scan) (line : Line) : Scan :=
  match line with
  | None => s
  | Some (ModelChange (Some modelId)) => s <| sessionModel := Some modelId |>
  | Some (ModelChange None) => s
  | Some OtherEntry => s
  | Some (MessageEntry _ None) => s
  | Some (MessageEntry timestamp (Some msg)) =>
      let ts := ts_or timestamp (m_timestamp msg) in
      if before_cutoff cutoff ts then s
      else
        let cost := cost_of msg in
        let tokens := tokens_of msg in
        let s := s <| sessionCost ::= (λ c, c + cost) |>
                   <| sessionTokens ::= (λ t, t + tokens) |>
                   <| sessionInput ::= (λ t, t + input_of msg) |>
                   <| sessionOutput ::= (λ t, t + output_of msg) |>
                   <| sessionCache ::= (λ t, t + cacheRead_of msg) |>
                   <| sessionCalls ::= (λ n, if is_user msg then N.succ n else n) |> in
        (* [toISOString] may throw; the rest of the line is then skipped *)
        let dated :=
          match ts with
          | Some t =>
              if ts_truthy ts
              then option_map (λ date, s <| byDate ::= bump (0, 0) (add_cost_tokens cost tokens) date |>)
                              (isoDate t)
              else Some s
          | None => Some s
          end in
        match dated with
        | None => s
        | Some s =>
            match sessionModel s with
            | Some model => s <| byModel ::= bump (0, 0) (add_cost_tokens cost tokens) model |>
            | None => s
            end
        end
  end.

Definition scan_lines (cutoff : float) (s : Scan) (lines : list Line) : Scan :=
  foldl (scan_line cutoff) s lines.

(** An entry of [sessions], the list behind [topSessions]. *)
Record SessionTotal := {
  st_agentId : string;
  st_sessionId : string;
  st_cost : float;
  st_tokens : float;
}.

(** The aggregates of [getAnalytics]. *)
Record Analytics := {
  totalCost : float;
  totalTokens : float;
  inputTokens : float;
  outputTokens : float;
  cacheReadTokens : float;
  apiCalls : N;
  byAgent : list (string * (float * float));
  overTime : list (string * (float * float));
  perModel : list (string * (float * float));
  sessions : list SessionTotal;
}.

Definition no_analytics : Analytics := {|
  totalCost := 0; totalTokens := 0; inputTokens := 0; outputTokens := 0;
  cacheReadTokens := 0; apiCalls := 0; byAgent := []; overTime := []; perModel := [];
  sessions := [] |}.

(** [stat.mtimeMs < cutoffDate], or [statSync] throws: the file is skipped. *)
Definition skipped (cutoff : float) (f : TranscriptFile) : bool :=
  match f_mtimeMs f with
  | Some m => m <? cutoff
  | None => true
  end.

(** The body of the loop over the files of an agent. *)
Definition analytics_file (cutoff : float) (agentId : string) (a : Analytics)
    (f : TranscriptFile) : Analytics :=
  if skipped cutoff f then a
  else
    let s := match f_lines f with
             | Some lines => scan_lines cutoff (new_scan (overTime a) (perModel a)) lines
             | None => new_scan (overTime a) (perModel a)
             end in
    let a := a <| totalCost ::= (λ x, x + sessionCost s) |>
               <| totalTokens ::= (λ x, x + sessionTokens s) |>
               <| inputTokens ::= (λ x, x + sessionInput s) |>
               <| outputTokens ::= (λ x, x + sessionOutput s) |>
               <| cacheReadTokens ::= (λ x, x + sessionCache s) |>
               <| apiCalls ::= (λ n, (n + sessionCalls s)%N) |>
               <| overTime := byDate s |>
               <| perModel := byModel s |>
               <| byAgent ::= bump (0, 0) (add_cost_tokens (sessionCost s) (sessionTokens s))
                                agentId |> in
    if (0 <? sessionCost s) || (0 <? sessionTokens s) then
      a <| sessions ::= (λ l, l ++ [{| st_agentId := agentId;
                                       st_sessionId := JsString.replace ".jsonl" "" (f_name f);
                                       st_cost := sessionCost s;
                                       st_tokens := sessionTokens s |}]) |>
    else a.

(** The body of the loop over the agents. *)
Definition analytics_agent (cutoff : float) (a : Analytics) (d : AgentDir) : Analytics :=
  match d_sessions d with
  | Some (Some files) =>
      foldl (analytics_file cutoff (d_name d)) a
            (filter (λ f, is_transcript_name (f_name f) = true) files)
  | _ => a
  end.

(** The aggregates that [getAnalytics(rangeStr, agentFilter)] has collected
    when its loops end; the returned arrays are these maps sorted. *)
Definition analytics (range : Range) (agentFilter : string) (now : float) (fs : Archive)
    : Analytics :=
  foldl (analytics_agent (cutoffDate range now)) no_analytics (agent_dirs agentFilter fs).

(** The [totalCost] that [getAnalytics] returns. *)
Definition getAnalytics_totalCost (range : Range) (agentFilter : string) (now : float)
    (fs : Archive) : float :=
  JsNum.round4 (totalCost (analytics range agentFilter now fs)).

(** ** getTokenAnalytics *)

(** [{inputTokens, outputTokens, cacheReadTokens, cacheWriteTokens, cost}] *)
Record TokenCounts := {
  tc_input : float;
  tc_output : float;
  tc_cacheRead : float;
  tc_cacheWrite : float;
  tc_cost : float;
}.

Definition no_counts : TokenCounts :=
  {| tc_input := 0; tc_output := 0; tc_cacheRead := 0; tc_cacheWrite := 0; tc_cost := 0 |}.

Definition add_counts (msg : Message) (c : TokenCounts) : TokenCounts :=
  {| tc_input := tc_input c + input_of msg;
     tc_output := tc_output c + output_of msg;
     tc_cacheRead := tc_cacheRead c + cacheRead_of msg;
     tc_cacheWrite := tc_cacheWrite c + cacheWrite_of msg;
     tc_cost := tc_cost c + cost_of msg |}.

(** The aggregates of [getTokenAnalytics]. *)
Record TokenAnalytics := {
  tk_totalCost : float;
  tk_totalTokens : float;
  tk_inputTokens : float;
  tk_outputTokens : float;
  tk_cacheReadTokens : float;
  tk_cacheWriteTokens : float;
  tk_apiCalls : N;
  tk_byAgent : list (string * TokenCounts);
  tk_byDate : list (string * TokenCounts);
}.

Definition no_token_analytics : TokenAnalytics := {|
  tk_totalCost := 0; tk_totalTokens := 0; tk_inputTokens := 0; tk_outputTokens := 0;
  tk_cacheReadTokens := 0; tk_cacheWriteTokens := 0; tk_apiCalls := 0;
  tk_byAgent := []; tk_byDate := [] |}.

(** The body of the loop over the lines of a transcript. *)
Definition token_line (cutoff : float) (agentId : string) (a : TokenAnalytics) (line : Line)
    : TokenAnalytics :=
  match line with
  | Some (MessageEntry timestamp (Some msg)) =>
      let ts := ts_or timestamp (m_timestamp msg) in
      if before_cutoff cutoff ts then a
      else
        let a := a <| tk_totalCost ::= (λ x, x + cost_of msg) |>
                   <| tk_totalTokens ::= (λ x, x + tokens_of msg) |>
                   <| tk_inputTokens ::= (λ x, x + input_of msg) |>
                   <| tk_outputTokens ::= (λ x, x + output_of msg) |>
                   <| tk_cacheReadTokens ::= (λ x, x + cacheRead_of msg) |>
                   <| tk_cacheWriteTokens ::= (λ x, x + cacheWrite_of msg) |>
                   <| tk_apiCalls ::= (λ n, if is_user msg then N.succ n else n) |> in
        (* [toISOString] may throw; the rest of the line is then skipped *)
        let dated :=
          match ts with
          | Some t =>
              if ts_truthy ts
              then option_map (λ date, a <| tk_byDate ::= bump no_counts (add_counts msg) date |>)
                              (isoDate t)
              else Some a
          | None => Some a
          end in
        match dated with
        | None => a
        | Some a => a <| tk_byAgent ::= bump no_counts (add_counts msg) agentId |>
        end
  | _ => a
  end.

(** The body of the loop over the files of an agent. *)
Definition token_file (cutoff : float) (agentId : string) (a : TokenAnalytics)
    (f : TranscriptFile) : TokenAnalytics :=
  if skipped cutoff f then a
  else match f_lines f with
       | Some lines => foldl (token_line cutoff agentId) a lines
       | None => a
       end.

(** The body of the loop over the agents. *)
Definition token_agent (cutoff : float) (a : TokenAnalytics) (d : AgentDir) : TokenAnalytics :=
  match d_sessions d with
  | Some (Some files) =>
      foldl (token_file cutoff (d_name d)) a
            (filter (λ f, is_transcript_name (f_name f) = true) files)
  | _ => a
  end.

(** The aggregates that [getTokenAnalytics(rangeStr, agentFilter)] has
    collected when its loops end. *)
Definition token_analytics (range : Range) (agentFilter : string) (now : float) (fs : Archive)
    : TokenAnalytics :=
  foldl (token_agent (cutoffDate range now)) no_token_analytics (agent_dirs agentFilter fs).

(** ** getTraces *)

(** A value of [sessions.json]: [null], a primitive, or an object.
    [sm_sessionFile] is [None] when [sessionFile] is absent or not truthy,
    [sm_originLabel] is [sess.origin?.label]. *)
Record SessMeta := {
  sm_sessionFile : option string;
  sm_displayName : Json;
  sm_originLabel : Json;
  sm_updatedAt : option float;
}.

Inductive SessVal :=
  | SessNull
  | SessPrim
  | SessObj (m : SessMeta).

(** An agent directory as [getTraces] sees it: [t_index] is [None] when there
    is no [sessions.json], [Some None] when reading it, parsing it or listing
    its entries throws, and otherwise its entries in order. *)
Record IndexDir := {
  t_name : string;
  t_index : option (option (list (string * SessVal)));
}.

(** What [getTraces] reads: the agent directories ([None] when they cannot
    be listed), the transcripts by path (absent: the file does not exist;
    [None]: reading it throws), and the state map of the collector. *)
Record TraceWorld := {
  w_dirs : option (list IndexDir);
  w_transcripts : gmap string (option (list Line));
  w_state : gmap string (list (string * Json));
}.

(** The statistics of one transcript. *)
Record TraceScan := {
  tr_cost : float;
  tr_tokens : float;
  tr_messageCount : N;
  tr_model : option string;
  tr_startTime : option Ts;
  tr_endTime : option Ts;
}.

Definition new_trace_scan : TraceScan := {|
  tr_cost := 0; tr_tokens := 0; tr_messageCount := 0; tr_model := None;
  tr_startTime := None; tr_endTime := None |}.

(** The body of the loop over the lines of a transcript. *)
Definition trace_line (s : TraceScan) (line : Line) : TraceScan :=
  match line with
  | Some (ModelChange (Some modelId)) => s <| tr_model := Some modelId |>
  | Some (MessageEntry timestamp (Some msg)) =>
      let s := s <| tr_cost ::= (λ c, c + cost_of msg) |>
                 <| tr_tokens ::= (λ t, t + tokens_of msg) |>
                 <| tr_messageCount ::= (λ n, if is_user msg then N.succ n else n) |> in
      let ts := ts_or timestamp (m_timestamp msg) in
      match ts with
      | Some t =>
          if ts_truthy ts then
            let s := match tr_startTime s with
                     | None => s <| tr_startTime := Some t |>
                     | Some t0 => if ts_lt t t0 then s <| tr_startTime := Some t |> else s
                     end in
            match tr_endTime s with
            | None => s <| tr_endTime := Some t |>
            | Some t1 => if ts_lt t1 t then s <| tr_endTime := Some t |> else s
            end
          else s
      | None => s
      end
  | _ => s
  end.

(** The statistics of the transcript at [path]. *)
Definition trace_scan (w : TraceWorld) (path : string) : TraceScan :=
  match w_transcripts w !! path with
  | Some (Some lines) => foldl trace_line new_trace_scan lines
  | _ => new_trace_scan
  end.

(** A value of [sessionMap]. [s_children] refers to the records pushed onto
    [children] by their keys. *)
Record SessionRecord := {
  s_key : string;
  s_agentId : string;
  s_agentName : Json;
  s_agentEmoji : Json;
  s_label : Json;
  s_model : string;
  s_cost : float;
  s_tokens : float;
  s_messageCount : N;
  s_startTime : option Ts;
  s_endTime : option Ts;
  s_updatedAt : option float;
  s_isMain : bool;
  s_parentKey : option string;
  s_children : list string;
}.

(** [key.endsWith(':main') || !key.includes(':subagent:')] *)
Definition isMain (key : string) : bool :=
  JsString.endsWith ":main" key || negb (JsString.includes ":subagent:" key).

(** [parentKey] *)
Definition parentKey (key : string) : option string :=
  if JsString.includes ":subagent:" key then
    match JsString.split ":" key with
    | p0 :: p1 :: _ :: _ :: _ => Some (p0 +:+ ":" +:+ p1 +:+ ":main")
    | _ => None
    end
  else None.

(** [model ? model.replace('anthropic/', '').replace('openai/', '') : 'unknown'] *)
Definition model_name (model : option string) : string :=
  match model with
  | Some m => JsString.replace "openai/" "" (JsString.replace "anthropic/" "" m)
  | None => "unknown"
  end.

(** [sess.displayName || sess.origin?.label || key.split(':').pop() || 'unknown'] *)
Definition label_of (key : string) (m : SessMeta) : Json :=
  Js.or (sm_displayName m)
    (Js.or (sm_originLabel m)
       (Js.or (JStr (List.last (JsString.split ":" key) "")) (JStr "unknown"))).

Definition session_record (w : TraceWorld) (agentId key : string) (file : string) (m : SessMeta)
    : SessionRecord :=
  let s := trace_scan w file in
  let info := JObj (default [] (w_state w !! agentId)) in
  {| s_key := key;
     s_agentId := agentId;
     s_agentName := Js.or (Js.field info "name") (JStr agentId);
     s_agentEmoji := Js.or (Js.field info "emoji") (JStr "🤖");
     s_label := label_of key m;
     s_model := model_name (tr_model s);
     s_cost := tr_cost s;
     s_tokens := tr_tokens s;
     s_messageCount := tr_messageCount s;
     s_startTime := tr_startTime s;
     s_endTime := tr_endTime s;
     s_updatedAt := sm_updatedAt m;
     s_isMain := isMain key;
     s_parentKey := parentKey key;
     s_children := [] |}.

(** [Map.get] and [Map.set] on a map kept in insertion order. *)
Fixpoint map_get {A} (k : string) (m : list (string * A)) : option A :=
  match m with
  | [] => None
  | (k', v) :: m' => if decide (k = k') then Some v else map_get k m'
  end.

Fixpoint map_set {A} (k : string) (v : A) (m : list (string * A)) : list (string * A) :=
  match m with
  | [] => [(k, v)]
  | (k', v') :: m' => if decide (k = k') then (k', v) :: m' else (k', v') :: map_set k v m'
  end.

(** The loop over the entries of one [sessions.json]; it ends at the first
    entry whose value is [null], where reading [sess.sessionFile] throws. *)
Fixpoint collect_entries (w : TraceWorld) (agentId : string)
    (entries : list (string * SessVal)) (m : list (string * SessionRecord))
    : list (string * SessionRecord) :=
  match entries with
  | [] => m
  | (key, SessNull) :: _ => m
  | (key, SessPrim) :: rest => collect_entries w agentId rest m
  | (key, SessObj meta) :: rest =>
      match sm_sessionFile meta with
      | None => collect_entries w agentId rest m
      | Some file =>
          collect_entries w agentId rest
            (map_set key (session_record w agentId key file meta) m)
      end
  end.

(** First pass: the session map. *)
Definition collect_dir (w : TraceWorld) (m : list (string * SessionRecord)) (d : IndexDir)
    : list (string * SessionRecord) :=
  match t_index d with
  | Some (Some entries) => collect_entries w (t_name d) entries m
  | _ => m
  end.

Definition session_map (w : TraceWorld) (dirs : list IndexDir) : list (string * SessionRecord) :=
  foldl (collect_dir w) [] dirs.

(** [parent.children.push(sess)] *)
Definition push_child (child : string) (r : SessionRecord) : SessionRecord :=
  r <| s_children ::= (λ l, l ++ [child]) |>.

Fixpoint map_alter {A} (f : A → A) (k : string) (m : list (string * A)) : list (string * A) :=
  match m with
  | [] => []
  | (k', v) :: m' => if decide (k = k') then (k', f v) :: m' else (k', v) :: map_alter f k m'
  end.

(** Second pass, one entry: the session map with its [children] lists and
    [rootSessions], by key. *)
Definition attach (st : list (string * SessionRecord) * list string) (key : string)
    : list (string * SessionRecord) * list string :=
  let '(m, roots) := st in
  match map_get key m with
  | None => st
  | Some sess =>
      if s_isMain sess then (m, roots ++ [key])
      else match s_parentKey sess with
           | Some pk =>
               match map_get pk m with
               | Some _ => (map_alter (push_child key) pk m, roots)
               | None => (m, roots ++ [key])
               end
           | None => st
           end
  end.

Definition build_forest (m : list (string * SessionRecord))
    : list (string * SessionRecord) * list string :=
  foldl attach (m, []) m.*1.

(** [(b.updatedAt || 0) - (a.updatedAt || 0)] *)
Definition by_recency (m : list (string * SessionRecord)) (a b : string) : float :=
  let at_ k := JsNum.or_zero (map_get k m ≫= s_updatedAt) in
  at_ b - at_ a.

(** [Array.prototype.sort] with a comparator: a stable insertion sort. *)
Fixpoint sort_insert (cmp : string → string → float) (x : string) (l : list string) : list string :=
  match l with
  | [] => [x]
  | y :: l' => if 0 <? cmp y x then x :: y :: l' else y :: sort_insert cmp x l'
  end.

Definition js_sort (cmp : string → string → float) (l : list string) : list string :=
  foldl (λ acc x, sort_insert cmp x acc) [] l.

(** The forest that [getTraces()] returns: the records, each with the keys
    of its children, and the keys of [traces] in order. A directory tree that
    cannot be listed gives the empty forest. *)
Record Forest := {
  records : list (string * SessionRecord);
  traces : list string;
}.

Definition getTraces (w : TraceWorld) : Forest :=
  match w_dirs w with
  | None => {| records := []; traces := [] |}
  | Some dirs =>
      let '(m, roots) := build_forest (session_map w dirs) in
      {| records := m; traces := js_sort (by_recency m) roots |}
  end.

End WithDate.

End Analyzer.

(* ===================================================================== *)
(** * Properties of transcripts and forests *)
(* ===================================================================== *)

Module AnalyzerProps.
Import Analyzer.

Local Open Scope float_scope.

Section WithDate.
Context `{JsDate}.

(** The message of a line, when the line is a message entry with a message. *)
Definition message_of (line : Line) : option (option Ts * Message) :=
  match line with
  | Some (MessageEntry timestamp (Some msg)) => Some (ts_or timestamp (m_timestamp msg), msg)
  | _ => None
  end.

(** A line is out of the window when it is a message that carries a truthy
    timestamp older than the cutoff. *)
Definition out_of_window (cutoff : float) (line : Line) : bool :=
  match message_of line with
  | Some (ts, _) => before_cutoff cutoff ts
  | None => false
  end.

(** The messages of a transcript that are not out of the window: the ones
    with a timestamp at or after the cutoff, with a timestamp that is not a
    valid date, and with no timestamp. *)
Definition counted (cutoff : float) (lines : list Line) : list Message :=
  omap (λ line, match message_of line with
                | Some (ts, msg) => if before_cutoff cutoff ts then None else Some msg
                | None => None
                end) lines.

(** Every message of a transcript. *)
Definition messages (lines : list Line) : list Message :=
  omap (λ line, snd <$> message_of line) lines.

(** Costs added up in transcript order, as [+=] does. *)
Definition sum_costs (ms : list Message) : float :=
  foldl (λ acc m, acc + cost_of m) 0 ms.

End WithDate.

(** ** Stale files *)

(** A file whose modification time is older than the cutoff. *)
Definition stale (cutoff : float) (f : TranscriptFile) : bool :=
  match f_mtimeMs f with
  | Some m => m <? cutoff
  | None => false
  end.

(** The archive without its stale files. *)
Definition drop_stale_dir (cutoff : float) (d : AgentDir) : AgentDir :=
  {| d_name := d_name d;
     d_sessions := match d_sessions d with
                   | Some (Some files) => Some (Some (filter (λ f, stale cutoff f = false) files))
                   | o => o
                   end |}.

Definition drop_stale (cutoff : float) (fs : Archive) : Archive :=
  match fs with
  | Some dirs => Some (drop_stale_dir cutoff <$> dirs)
  | None => None
  end.

(** ** Forests *)

(** Every record sits under its own key and is classified by it. *)
Definition shaped (m : list (string * SessionRecord)) : Prop :=
  ∀ k r, map_get k m = Some r →
         s_key r = k ∧ s_isMain r = isMain k ∧ s_parentKey r = parentKey k.

(** [key] is one of the roots of the forest. *)
Definition is_root (f : Forest) (key : string) : Prop := key ∈ traces f.

(** [key] is a child of the record under [parent]. *)
Definition is_child_of (f : Forest) (key parent : string) : Prop :=
  ∃ r, map_get parent (records f) = Some r ∧ key ∈ s_children r.

(** The forest holds a record for [key]. *)
Definition has_session (f : Forest) (key : string) : Prop :=
  is_Some (map_get key (records f)).

End AnalyzerProps.

(* ===================================================================== *)
(** * Sample transcripts *)
(* ===================================================================== *)

Module AnalyzerSamples.
Import Analyzer.

Local Open Scope float_scope.

(** Timestamps given as epoch milliseconds within 1970-01-01, the only ones
    the samples use; strings are taken as invalid dates. *)
#[export] Instance first_day : JsDate := {|
  getTime t := match t with TsNum f => f | TsStr _ => nan end;
  isoDate t := match t with
               | TsNum f => if (0 <=? f) && (f <? 86400000) then Some "1970-01-01" else None
               | TsStr _ => None
               end;
  ts_lt a b := match a, b with
               | TsNum x, TsNum y => x <? y
               | TsStr x, TsStr y => String.ltb x y
               | _, _ => false
               end;
|}.

Definition assistant (cost : float) (ts : option Ts) : Line :=
  Some (MessageEntry ts
          (Some {| m_role := Some "assistant";
                   m_usage := Some {| u_input := None; u_output := None; u_cacheRead := None;
                                      u_cacheWrite := None; u_cost := Some cost |};
                   m_timestamp := None |})).

(** The transcript of the design document: one message before the cutoff
    that costs 100, then three messages after it. *)
Definition four_messages (old t1 t2 t3 : Ts) : list Line :=
  [assistant 100 (Some old); assistant 0.01 (Some t1);
   assistant 0.02 (Some t2); assistant 0.03 (Some t3)].

(** With the clock at 12:00 on 1970-01-01 and a range of a quarter of a
    day, the cutoff is 06:00. *)
Definition noon : float := 43200000.
Definition quarter_day : Range := Days 0.25.

Definition sample_lines : list Line :=
  four_messages (TsNum 3600000) (TsNum 25200000) (TsNum 28800000) (TsNum 32400000).

(** A message that costs 100 and carries no timestamp. *)
Definition undated_lines : list Line := [assistant 100 None].

Definition archive_of (mtime : float) (lines : list Line) : Archive :=
  Some [{| d_name := "x";
           d_sessions := Some (Some [{| f_name := "s1.jsonl"; f_mtimeMs := Some mtime;
                                        f_lines := Some lines |}]) |}].

Definition meta (file : string) : SessMeta :=
  {| sm_sessionFile := Some file; sm_displayName := JUndefined;
     sm_originLabel := JUndefined; sm_updatedAt := None |}.

(** [sessions.json] of one agent with the given keys, each with its own
    (missing) transcript. *)
Definition world_of (keys : list string) (transcripts : gmap string (option (list Line)))
    : TraceWorld :=
  {| w_dirs := Some [{| t_name := "x";
                        t_index := Some (Some ((λ k, (k, SessObj (meta (k +:+ ".jsonl")))) <$> keys)) |}];
     w_transcripts := transcripts;
     w_state := ∅ |}.

End AnalyzerSamples.

(* ===================================================================== *)
(** * Further properties of the analyzer: the notions they are stated with *)
(* ===================================================================== *)

Module AnalyzerMoreProps.
Import Analyzer AnalyzerProps.

Local Open Scope float_scope.

Section WithDate.
Context `{JsDate}.

(** The transcripts of an agent directory that a call reads: the files with
    a transcript name that are not skipped, each with its lines (none when
    the file cannot be read). *)
Definition dir_transcripts (cutoff : float) (d : AgentDir) : list (list Line) :=
  match d_sessions d with
  | Some (Some files) =>
      (λ f, default [] (f_lines f))
        <$> filter (λ f, skipped cutoff f = false)
              (filter (λ f, is_transcript_name (f_name f) = true) files)
  | _ => []
  end.

(** The transcripts that [getAnalytics] and [getTokenAnalytics] read. *)
Definition transcripts (cutoff : float) (agentFilter : string) (fs : Archive)
  : list (list Line) :=
  concat (dir_transcripts cutoff <$> agent_dirs agentFilter fs).

(** The messages with role [user] among the counted messages of a
    transcript. *)
Definition user_calls (cutoff : float) (lines : list Line) : nat :=
  length (filter (λ m, is_user m = true) (counted cutoff lines)).

(** The model ids that the [model_change] lines of a transcript name. *)
Definition named_models (lines : list Line) : list string :=
  omap (λ line, match line with Some (ModelChange (Some m)) => Some m | _ => None end) lines.

End WithDate.

(** The second pass of [getTraces] after the sessions of [seen]: no key
    twice among the roots or in a [children] list, every root and every
    child among [seen], and every child a sub-agent session of the record
    that holds it and no root. *)
Record placed_once (st : list (string * SessionRecord) * list string) (seen : list string)
    : Prop := {
  po_roots : NoDup st.2;
  po_roots_seen : ∀ x, x ∈ st.2 → x ∈ seen;
  po_children : ∀ p r, map_get p st.1 = Some r → NoDup (s_children r);
  po_children_seen : ∀ p r x, map_get p st.1 = Some r → x ∈ s_children r →
    x ∈ seen ∧ x ∉ st.2 ∧ parentKey x = Some p ∧ isMain x = false;
}.

End AnalyzerMoreProps.

Module AnalyzerMoreSamples.
Import Analyzer AnalyzerSamples.

Local Open Scope float_scope.

Definition user_message (ts : option Ts) : Line :=
  Some (MessageEntry ts
          (Some {| m_role := Some "user"; m_usage := None; m_timestamp := None |})).

(** A transcript with one question before the cutoff of [quarter_day] at
    [noon], a model change, and two questions after the cutoff with an
    answer in between. *)
Definition dialogue : list Line :=
  [user_message (Some (TsNum 3600000));
   Some (ModelChange (Some "anthropic/claude"));
   user_message (Some (TsNum 25200000));
   assistant 0.5 (Some (TsNum 28800000));
   user_message (Some (TsNum 32400000))].

(** Two agents with one transcript each. *)
Definition two_agents : Archive :=
  Some [{| d_name := "x";
           d_sessions := Some (Some [{| f_name := "s1.jsonl"; f_mtimeMs := Some noon;
                                        f_lines := Some dialogue |}]) |};
        {| d_name := "y";
           d_sessions := Some (Some [{| f_name := "s2.jsonl"; f_mtimeMs := Some noon;
                                        f_lines := Some sample_lines |}]) |}].

End AnalyzerMoreSamples.


(* ===================================================================== *)
(** * The list of sessions (server.mjs) *)
(* ===================================================================== *)

Module SessionList.
Import Js Analyzer.

Local Open Scope float_scope.

(** An element of the array that [getAllSessions] returns. *)
Record SessionEntry := {
  e_key : string;
  e_agentId : string;
  e_agentName : Json;
  e_agentEmoji : Json;
  e_sessionId : Json;
  e_displayName : Json;
  e_updatedAt : option float;
  e_sessionFile : string;
}.

(** The object pushed for the entry [key] of the index of [agentId];
    [sessionId] is [sess.sessionId]. *)
Definition session_entry (w : TraceWorld) (sessionId : Json) (agentId key file : string)
    (m : SessMeta) : SessionEntry :=
  let info := JObj (default [] (w_state w !! agentId)) in
  {| e_key := key;
     e_agentId := agentId;
     e_agentName := Js.or (Js.field info "name") (JStr agentId);
     e_agentEmoji := Js.or (Js.field info "emoji") (JStr "🤖");
     e_sessionId := sessionId;
     e_displayName :=
       Js.or (sm_displayName m)
         (Js.or (JStr (List.last (JsString.split ":" key) "")) (JStr key));
     e_updatedAt := sm_updatedAt m;
     e_sessionFile := file |}.

(** The loop over the entries of one [sessions.json]; it ends at the first
    entry whose value is [null], where reading [sess.sessionFile] throws, and
    what was pushed before stays. *)
Fixpoint list_entries (w : TraceWorld) (sessionId : string → string → Json) (agentId : string)
    (entries : list (string * SessVal)) (acc : list SessionEntry) : list SessionEntry :=
  match entries with
  | [] => acc
  | (key, SessNull) :: _ => acc
  | (key, SessPrim) :: rest => list_entries w sessionId agentId rest acc
  | (key, SessObj meta) :: rest =>
      match sm_sessionFile meta with
      | None => list_entries w sessionId agentId rest acc
      | Some file =>
          list_entries w sessionId agentId rest
            (acc ++ [session_entry w (sessionId agentId key) agentId key file meta])
      end
  end.

Definition list_dir (w : TraceWorld) (sessionId : string → string → Json)
    (acc : list SessionEntry) (d : IndexDir) : list SessionEntry :=
  match t_index d with
  | Some (Some entries) => list_entries w sessionId (t_name d) entries acc
  | _ => acc
  end.

(** [(b.updatedAt || 0) - (a.updatedAt || 0)] *)
Definition entry_recency (a b : SessionEntry) : float :=
  JsNum.or_zero (e_updatedAt b) - JsNum.or_zero (e_updatedAt a).

(** [Array.prototype.sort] with a comparator: a stable insertion sort. *)
Fixpoint insert_entry (cmp : SessionEntry → SessionEntry → float) (x : SessionEntry)
    (l : list SessionEntry) : list SessionEntry :=
  match l with
  | [] => [x]
  | y :: l' => if 0 <? cmp y x then x :: y :: l' else y :: insert_entry cmp x l'
  end.

Definition sort_entries (cmp : SessionEntry → SessionEntry → float) (l : list SessionEntry)
    : list SessionEntry :=
  foldl (λ acc x, insert_entry cmp x acc) [] l.

(** [getAllSessions()]; [sessionId agentId key] is the [sessionId] of the
    entry [key] in the index of [agentId]. A directory tree that cannot be
    listed gives the empty list. *)
Definition getAllSessions (sessionId : string → string → Json) (w : TraceWorld)
    : list SessionEntry :=
  sort_entries entry_recency (foldl (list_dir w sessionId) [] (default [] (w_dirs w))).

End SessionList.


(* ===================================================================== *)
(** * The dashboard server: sessions, the auth gate and the routes *)
(* ===================================================================== *)

Module Auth.

Local Open Scope float_scope.

(** ** Sessions *)

(** The parsed [auth.json] and the session tokens held in memory.
    [auth_password] is [String(AUTH.password)]; [auth_ttl] is
    [AUTH.sessionTtlHours], a number when it is present; [sessions] maps a
    token to [created], the clock reading when the session was made. *)
Record Server := {
  auth_password : string;
  auth_ttl : option float;
  sessions : gmap string float;
}.

(** [(AUTH.sessionTtlHours || 24)] *)
Definition ttl_hours (srv : Server) : float :=
  match auth_ttl srv with
  | Some h => if Js.num_truthy h then h else 24
  | None => 24
  end.

(** [createSession()]; [token] is [randomBytes(32).toString('hex')] and
    [now] the reading of [Date.now()]. *)
Definition createSession (token : string) (now : float) (srv : Server) : string * Server :=
  (token, srv <| sessions ::= insert token now |>).

(** [isValidSession(token)] *)
Definition isValidSession (token : string) (now : float) (srv : Server) : bool * Server :=
  match sessions srv !! token with
  | None => (false, srv)
  | Some created =>
      let maxAge := ttl_hours srv * 3600000 in
      if maxAge <? now - created
      then (false, srv <| sessions ::= delete token |>)
      else (true, srv)
  end.

(** ** Requests *)

(** What the server reads of a request: the method, [url.pathname] of the
    parsed URL and the two headers that may carry a session token (each
    [None] when the header is absent). *)
Record Request := {
  q_method : string;
  q_path : string;
  q_cookie : option string;
  q_authorization : option string;
}.

(** [[a-f0-9]] *)
Definition is_hex (c : ascii) : bool :=
  let n := N_of_ascii c in
  ((48 <=? n) && (n <=? 57) || (97 <=? n) && (n <=? 102))%N.

(** The longest run of [[a-f0-9]] at the start of a string. *)
Fixpoint hex_run (s : string) : string :=
  match s with
  | String c s' => if is_hex c then String c (hex_run s') else EmptyString
  | EmptyString => EmptyString
  end.

(** [cookies.match(/fmc_session=([a-f0-9]+)/)]: the capture of the leftmost
    match, [None] when there is no match. *)
Fixpoint match_session (s : string) : option string :=
  match s with
  | EmptyString => None
  | String _ s' =>
      if JsString.startsWith "fmc_session=" s then
        let h := hex_run (JsString.drop 12 s) in
        if decide (h = "") then match_session s' else Some h
      else match_session s'
  end.

(** [getSessionToken(req)] *)
Definition getSessionToken (req : Request) : option string :=
  match match_session (default "" (q_cookie req)) with
  | Some t => Some t
  | None =>
      let authHeader := default "" (q_authorization req) in
      if JsString.startsWith "Bearer " authHeader then Some (JsString.drop 7 authHeader)
      else None
  end.

(** [token && isValidSession(token)] *)
Definition session_ok (req : Request) (now : float) (srv : Server) : bool * Server :=
  match getSessionToken req with
  | Some token => if decide (token = "") then (false, srv) else isValidSession token now srv
  | None => (false, srv)
  end.

(** ** Responses *)

Inductive HeaderValue :=
  | HStr (s : string)
    (* [`fmc_session=${token}; Path=/; HttpOnly; SameSite=Strict; Max-Age=${maxAge}`] *)
  | HSessionCookie (token : string) (maxAge : float).

Inductive Body :=
  | BNone                     (* [res.end()] *)
  | BText (s : string)        (* [res.end(s)] *)
  | BJson (v : Json)          (* [res.end(JSON.stringify(v))] *)
  | BLoginPage.               (* [res.end(LOGIN_HTML)] *)

(** A response: the status and the headers of [writeHead] and the body of
    [end]. (The three CORS headers are set on every response before.) *)
Record Reply := {
  rp_status : N;
  rp_headers : list (string * HeaderValue);
  rp_body : Body;
}.

Definition json_reply (status : N) (v : Json) : Reply :=
  {| rp_status := status; rp_headers := [("Content-Type", HStr "application/json")];
     rp_body := BJson v |}.

(** [requireAuth(req, res)]: [None] when it returns [true], the response it
    has written when it returns [false]. *)
Definition requireAuth (req : Request) (now : float) (srv : Server) : option Reply * Server :=
  let '(ok, srv) := session_ok req now srv in
  if ok then (None, srv)
  else if decide (q_path req = "/login" ∨ q_path req = "/api/login") then (None, srv)
  else if JsString.startsWith "/api/" (q_path req) then
    (Some (json_reply 401 (JObj [("error", JStr "Unauthorized")])), srv)
  else
    (Some {| rp_status := 302; rp_headers := [("Location", HStr "/login")];
             rp_body := BNone |}, srv).

(** ** Routes *)

(** The routes behind the auth gate, and the login route whose code runs
    when the body of the request has been read. *)
Inductive Route :=
  | RLogin                              (* POST /api/login *)
  | RSnapshot                           (* /api/snapshot *)
  | RAgents                             (* /api/agents *)
  | RAgent (id : option string)         (* /api/agents/<id> *)
  | RCreateAgent                        (* POST /api/create-agent *)
  | RSecurityAudit                      (* GET /api/security-audit *)
  | RCrons                              (* GET /api/crons *)
  | RAnalytics                          (* GET /api/analytics *)
  | RTokens                             (* GET /api/tokens *)
  | RSessionTrace (key : option string) (* GET /api/session/<key>/trace *)
  | RTraces                             (* GET /api/traces *)
  | RSessions                           (* GET /api/sessions *)
  | RAgentDetail (id : option string)   (* GET /api/agents/<id>/detail *)
  | RAgentPage                          (* /agent/... *)
  | RAgentAction (id : option string)   (* POST /api/agents/<id>/action *)
  | RHost                               (* /api/host *)
  | RStream                             (* /api/stream *)
  | RStatic (filePath : string).        (* a file under the server directory *)

(** What the request listener does with a request: it answers at once, or
    it goes on with the code of a route. *)
Inductive Action :=
  | Respond (r : Reply)
  | Run (route : Route).

(** [path.split('/')[3]] *)
Definition segment3 (path : string) : option string := JsString.split "/" path !! 3%nat.

(** The routes below the auth gate, in the order the listener tries them. *)
Definition api_route (req : Request) : Route :=
  let path := q_path req in
  let meth := q_method req in
  let via m := bool_decide (meth = m) in
  let on p := bool_decide (path = p) in
  if on "/api/snapshot" then RSnapshot
  else if on "/api/agents" then RAgents
  else if JsString.startsWith "/api/agents/" path
          && bool_decide (length (JsString.split "/" path) = 4%nat) then RAgent (segment3 path)
  else if on "/api/create-agent" && via "POST" then RCreateAgent
  else if on "/api/security-audit" && via "GET" then RSecurityAudit
  else if on "/api/crons" && via "GET" then RCrons
  else if on "/api/analytics" && via "GET" then RAnalytics
  else if on "/api/tokens" && via "GET" then RTokens
  else if JsString.startsWith "/api/session/" path && JsString.endsWith "/trace" path
          && via "GET" then RSessionTrace (segment3 path)
  else if on "/api/traces" && via "GET" then RTraces
  else if on "/api/sessions" && via "GET" then RSessions
  else if JsString.startsWith "/api/agents/" path && JsString.endsWith "/detail" path
          && via "GET" then RAgentDetail (segment3 path)
  else if JsString.startsWith "/agent/" path then RAgentPage
  else if JsString.startsWith "/api/agents/" path && JsString.endsWith "/action" path
          && via "POST" then RAgentAction (segment3 path)
  else if on "/api/host" then RHost
  else if on "/api/stream" then RStream
  else RStatic (if on "/" then "/dashboard.html" else path).

(** The reply of [POST /api/logout]. *)
Definition logout_reply : Reply :=
  {| rp_status := 200;
     rp_headers := [("Content-Type", HStr "application/json");
                    ("Set-Cookie", HStr "fmc_session=; Path=/; HttpOnly; Max-Age=0")];
     rp_body := BJson (JObj [("ok", JBool true)]) |}.

(** The request listener up to the code of the routes. *)
Definition listener (req : Request) (now : float) (srv : Server) : Action * Server :=
  let path := q_path req in
  let meth := q_method req in
  if bool_decide (meth = "OPTIONS") then
    (Respond {| rp_status := 204; rp_headers := []; rp_body := BNone |}, srv)
  else if bool_decide (path = "/api/login") && bool_decide (meth = "POST") then
    (Run RLogin, srv)
  else if bool_decide (path = "/api/logout") && bool_decide (meth = "POST") then
    let srv := match getSessionToken req with
               | Some token =>
                   if decide (token = "") then srv else srv <| sessions ::= delete token |>
               | None => srv
               end in
    (Respond logout_reply, srv)
  else if bool_decide (path = "/login") then
    let '(ok, srv) := session_ok req now srv in
    if ok then
      (Respond {| rp_status := 302; rp_headers := [("Location", HStr "/")];
                  rp_body := BNone |}, srv)
    else
      (Respond {| rp_status := 200;
                  rp_headers := [("Content-Type", HStr "text/html; charset=utf-8")];
                  rp_body := BLoginPage |}, srv)
  else
    match requireAuth req now srv with
    | (Some r, srv) => (Respond r, srv)
    | (None, srv) => (Run (api_route req), srv)
    end.

(** The code of [POST /api/login] when the body has been read. [sent] is
    [String(password)] for the [password] of the parsed body, [None] when
    parsing or destructuring the body throws; [token] and [now] as in
    [createSession]. *)
Definition login (sent : option string) (token : string) (now : float) (srv : Server)
  : Reply * Server :=
  match sent with
  | None => (json_reply 400 (JObj [("ok", JBool false); ("error", JStr "Bad request")]), srv)
  | Some pw =>
      if decide (pw = auth_password srv) then
        let '(t, srv) := createSession token now srv in
        ({| rp_status := 200;
            rp_headers := [("Content-Type", HStr "application/json");
                           ("Set-Cookie", HSessionCookie t (ttl_hours srv * 3600))];
            rp_body := BJson (JObj [("ok", JBool true)]) |}, srv)
      else
        (json_reply 401 (JObj [("ok", JBool false); ("error", JStr "Wrong password")]), srv)
  end.

(** The [Cookie] header with which a browser returns the session cookie,
    alone or followed by other cookies. *)
Definition session_cookie (token rest : string) : string :=
  "fmc_session=" +:+ token +:+ rest.

End Auth.

Module AuthProps.
Import Auth.

Local Open Scope float_scope.

(** A string of characters [[a-f0-9]], such as [randomBytes(n).toString('hex')]. *)
Fixpoint all_hex (s : string) : bool :=
  match s with
  | EmptyString => true
  | String c s' => is_hex c && all_hex s'
  end.

(** A string that does not go on with a character [[a-f0-9]]. *)
Definition ends_token (rest : string) : Prop :=
  match rest with
  | EmptyString => True
  | String c _ => is_hex c = false
  end.

(** A string without the letter [f]. *)
Fixpoint no_f (s : string) : bool :=
  match s with
  | EmptyString => true
  | String c s' => negb (bool_decide (c = "f"%char)) && no_f s'
  end.

(** The routes that the listener answers without asking for a session. *)
Definition open_path (req : Request) : Prop :=
  q_path req = "/login" ∨
  (q_path req = "/api/login" ∧ q_method req = "POST") ∨
  (q_path req = "/api/logout" ∧ q_method req = "POST").

(** The age limit of a session in milliseconds. *)
Definition maxAge (srv : Server) : float := ttl_hours srv * 3600000.

(** [Date.now() - sess.created > maxAge] *)
Definition expired (srv : Server) (created now : float) : bool :=
  maxAge srv <? now - created.

End AuthProps.

Module AuthSamples.
Import Auth.

Local Open Scope float_scope.

Definition server : Server :=
  {| auth_password := "hunter2"; auth_ttl := Some 24; sessions := ∅ |}.

Definition token : string := "0123456789abcdef".

(** The server after a login at time 1000. *)
Definition logged_in : Server := (login (Some "hunter2") token 1000 server).2.

Definition get_snapshot : Request :=
  {| q_method := "GET"; q_path := "/api/snapshot";
     q_cookie := Some "theme=dark; fmc_session=0123456789abcdef; lang=en";
     q_authorization := None |}.

Definition post_logout : Request :=
  {| q_method := "POST"; q_path := "/api/logout";
     q_cookie := Some "fmc_session=0123456789abcdef";
     q_authorization := None |}.

End AuthSamples.


(* ===================================================================== *)
(** * Further properties of the collector: the notions they are stated with *)
(* ===================================================================== *)

Module CollectorMoreProps.
Import Js Collector CollectorProps CollectorRun.

(** The timeout timer of a request: [setTimeout(..., 10000)] in [_call]. *)
Definition request_timer (reqId : string) : Timer :=
  {| timer_action := TRequestTimeout reqId; timer_delay := 10000 |}.


(** The frame that [_call] sends. *)
Definition request_frame (reqId method : string) (params : Json) : Json :=
  JObj [("type", JStr "req"); ("id", JStr reqId); ("method", JStr method);
        ("params", Js.or params (JObj []))].

(** The bookkeeping of requests: the ids in use are the decimals of the
    numbers counted so far, a request that waits for its answer is not
    settled, and an armed timeout timer is the one its request remembers. *)
Record requests_ok (st : State) : Prop := {
  ro_ids : ∀ id, is_Some (pending st !! id) ∨ is_Some (resolved st !! id) →
                 ∃ n, id = pretty n ∧ (1 ≤ n ≤ reqCounter st)%N;
  ro_waiting : ∀ id, is_Some (pending st !! id) → resolved st !! id = None;
  ro_timers : ∀ t id d,
      timers st !! t = Some {| timer_action := TRequestTimeout id; timer_delay := d |} →
      ∃ p, pending st !! id = Some p ∧ pend_timer p = t;
}.

(** A turn that leaves the bookkeeping of requests alone and arms no timeout
    timer. *)
Record calm (st st' : State) : Prop := {
  cm_pending : pending st' = pending st;
  cm_resolved : resolved st' = resolved st;
  cm_counter : reqCounter st' = reqCounter st;
  cm_timers : ∀ t id d,
      timers st' !! t = Some {| timer_action := TRequestTimeout id; timer_delay := d |} →
      timers st !! t = Some {| timer_action := TRequestTimeout id; timer_delay := d |};
}.



(** A gateway object that nothing has connected yet. *)
Definition idle (gw : Gateway) : Prop :=
  gw_ws gw = None ∧ gw_state gw = Disconnected ∧ gw_reconnectTimer gw = None.

(** The connection of a gateway object: everything but the agents listed on
    it and the raw poll data. *)
Definition link_of (gw : Gateway)
  : string * string * N * string * option nat * GwState * option nat :=
  (gw_key gw, gw_host gw, gw_port gw, gw_token gw, gw_ws gw, gw_state gw,
   gw_reconnectTimer gw).

(** What [_connect] leaves on a gateway that nothing had connected before,
    by the outcome [c] of [new WebSocket(url)]. When the socket was
    constructed ([None]) the gateway is [connecting] and holds it, a socket
    for the URL of the gateway that is connecting, and no reconnect timer is
    set; when the constructor threw ([Some m]) the gateway holds no socket,
    is still [disconnected], and its reconnect timer of 10000 ms is armed. *)
Definition connected_as (c : option Json) (gwKey : string) (st : State) : Prop :=
  ∃ r gw, gw_get gwKey st = Some (r, gw) ∧
    match c with
    | None =>
        gw_state gw = Connecting ∧ gw_reconnectTimer gw = None ∧
        ∃ s k, gw_ws gw = Some s ∧ sockets st !! s = Some k ∧
               sock_readyState k = CONNECTING ∧
               sock_url k = "ws://" +:+ gw_host gw +:+ ":" +:+ pretty (gw_port gw)
    | Some m =>
        gw_state gw = Disconnected ∧ gw_ws gw = None ∧
        ∃ t, gw_reconnectTimer gw = Some t ∧ timers st !! t = Some (reconnect_timer gwKey)
    end.

(** Socket and timer numbers in use lie below the next ones to be given out. *)
Definition stores_fresh (st : State) : Prop :=
  (∀ s, is_Some (sockets st !! s) → (s < nextSock st)%nat) ∧
  (∀ t, is_Some (timers st !! t) → (t < nextTimer st)%nat).

(** The event that [loadConfig] emits for an agent that left the
    configuration. *)
Definition removed_event (id : string) : string * Json :=
  ("update", JObj [("id", JStr id); ("state", JNull); ("removed", JBool true)]).

(** A turn that gives out socket and timer numbers in order. *)
Record tidy (st st' : State) : Prop := {
  td_nextSock : (nextSock st ≤ nextSock st')%nat;
  td_nextTimer : (nextTimer st ≤ nextTimer st')%nat;
  td_sockets : ∀ s, is_Some (sockets st' !! s) →
                    is_Some (sockets st !! s) ∨ (nextSock st ≤ s < nextSock st')%nat;
  td_timers : ∀ t, is_Some (timers st' !! t) →
                   is_Some (timers st !! t) ∨ (nextTimer st ≤ t < nextTimer st')%nat;
}.

End CollectorMoreProps.

Module MoreSamples.
Import Js Collector CollectorProps CollectorRun Samples.

(** A request issued on the connected gateway of [online]. *)
Definition asked : State := (call key_alice "health" (JObj []) online).2.

(** The answer to request 2. *)
Definition answer : Json :=
  JObj [("type", JStr "res"); ("id", JStr "2"); ("ok", JBool true);
        ("payload", JObj [("agents", JArr [])])].

(** A failed response to request 2. *)
Definition refusal : Json :=
  JObj [("type", JStr "res"); ("id", JStr "2"); ("ok", JBool false);
        ("error", JObj [("message", JStr "denied")])].

(** The configuration of [two_tokens] after bob has left and carol, on a
    gateway of her own, has joined. *)
Definition carol_joins : Config :=
  {| cfg_agents := [agent "alice" "abcdefgh-alice";
                    (agent "carol" "carol-token") <| agent_port := 18790%N |>] |}.


(** A collector started on [two_tokens], every socket constructed, no host
    metrics read. *)
Definition running : Runner :=
  default new_runner
    (start (Some two_tokens) JUndefined JUndefined (λ _, None) None new_runner).

(** The same start on a host whose metrics can be read. *)
Definition measured : Runner :=
  default new_runner
    (start (Some two_tokens) JUndefined JUndefined (λ _, None) (Some (JObj [("ts", JNum 1)]))
       new_runner).

(** Carol, on a gateway of her own, listed before alice. *)
Definition carol : AgentCfg := (agent "carol" "carol-token") <| agent_port := 18790%N |>.

Definition key_carol : string := gwKey_of carol.

Definition carol_first : Config :=
  {| cfg_agents := [carol; agent "alice" "abcdefgh-alice"] |}.

(** A constructor that throws for the gateway of alice only. *)
Definition alice_refused (gwKey : string) : option Json :=
  if decide (gwKey = key_alice) then Some (JStr "ECONNREFUSED") else None.

(** The same start when no socket can be constructed. *)
Definition refused : Runner :=
  default new_runner
    (start (Some two_tokens) JUndefined JUndefined (λ _, Some (JStr "ECONNREFUSED")) None
       new_runner).

End MoreSamples.


(* ===================================================================== *)
(** * Facts about strings and values *)
(* ===================================================================== *)

Module JsStringFacts.
Import JsString.

Lemma append_cons a (p r : string) : String a p +:+ r = String a (p +:+ r).
Proof. reflexivity. Qed.

Lemma append_nil (r : string) : "" +:+ r = r.
Proof. reflexivity. Qed.

Lemma startsWith_spec p s : startsWith p s = true ↔ ∃ r, s = p +:+ r.
Proof.
  revert s. induction p as [|a p IH]; intros s; simpl.
  - split; [intros _; by exists s | done].
  - destruct s as [|b s]; [split; [done | by intros [r ?]]|].
    case_decide as Hab.
    + subst b. rewrite IH.
      split; intros [r Hr]; exists r; rewrite append_cons in *; congruence.
    + split; [done | intros [r Hr]; rewrite append_cons in Hr; congruence].
Qed.

Lemma startsWith_app p r : startsWith p (p +:+ r) = true.
Proof. apply startsWith_spec. by exists r. Qed.

Lemma app_assoc_s (a b c : string) : (a +:+ b) +:+ c = a +:+ (b +:+ c).
Proof. induction a; rewrite ?append_cons, ?append_nil; congruence. Qed.

Lemma app_inv_head_s (a b c : string) : a +:+ b = a +:+ c → b = c.
Proof.
  induction a; rewrite ?append_cons, ?append_nil; [done | intros [= ?]; auto].
Qed.

(** Two prefixes of one string are comparable. *)
Lemma startsWith_comparable p q s :
  startsWith p s = true → startsWith q s = true →
  startsWith p q = true ∨ startsWith q p = true.
Proof.
  revert q s. induction p as [|a p IH]; intros q s; [by left|].
  destruct q as [|b q]; [by right|].
  destruct s as [|c s]; simpl; [done|].
  repeat case_decide; subst; try done; try congruence.
  apply IH.
Qed.

End JsStringFacts.

Module JsFacts.
Import Js.

Lemma assoc_set k v l k' :
  assoc k' (set k v l) = if decide (k' = k) then Some v else assoc k' l.
Proof.
  induction l as [|[k0 v0] l IH]; simpl.
  - repeat case_decide; congruence.
  - destruct (decide (k = k0)) as [->|Hne]; simpl.
    + repeat case_decide; congruence.
    + rewrite IH. repeat case_decide; congruence.
Qed.

Lemma assoc_merge a b k :
  assoc k (merge a b) =
    match assoc k (reverse b) with Some v => Some v | None => assoc k a end.
Proof.
  unfold merge. revert a. induction b as [|[k0 v0] b IH] using rev_ind; intros a.
  - done.
  - rewrite foldl_app, reverse_app. simpl.
    rewrite assoc_set, IH. by case_decide.
Qed.

Lemma assoc_reverse_none k (b : list (string * Json)) :
  assoc k b = None → assoc k (reverse b) = None.
Proof.
  induction b as [|[k0 v0] b IH]; [done|]. simpl.
  case_decide; [done|]. intros Hb. rewrite reverse_cons.
  specialize (IH Hb). revert IH. generalize (reverse b). intros l.
  induction l as [|[k1 v1] l IHl]; simpl.
  - intros _. by case_decide.
  - case_decide; [done | auto].
Qed.

End JsFacts.

(* ===================================================================== *)
(** * Facts about the collector *)
(* ===================================================================== *)

Module CollectorFacts.
Import Js Collector CollectorProps Samples.

(** ** How the operations act on each field *)

Create Rewrite HintDb proj.

Lemma emit_agents name payload st :
  agents (emit name payload st) = agents st.
Proof. unfold emit. repeat case_match; reflexivity. Qed.

Lemma emit_gateways name payload st :
  gateways (emit name payload st) = gateways st.
Proof. unfold emit. repeat case_match; reflexivity. Qed.

Lemma emit_agentGateway name payload st :
  agentGateway (emit name payload st) = agentGateway st.
Proof. unfold emit. repeat case_match; reflexivity. Qed.

Lemma emit_state name payload st :
  state (emit name payload st) = state st.
Proof. unfold emit. repeat case_match; reflexivity. Qed.

Lemma emit_gwHeap name payload st :
  gwHeap (emit name payload st) = gwHeap st.
Proof. unfold emit. repeat case_match; reflexivity. Qed.

Lemma emit_nextGw name payload st :
  nextGw (emit name payload st) = nextGw st.
Proof. unfold emit. repeat case_match; reflexivity. Qed.

Lemma emit_timers name payload st :
  timers (emit name payload st) = timers st.
Proof. unfold emit. repeat case_match; reflexivity. Qed.

#[local] Hint Rewrite emit_agents emit_gateways emit_agentGateway emit_state emit_gwHeap emit_nextGw emit_timers : proj.

Lemma clearTimeout_agents t st :
  agents (clearTimeout t st) = agents st.
Proof. unfold clearTimeout. repeat case_match; reflexivity. Qed.

Lemma clearTimeout_gateways t st :
  gateways (clearTimeout t st) = gateways st.
Proof. unfold clearTimeout. repeat case_match; reflexivity. Qed.

Lemma clearTimeout_agentGateway t st :
  agentGateway (clearTimeout t st) = agentGateway st.
Proof. unfold clearTimeout. repeat case_match; reflexivity. Qed.

Lemma clearTimeout_state t st :
  state (clearTimeout t st) = state st.
Proof. unfold clearTimeout. repeat case_match; reflexivity. Qed.

Lemma clearTimeout_gwHeap t st :
  gwHeap (clearTimeout t st) = gwHeap st.
Proof. unfold clearTimeout. repeat case_match; reflexivity. Qed.

Lemma clearTimeout_nextGw t st :
  nextGw (clearTimeout t st) = nextGw st.
Proof. unfold clearTimeout. repeat case_match; reflexivity. Qed.

Lemma clearTimeout_timers t st :
  timers (clearTimeout t st) = delete t (timers st).
Proof. unfold clearTimeout. repeat case_match; reflexivity. Qed.

#[local] Hint Rewrite clearTimeout_agents clearTimeout_gateways clearTimeout_agentGateway clearTimeout_state clearTimeout_gwHeap clearTimeout_nextGw clearTimeout_timers : proj.

Lemma ws_close_agents s st :
  agents (ws_close s st) = agents st.
Proof. unfold ws_close. repeat case_match; reflexivity. Qed.

Lemma ws_close_gateways s st :
  gateways (ws_close s st) = gateways st.
Proof. unfold ws_close. repeat case_match; reflexivity. Qed.

Lemma ws_close_agentGateway s st :
  agentGateway (ws_close s st) = agentGateway st.
Proof. unfold ws_close. repeat case_match; reflexivity. Qed.

Lemma ws_close_state s st :
  state (ws_close s st) = state st.
Proof. unfold ws_close. repeat case_match; reflexivity. Qed.

Lemma ws_close_gwHeap s st :
  gwHeap (ws_close s st) = gwHeap st.
Proof. unfold ws_close. repeat case_match; reflexivity. Qed.

Lemma ws_close_nextGw s st :
  nextGw (ws_close s st) = nextGw st.
Proof. unfold ws_close. repeat case_match; reflexivity. Qed.

Lemma ws_close_timers s st :
  timers (ws_close s st) = timers st.
Proof. unfold ws_close. repeat case_match; reflexivity. Qed.

#[local] Hint Rewrite ws_close_agents ws_close_gateways ws_close_agentGateway ws_close_state ws_close_gwHeap ws_close_nextGw ws_close_timers : proj.

Lemma resolve_agents reqId v st :
  agents (resolve reqId v st) = agents st.
Proof. unfold resolve. repeat case_match; reflexivity. Qed.

Lemma resolve_gateways reqId v st :
  gateways (resolve reqId v st) = gateways st.
Proof. unfold resolve. repeat case_match; reflexivity. Qed.

Lemma resolve_agentGateway reqId v st :
  agentGateway (resolve reqId v st) = agentGateway st.
Proof. unfold resolve. repeat case_match; reflexivity. Qed.

Lemma resolve_state reqId v st :
  state (resolve reqId v st) = state st.
Proof. unfold resolve. repeat case_match; reflexivity. Qed.

Lemma resolve_gwHeap reqId v st :
  gwHeap (resolve reqId v st) = gwHeap st.
Proof. unfold resolve. repeat case_match; reflexivity. Qed.

Lemma resolve_nextGw reqId v st :
  nextGw (resolve reqId v st) = nextGw st.
Proof. unfold resolve. repeat case_match; reflexivity. Qed.

Lemma resolve_timers reqId v st :
  timers (resolve reqId v st) = timers st.
Proof. unfold resolve. repeat case_match; reflexivity. Qed.

#[local] Hint Rewrite resolve_agents resolve_gateways resolve_agentGateway resolve_state resolve_gwHeap resolve_nextGw resolve_timers : proj.

Lemma register_agent_agents a st :
  agents (register_agent a st) = <[agent_id a := a]> (agents st).
Proof. unfold register_agent. repeat case_match; reflexivity. Qed.

Lemma register_agent_gateways a st :
  gateways (register_agent a st) = gateways st.
Proof. unfold register_agent. repeat case_match; reflexivity. Qed.

Lemma register_agent_agentGateway a st :
  agentGateway (register_agent a st) = <[agent_id a := gwKey_of a]> (agentGateway st).
Proof. unfold register_agent. repeat case_match; reflexivity. Qed.

Lemma register_agent_state a st :
  state (register_agent a st) = state st.
Proof. unfold register_agent. repeat case_match; reflexivity. Qed.

Lemma register_agent_gwHeap a st :
  gwHeap (register_agent a st) = gwHeap st.
Proof. unfold register_agent. repeat case_match; reflexivity. Qed.

Lemma register_agent_nextGw a st :
  nextGw (register_agent a st) = nextGw st.
Proof. unfold register_agent. repeat case_match; reflexivity. Qed.

Lemma register_agent_timers a st :
  timers (register_agent a st) = timers st.
Proof. unfold register_agent. repeat case_match; reflexivity. Qed.

#[local] Hint Rewrite register_agent_agents register_agent_gateways register_agent_agentGateway register_agent_state register_agent_gwHeap register_agent_nextGw register_agent_timers : proj.

Lemma ensure_gateway_agents a st :
  agents (ensure_gateway a st) = agents st.
Proof. unfold ensure_gateway. repeat case_match; reflexivity. Qed.

Lemma ensure_gateway_gateways a st :
  gateways (ensure_gateway a st) = match gateways st !! gwKey_of a with Some _ => gateways st | None => <[gwKey_of a := nextGw st]> (gateways st) end.
Proof. unfold ensure_gateway. repeat case_match; reflexivity. Qed.

Lemma ensure_gateway_agentGateway a st :
  agentGateway (ensure_gateway a st) = agentGateway st.
Proof. unfold ensure_gateway. repeat case_match; reflexivity. Qed.

Lemma ensure_gateway_state a st :
  state (ensure_gateway a st) = state st.
Proof. unfold ensure_gateway. repeat case_match; reflexivity. Qed.

Lemma ensure_gateway_gwHeap a st :
  gwHeap (ensure_gateway a st) = match gateways st !! gwKey_of a with Some _ => gwHeap st | None => <[nextGw st := fresh_gateway (gwKey_of a) a]> (gwHeap st) end.
Proof. unfold ensure_gateway. repeat case_match; reflexivity. Qed.

Lemma ensure_gateway_nextGw a st :
  nextGw (ensure_gateway a st) = match gateways st !! gwKey_of a with Some _ => nextGw st | None => S (nextGw st) end.
Proof. unfold ensure_gateway. repeat case_match; reflexivity. Qed.

Lemma ensure_gateway_timers a st :
  timers (ensure_gateway a st) = timers st.
Proof. unfold ensure_gateway. repeat case_match; reflexivity. Qed.

#[local] Hint Rewrite ensure_gateway_agents ensure_gateway_gateways ensure_gateway_agentGateway ensure_gateway_state ensure_gateway_gwHeap ensure_gateway_nextGw ensure_gateway_timers : proj.

Lemma list_agent_agents a st :
  agents (list_agent a st) = agents st.
Proof. unfold list_agent. repeat case_match; reflexivity. Qed.

Lemma list_agent_gateways a st :
  gateways (list_agent a st) = gateways st.
Proof. unfold list_agent. repeat case_match; reflexivity. Qed.

Lemma list_agent_agentGateway a st :
  agentGateway (list_agent a st) = agentGateway st.
Proof. unfold list_agent. repeat case_match; reflexivity. Qed.

Lemma list_agent_state a st :
  state (list_agent a st) = state st.
Proof. unfold list_agent. repeat case_match; reflexivity. Qed.

Lemma list_agent_gwHeap a st :
  gwHeap (list_agent a st) = match gateways st !! gwKey_of a with Some r => alter (push_agent a) r (gwHeap st) | None => gwHeap st end.
Proof. unfold list_agent. repeat case_match; reflexivity. Qed.

Lemma list_agent_nextGw a st :
  nextGw (list_agent a st) = nextGw st.
Proof. unfold list_agent. repeat case_match; reflexivity. Qed.

Lemma list_agent_timers a st :
  timers (list_agent a st) = timers st.
Proof. unfold list_agent. repeat case_match; reflexivity. Qed.

#[local] Hint Rewrite list_agent_agents list_agent_gateways list_agent_agentGateway list_agent_state list_agent_gwHeap list_agent_nextGw list_agent_timers : proj.

Lemma ensure_record_agents a st :
  agents (ensure_record a st) = agents st.
Proof. unfold ensure_record. repeat case_match; reflexivity. Qed.

Lemma ensure_record_gateways a st :
  gateways (ensure_record a st) = gateways st.
Proof. unfold ensure_record. repeat case_match; reflexivity. Qed.

Lemma ensure_record_agentGateway a st :
  agentGateway (ensure_record a st) = agentGateway st.
Proof. unfold ensure_record. repeat case_match; reflexivity. Qed.

Lemma ensure_record_state a st :
  state (ensure_record a st) = match state st !! agent_id a with Some _ => state st | None => <[agent_id a := fresh_state a]> (state st) end.
Proof. unfold ensure_record. repeat case_match; reflexivity. Qed.

Lemma ensure_record_gwHeap a st :
  gwHeap (ensure_record a st) = gwHeap st.
Proof. unfold ensure_record. repeat case_match; reflexivity. Qed.

Lemma ensure_record_nextGw a st :
  nextGw (ensure_record a st) = nextGw st.
Proof. unfold ensure_record. repeat case_match; reflexivity. Qed.

Lemma ensure_record_timers a st :
  timers (ensure_record a st) = timers st.
Proof. unfold ensure_record. repeat case_match; reflexivity. Qed.

#[local] Hint Rewrite ensure_record_agents ensure_record_gateways ensure_record_agentGateway ensure_record_state ensure_record_gwHeap ensure_record_nextGw ensure_record_timers : proj.

(** ** Pruning *)

Lemma prune_fold_state ids L st k :
  state (foldl (prune_one ids) st L) !! k =
    if decide (k ∈ L ∧ k ∉ ids) then None else state st !! k.
Proof.
  revert st. induction L as [|x L IH]; intros st.
  - simpl foldl. case_decide as H; [destruct H as [H _]; by apply elem_of_nil in H | done].
  - simpl foldl. rewrite IH. unfold prune_one. destruct (decide (x ∈ ids)) as [Hx|Hx]; simpl.
    + repeat case_decide; try done; set_solver.
    + destruct (decide (k = x)) as [->|Hne].
      * rewrite lookup_delete_eq. repeat case_decide; try done; set_solver.
      * rewrite lookup_delete_ne by done. repeat case_decide; try done; set_solver.
Qed.

Lemma prune_fold_agents ids L st k :
  agents (foldl (prune_one ids) st L) !! k =
    if decide (k ∈ L ∧ k ∉ ids) then None else agents st !! k.
Proof.
  revert st. induction L as [|x L IH]; intros st.
  - simpl foldl. case_decide as H; [destruct H as [H _]; by apply elem_of_nil in H | done].
  - simpl foldl. rewrite IH. unfold prune_one. destruct (decide (x ∈ ids)) as [Hx|Hx]; simpl.
    + repeat case_decide; try done; set_solver.
    + destruct (decide (k = x)) as [->|Hne].
      * rewrite lookup_delete_eq. repeat case_decide; try done; set_solver.
      * rewrite lookup_delete_ne by done. repeat case_decide; try done; set_solver.
Qed.

Lemma agent_keys_spec st k :
  k ∈ (map_to_list (agents st)).*1 ↔ k ∈ dom (agents st).
Proof.
  rewrite elem_of_dom, list_elem_of_fmap. split.
  - intros [[k' a] [-> H]]. apply elem_of_map_to_list in H. by exists a.
  - intros [a H]. exists (k, a). split; [done|]. by apply elem_of_map_to_list.
Qed.

Lemma prune_state ids st k :
  state (prune ids st) !! k =
    if decide (k ∈ dom (agents st) ∧ k ∉ ids) then None else state st !! k.
Proof.
  unfold prune. rewrite prune_fold_state.
  repeat case_decide; try done; rewrite agent_keys_spec in *; tauto.
Qed.

Lemma prune_agents ids st k :
  agents (prune ids st) !! k = if decide (k ∈ ids) then agents st !! k else None.
Proof.
  unfold prune. rewrite prune_fold_agents.
  repeat case_decide; try done; rewrite agent_keys_spec, elem_of_dom in *.
  - tauto.
  - destruct (agents st !! k) eqn:E; [|done]. exfalso. eauto.
Qed.

Lemma clear_fold_eq L st :
  foldl (λ s (kr : string * nat), s <| gwHeap ::= alter clear_agents kr.2 |>) st L
  = st <| gwHeap ::= (λ h, foldl (λ h (kr : string * nat), alter clear_agents kr.2 h) h L) |>.
Proof.
  revert st. induction L as [|x L IH]; intros st; simpl foldl.
  - by destruct st.
  - rewrite IH. by destruct st.
Qed.

Lemma clear_heap_fold_lookup (L : list (string * nat)) (h : gmap nat Gateway) r :
  foldl (λ h (kr : string * nat), alter clear_agents kr.2 h) h L !! r =
    (if decide (r ∈ L.*2) then clear_agents else Datatypes.id) <$> h !! r.
Proof.
  revert h. induction L as [|[k x] L IH]; intros h; simpl foldl.
  - simpl. by destruct (h !! r).
  - rewrite IH. simpl. destruct (decide (r = x)) as [->|Hne].
    + rewrite lookup_alter_eq. destruct (h !! x) as [g|]; simpl; [|done].
      repeat case_decide; try done; set_solver.
    + rewrite lookup_alter_ne by done.
      repeat case_decide; try done; set_solver.
Qed.

Lemma clear_agent_lists_eq st :
  clear_agent_lists st =
    st <| gwHeap ::= (λ h, foldl (λ h (kr : string * nat), alter clear_agents kr.2 h) h
                            (map_to_list (gateways st))) |>.
Proof. apply clear_fold_eq. Qed.

Lemma gateway_refs_spec st r :
  r ∈ (map_to_list (gateways st)).*2 ↔ ∃ k, gateways st !! k = Some r.
Proof.
  rewrite list_elem_of_fmap. split.
  - intros [[k r'] [-> H]]. apply elem_of_map_to_list in H. by exists k.
  - intros [k H]. exists (k, r). split; [done|]. by apply elem_of_map_to_list.
Qed.

Lemma clear_heap_listed st k r :
  gateways st !! k = Some r →
  gwHeap (clear_agent_lists st) !! r = clear_agents <$> gwHeap st !! r.
Proof.
  intros H. rewrite clear_agent_lists_eq. simpl. rewrite clear_heap_fold_lookup.
  rewrite decide_True; [done|]. apply gateway_refs_spec. eauto.
Qed.

Lemma clear_heap_unlisted st r :
  (∀ k, gateways st !! k ≠ Some r) →
  gwHeap (clear_agent_lists st) !! r = gwHeap st !! r.
Proof.
  intros H. rewrite clear_agent_lists_eq. simpl. rewrite clear_heap_fold_lookup.
  rewrite decide_False; [by rewrite option_fmap_id|].
  rewrite gateway_refs_spec. intros [k Hk]. by eapply H.
Qed.

(** ** The loop over the configured agents *)

Lemma add_agent_state st a :
  state (add_agent st a) =
    match state st !! agent_id a with
    | Some _ => state st
    | None => <[agent_id a := fresh_state a]> (state st)
    end.
Proof. unfold add_agent. by autorewrite with proj. Qed.

Lemma add_agent_agents st a : agents (add_agent st a) = <[agent_id a := a]> (agents st).
Proof. unfold add_agent. by autorewrite with proj. Qed.

Lemma add_agent_agentGateway st a :
  agentGateway (add_agent st a) = <[agent_id a := gwKey_of a]> (agentGateway st).
Proof. unfold add_agent. by autorewrite with proj. Qed.

Lemma add_agent_timers st a : timers (add_agent st a) = timers st.
Proof. unfold add_agent. by autorewrite with proj. Qed.

Lemma add_agent_gateways st a :
  gateways (add_agent st a) =
    match gateways st !! gwKey_of a with
    | Some _ => gateways st
    | None => <[gwKey_of a := nextGw st]> (gateways st)
    end.
Proof. unfold add_agent. by autorewrite with proj. Qed.

Lemma add_agent_nextGw st a :
  nextGw (add_agent st a) =
    match gateways st !! gwKey_of a with
    | Some _ => nextGw st
    | None => S (nextGw st)
    end.
Proof. unfold add_agent. by autorewrite with proj. Qed.

Lemma add_agent_gwHeap st a :
  gwHeap (add_agent st a) =
    match gateways st !! gwKey_of a with
    | Some r => alter (push_agent a) r (gwHeap st)
    | None => <[nextGw st := push_agent a (fresh_gateway (gwKey_of a) a)]> (gwHeap st)
    end.
Proof.
  unfold add_agent. autorewrite with proj.
  destruct (gateways st !! gwKey_of a) eqn:E; [by rewrite E|].
  by rewrite lookup_insert_eq, alter_insert_eq.
Qed.

Lemma listed_snoc_eq k seen a : gwKey_of a = k → listed k (seen ++ [a]) = listed k seen ++ [a].
Proof. intros H. unfold listed. rewrite filter_app, filter_cons_True by done. done. Qed.

Lemma listed_snoc_ne k seen a : gwKey_of a ≠ k → listed k (seen ++ [a]) = listed k seen.
Proof.
  intros H. unfold listed. rewrite filter_app, filter_cons_False by done.
  by rewrite filter_nil, app_nil_r.
Qed.

Lemma listed_nil_iff k l : listed k l = [] ↔ k ∉ gwKey_of <$> l.
Proof.
  unfold listed. induction l as [|a l IH]; simpl.
  - split; [intros _; apply not_elem_of_nil | done].
  - rewrite not_elem_of_cons. destruct (decide (gwKey_of a = k)) as [E|E].
    + rewrite filter_cons_True by done. split; [done | intros [? _]; congruence].
    + rewrite filter_cons_False by done. rewrite IH. split; [by split | tauto].
Qed.

Lemma loop_inv_step seen st a :
  loop_inv seen st → loop_inv (seen ++ [a]) (add_agent st a).
Proof.
  intros ((Halloc & Hnext & Hinj) & Hlist & Hseen).
  unfold loop_inv, gw_wf.
  rewrite add_agent_gateways, add_agent_gwHeap, add_agent_nextGw.
  destruct (gateways st !! gwKey_of a) as [r0|] eqn:E.
  - (* the gateway exists *)
    destruct (Halloc _ _ E) as [g0 Hg0].
    repeat split.
    + intros k r Hk. destruct (decide (r = r0)) as [->|Hne].
      * rewrite lookup_alter_eq, Hg0. eauto.
      * rewrite lookup_alter_ne by done. eauto.
    + intros r [g Hr]. apply Hnext. destruct (decide (r = r0)) as [->|Hne]; [eauto|].
      rewrite lookup_alter_ne in Hr by done. eauto.
    + done.
    + intros k r gw Hk Hr. destruct (decide (r = r0)) as [->|Hne].
      * rewrite lookup_alter_eq, Hg0 in Hr. simplify_eq/=.
        assert (k = gwKey_of a) as -> by eauto.
        rewrite listed_snoc_eq by done. f_equal. eauto.
      * rewrite lookup_alter_ne in Hr by done.
        rewrite listed_snoc_ne; [eauto|]. intros <-. congruence.
    + intros b [Hb| ->%list_elem_of_singleton]%elem_of_app; [eauto|by rewrite E].
  - (* a new gateway object is allocated *)
    assert (gwHeap st !! nextGw st = None) as Hfresh.
    { destruct (gwHeap st !! nextGw st) eqn:F; [|done].
      assert (nextGw st < nextGw st) by eauto. lia. }
    repeat split.
    + intros k r Hk. destruct (decide (k = gwKey_of a)) as [->|Hne].
      * rewrite lookup_insert_eq in Hk. simplify_eq. rewrite lookup_insert_eq. eauto.
      * rewrite lookup_insert_ne in Hk by done.
        destruct (Halloc _ _ Hk) as [g Hg].
        rewrite lookup_insert_ne; [eauto|]. intros <-. congruence.
    + intros r [g Hr]. destruct (decide (r = nextGw st)) as [->|Hne]; [lia|].
      rewrite lookup_insert_ne in Hr by done. assert (r < nextGw st) by eauto. lia.
    + intros k1 k2 r H1 H2.
      destruct (decide (k1 = gwKey_of a)) as [->|N1];
        destruct (decide (k2 = gwKey_of a)) as [->|N2]; [done| | |].
      * rewrite lookup_insert_eq in H1. rewrite lookup_insert_ne in H2 by done.
        simplify_eq. destruct (Halloc _ _ H2) as [? ?]. congruence.
      * rewrite lookup_insert_eq in H2. rewrite lookup_insert_ne in H1 by done.
        simplify_eq. destruct (Halloc _ _ H1) as [? ?]. congruence.
      * rewrite lookup_insert_ne in H1, H2 by done. eauto.
    + intros k r gw Hk Hr. destruct (decide (k = gwKey_of a)) as [->|Hne].
      * rewrite lookup_insert_eq in Hk. simplify_eq. rewrite lookup_insert_eq in Hr.
        simplify_eq/=. rewrite listed_snoc_eq by done.
        replace (listed (gwKey_of a) seen) with (@nil AgentCfg); [done|].
        symmetry. apply listed_nil_iff. intros (b & Hb & Hin)%list_elem_of_fmap.
        destruct (Hseen _ Hin) as [? ?]. congruence.
      * rewrite lookup_insert_ne in Hk by done.
        destruct (Halloc _ _ Hk) as [g Hg].
        rewrite lookup_insert_ne in Hr by (intros <-; congruence).
        rewrite listed_snoc_ne by done. eauto.
    + intros b [Hb| ->%list_elem_of_singleton]%elem_of_app.
      * destruct (decide (gwKey_of b = gwKey_of a)) as [->|Hne];
          [by rewrite lookup_insert_eq | rewrite lookup_insert_ne by done; eauto].
      * by rewrite lookup_insert_eq.
Qed.

Lemma add_agent_unlisted st a :
  gw_wf st → unlisted_empty st → unlisted_empty (add_agent st a).
Proof.
  intros (Halloc & Hnext & Hinj) Hun. unfold unlisted_empty.
  rewrite add_agent_gateways, add_agent_gwHeap.
  destruct (gateways st !! gwKey_of a) as [r0|] eqn:E.
  - intros r gw Hr Hno. destruct (decide (r = r0)) as [->|Hne].
    + exfalso. by eapply Hno.
    + rewrite lookup_alter_ne in Hr by done. eauto.
  - intros r gw Hr Hno. destruct (decide (r = nextGw st)) as [->|Hne].
    + exfalso. eapply (Hno (gwKey_of a)). by rewrite lookup_insert_eq.
    + rewrite lookup_insert_ne in Hr by done. eapply Hun; [done|].
      intros k Hk. eapply (Hno k). rewrite lookup_insert_ne; [done|]. intros <-. congruence.
Qed.

Lemma loop_inv_fold l seen st :
  loop_inv seen st → loop_inv (seen ++ l) (foldl add_agent st l).
Proof.
  revert seen st. induction l as [|a l IH]; intros seen st H; simpl.
  - by rewrite app_nil_r.
  - rewrite (cons_middle a), app_assoc. apply IH. by apply loop_inv_step.
Qed.

Lemma loop_unlisted_fold l seen st :
  loop_inv seen st → unlisted_empty st → unlisted_empty (foldl add_agent st l).
Proof.
  revert seen st. induction l as [|a l IH]; intros seen st H Hun; simpl; [done|].
  eapply (IH (seen ++ [a])); [by apply loop_inv_step|].
  apply add_agent_unlisted; [apply H | done].
Qed.

(** ** Before the loop *)

Lemma foldl_preserves {A B} (f : State → A → State) (proj : State → B) :
  (∀ s x, proj (f s x) = proj s) → ∀ l s, proj (foldl f s l) = proj s.
Proof.
  intros Hf l. induction l as [|x l IH]; intros s; simpl; [done|].
  by rewrite IH, Hf.
Qed.

Lemma prune_one_gateways ids st x : gateways (prune_one ids st x) = gateways st.
Proof. unfold prune_one. by case_decide. Qed.
Lemma prune_one_gwHeap ids st x : gwHeap (prune_one ids st x) = gwHeap st.
Proof. unfold prune_one. by case_decide. Qed.
Lemma prune_one_nextGw ids st x : nextGw (prune_one ids st x) = nextGw st.
Proof. unfold prune_one. by case_decide. Qed.
Lemma prune_one_timers ids st x : timers (prune_one ids st x) = timers st.
Proof. unfold prune_one. by case_decide. Qed.

Lemma prune_gateways ids st : gateways (prune ids st) = gateways st.
Proof. apply (foldl_preserves _ gateways), prune_one_gateways. Qed.
Lemma prune_gwHeap ids st : gwHeap (prune ids st) = gwHeap st.
Proof. apply (foldl_preserves _ gwHeap), prune_one_gwHeap. Qed.
Lemma prune_nextGw ids st : nextGw (prune ids st) = nextGw st.
Proof. apply (foldl_preserves _ nextGw), prune_one_nextGw. Qed.
Lemma prune_timers ids st : timers (prune ids st) = timers st.
Proof. apply (foldl_preserves _ timers), prune_one_timers. Qed.

Lemma clear_gateways st : gateways (clear_agent_lists st) = gateways st.
Proof. by rewrite clear_agent_lists_eq. Qed.
Lemma clear_nextGw st : nextGw (clear_agent_lists st) = nextGw st.
Proof. by rewrite clear_agent_lists_eq. Qed.
Lemma clear_state st : state (clear_agent_lists st) = state st.
Proof. by rewrite clear_agent_lists_eq. Qed.
Lemma clear_agents_eq st : agents (clear_agent_lists st) = agents st.
Proof. by rewrite clear_agent_lists_eq. Qed.
Lemma clear_timers st : timers (clear_agent_lists st) = timers st.
Proof. by rewrite clear_agent_lists_eq. Qed.

Lemma clear_heap_is_Some st r :
  is_Some (gwHeap (clear_agent_lists st) !! r) ↔ is_Some (gwHeap st !! r).
Proof.
  rewrite clear_agent_lists_eq. simpl. rewrite clear_heap_fold_lookup.
  by rewrite fmap_is_Some.
Qed.

Lemma loop_inv_start st :
  gw_wf st → loop_inv [] (clear_agent_lists st).
Proof.
  intros (Halloc & Hnext & Hinj). unfold loop_inv, gw_wf.
  rewrite clear_gateways, clear_nextGw. repeat split.
  - intros k r Hk. apply clear_heap_is_Some. eauto.
  - intros r Hr. apply Hnext. by apply clear_heap_is_Some.
  - done.
  - intros k r gw Hk Hr. rewrite (clear_heap_listed _ _ _ Hk) in Hr.
    destruct (gwHeap st !! r); by simplify_eq/=.
  - intros a Ha. by apply elem_of_nil in Ha.
Qed.

Lemma clear_unlisted st : unlisted_empty st → unlisted_empty (clear_agent_lists st).
Proof.
  intros Hun r gw Hr Hno. rewrite clear_gateways in Hno.
  rewrite clear_heap_unlisted in Hr by done. eauto.
Qed.

(** ** After the loop *)

Ltac remove_if_empty_tac :=
  unfold remove_if_empty, dropped;
  repeat (case_match || case_decide || case_bool_decide);
  autorewrite with proj; simpl; try done.

Lemma remove_if_empty_gwHeap st kr : gwHeap (remove_if_empty st kr) = gwHeap st.
Proof. remove_if_empty_tac. Qed.
Lemma remove_if_empty_nextGw st kr : nextGw (remove_if_empty st kr) = nextGw st.
Proof. remove_if_empty_tac. Qed.
Lemma remove_if_empty_state st kr : state (remove_if_empty st kr) = state st.
Proof. remove_if_empty_tac. Qed.
Lemma remove_if_empty_agents st kr : agents (remove_if_empty st kr) = agents st.
Proof. remove_if_empty_tac. Qed.
Lemma remove_if_empty_agentGateway st kr : agentGateway (remove_if_empty st kr) = agentGateway st.
Proof. remove_if_empty_tac. Qed.
Lemma remove_if_empty_gateways st kr :
  gateways (remove_if_empty st kr) =
    if dropped st kr.2 then delete kr.1 (gateways st) else gateways st.
Proof. remove_if_empty_tac. Qed.

Lemma remove_empty_gwHeap st : gwHeap (remove_empty st) = gwHeap st.
Proof. apply (foldl_preserves _ gwHeap), remove_if_empty_gwHeap. Qed.
Lemma remove_empty_nextGw st : nextGw (remove_empty st) = nextGw st.
Proof. apply (foldl_preserves _ nextGw), remove_if_empty_nextGw. Qed.
Lemma remove_empty_state st : state (remove_empty st) = state st.
Proof. apply (foldl_preserves _ state), remove_if_empty_state. Qed.
Lemma remove_empty_agents st : agents (remove_empty st) = agents st.
Proof. apply (foldl_preserves _ agents), remove_if_empty_agents. Qed.
Lemma remove_empty_agentGateway st : agentGateway (remove_empty st) = agentGateway st.
Proof. apply (foldl_preserves _ agentGateway), remove_if_empty_agentGateway. Qed.

Lemma dropped_remove_if_empty st kr r : dropped (remove_if_empty st kr) r = dropped st r.
Proof. unfold dropped. by rewrite remove_if_empty_gwHeap. Qed.

Lemma remove_fold_gateways (L : list (string * nat)) st k :
  gateways (foldl remove_if_empty st L) !! k =
    if bool_decide (Exists (λ kr, kr.1 = k ∧ dropped st kr.2 = true) L)
    then None else gateways st !! k.
Proof.
  revert st. induction L as [|[k0 r0] L IH]; intros st; simpl foldl.
  - rewrite bool_decide_eq_false_2; [done|]. by intros ?%Exists_nil.
  - rewrite IH, remove_if_empty_gateways. simpl.
    assert (Exists (λ kr : string * nat, kr.1 = k ∧ dropped (remove_if_empty st (k0, r0)) kr.2 = true) L
            ↔ Exists (λ kr : string * nat, kr.1 = k ∧ dropped st kr.2 = true) L) as Hiff.
    { apply Exists_proper; [|done]. intros kr. by rewrite dropped_remove_if_empty. }
    destruct (dropped st r0) eqn:Hd; destruct (decide (k0 = k)) as [->|Hne].
    + rewrite lookup_delete_eq. rewrite (bool_decide_eq_true_2 (Exists _ (_ :: _))).
      * by case_bool_decide.
      * by left.
    + rewrite lookup_delete_ne by done.
      repeat case_bool_decide; try done.
      * exfalso. rewrite Exists_cons in *. simpl in *. tauto.
      * exfalso. rewrite Exists_cons in *. simpl in *. intuition congruence.
    + repeat case_bool_decide; try done.
      * exfalso. rewrite Exists_cons in *. simpl in *. tauto.
      * exfalso. rewrite Exists_cons in *. simpl in *. intuition congruence.
    + repeat case_bool_decide; try done.
      * exfalso. rewrite Exists_cons in *. simpl in *. tauto.
      * exfalso. rewrite Exists_cons in *. simpl in *. intuition congruence.
Qed.

Lemma remove_empty_gateways st k :
  gateways (remove_empty st) !! k =
    match gateways st !! k with
    | Some r => if dropped st r then None else Some r
    | None => None
    end.
Proof.
  unfold remove_empty. rewrite remove_fold_gateways.
  destruct (gateways st !! k) as [r|] eqn:E.
  - destruct (dropped st r) eqn:Hd.
    + rewrite bool_decide_eq_true_2; [done|]. apply Exists_exists.
      exists (k, r). split; [by apply elem_of_map_to_list | done].
    + rewrite bool_decide_eq_false_2; [done|].
      intros ([k' r'] & Hin & Hk & Hdr)%Exists_exists. simpl in *. subst k'.
      apply elem_of_map_to_list in Hin. congruence.
  - by case_bool_decide.
Qed.

(** ** Gateways after a configuration load *)

Lemma gwKey_of_endpoint a : gwKey_of a = endpoint_key (endpoint a).
Proof. reflexivity. Qed.

Lemma size_list_to_set_le `{Countable A} (l : list A) :
  (size (list_to_set l : gset A) ≤ length l)%nat.
Proof.
  induction l as [|x l IH].
  - by rewrite list_to_set_nil, size_empty.
  - rewrite list_to_set_cons, size_union_alt, size_singleton. simpl.
    assert (size (list_to_set l ∖ {[x]} : gset A) ≤ size (list_to_set l : gset A))%nat.
    { apply subseteq_size. set_solver. }
    lia.
Qed.

Lemma size_list_to_set_fmap_le `{Countable A, Countable B} (f : A → B) (l : list A) :
  (size (list_to_set (f <$> l) : gset B) ≤ size (list_to_set l : gset A))%nat.
Proof.
  rewrite (list_to_set_fmap_L (C:=gset A) (D:=gset B)). unfold set_map.
  etrans; [apply size_list_to_set_le|].
  by rewrite length_fmap.
Qed.

Lemma gw_wf_config cfg st : gw_wf st → gw_wf (st <| config := Some cfg |>).
Proof. done. Qed.

Lemma gw_wf_prune ids st : gw_wf st → gw_wf (prune ids st).
Proof. unfold gw_wf. by rewrite prune_gateways, prune_gwHeap, prune_nextGw. Qed.

Lemma loadConfig_parsed_eq cfg st : loadConfig_parsed cfg st = remove_empty (loaded cfg st).
Proof. reflexivity. Qed.

Lemma loaded_inv cfg st : gw_wf st → loop_inv (cfg_agents cfg) (loaded cfg st).
Proof.
  intros Hwf. unfold loaded.
  apply (loop_inv_fold (cfg_agents cfg) []), loop_inv_start, gw_wf_prune, gw_wf_config, Hwf.
Qed.

Lemma loaded_dropped cfg st k r :
  gw_wf st → gateways (loaded cfg st) !! k = Some r →
  dropped (loaded cfg st) r = bool_decide (listed k (cfg_agents cfg) = []).
Proof.
  intros Hwf Hk. destruct (loaded_inv cfg st Hwf) as ((Halloc & _ & _) & Hlist & _).
  destruct (Halloc _ _ Hk) as [gw Hgw]. unfold dropped. rewrite Hgw.
  rewrite <-(Hlist _ _ _ Hk Hgw). apply bool_decide_ext.
  by destruct (gw_agents gw).
Qed.

Lemma loadConfig_gateways_lookup cfg st k :
  gw_wf st →
  gateways (loadConfig_parsed cfg st) !! k =
    if decide (k ∈ gwKey_of <$> cfg_agents cfg) then gateways (loaded cfg st) !! k else None.
Proof.
  intros Hwf. rewrite loadConfig_parsed_eq, remove_empty_gateways.
  destruct (gateways (loaded cfg st) !! k) as [r|] eqn:Hk.
  - rewrite (loaded_dropped _ _ _ _ Hwf Hk).
    case_bool_decide as Hl; rewrite listed_nil_iff in Hl; by case_decide.
  - by case_decide.
Qed.

Lemma loadConfig_gateways_dom cfg st :
  gw_wf st →
  dom (gateways (loadConfig_parsed cfg st)) = list_to_set (gwKey_of <$> cfg_agents cfg).
Proof.
  intros Hwf. apply set_eq. intros k.
  rewrite elem_of_dom, elem_of_list_to_set, loadConfig_gateways_lookup by done.
  case_decide as Hin; [|split; [by intros [? ?] | done]].
  split; [done|]. intros _.
  destruct (loaded_inv cfg st Hwf) as (_ & _ & Hseen).
  apply list_elem_of_fmap in Hin as (a & -> & Ha). eauto.
Qed.

Lemma loadConfig_gwHeap cfg st : gwHeap (loadConfig_parsed cfg st) = gwHeap (loaded cfg st).
Proof. by rewrite loadConfig_parsed_eq, remove_empty_gwHeap. Qed.

Lemma loadConfig_shared cfg st a :
  gw_wf st → a ∈ cfg_agents cfg →
  ∃ r gw, gateways (loadConfig_parsed cfg st) !! gwKey_of a = Some r ∧
          gwHeap (loadConfig_parsed cfg st) !! r = Some gw ∧
          gw_agents gw = listed (gwKey_of a) (cfg_agents cfg).
Proof.
  intros Hwf Ha. destruct (loaded_inv cfg st Hwf) as ((Halloc & _ & _) & Hlist & Hseen).
  destruct (Hseen _ Ha) as [r Hr]. destruct (Halloc _ _ Hr) as [gw Hgw].
  exists r, gw. rewrite loadConfig_gateways_lookup, loadConfig_gwHeap by done.
  rewrite decide_True by (apply list_elem_of_fmap; eauto). eauto.
Qed.

(** ** Records after a configuration load *)

Lemma filter_none {A} (P : A → Prop) `{∀ x, Decision (P x)} (l : list A) :
  (∀ x, x ∈ l → ¬ P x) → filter P l = [].
Proof.
  induction l as [|x l IH]; intros Hl; [done|].
  rewrite filter_cons_False by (apply Hl; left). apply IH. intros y Hy. apply Hl. by right.
Qed.

Lemma add_fold_state l st k :
  state (foldl add_agent st l) !! k =
    match state st !! k with
    | Some rec => Some rec
    | None => fresh_state <$> head (filter (λ a, agent_id a = k) l)
    end.
Proof.
  revert st. induction l as [|a l IH]; intros st; simpl foldl.
  - by destruct (state st !! k).
  - rewrite IH, add_agent_state.
    destruct (decide (agent_id a = k)) as [<-|Hne].
    + rewrite filter_cons_True by done.
      destruct (state st !! agent_id a) as [rec|] eqn:E; [by rewrite E|].
      by rewrite lookup_insert_eq.
    + rewrite filter_cons_False by done.
      destruct (state st !! agent_id a) as [rec|] eqn:E; [done|].
      by rewrite lookup_insert_ne.
Qed.

Lemma add_fold_agents l st k :
  is_Some (agents (foldl add_agent st l) !! k) ↔ is_Some (agents st !! k) ∨ k ∈ agent_id <$> l.
Proof.
  revert st. induction l as [|a l IH]; intros st; simpl foldl.
  - rewrite fmap_nil. set_solver.
  - rewrite IH, add_agent_agents, fmap_cons, elem_of_cons.
    destruct (decide (agent_id a = k)) as [<-|Hne].
    + rewrite lookup_insert_eq. naive_solver.
    + rewrite lookup_insert_ne by done. naive_solver.
Qed.

Lemma loadConfig_state cfg st k :
  state (loadConfig_parsed cfg st) !! k =
    if decide (k ∈ agent_id <$> cfg_agents cfg) then
      match state st !! k with
      | Some rec => Some rec
      | None => fresh_state <$> head (filter (λ a, agent_id a = k) (cfg_agents cfg))
      end
    else if decide (k ∈ dom (agents st)) then None else state st !! k.
Proof.
  rewrite loadConfig_parsed_eq, remove_empty_state. unfold loaded.
  rewrite add_fold_state, clear_state, prune_state. simpl.
  destruct (decide (k ∈ agent_id <$> cfg_agents cfg)) as [Hin|Hin].
  - rewrite decide_False; [done|]. rewrite elem_of_list_to_set. tauto.
  - assert (filter (λ a, agent_id a = k) (cfg_agents cfg) = []) as ->.
    { apply filter_none. intros a Ha <-. apply Hin, list_elem_of_fmap. eauto. }
    simpl. destruct (decide (k ∈ dom (agents st))).
    + rewrite decide_True; [done|]. by rewrite elem_of_list_to_set.
    + rewrite decide_False by tauto. by destruct (state st !! k).
Qed.

Lemma loadConfig_agents_dom cfg st :
  dom (agents (loadConfig_parsed cfg st)) = list_to_set (agent_id <$> cfg_agents cfg).
Proof.
  apply set_eq. intros k.
  rewrite loadConfig_parsed_eq, remove_empty_agents. unfold loaded.
  rewrite elem_of_dom, add_fold_agents, clear_agents_eq, prune_agents. simpl.
  case_decide as Hk; rewrite elem_of_list_to_set in Hk |- *; [tauto|].
  split; [intros [[? ?]|?]; done | tauto].
Qed.

Lemma head_filter_Some {A} (P : A → Prop) `{∀ x, Decision (P x)} (l : list A) x :
  x ∈ l → P x → ∃ y, head (filter P l) = Some y ∧ y ∈ l ∧ P y.
Proof.
  intros Hin HP. destruct (filter P l) as [|y l'] eqn:E.
  - assert (x ∈ filter P l) as Hx by (apply list_elem_of_filter; auto).
    rewrite E in Hx. by apply elem_of_nil in Hx.
  - exists y. assert (y ∈ filter P l) as Hy by (rewrite E; left).
    apply list_elem_of_filter in Hy. naive_solver.
Qed.

Lemma init_gw_wf : gw_wf init.
Proof. repeat split; intros *; simpl; rewrite ?lookup_empty; try done; by intros [? ?]. Qed.

Lemma init_records_configured : records_configured init.
Proof. done. Qed.

Theorem C2_gateways_per_connection_key cfg st :
  gw_wf st →
  let st' := loadConfig_parsed cfg st in
  dom (gateways st') = list_to_set (gwKey_of <$> cfg_agents cfg) ∧
  (size (gateways st') ≤ length (cfg_agents cfg))%nat ∧
  (size (gateways st') ≤ size (list_to_set (endpoint <$> cfg_agents cfg) : gset (string * N * string)))%nat ∧
  ∀ a b, a ∈ cfg_agents cfg → b ∈ cfg_agents cfg → endpoint a = endpoint b →
    ∃ r gw, gateways st' !! gwKey_of a = Some r ∧ gateways st' !! gwKey_of b = Some r ∧
            gwHeap st' !! r = Some gw ∧ a ∈ gw_agents gw ∧ b ∈ gw_agents gw.
Proof.
  intros Hwf st'. subst st'.
  pose proof (loadConfig_gateways_dom cfg st Hwf) as Hdom.
  assert (size (gateways (loadConfig_parsed cfg st))
          = size (list_to_set (gwKey_of <$> cfg_agents cfg) : gset string)) as Hsize.
  { by rewrite <-Hdom, size_dom. }
  split; [done|]. split; [|split].
  - rewrite Hsize. etrans; [apply size_list_to_set_le|]. by rewrite length_fmap.
  - rewrite Hsize.
    change (gwKey_of <$> cfg_agents cfg) with ((endpoint_key ∘ endpoint) <$> cfg_agents cfg).
    rewrite list_fmap_compose. apply size_list_to_set_fmap_le.
  - intros a b Ha Hb Hab.
    destruct (loadConfig_shared cfg st a Hwf Ha) as (r & gw & Hr & Hgw & Hl).
    assert (gwKey_of b = gwKey_of a) as Hk by (by rewrite !gwKey_of_endpoint, Hab).
    exists r, gw. rewrite Hk, Hl. repeat split; try done.
    all: apply list_elem_of_filter; auto.
Qed.

Lemma C2_witness :
  gw_wf init ∧
  dom (gateways (loadConfig_parsed two_tokens init))
    = list_to_set (gwKey_of <$> cfg_agents two_tokens).
Proof.
  split; [apply init_gw_wf|].
  apply (C2_gateways_per_connection_key two_tokens init init_gw_wf).
Defined.

Lemma C2_counterexample :
  size (gateways (loadConfig_parsed two_tokens init)) = 1 ∧
  size (list_to_set (endpoint <$> cfg_agents two_tokens) : gset (string * N * string)) = 2.
Proof. split; vm_compute; reflexivity. Qed.

Theorem C9_record_per_configured_agent cfg st :
  let st' := loadConfig_parsed cfg st in
  (∀ a, a ∈ cfg_agents cfg →
     ∃ rec, state st' !! agent_id a = Some rec ∧
            (state st !! agent_id a = None →
               assoc "id" rec = Some (JStr (agent_id a)) ∧
               assoc "online" rec = Some (JBool false) ∧
               ∀ f, f ∈ data_fields → assoc f rec = Some JNull)) ∧
  (records_configured st →
     dom (state st') = list_to_set (agent_id <$> cfg_agents cfg) ∧
     dom (agents st') = list_to_set (agent_id <$> cfg_agents cfg)).
Proof.
  intros st'. subst st'. split.
  - intros a Ha. rewrite loadConfig_state.
    rewrite decide_True by (apply list_elem_of_fmap; eauto).
    destruct (state st !! agent_id a) as [rec|] eqn:E; [by exists rec|].
    destruct (head_filter_Some (λ b, agent_id b = agent_id a) (cfg_agents cfg) a Ha eq_refl)
      as (a0 & -> & _ & Ha0).
    exists (fresh_state a0). split; [done|]. intros _. simpl. rewrite Ha0.
    repeat split.
    intros f Hf. unfold data_fields in Hf.
    repeat (apply elem_of_cons in Hf as [->|Hf]; [done|]).
    by apply elem_of_nil in Hf.
  - intros Hrec. split; [|apply loadConfig_agents_dom].
    apply set_eq. intros k. rewrite elem_of_dom, loadConfig_state, elem_of_list_to_set.
    destruct (decide (k ∈ agent_id <$> cfg_agents cfg)) as [Hin|Hin].
    + split; [done|]. intros _.
      destruct (state st !! k) as [rec|]; [done|].
      apply list_elem_of_fmap in Hin as (a & -> & Ha).
      destruct (head_filter_Some (λ b, agent_id b = agent_id a) (cfg_agents cfg) a Ha eq_refl)
        as (a0 & -> & _). done.
    + case_decide as Hk; [split; [by intros [? ?] | done]|].
      split; [|done]. intros Hs. exfalso. apply Hk, Hrec. by apply elem_of_dom.
Qed.

Lemma C9_witness :
  records_configured init ∧
  dom (state (loadConfig_parsed two_tokens init))
    = list_to_set (agent_id <$> cfg_agents two_tokens).
Proof.
  split; [apply init_records_configured|].
  apply (C9_record_per_configured_agent two_tokens init), init_records_configured.
Defined.

End CollectorFacts.

(* ===================================================================== *)
(** * Facts about connection events, requests and frames *)
(* ===================================================================== *)

Module CollectorEvents.
Import Js JsFacts Collector CollectorProps CollectorFacts Samples.

(** ** State updates *)

Lemma updateState_state id partial st :
  state (updateState id partial st) =
    <[id := merge (default [] (state st !! id)) partial]> (state st).
Proof. reflexivity. Qed.

Lemma updateState_timers id partial st : timers (updateState id partial st) = timers st.
Proof. reflexivity. Qed.
Lemma updateState_gateways id partial st : gateways (updateState id partial st) = gateways st.
Proof. reflexivity. Qed.
Lemma updateState_gwHeap id partial st : gwHeap (updateState id partial st) = gwHeap st.
Proof. reflexivity. Qed.
Lemma updateState_agents id partial st : agents (updateState id partial st) = agents st.
Proof. reflexivity. Qed.
Lemma updateState_nextGw id partial st : nextGw (updateState id partial st) = nextGw st.
Proof. reflexivity. Qed.

Lemma updateAll_timers l partial st : timers (updateAll l partial st) = timers st.
Proof. apply (foldl_preserves _ timers). intros. apply updateState_timers. Qed.
Lemma updateAll_gateways l partial st : gateways (updateAll l partial st) = gateways st.
Proof. apply (foldl_preserves _ gateways). intros. apply updateState_gateways. Qed.
Lemma updateAll_gwHeap l partial st : gwHeap (updateAll l partial st) = gwHeap st.
Proof. apply (foldl_preserves _ gwHeap). intros. apply updateState_gwHeap. Qed.
Lemma updateAll_agents l partial st : agents (updateAll l partial st) = agents st.
Proof. apply (foldl_preserves _ agents). intros. apply updateState_agents. Qed.
Lemma updateAll_nextGw l partial st : nextGw (updateAll l partial st) = nextGw st.
Proof. apply (foldl_preserves _ nextGw). intros. apply updateState_nextGw. Qed.

Lemma merge_carries current partial : carries partial (merge current partial).
Proof. intros k v H. by rewrite assoc_merge, H. Qed.

Lemma updateState_carries id id' partial st :
  (∃ rec, state st !! id = Some rec ∧ carries partial rec) ∨ id = id' →
  ∃ rec, state (updateState id' partial st) !! id = Some rec ∧ carries partial rec.
Proof.
  intros H. rewrite updateState_state.
  destruct (decide (id' = id)) as [->|Hne].
  - rewrite lookup_insert_eq. eexists. split; [done|]. apply merge_carries.
  - rewrite lookup_insert_ne by done. naive_solver.
Qed.

Lemma updateAll_carries l id partial st :
  (∃ rec, state st !! id = Some rec ∧ carries partial rec) ∨ id ∈ agent_id <$> l →
  ∃ rec, state (updateAll l partial st) !! id = Some rec ∧ carries partial rec.
Proof.
  revert st. induction l as [|a l IH]; intros st H.
  - rewrite fmap_nil in H. destruct H as [H|H]; [done | by apply elem_of_nil in H].
  - unfold updateAll. simpl foldl. apply IH.
    rewrite fmap_cons, elem_of_cons in H.
    destruct (decide (id ∈ agent_id <$> l)); [by right|]. left.
    apply updateState_carries. naive_solver.
Qed.

Lemma updateAll_marks l a partial st :
  a ∈ l →
  ∃ rec, state (updateAll l partial st) !! agent_id a = Some rec ∧ carries partial rec.
Proof. intros Ha. apply updateAll_carries. right. apply list_elem_of_fmap. eauto. Qed.

Lemma updateAll_dom l partial st :
  dom (state (updateAll l partial st)) = dom (state st) ∪ list_to_set (agent_id <$> l).
Proof.
  revert st. induction l as [|a l IH]; intros st.
  - rewrite fmap_nil, list_to_set_nil. set_solver.
  - unfold updateAll. simpl foldl. fold (updateAll l partial (updateState (agent_id a) partial st)).
    rewrite IH, updateState_state, dom_insert_L, fmap_cons, list_to_set_cons. set_solver.
Qed.

(** ** Reconnection *)

Lemma scheduleReconnect_state gwKey st : state (scheduleReconnect gwKey st) = state st.
Proof. unfold scheduleReconnect, setTimeout. repeat case_match; reflexivity. Qed.

Lemma scheduleReconnect_timers gwKey st :
  timers (scheduleReconnect gwKey st) =
    match gw_get gwKey st with
    | None => timers st
    | Some (_, gw) =>
        <[nextTimer st := {| timer_action := TReconnect gwKey; timer_delay := 10000 |}]>
          (match gw_reconnectTimer gw with
           | Some t => delete t (timers st)
           | None => timers st
           end)
    end.
Proof. unfold scheduleReconnect, setTimeout. repeat case_match; simplify_eq/=; reflexivity. Qed.

Lemma gw_get_reconnectTimer gwKey st st' g (f : Gateway → Gateway) :
  gateways st' = gateways st →
  gwHeap st' = alter f g (gwHeap st) →
  (∀ gw, gw_reconnectTimer (f gw) = gw_reconnectTimer gw) →
  (gw_reconnectTimer ∘ snd) <$> gw_get gwKey st' = (gw_reconnectTimer ∘ snd) <$> gw_get gwKey st.
Proof.
  intros Hg Hh Hf. unfold gw_get. rewrite Hg, Hh.
  destruct (gateways st !! gwKey) as [r|]; simpl; [|done].
  destruct (decide (r = g)) as [->|Hne].
  - rewrite lookup_alter_eq. destruct (gwHeap st !! g); simpl; [|done]. by rewrite Hf.
  - by rewrite lookup_alter_ne.
Qed.

Lemma updateAll_nextTimer l partial st : nextTimer (updateAll l partial st) = nextTimer st.
Proof. by apply (foldl_preserves _ nextTimer). Qed.

Lemma gw_agents_of_alter g (f : Gateway → Gateway) st :
  (∀ gw, gw_agents (f gw) = gw_agents gw) →
  gw_agents_of g (st <| gwHeap ::= alter f g |>) = gw_agents_of g st.
Proof.
  intros Hf. unfold gw_agents_of. simpl. rewrite lookup_alter_eq.
  destruct (gwHeap st !! g); simpl; [apply Hf | done].
Qed.

Lemma close_reason_nonempty code : close_reason code ≠ "".
Proof. done. Qed.

(** What the [close] handler does to the timers. *)
Lemma on_close_timers gwKey g code st :
  timers (on_close gwKey g code st) =
    match gw_get gwKey st with
    | None => timers st
    | Some (_, gw) =>
        <[nextTimer st := reconnect_timer gwKey]>
          (match gw_reconnectTimer gw with
           | Some t => delete t (timers st)
           | None => timers st
           end)
    end.
Proof.
  unfold on_close. rewrite scheduleReconnect_timers.
  set (st_a := st <| gwHeap ::= alter (λ g0, g0 <| gw_state := Disconnected |>) g |>).
  set (st_b := updateAll _ _ st_a).
  assert ((gw_reconnectTimer ∘ snd) <$> gw_get gwKey st_b
          = (gw_reconnectTimer ∘ snd) <$> gw_get gwKey st) as Hgw.
  { apply (gw_get_reconnectTimer _ _ _ g (λ g0, g0 <| gw_state := Disconnected |>)).
    - unfold st_b. by rewrite updateAll_gateways.
    - unfold st_b. by rewrite updateAll_gwHeap.
    - done. }
  assert (timers st_b = timers st) as -> by (unfold st_b; by rewrite updateAll_timers).
  assert (nextTimer st_b = nextTimer st) as -> by (unfold st_b; by rewrite updateAll_nextTimer).
  destruct (gw_get gwKey st_b) as [[r1 g1]|], (gw_get gwKey st) as [[r2 g2]|];
    simplify_eq/=; try done.
  by rewrite Hgw.
Qed.

(** C7 (as amended). On a socket [close] event every agent listed on the
    link is marked offline with the non-empty reason [disconnected (code N)]
    in the same callback, and, while the link is still registered, exactly one
    reconnect timer of the link is armed afterwards, with the fixed delay of
    10000 ms; a link that is no longer registered gets no timer. On a socket
    [error] event every agent listed on the link is marked offline with the
    message of the error as the reason, and the handler arms no timer. *)
Theorem C7_close_marks_offline_and_schedules_once gwKey g code message st :
  reconnects_tracked st →
  (let st' := on_close gwKey g code st in
   (∀ a, a ∈ gw_agents_of g st →
      ∃ rec, state st' !! agent_id a = Some rec ∧
             assoc "online" rec = Some (JBool false) ∧
             assoc "error" rec = Some (JStr (close_reason code)) ∧
             close_reason code ≠ "") ∧
   (is_Some (gw_get gwKey st) →
      ∃ t, timers st' !! t = Some (reconnect_timer gwKey) ∧
           ∀ t' d, timers st' !! t' = Some {| timer_action := TReconnect gwKey;
                                             timer_delay := d |} → t' = t) ∧
   (gw_get gwKey st = None → timers st' = timers st)) ∧
  (let st' := on_error g message st in
   (∀ a, a ∈ gw_agents_of g st →
      ∃ rec, state st' !! agent_id a = Some rec ∧
             assoc "online" rec = Some (JBool false) ∧
             assoc "error" rec = Some message) ∧
   timers st' = timers st).
Proof.
  intros Htracked. split; [split; [|split]|split].
  - intros a Ha. unfold on_close. rewrite scheduleReconnect_state.
    rewrite gw_agents_of_alter by done.
    destruct (updateAll_marks (gw_agents_of g st) a
                [("online", JBool false); ("error", JStr (close_reason code))]
                (st <| gwHeap ::= alter (λ g0, g0 <| gw_state := Disconnected |>) g |>) Ha)
      as (rec & Hrec & Hc).
    exists rec. split; [exact Hrec|]. split; [by apply Hc|]. split; [by apply Hc|].
    apply close_reason_nonempty.
  - intros [[r gw] Hgw]. rewrite on_close_timers, Hgw.
    exists (nextTimer st). split; [by rewrite lookup_insert_eq|].
    intros t' d Ht'. destruct (decide (t' = nextTimer st)) as [|Hne]; [done|]. exfalso.
    rewrite lookup_insert_ne in Ht' by done.
    assert (timers st !! t' = Some {| timer_action := TReconnect gwKey; timer_delay := d |}
            ∧ gw_reconnectTimer gw ≠ Some t') as [Harmed Hnot].
    { destruct (gw_reconnectTimer gw) as [t0|]; [|done].
      destruct (decide (t0 = t')) as [->|Hne'].
      - by rewrite lookup_delete_eq in Ht'.
      - rewrite lookup_delete_ne in Ht' by done. split; [done | congruence]. }
    destruct (Htracked _ _ _ Harmed) as (r' & gw' & Hgw' & Ht). congruence.
  - intros Hgw. by rewrite on_close_timers, Hgw.
  - intros a Ha. unfold on_error. rewrite gw_agents_of_alter by done.
    destruct (updateAll_marks (gw_agents_of g st) a
                [("online", JBool false); ("error", message)]
                (st <| gwHeap ::= alter (λ g0, g0 <| gw_state := GwError |>) g |>) Ha)
      as (rec & Hrec & Hc).
    exists rec. split; [exact Hrec|]. split; by apply Hc.
  - unfold on_error. by rewrite updateAll_timers.
Qed.

End CollectorEvents.

(* ===================================================================== *)
(** * The invariant of the collector *)
(* ===================================================================== *)

(** The premises under which the properties of [loadConfig] and of the
    [close] handler are stated ([gw_wf], [records_configured],
    [reconnects_tracked]) hold in every state the collector reaches from
    [init] by its callbacks: [reachable_inv] at the end of this module. *)

Module CollectorInv.
Import Js JsFacts Collector CollectorProps CollectorFacts CollectorEvents Samples.

(** ** Quiet turns *)

Lemma quiet_refl st : quiet st st.
Proof. split; auto. Qed.

Lemma gw_kept_eq g g' :
  gw_kept g = gw_kept g' →
  gw_agents g = gw_agents g' ∧ gw_reconnectTimer g = gw_reconnectTimer g'.
Proof. unfold gw_kept. by intros [= -> ->]. Qed.

Lemma fmap_kept_Some (o : option Gateway) g' :
  gw_kept <$> o = Some (gw_kept g') →
  ∃ g, o = Some g ∧ gw_agents g = gw_agents g' ∧ gw_reconnectTimer g = gw_reconnectTimer g'.
Proof.
  destruct o as [g|]; simpl; [|done]. intros [= Ha Ht]. eauto.
Qed.

Lemma quiet_trans st1 st2 st3 : quiet st1 st2 → quiet st2 st3 → quiet st1 st3.
Proof.
  intros [A1 G1 N1 H1 S1 T1] [A2 G2 N2 H2 S2 T2]. split.
  - congruence.
  - congruence.
  - congruence.
  - intros r. by rewrite H2, H1.
  - intros id Hid. destruct (S2 id Hid) as [Hin|(r & gw & a & Hr & Ha & Hida)]; [auto|].
    right. specialize (H1 r). rewrite Hr in H1. symmetry in H1.
    apply fmap_kept_Some in H1 as (gw1 & E1 & Hag & _).
    exists r, gw1, a. rewrite Hag. auto.
  - auto.
Qed.

Lemma quiet_heap_Some st st' r gw' :
  quiet st st' → gwHeap st' !! r = Some gw' →
  ∃ gw, gwHeap st !! r = Some gw ∧ gw_agents gw = gw_agents gw' ∧
        gw_reconnectTimer gw = gw_reconnectTimer gw'.
Proof.
  intros Hq Hr. pose proof (q_heap _ _ Hq r) as Hh. rewrite Hr in Hh. symmetry in Hh.
  apply fmap_kept_Some in Hh as (gw & E & Ha & Ht). eauto.
Qed.

Lemma quiet_heap_Some_inv st st' r gw :
  quiet st st' → gwHeap st !! r = Some gw →
  ∃ gw', gwHeap st' !! r = Some gw' ∧ gw_agents gw = gw_agents gw' ∧
         gw_reconnectTimer gw = gw_reconnectTimer gw'.
Proof.
  intros Hq Hr. pose proof (q_heap _ _ Hq r) as Hh. rewrite Hr in Hh.
  apply fmap_kept_Some in Hh as (gw' & E & Ha & Ht). eauto.
Qed.

(** A quiet turn keeps the invariant. *)
Lemma quiet_inv st st' : Inv st → quiet st st' → Inv st'.
Proof.
  intros [(Halloc & Hnext & Hinj) Hrec Hlist Hun Htrack] Hq.
  pose proof (q_agents _ _ Hq) as HA. pose proof (q_gateways _ _ Hq) as HG.
  pose proof (q_nextGw _ _ Hq) as HN. split.
  - unfold gw_wf. rewrite HG, HN. split_and!.
    + intros k r Hk. destruct (Halloc k r Hk) as [gw Hgw].
      destruct (quiet_heap_Some_inv _ _ _ _ Hq Hgw) as (gw' & -> & _). eauto.
    + intros r [gw' Hr]. apply Hnext.
      destruct (quiet_heap_Some _ _ _ _ Hq Hr) as (gw & -> & _). eauto.
    + done.
  - intros id Hid. rewrite HA.
    destruct (q_state _ _ Hq id Hid) as [Hin|(r & gw & a & Hr & Ha & <-)]; [by apply Hrec|].
    by eapply Hlist.
  - intros r gw' a Hr Ha. rewrite HA.
    destruct (quiet_heap_Some _ _ _ _ Hq Hr) as (gw & Hgw & Hag & _).
    eapply Hlist; [done|]. by rewrite Hag.
  - intros r gw' Hr Hno. rewrite HG in Hno.
    destruct (quiet_heap_Some _ _ _ _ Hq Hr) as (gw & Hgw & Hag & _).
    rewrite <-Hag. by eapply Hun.
  - intros t k d Ht. apply (q_timers _ _ Hq) in Ht.
    destruct (Htrack t k d Ht) as (r & gw & Hget & Htimer).
    unfold gw_get in *. rewrite HG.
    destruct (gateways st !! k) as [r0|]; simpl in *; [|done].
    destruct (gwHeap st !! r0) as [gw0|] eqn:E0; simpl in *; [|done]. simplify_eq.
    destruct (quiet_heap_Some_inv _ _ _ _ Hq E0) as (gw' & -> & _ & Ht'). simpl.
    exists r, gw'. split; [done | congruence].
Qed.

(** ** The primitives are quiet *)

(** Updates of fields that the invariant does not read. *)
Lemma quiet_other st st' :
  agents st' = agents st → gateways st' = gateways st → nextGw st' = nextGw st →
  gwHeap st' = gwHeap st → state st' = state st → timers st' = timers st →
  quiet st st'.
Proof. intros A G N Hh S T. split; auto; intros *; rewrite ?Hh, ?S, ?T; auto. Qed.

Lemma emit_quiet name payload st : quiet st (emit name payload st).
Proof. by apply quiet_other. Qed.

Lemma ws_close_quiet s st : quiet st (ws_close s st).
Proof. by apply quiet_other. Qed.

Lemma set_readyState_quiet s rs st : quiet st (set_readyState s rs st).
Proof. by apply quiet_other. Qed.

Lemma resolve_quiet reqId v st : quiet st (resolve reqId v st).
Proof. unfold resolve. case_match; [apply quiet_refl | by apply quiet_other]. Qed.

Lemma sendFrame_quiet gwKey frame st : quiet st (sendFrame gwKey frame st).
Proof. unfold sendFrame. case_match; [by apply quiet_other | apply quiet_refl]. Qed.

Lemma next_reqId_quiet st : quiet st (next_reqId st).2.
Proof. by apply quiet_other. Qed.

Lemma clearTimeout_quiet t st : quiet st (clearTimeout t st).
Proof.
  split; auto. simpl. intros t' k d Ht'.
  by apply lookup_delete_Some in Ht' as [_ ?].
Qed.

Lemma setTimeout_quiet act delay st :
  (∀ k, act ≠ TReconnect k) → quiet st (setTimeout act delay st).2.
Proof.
  intros Hact. split; auto. simpl. intros t k d Ht.
  apply lookup_insert_Some in Ht as [[_ Ht]|[_ Ht]]; [|done].
  injection Ht as Ha _. by destruct (Hact k).
Qed.

Lemma alter_heap_quiet (f : Gateway → Gateway) r st :
  (∀ g, gw_kept (f g) = gw_kept g) → quiet st (st <| gwHeap ::= alter f r |>).
Proof.
  intros Hf. split; auto. simpl. intros r'.
  destruct (decide (r' = r)) as [->|Hne].
  - rewrite lookup_alter_eq. destruct (gwHeap st !! r); simpl; [|done]. by rewrite Hf.
  - by rewrite lookup_alter_ne.
Qed.

Lemma updateState_quiet id partial st :
  (id ∈ dom (state st) ∨
   ∃ r gw a, gwHeap st !! r = Some gw ∧ a ∈ gw_agents gw ∧ agent_id a = id) →
  quiet st (updateState id partial st).
Proof.
  intros Hid. split; auto. intros id'. rewrite updateState_state, dom_insert_L.
  intros [->%elem_of_singleton|?]%elem_of_union; auto.
Qed.

Lemma updateAll_quiet l partial st :
  (∀ a, a ∈ l → ∃ r gw, gwHeap st !! r = Some gw ∧ a ∈ gw_agents gw) →
  quiet st (updateAll l partial st).
Proof.
  revert st. induction l as [|a l IH]; intros st Hl; [apply quiet_refl|].
  unfold updateAll. simpl foldl. fold (updateAll l partial (updateState (agent_id a) partial st)).
  eapply quiet_trans.
  - apply (updateState_quiet (agent_id a) partial). right.
    destruct (Hl a) as (r & gw & Hr & Ha); [by left|]. by exists r, gw, a.
  - apply IH. intros b Hb. rewrite updateState_gwHeap. apply Hl. by right.
Qed.

Lemma updateAll_listed_quiet g partial st : quiet st (updateAll (gw_agents_of g st) partial st).
Proof.
  apply updateAll_quiet. unfold gw_agents_of. intros a Ha.
  destruct (gwHeap st !! g) as [gw|] eqn:E; [eauto | by apply elem_of_nil in Ha].
Qed.

(** ** Scheduling a reconnect *)

Lemma scheduleReconnect_fields gwKey st r gw :
  gw_get gwKey st = Some (r, gw) →
  let st' := scheduleReconnect gwKey st in
  agents st' = agents st ∧ gateways st' = gateways st ∧ nextGw st' = nextGw st ∧
  state st' = state st ∧
  gwHeap st' = alter (λ g, g <| gw_reconnectTimer := Some (nextTimer st) |>) r (gwHeap st) ∧
  timers st' = <[nextTimer st := reconnect_timer gwKey]>
                 (match gw_reconnectTimer gw with
                  | Some t => delete t (timers st)
                  | None => timers st
                  end).
Proof.
  intros Hget. unfold scheduleReconnect, setTimeout. rewrite Hget.
  destruct (gw_reconnectTimer gw); simpl; auto 10.
Qed.

Lemma scheduleReconnect_inv gwKey st : Inv st → Inv (scheduleReconnect gwKey st).
Proof.
  intros HI. destruct (gw_get gwKey st) as [[r gw]|] eqn:Hget.
  2:{ unfold scheduleReconnect. by rewrite Hget. }
  destruct (scheduleReconnect_fields gwKey st r gw Hget) as (HA & HG & HN & HS & HH & HT).
  destruct HI as [(Halloc & Hnext & Hinj) Hrec Hlist Hun Htrack].
  assert (gateways st !! gwKey = Some r ∧ gwHeap st !! r = Some gw) as [Hk Hr].
  { unfold gw_get in Hget. destruct (gateways st !! gwKey) as [r0|]; simpl in *; [|done].
    destruct (gwHeap st !! r0) eqn:E; simpl in *; by simplify_eq. }
  assert (∀ r' g', gwHeap (scheduleReconnect gwKey st) !! r' = Some g' →
                   ∃ g, gwHeap st !! r' = Some g ∧ gw_agents g = gw_agents g') as Hback.
  { intros r' g'. rewrite HH. destruct (decide (r' = r)) as [->|Hne].
    - rewrite lookup_alter_eq, Hr. simpl. intros [= <-]. eauto.
    - rewrite lookup_alter_ne by done. eauto. }
  split.
  - unfold gw_wf. rewrite HG, HN, HH. split_and!; [| |done].
    + intros k r' Hk'. destruct (Halloc k r' Hk') as [g Hg].
      destruct (decide (r' = r)) as [->|Hne].
      * rewrite lookup_alter_eq, Hg. eauto.
      * rewrite lookup_alter_ne by done. eauto.
    + intros r' [g' Hr']. apply Hnext. destruct (decide (r' = r)) as [->|Hne]; [eauto|].
      rewrite lookup_alter_ne in Hr' by done. eauto.
  - unfold records_configured. by rewrite HS, HA.
  - intros r' g' a Hr' Ha. rewrite HA. destruct (Hback r' g' Hr') as (g & Hg & Hag).
    eapply Hlist; [done|]. by rewrite Hag.
  - intros r' g' Hr' Hno. rewrite HG in Hno. destruct (Hback r' g' Hr') as (g & Hg & Hag).
    rewrite <-Hag. by eapply Hun.
  - intros t k d. rewrite HT. unfold gw_get. rewrite HG, HH.
    destruct (decide (t = nextTimer st)) as [->|Hne].
    + rewrite lookup_insert_eq. intros [= <-]. rewrite Hk. simpl.
      rewrite lookup_alter_eq, Hr. simpl. eauto.
    + rewrite lookup_insert_ne by done. intros Ht.
      assert (timers st !! t = Some {| timer_action := TReconnect k; timer_delay := d |}
              ∧ gw_reconnectTimer gw ≠ Some t) as [Harmed Hnot].
      { destruct (gw_reconnectTimer gw) as [t0|]; [|done].
        apply lookup_delete_Some in Ht as [? ?]. split; [done | congruence]. }
      destruct (Htrack t k d Harmed) as (r' & g' & Hget' & Ht').
      unfold gw_get in Hget'. destruct (gateways st !! k) as [r0|] eqn:Ek; simpl in *; [|done].
      destruct (gwHeap st !! r0) as [g0|] eqn:E0; simpl in *; [|done]. simplify_eq.
      destruct (decide (r' = r)) as [->|Hner].
      * simplify_eq.
      * rewrite lookup_alter_ne by done. rewrite E0. simpl. eauto.
Qed.

(** ** The turns other than a configuration load *)

Lemma gw_get_Some gwKey st r gw :
  gw_get gwKey st = Some (r, gw) → gateways st !! gwKey = Some r ∧ gwHeap st !! r = Some gw.
Proof.
  unfold gw_get. destruct (gateways st !! gwKey) as [r0|]; simpl; [|done].
  destruct (gwHeap st !! r0) eqn:E; simpl; [|done]. by intros [= <- <-].
Qed.

Lemma updateAll_gw_quiet gwKey st st0 r gw partial :
  gw_get gwKey st0 = Some (r, gw) → gwHeap st = gwHeap st0 →
  quiet st (updateAll (gw_agents gw) partial st).
Proof.
  intros [_ Hr]%gw_get_Some Hh. apply updateAll_quiet. intros a Ha.
  exists r, gw. by rewrite Hh.
Qed.

Lemma ws_opened_quiet s gw st : quiet st (ws_opened s gw st).
Proof.
  unfold ws_opened, on_open. eapply quiet_trans; [apply set_readyState_quiet|].
  by apply alter_heap_quiet.
Qed.

Lemma on_error_quiet gw message st : quiet st (on_error gw message st).
Proof.
  unfold on_error. eapply quiet_trans; [|apply updateAll_listed_quiet].
  by apply alter_heap_quiet.
Qed.

Lemma ws_errored_quiet s gw message st : quiet st (ws_errored s gw message st).
Proof.
  unfold ws_errored. eapply quiet_trans; [apply set_readyState_quiet | apply on_error_quiet].
Qed.

Lemma on_close_inv gwKey gw code st : Inv st → Inv (on_close gwKey gw code st).
Proof.
  intros HI. unfold on_close. apply scheduleReconnect_inv.
  eapply quiet_inv; [|apply updateAll_listed_quiet].
  eapply quiet_inv; [done|]. by apply alter_heap_quiet.
Qed.

Lemma ws_closed_inv s gwKey gw code st : Inv st → Inv (ws_closed s gwKey gw code st).
Proof.
  intros HI. unfold ws_closed. apply on_close_inv.
  eapply quiet_inv; [done | apply set_readyState_quiet].
Qed.

Lemma connect_inv gwKey ctor st : Inv st → Inv (connect gwKey ctor st).
Proof.
  intros HI. unfold connect. destruct (gw_get gwKey st) as [[r gw]|] eqn:Hget; [|done].
  set (st1 := match gw_ws gw with Some s => ws_close s st | None => st end).
  assert (quiet st st1) as Hq1.
  { unfold st1. destruct (gw_ws gw); [apply ws_close_quiet | apply quiet_refl]. }
  assert (gwHeap st1 = gwHeap st) as Hh1 by (unfold st1; by destruct (gw_ws gw)).
  destruct ctor as [m|].
  - apply scheduleReconnect_inv. eapply quiet_inv; [by eapply quiet_inv|].
    by eapply updateAll_gw_quiet.
  - eapply quiet_inv; [by eapply quiet_inv|].
    eapply quiet_trans; [|by apply alter_heap_quiet]. by apply quiet_other.
Qed.

Lemma call_quiet gwKey method params st : quiet st (call gwKey method params st).2.
Proof.
  unfold call. destruct (open_socket gwKey st); [|apply quiet_refl].
  case_match; [|apply quiet_refl].
  pose proof (next_reqId_quiet st) as Hq1. destruct (next_reqId st) as [reqId st1].
  set (frame := JObj _).
  pose proof (sendFrame_quiet gwKey frame st1) as Hq2.
  pose proof (setTimeout_quiet (TRequestTimeout reqId) 10000 (sendFrame gwKey frame st1)) as Hq3.
  destruct (setTimeout _ _ (sendFrame gwKey frame st1)) as [timer st3]. simpl in *.
  eapply quiet_trans; [exact Hq1|]. eapply quiet_trans; [exact Hq2|].
  eapply quiet_trans; [by apply Hq3|]. by apply quiet_other.
Qed.

Lemma on_request_timeout_quiet reqId st : quiet st (on_request_timeout reqId st).
Proof.
  unfold on_request_timeout. eapply quiet_trans; [|apply resolve_quiet]. by apply quiet_other.
Qed.

Lemma poll_calls_quiet gwKey (reqs : list (string * Json)) acc st :
  quiet st (foldl (λ '(acc, s) '(m, p), let '(c, s') := call gwKey m p s in (acc ++ [c], s'))
                  (acc, st) reqs).2.
Proof.
  revert acc st. induction reqs as [|[m p] reqs IH]; intros acc st; simpl; [apply quiet_refl|].
  pose proof (call_quiet gwKey m p st) as Hc.
  destruct (call gwKey m p st) as [c s']. simpl in Hc.
  eapply quiet_trans; [exact Hc | apply IH].
Qed.

Lemma pollGateway_issue_quiet gwKey st : quiet st (pollGateway_issue gwKey st).2.
Proof.
  unfold pollGateway_issue. destruct (gw_get gwKey st) as [[r gw]|]; [|apply quiet_refl].
  case_decide; [|apply quiet_refl].
  pose proof (poll_calls_quiet gwKey poll_requests [] st) as Hq.
  by destruct (foldl _ _ poll_requests).
Qed.

Lemma poll_split_quiet n res now l st :
  (∀ a, a ∈ l → ∃ r gw, gwHeap st !! r = Some gw ∧ a ∈ gw_agents gw) →
  quiet st (outcome_state (poll_split n res now l st)).
Proof.
  revert st. induction l as [|a l IH]; intros st Hl; simpl; [apply quiet_refl|].
  destruct (agent_update n res now a) as [u|]; [|apply quiet_refl].
  eapply quiet_trans.
  - apply (updateState_quiet (agent_id a) u). right.
    destruct (Hl a) as (r & gw & Hr & Ha); [by left|]. by exists r, gw, a.
  - apply IH. intros b Hb. rewrite updateState_gwHeap. apply Hl. by right.
Qed.

Lemma pollGateway_resume_quiet gw res now st :
  quiet st (outcome_state (pollGateway_resume gw res now st)).
Proof.
  unfold pollGateway_resume. cbv zeta. set (raw := [("health", _); _; _; _; _; _]).
  eapply quiet_trans;
    [by apply (alter_heap_quiet (λ g : Gateway, g <| gw_rawData := raw |>) gw st)|].
  apply poll_split_quiet. unfold gw_agents_of. intros a Ha.
  match type of Ha with a ∈ match ?o with _ => _ end => destruct o as [g|] eqn:E end;
    [eauto | by apply elem_of_nil in Ha].
Qed.

Lemma handleMessage_obj_quiet gwKey msg now st :
  quiet st (outcome_state (handleMessage_obj gwKey msg now st)).
Proof.
  unfold handleMessage_obj. cbv zeta.
  destruct (is_str (field msg "type") "event").
  { destruct (is_str (field msg "event") "connect.challenge").
    { pose proof (next_reqId_quiet st) as Hq. destruct (next_reqId st) as [reqId st1].
      destruct (gw_get gwKey st) as [[r g]|]; simpl in *; [|done].
      eapply quiet_trans; [exact Hq | apply sendFrame_quiet]. }
    destruct (is_str (field msg "event") "health").
    { destruct (gw_get gwKey st) as [[r g]|] eqn:Hget; simpl; [|apply quiet_refl].
      by eapply updateAll_gw_quiet. }
    destruct (is_str (field msg "event") "presence").
    { destruct (gw_get gwKey st) as [[r g]|] eqn:Hget; simpl; [|apply quiet_refl].
      by eapply updateAll_gw_quiet. }
    destruct (is_str (field msg "event") "tick"); [|apply quiet_refl].
    destruct (gw_get gwKey st) as [[r g]|] eqn:Hget; simpl; [|apply quiet_refl].
    by eapply updateAll_gw_quiet. }
  destruct (is_str (field msg "type") "res"); [|apply quiet_refl].
  destruct (truthy (field msg "ok") && _).
  { destruct (gw_get gwKey st) as [[r g]|] eqn:Hget; simpl; [|apply quiet_refl].
    apply gw_get_Some in Hget as [_ Hr].
    set (st1 := st <| gwHeap ::= alter (λ g : Gateway, g <| gw_state := Connected |>) r |>).
    assert (quiet st st1) as Hq1 by (by apply alter_heap_quiet).
    eapply quiet_trans; [exact Hq1|].
    eapply quiet_trans; [|by apply setTimeout_quiet].
    apply updateAll_quiet. intros a Ha.
    exists r, (g <| gw_state := Connected |>). split; [|done].
    unfold st1. simpl. by rewrite lookup_alter_eq, Hr. }
  destruct (negb (truthy (field msg "ok")) && _).
  { set (st1 := st <| console ::= _ |>).
    assert (quiet st st1) as Hq1 by (by apply quiet_other).
    destruct (gw_get gwKey st) as [[r g]|] eqn:Hget; simpl; [|done].
    eapply quiet_trans; [exact Hq1|]. by eapply updateAll_gw_quiet. }
  destruct (pending_entry (field msg "id") st) as [[reqId p]|]; simpl; [|apply quiet_refl].
  eapply quiet_trans; [|apply resolve_quiet].
  eapply quiet_trans; [apply clearTimeout_quiet | by apply quiet_other].
Qed.

Lemma on_message_quiet gwKey parsed now st : quiet st (on_message gwKey parsed now st).
Proof.
  unfold on_message, handleMessage. destruct parsed as [msg|]; [|apply quiet_refl].
  destruct (get msg "type"); [apply handleMessage_obj_quiet | apply quiet_refl].
Qed.

Lemma fire_timer_inv t ctor st : Inv st → Inv (fire_timer t ctor st).
Proof.
  intros HI. unfold fire_timer. destruct (timers st !! t) as [tm|]; [|done].
  assert (Inv (st <| timers ::= delete t |>)) as HI'.
  { eapply quiet_inv; [done|]. apply (clearTimeout_quiet t st). }
  destruct (timer_action tm).
  - by apply connect_inv.
  - eapply quiet_inv; [done | apply on_request_timeout_quiet].
  - eapply quiet_inv; [done | apply pollGateway_issue_quiet].
Qed.

(** ** A configuration load *)

Lemma remove_if_empty_timers st kr t :
  timers (remove_if_empty st kr) !! t =
    match gwHeap st !! kr.2 with
    | Some gw =>
        if bool_decide (length (gw_agents gw) = 0 ∧ gw_reconnectTimer gw = Some t)
        then None else timers st !! t
    | None => timers st !! t
    end.
Proof.
  unfold remove_if_empty. destruct (gwHeap st !! kr.2) as [gw|]; [|done].
  case_decide as Hlen.
  - destruct (gw_reconnectTimer gw) as [t'|] eqn:Ht; destruct (gw_ws gw);
      autorewrite with proj; simpl; case_bool_decide as Hb; try done.
    + destruct Hb as [_ [= ->]]. apply lookup_delete_eq.
    + rewrite lookup_delete_ne; [done|]. intros ->. by apply Hb.
    + destruct Hb as [_ [= ->]]. apply lookup_delete_eq.
    + rewrite lookup_delete_ne; [done|]. intros ->. by apply Hb.
    + by destruct Hb.
    + by destruct Hb.
  - rewrite bool_decide_eq_false_2; [done|]. by intros [? _].
Qed.

Lemma remove_fold_gwHeap (L : list (string * nat)) st :
  gwHeap (foldl remove_if_empty st L) = gwHeap st.
Proof.
  revert st. induction L as [|kr L IH]; intros st; simpl; [done|].
  by rewrite IH, remove_if_empty_gwHeap.
Qed.

Lemma remove_fold_timers (L : list (string * nat)) st t x :
  timers (foldl remove_if_empty st L) !! t = Some x →
  timers st !! t = Some x ∧
  ∀ kr gw, kr ∈ L → gwHeap st !! kr.2 = Some gw → length (gw_agents gw) = 0 →
           gw_reconnectTimer gw ≠ Some t.
Proof.
  revert st. induction L as [|kr L IH]; intros st Ht; simpl in Ht.
  - split; [done|]. intros kr gw Hin. by apply elem_of_nil in Hin.
  - apply IH in Ht as [Ht Hrest]. rewrite remove_if_empty_timers in Ht.
    rewrite remove_if_empty_gwHeap in Hrest. split.
    + destruct (gwHeap st !! kr.2); [|done]. by case_bool_decide.
    + intros kr' gw [->|Hin]%elem_of_cons Hgw Hlen; [|by eapply Hrest].
      rewrite Hgw in Ht. intros Heq. by rewrite bool_decide_eq_true_2 in Ht.
Qed.

Lemma remove_empty_wf st : gw_wf st → gw_wf (remove_empty st).
Proof.
  intros (Href & Hlt & Hinj). unfold gw_wf.
  rewrite remove_empty_gwHeap, remove_empty_nextGw. split_and!; [|done|].
  - intros k r. rewrite remove_empty_gateways.
    destruct (gateways st !! k) as [r'|] eqn:E; [|done].
    destruct (dropped st r'); [done|]. intros [= <-]. by eapply Href.
  - intros k1 k2 r. rewrite !remove_empty_gateways.
    destruct (gateways st !! k1) as [r1|] eqn:E1; [|done].
    destruct (gateways st !! k2) as [r2|] eqn:E2; [|by destruct (dropped st r1)].
    destruct (dropped st r1), (dropped st r2); try done.
    intros [= <-] [= <-]. by eapply Hinj.
Qed.

(** The loop over the configured agents keeps every link and every
    remembered reconnect timer. *)
Lemma add_agent_keeps st a k r gw :
  gw_wf st → gateways st !! k = Some r → gwHeap st !! r = Some gw →
  gateways (add_agent st a) !! k = Some r ∧
  ∃ gw', gwHeap (add_agent st a) !! r = Some gw' ∧
         gw_reconnectTimer gw' = gw_reconnectTimer gw.
Proof.
  intros (Href & Hlt & Hinj) Hk Hr. rewrite add_agent_gateways, add_agent_gwHeap.
  destruct (gateways st !! gwKey_of a) as [r'|] eqn:E.
  - split; [done|]. destruct (decide (r' = r)) as [->|Hne].
    + rewrite lookup_alter_eq, Hr. simpl. by eexists.
    + rewrite lookup_alter_ne by done. by eexists.
  - split.
    + rewrite lookup_insert_ne; [done|]. intros Heq. by rewrite Heq, Hk in E.
    + exists gw. split; [|done]. rewrite lookup_insert_ne; [done|].
      intros <-. specialize (Hlt (nextGw st) ltac:(by eexists)). lia.
Qed.

Lemma add_fold_keeps l seen st k r gw :
  loop_inv seen st → gateways st !! k = Some r → gwHeap st !! r = Some gw →
  gateways (foldl add_agent st l) !! k = Some r ∧
  ∃ gw', gwHeap (foldl add_agent st l) !! r = Some gw' ∧
         gw_reconnectTimer gw' = gw_reconnectTimer gw.
Proof.
  revert seen st gw. induction l as [|a l IH]; intros seen st gw H Hk Hr; simpl.
  - split; [done|]. by exists gw.
  - destruct (add_agent_keeps st a k r gw) as (Hk' & gw' & Hr' & Ht); [apply H|done..|].
    destruct (IH (seen ++ [a]) (add_agent st a) gw') as (Hk'' & gw'' & Hr'' & Ht');
      [by apply loop_inv_step|done..|].
    split; [done|]. exists gw''. split; [done|]. congruence.
Qed.

Lemma add_fold_timers l st : timers (foldl add_agent st l) = timers st.
Proof.
  revert st. induction l as [|a l IH]; intros st; simpl; [done|].
  by rewrite IH, add_agent_timers.
Qed.

Lemma loaded_timers cfg st : timers (loaded cfg st) = timers st.
Proof. unfold loaded. by rewrite add_fold_timers, clear_timers, prune_timers. Qed.

Lemma loaded_keeps cfg st k r gw :
  gw_wf st → gateways st !! k = Some r → gwHeap st !! r = Some gw →
  gateways (loaded cfg st) !! k = Some r ∧
  ∃ gw', gwHeap (loaded cfg st) !! r = Some gw' ∧
         gw_reconnectTimer gw' = gw_reconnectTimer gw.
Proof.
  intros Hwf Hk Hr. unfold loaded.
  set (st1 := prune _ (st <| config := Some cfg |>)).
  assert (gateways st1 !! k = Some r) as Hk1 by (unfold st1; by rewrite prune_gateways).
  assert (gwHeap st1 !! r = Some gw) as Hr1 by (unfold st1; by rewrite prune_gwHeap).
  eapply (add_fold_keeps _ [] _ k r (clear_agents gw)).
  - apply loop_inv_start, gw_wf_prune, gw_wf_config, Hwf.
  - by rewrite clear_gateways.
  - by rewrite (clear_heap_listed st1 k r), Hr1.
Qed.

Lemma loaded_unlisted cfg st : gw_wf st → unlisted_empty st → unlisted_empty (loaded cfg st).
Proof.
  intros Hwf Hun. unfold loaded. eapply (loop_unlisted_fold _ []).
  - apply loop_inv_start, gw_wf_prune, gw_wf_config, Hwf.
  - apply clear_unlisted. unfold unlisted_empty.
    rewrite prune_gwHeap, prune_gateways. exact Hun.
Qed.

Lemma loaded_listed cfg st r gw a :
  gw_wf st → unlisted_empty st →
  gwHeap (loaded cfg st) !! r = Some gw → a ∈ gw_agents gw → a ∈ cfg_agents cfg.
Proof.
  intros Hwf Hun Hr Ha.
  destruct (decide (r ∈ (map_to_list (gateways (loaded cfg st))).*2)) as [Hin|Hout].
  - apply gateway_refs_spec in Hin as [k Hk].
    destruct (loaded_inv cfg st Hwf) as (_ & Hl & _).
    rewrite (Hl k r gw Hk Hr) in Ha. unfold listed in Ha.
    by apply list_elem_of_filter in Ha as [_ Ha].
  - rewrite (loaded_unlisted cfg st Hwf Hun r gw Hr) in Ha; [by apply elem_of_nil in Ha|].
    intros k Hk. apply Hout, gateway_refs_spec. by exists k.
Qed.

Lemma loadConfig_inv cfg st : Inv st → Inv (loadConfig_parsed cfg st).
Proof.
  intros [Hwf Hrec Hlis Hun Hre]. rewrite loadConfig_parsed_eq. split.
  - apply remove_empty_wf, (loaded_inv cfg st Hwf).
  - rewrite <- loadConfig_parsed_eq. unfold records_configured.
    rewrite loadConfig_agents_dom. intros k [rec Hk]%elem_of_dom.
    rewrite loadConfig_state in Hk. case_decide as Hin; [by apply elem_of_list_to_set|].
    case_decide as Hold; [done|]. destruct Hold. apply Hrec, elem_of_dom. by eexists.
  - intros r gw a Hr Ha. rewrite remove_empty_gwHeap in Hr.
    rewrite <- loadConfig_parsed_eq, loadConfig_agents_dom.
    apply elem_of_list_to_set, list_elem_of_fmap. exists a. split; [done|].
    by eapply loaded_listed.
  - intros r gw Hr Hno. rewrite remove_empty_gwHeap in Hr.
    destruct (decide (r ∈ (map_to_list (gateways (loaded cfg st))).*2)) as [Hin|Hout].
    + apply gateway_refs_spec in Hin as [k Hk].
      specialize (Hno k). rewrite remove_empty_gateways, Hk in Hno.
      unfold dropped in Hno. rewrite Hr in Hno. case_bool_decide as Hlen; [|done].
      by apply nil_length_inv.
    + apply (loaded_unlisted cfg st Hwf Hun r gw Hr).
      intros k Hk. apply Hout, gateway_refs_spec. by exists k.
  - intros t k d Ht. unfold remove_empty in Ht.
    apply remove_fold_timers in Ht as [Ht Hkeep]. rewrite loaded_timers in Ht.
    destruct (Hre t k d Ht) as (r & gw & [Hk Hr]%gw_get_Some & Htimer).
    destruct (loaded_keeps cfg st k r gw Hwf Hk Hr) as (Hk' & gw' & Hr' & Ht').
    exists r, gw'. split; [|congruence].
    unfold gw_get. rewrite remove_empty_gateways, Hk'.
    assert (dropped (loaded cfg st) r = false) as ->.
    { unfold dropped. rewrite Hr'. apply bool_decide_eq_false. intros Hlen.
      apply (Hkeep (k, r) gw'); [by apply elem_of_map_to_list | done | done | congruence]. }
    simpl. by rewrite remove_empty_gwHeap, Hr'.
Qed.

(** ** Every reachable state *)

Lemma init_inv : Inv init.
Proof.
  split.
  - apply init_gw_wf.
  - apply init_records_configured.
  - intros r gw a Hr. simpl in Hr. by rewrite lookup_empty in Hr.
  - intros r gw Hr. simpl in Hr. by rewrite lookup_empty in Hr.
  - intros t k d Ht. simpl in Ht. by rewrite lookup_empty in Ht.
Qed.

Lemma collectHostMetrics_quiet reading st :
  quiet st (CollectorRun.collectHostMetrics reading st).
Proof. destruct reading; [by apply quiet_other | apply quiet_refl]. Qed.

Lemma stop_gateway_quiet st kr : quiet st (CollectorRun.stop_gateway st kr).
Proof.
  unfold CollectorRun.stop_gateway. destruct (gwHeap st !! kr.2) as [gw|]; [|apply quiet_refl].
  destruct (gw_reconnectTimer gw) as [t|], (gw_ws gw) as [s|].
  - eapply quiet_trans; [apply clearTimeout_quiet | apply ws_close_quiet].
  - apply clearTimeout_quiet.
  - apply ws_close_quiet.
  - apply quiet_refl.
Qed.

Lemma stop_gateways_quiet st : quiet st (CollectorRun.stop_gateways st).
Proof.
  unfold CollectorRun.stop_gateways. generalize (CollectorRun.gateway_entries st).
  intros l. revert st. induction l as [|kr l IH]; intros st; simpl; [apply quiet_refl|].
  eapply quiet_trans; [apply stop_gateway_quiet | apply IH].
Qed.

Lemma step_inv st st' : Inv st → step st st' → Inv st'.
Proof.
  intros HI Hstep. destruct Hstep.
  - by apply loadConfig_inv.
  - by apply connect_inv.
  - eapply quiet_inv; [done | apply ws_opened_quiet].
  - by apply ws_closed_inv.
  - eapply quiet_inv; [done | apply ws_errored_quiet].
  - eapply quiet_inv; [done | apply on_message_quiet].
  - eapply quiet_inv; [done | apply call_quiet].
  - eapply quiet_inv; [done | apply pollGateway_issue_quiet].
  - eapply quiet_inv; [done | apply pollGateway_resume_quiet].
  - by apply fire_timer_inv.
  - eapply quiet_inv; [done | apply collectHostMetrics_quiet].
  - eapply quiet_inv; [done | apply stop_gateways_quiet].
Qed.

Lemma reachable_inv st : reachable st → Inv st.
Proof. induction 1; [apply init_inv | by eapply step_inv]. Qed.

End CollectorInv.

(* ===================================================================== *)
(** * The collector: requests, frames, snapshots, poll results *)
(* ===================================================================== *)

Module CollectorClaims.
Import Js JsFacts JsString JsStringFacts.
Import Collector CollectorProps CollectorFacts CollectorEvents Samples.

(** ** Responses without a pending request *)

(** C1 (as amended). A [res] frame whose id has no entry in the pending map,
    and which is neither a successful [hello-ok] response nor a failed
    response that carries an error, is discarded: [_handleMessage] returns
    without throwing and leaves the whole collector state, and so every agent
    record, as it was. *)
Theorem C1_unmatched_plain_response_is_noop gwKey msg now st :
  is_str (field msg "type") "res" = true →
  pending_entry (field msg "id") st = None →
  truthy (field msg "ok") && is_str (opt_get (field msg "payload") "type") "hello-ok" = false →
  negb (truthy (field msg "ok")) && truthy (field msg "error") = false →
  handleMessage gwKey msg now st = Returned st.
Proof.
  intros Hres Hpend Hhello Herr. unfold handleMessage.
  assert (is_Some (get msg "type")) as [v ->].
  { destruct msg; simpl in *; try done; eauto. }
  unfold handleMessage_obj.
  assert (is_str (field msg "type") "event" = false) as ->.
  { destruct (field msg "type"); simpl in *; try done.
    apply bool_decide_eq_true in Hres as ->. done. }
  by rewrite Hres, Hhello, Herr, Hpend.
Qed.

Lemma C1_unmatched_plain_response_witness :
  handleMessage key_alice stray_result 2000 online = Returned online.
Proof.
  apply (C1_unmatched_plain_response_is_noop key_alice stray_result 2000 online);
    vm_compute; reflexivity.
Defined.

(** C1 fails as stated: a failed response whose id was never issued marks
    the agents of the link offline. *)
Lemma C1_counterexample :
  is_str (field stray_error "type") "res" = true ∧
  pending_entry (field stray_error "id") online = None ∧
  (state online !! "bob") ≫= assoc "online" = Some (JBool true) ∧
  (state (outcome_state (handleMessage key_alice stray_error 2000 online)) !! "bob")
    ≫= assoc "online" = Some (JBool false) ∧
  (state (outcome_state (handleMessage key_alice stray_error 2000 online)) !! "bob")
    ≫= assoc "error" = Some (JStr "boom").
Proof. repeat split; vm_compute; reflexivity. Qed.

(** ** Requests on a link that is not connected *)

(** C6. While the state of the link is not [connected], [_call] resolves to
    [null] at once and leaves the collector state untouched: no frame is
    written to a socket, no timer is armed, no pending entry is made and the
    request counter stays where it was. *)
Theorem C6_call_not_connected_resolves_null gwKey method params st :
  (∀ r gw, gw_get gwKey st = Some (r, gw) → gw_state gw ≠ Connected) →
  call gwKey method params st = (Resolved JNull, st).
Proof.
  intros Hstate. unfold call.
  destruct (open_socket gwKey st); [|done].
  destruct (gw_get gwKey st) as [[r gw]|] eqn:Hgw; [|done].
  rewrite bool_decide_eq_false_2; [done|]. by eapply Hstate.
Qed.

Lemma C6_call_not_connected_witness :
  call key_alice "health" (JObj []) waiting = (Resolved JNull, waiting).
Proof.
  apply (C6_call_not_connected_resolves_null key_alice "health" (JObj []) waiting).
  intros r gw H. vm_compute in H. by simplify_eq.
Defined.

(** ** Snapshots *)

Lemma JNum_inj a b : JNum a = JNum b → a = b.
Proof. by intros [= ->]. Qed.

(** C8 (as amended). Two calls of [getSnapshot] on the same collector state
    return the same [agents] and the same [host]; the [ts] of each result is
    the clock reading of its call, so the two results are identical exactly
    when both calls read the same clock value. *)
Theorem C8_snapshots_agree_up_to_ts now1 now2 st :
  field (getSnapshot now1 st) "agents" = field (getSnapshot now2 st) "agents" ∧
  field (getSnapshot now1 st) "host" = field (getSnapshot now2 st) "host" ∧
  field (getSnapshot now1 st) "ts" = JNum now1 ∧
  (getSnapshot now1 st = getSnapshot now2 st ↔ now1 = now2).
Proof.
  repeat split; try done.
  - unfold getSnapshot. by intros [= ->].
  - by intros ->.
Qed.

(** C8 fails as stated: with no event in between, two snapshots taken at
    different clock readings differ. *)
Lemma C8_counterexample : getSnapshot 1000 online ≠ getSnapshot 1001 online.
Proof.
  intros H.
  apply (f_equal (λ s, match field s "ts" with
                       | JNum f => PrimFloat.eqb f 1000
                       | _ => false
                       end)) in H.
  vm_compute in H. discriminate.
Qed.

(** ** Disconnection *)

Lemma online_timers :
  timers online = {[ 0 := {| timer_action := TPollGateway key_alice; timer_delay := 500 |} ]}.
Proof. vm_compute. reflexivity. Qed.

Lemma online_reconnects_tracked : reconnects_tracked online.
Proof.
  intros t k d H. rewrite online_timers in H.
  apply lookup_singleton_Some in H as [_ H]. discriminate.
Qed.

Lemma C7_close_witness :
  reconnects_tracked online ∧
  timers (on_error 0 (JStr "ECONNRESET") online) = timers online.
Proof.
  split; [apply online_reconnects_tracked|].
  apply (C7_close_marks_offline_and_schedules_once
           key_alice 0 1006 (JStr "ECONNRESET") online online_reconnects_tracked).
Defined.

(** C7 fails as stated: after a socket [error] event the agents are offline
    but the only armed timer is still the poll timer; no reconnect is
    scheduled. *)
Lemma C7_counterexample :
  (state (ws_errored 0 0 (JStr "ECONNRESET") online) !! "alice")
    ≫= assoc "online" = Some (JBool false) ∧
  (map_to_list (timers (ws_errored 0 0 (JStr "ECONNRESET") online))).*2
    = [{| timer_action := TPollGateway key_alice; timer_delay := 500 |}].
Proof. split; vm_compute; reflexivity. Qed.

(** ** Splitting the session list *)

Lemma filter_sessions_spec prefix l f :
  filter_sessions prefix l = Some f → f = sessions_with_prefix prefix l.
Proof.
  unfold sessions_with_prefix. revert f. induction l as [|s l IH]; intros f; simpl.
  - by intros [= <-].
  - destruct (session_matches prefix s) as [b|] eqn:Hs; simpl; [|done].
    destruct (filter_sessions prefix l) as [r|]; simpl; [|done].
    intros [= <-]. rewrite (IH r eq_refl). destruct b.
    + by rewrite filter_cons_True.
    + rewrite filter_cons_False; [done|]. congruence.
Qed.

Lemma session_matches_defined p q s :
  is_Some (session_matches p s) → is_Some (session_matches q s).
Proof.
  unfold session_matches. destruct (get s "key") as [k|]; simpl; [|done].
  destruct (Js.or k (JStr "")); simpl; try done; by intros [? ?].
Qed.

Lemma filter_sessions_total p q l :
  Forall (λ s, is_Some (session_matches q s)) l → is_Some (filter_sessions p l).
Proof.
  induction 1 as [|s l Hs _ IH]; simpl; [done|].
  destruct (session_matches_defined q p s Hs) as [b ->]. destruct IH as [r ->]. done.
Qed.

Lemma sessions_array_truthy v l : sessions_array v = Some l → truthy v = true.
Proof.
  unfold sessions_array, Js.or. by destruct v.
Qed.

Lemma sessions_update_spec key v l u :
  sessions_array v = Some l →
  sessions_update key v = Some u →
  u = [("sessions",
        JObj (set "sessions" (JArr (sessions_with_prefix (session_prefix key) l)) (spread v)))].
Proof.
  intros Harr. unfold sessions_update. rewrite (sessions_array_truthy _ _ Harr).
  unfold sessions_array in Harr.
  destruct (Js.or (field v "sessions") v); try done. simplify_eq.
  destruct (filter_sessions (session_prefix key) l) as [f|] eqn:Hf; simpl; [|done].
  intros [= <-]. by rewrite (filter_sessions_spec _ _ _ Hf).
Qed.

Lemma health_update_shape key v h :
  health_update key v = Some h → h = [] ∨ ∃ x, h = [("health", x)].
Proof.
  unfold health_update. destruct (truthy v); [|intros [= <-]; by left].
  destruct (field v "agents"); try (intros [= <-]; right; eauto).
  destruct (find_agentHealth key l); simpl; [|done]. intros [= <-]. right. eauto.
Qed.

Lemma agent_update_sessions n res now a l u :
  sessions_array (r_sessions res) = Some l →
  agent_update n res now a = Some u →
  assoc "sessions" (reverse u) =
    Some (JObj (set "sessions"
                  (JArr (sessions_with_prefix (session_prefix (agentKey a)) l))
                  (spread (r_sessions res)))).
Proof.
  intros Harr. unfold agent_update.
  destruct (health_update (agentKey a) (r_health res)) as [h|] eqn:Hh; simpl; [|done].
  destruct (sessions_update (agentKey a) (r_sessions res)) as [s|] eqn:Hs; simpl; [|done].
  intros [= <-]. rewrite (sessions_update_spec _ _ _ _ Harr Hs).
  unfold usage_update, plain_update.
  destruct (health_update_shape _ _ _ Hh) as [->|[x ->]];
    destruct (truthy (r_usage res)), (truthy (r_heartbeat res)),
             (truthy (r_channels res)), (truthy (r_cron res)); reflexivity.
Qed.

Lemma agent_update_agentKey n res now a b :
  agentKey a = agentKey b → agent_update n res now a = agent_update n res now b.
Proof. unfold agent_update. by intros ->. Qed.

Lemma poll_split_carries n res now l id u st :
  (∀ b, b ∈ l → is_Some (agent_update n res now b)) →
  (∀ b, b ∈ l → agent_id b = id → agent_update n res now b = Some u) →
  (∃ rec, state st !! id = Some rec ∧ carries u rec) ∨ id ∈ agent_id <$> l →
  ∃ st', poll_split n res now l st = Returned st' ∧
         ∃ rec, state st' !! id = Some rec ∧ carries u rec.
Proof.
  revert st. induction l as [|b l IH]; intros st Hall Hid H; simpl.
  - rewrite fmap_nil in H. destruct H as [H|H]; [eauto | by apply elem_of_nil in H].
  - destruct (Hall b) as [ub Hub]; [by left|]. rewrite Hub.
    apply IH.
    + intros c Hc. apply Hall. by right.
    + intros c Hc. apply Hid. by right.
    + rewrite fmap_cons, elem_of_cons in H.
      destruct (decide (id ∈ agent_id <$> l)); [by right|]. left.
      rewrite updateState_state. destruct (decide (agent_id b = id)) as [E|E].
      * rewrite E, lookup_insert_eq. eexists. split; [done|].
        assert (ub = u) as -> by (specialize (Hid b ltac:(by left) E); congruence).
        apply merge_carries.
      * rewrite lookup_insert_ne by done. naive_solver.
Qed.

Lemma poll_split_returns n res now l st :
  (∀ b, b ∈ l → is_Some (agent_update n res now b)) →
  ∃ st', poll_split n res now l st = Returned st'.
Proof.
  revert st. induction l as [|b l IH]; intros st Hall; simpl; [eauto|].
  destruct (Hall b) as [ub ->]; [by left|]. apply IH. intros c Hc. apply Hall. by right.
Qed.

Lemma prefixes_disjoint p q l s :
  startsWith p q = false → startsWith q p = false →
  s ∈ sessions_with_prefix p l → s ∉ sessions_with_prefix q l.
Proof.
  intros Hpq Hqp [Hp _]%list_elem_of_filter [Hq _]%list_elem_of_filter.
  unfold session_matches in *. destruct (get s "key") as [k|]; simpl in *; [|done].
  destruct (Js.or k (JStr "")) as [| | | |key| |]; try done.
  injection Hp as Hp. injection Hq as Hq.
  destruct (startsWith_comparable p q key Hp Hq) as [H|H]; congruence.
Qed.

(** The record under [id] after the loop: it carries the update of the
    last agent listed under [id]. *)
Lemma poll_split_last n res now l id a u st :
  (∀ b, b ∈ l → is_Some (agent_update n res now b)) →
  last_listed id l = Some a → agent_update n res now a = Some u →
  ∃ st', poll_split n res now l st = Returned st' ∧
         ∃ rec, state st' !! id = Some rec ∧ carries u rec.
Proof.
  unfold last_listed. revert st. induction l as [|b l IH]; intros st Hall Hlast Hu; [done|].
  destruct (filter (λ b, agent_id b = id) l) as [|c f] eqn:Hf.
  - (* [b] is the last one listed under [id] *)
    rewrite filter_cons, Hf in Hlast. case_decide as Hb; [|done].
    injection Hlast as ->. simpl. rewrite Hu.
    apply (poll_split_carries n res now l id u).
    + intros c Hc. apply Hall. by right.
    + intros c Hc Hid. assert (c ∈ filter (λ b, agent_id b = id) l) as Hin
        by (by apply list_elem_of_filter).
      rewrite Hf in Hin. by apply elem_of_nil in Hin.
    + left. rewrite updateState_state, Hb, lookup_insert_eq. eexists. split; [done|].
      apply merge_carries.
  - (* a later agent is listed under [id] *)
    destruct (Hall b) as [ub Hub]; [by left|]. simpl. rewrite Hub. apply IH.
    + intros c' Hc'. apply Hall. by right.
    + rewrite filter_cons, Hf in Hlast. by case_decide.
    + done.
Qed.

Lemma last_listed_own l a :
  NoDup (agent_id <$> l) → a ∈ l → last_listed (agent_id a) l = Some a.
Proof.
  unfold last_listed. induction l as [|b l IH]; intros Hnd Ha; [by apply elem_of_nil in Ha|].
  rewrite fmap_cons in Hnd. apply NoDup_cons in Hnd as [Hb Hnd]. rewrite filter_cons.
  apply elem_of_cons in Ha as [->|Ha].
  - rewrite decide_True by done.
    assert (filter (λ c, agent_id c = agent_id b) l = []) as ->; [|done].
    destruct (filter (λ c, agent_id c = agent_id b) l) as [|c f] eqn:Hf; [done|].
    assert (c ∈ filter (λ c, agent_id c = agent_id b) l) as [Hid Hc]%list_elem_of_filter
      by (rewrite Hf; by left).
    destruct Hb. apply list_elem_of_fmap. by exists c.
  - rewrite decide_False.
    + by apply IH.
    + intros Hid. apply Hb. rewrite Hid. apply list_elem_of_fmap. by exists a.
Qed.

(** The sessions that the filter keeps: those whose [key] is a string that
    reads [agent:<key>:] and then anything. *)
Lemma session_matches_true key s :
  session_matches (session_prefix key) s = Some true ↔
  ∃ rest, field s "key" = JStr ("agent:" +:+ key +:+ ":" +:+ rest).
Proof.
  assert (∀ rest, "agent:" +:+ key +:+ ":" +:+ rest = session_prefix key +:+ rest) as Hassoc.
  { intros rest. unfold session_prefix. by rewrite !app_assoc_s. }
  unfold session_matches. split.
  - destruct (get s "key") as [k|] eqn:Hk; cbn [mbind option_bind]; [|done].
    destruct (Js.or k (JStr "")) as [| | | |str| |] eqn:Hor; try done.
    intros Hstart. apply (inj Some) in Hstart.
    apply startsWith_spec in Hstart as [rest ->].
    exists rest. rewrite Hassoc.
    assert (k = JStr (session_prefix key +:+ rest)) as ->.
    { unfold Js.or in Hor. destruct (truthy k); [done|]. by injection Hor as Hor. }
    unfold get in Hk. by destruct s; simplify_eq.
  - intros [rest Hf]. rewrite Hassoc in Hf.
    assert (get s "key" = Some (JStr (session_prefix key +:+ rest))) as ->.
    { unfold get. destruct s; simpl in *; try done. by rewrite Hf. }
    set (str := session_prefix key +:+ rest).
    assert (Js.or (JStr str) (JStr "") = JStr str) as Hor.
    { unfold Js.or, truthy. by rewrite bool_decide_eq_false_2. }
    cbn [mbind option_bind]. rewrite Hor. unfold str. by rewrite startsWith_app.
Qed.

Lemma includes_colon_cons c s :
  includes ":" (String c s) = false → c ≠ ":"%char ∧ includes ":" s = false.
Proof.
  intros H.
  change (includes ":" (String c s)) with (startsWith ":" (String c s) || includes ":" s) in H.
  apply orb_false_elim in H as [H1 H2]. split; [|done].
  intros ->. by vm_compute in H1.
Qed.

(** Gateway agent ids without a colon: one prefix starts with the other
    only when the ids are equal. *)
Lemma colon_ends_id ka kb :
  includes ":" ka = false → includes ":" kb = false →
  startsWith (ka +:+ ":") (kb +:+ ":") = true → ka = kb.
Proof.
  revert kb. induction ka as [|a ka IH]; intros [|b kb] Ha Hb.
  - done.
  - apply includes_colon_cons in Hb as [Hb _]. simpl. by rewrite decide_False.
  - apply includes_colon_cons in Ha as [Ha _]. simpl. by rewrite decide_False.
  - apply includes_colon_cons in Ha as [_ Ha]. apply includes_colon_cons in Hb as [_ Hb].
    simpl. case_decide as E; [|done]. subst b. intros Hs. f_equal. by apply IH.
Qed.

Lemma prefixes_apart a b :
  agentKey a ≠ agentKey b →
  includes ":" (agentKey a) = false → includes ":" (agentKey b) = false →
  startsWith (session_prefix (agentKey a)) (session_prefix (agentKey b)) = false.
Proof.
  intros Hne Ha Hb. apply not_true_is_false. intros Hs. apply Hne.
  apply colon_ends_id; [done..|]. exact Hs.
Qed.

(** C5 (as amended). When the [sessions.list] result of a poll round carries
    an array and building the updates does not throw, the round returns and
    the record under every id listed on the link holds in
    [sessions.sessions] exactly the sessions whose key starts with
    [agent:<gatewayAgentId>:], in their original order, for the gateway
    agent id of the last agent listed on the link under that id; when no id
    is listed twice on the link, that is the gateway agent id of the agent
    itself. A session is one of these exactly when it is an element of the
    array whose [key] is a string that reads [agent:<gatewayAgentId>:] and
    then anything. The lists of two agents are disjoint whenever neither of
    their two prefixes is a prefix of the other, and so whenever their
    gateway agent ids are distinct and hold no colon. *)
Theorem C5_sessions_split_by_prefix g res now st l :
  sessions_array (r_sessions res) = Some l →
  (∀ a, a ∈ gw_agents_of g st →
        is_Some (agent_update (length (gw_agents_of g st)) res now a)) →
  ∃ st', pollGateway_resume g res now st = Returned st' ∧
    (∀ id a, last_listed id (gw_agents_of g st) = Some a →
          ∃ rec, state st' !! id = Some rec ∧
                 assoc "sessions" rec = Some (split_sessions (agentKey a) (r_sessions res) l)) ∧
    (NoDup (agent_id <$> gw_agents_of g st) →
     ∀ a, a ∈ gw_agents_of g st →
          ∃ rec, state st' !! agent_id a = Some rec ∧
                 assoc "sessions" rec = Some (split_sessions (agentKey a) (r_sessions res) l)) ∧
    (∀ key, sessions_with_prefix (session_prefix key) l `sublist_of` l ∧
            ∀ s, s ∈ sessions_with_prefix (session_prefix key) l ↔
                 s ∈ l ∧ ∃ rest, field s "key" = JStr ("agent:" +:+ key +:+ ":" +:+ rest)) ∧
    (∀ a b s,
       startsWith (session_prefix (agentKey a)) (session_prefix (agentKey b)) = false →
       startsWith (session_prefix (agentKey b)) (session_prefix (agentKey a)) = false →
       s ∈ sessions_with_prefix (session_prefix (agentKey a)) l →
       s ∉ sessions_with_prefix (session_prefix (agentKey b)) l) ∧
    (∀ a b s,
       agentKey a ≠ agentKey b →
       includes ":" (agentKey a) = false → includes ":" (agentKey b) = false →
       s ∈ sessions_with_prefix (session_prefix (agentKey a)) l →
       s ∉ sessions_with_prefix (session_prefix (agentKey b)) l).
Proof.
  intros Harr Hall. unfold pollGateway_resume.
  set (raw := [("health", r_health res); ("sessions", r_sessions res);
               ("usage", r_usage res); ("heartbeat", r_heartbeat res);
               ("channels", r_channels res); ("cron", r_cron res)]).
  set (st0 := st <| gwHeap ::= alter (λ g0, g0 <| gw_rawData := raw |>) g |>).
  assert (gw_agents_of g st0 = gw_agents_of g st) as -> by (by apply gw_agents_of_alter).
  destruct (poll_split_returns _ res now _ st0 Hall) as [st' Hst'].
  assert (∀ id a, last_listed id (gw_agents_of g st) = Some a →
            ∃ rec, state st' !! id = Some rec ∧
                   assoc "sessions" rec
                   = Some (split_sessions (agentKey a) (r_sessions res) l)) as Hlast.
  { intros id a Hla.
    assert (a ∈ gw_agents_of g st) as Ha.
    { unfold last_listed in Hla. apply last_Some_elem_of in Hla.
      by apply list_elem_of_filter in Hla as [_ ?]. }
    destruct (Hall a Ha) as [u Hu].
    destruct (poll_split_last (length (gw_agents_of g st)) res now
                (gw_agents_of g st) id a u st0 Hall Hla Hu) as (st'' & Hst'' & rec & Hrec & Hc).
    rewrite Hst' in Hst''. simplify_eq. exists rec. split; [done|].
    apply Hc. by apply (agent_update_sessions _ _ _ _ _ _ Harr Hu). }
  exists st'. split; [done|]. split_and!.
  - exact Hlast.
  - intros Hnd a Ha. apply Hlast. by apply last_listed_own.
  - intros key. split; [apply sublist_filter|].
    intros s. unfold sessions_with_prefix.
    rewrite list_elem_of_filter, session_matches_true. tauto.
  - intros a b s Hab Hba. by apply prefixes_disjoint.
  - intros a b s Hne Ha Hb. apply prefixes_disjoint; by apply prefixes_apart.
Qed.

Lemma C5_sessions_split_witness :
  ∃ st', pollGateway_resume 0 alice_bob_sessions 3000 online = Returned st' ∧
    (state st' !! "alice") ≫= assoc "sessions"
      = Some (JObj [("sessions", JArr [JObj [("key", JStr "agent:alice:main")]])]) ∧
    (state st' !! "bob") ≫= assoc "sessions"
      = Some (JObj [("sessions", JArr [JObj [("key", JStr "agent:bob:main")]])]).
Proof.
  destruct (C5_sessions_split_by_prefix 0 alice_bob_sessions 3000 online
              [JObj [("key", JStr "agent:alice:main")]; JObj [("key", JStr "agent:bob:main")]])
    as (st' & Hst' & Hlast & _).
  - reflexivity.
  - intros a Ha. vm_compute in Ha.
    apply elem_of_cons in Ha as [->|Ha]; [vm_compute; eauto|].
    apply elem_of_cons in Ha as [->|Ha]; [vm_compute; eauto|].
    by apply elem_of_nil in Ha.
  - exists st'. split; [exact Hst'|]. split.
    + destruct (Hlast "alice" (agent "alice" "abcdefgh-alice")) as (rec & Hrec & Hs);
        [vm_compute; reflexivity|].
      rewrite Hrec. simpl. rewrite Hs. vm_compute. reflexivity.
    + destruct (Hlast "bob" (agent "bob" "abcdefgh-bob")) as (rec & Hrec & Hs);
        [vm_compute; reflexivity|].
      rewrite Hrec. simpl. rewrite Hs. vm_compute. reflexivity.
Defined.

(** When one id is listed twice on a link, under the gateway agent ids [a]
    and [b], its record holds the sessions of [b], the last listed. *)
Lemma shared_id_takes_last :
  let st' := outcome_state (pollGateway_resume 0 a_b_sessions 3000
                              (loadConfig_parsed one_id_twice init)) in
  (state st' !! "x") ≫= assoc "sessions"
    = Some (JObj [("sessions", JArr [JObj [("key", JStr "agent:b:main")]])]).
Proof. vm_compute. reflexivity. Qed.

(** C5 fails as stated: the agents [x] and [y] have the distinct gateway
    agent ids [a] and [a:b], and the session [agent:a:b:main] lands in the
    records of both. *)
Lemma C5_counterexample :
  let st' := outcome_state (pollGateway_resume 0 one_session 3000
                              (loadConfig_parsed nested_ids init)) in
  agentKey <$> cfg_agents nested_ids = ["a"; "a:b"] ∧
  (state st' !! "x") ≫= assoc "sessions"
    = Some (JObj [("sessions", JArr [JObj [("key", JStr "agent:a:b:main")]])]) ∧
  (state st' !! "y") ≫= assoc "sessions"
    = Some (JObj [("sessions", JArr [JObj [("key", JStr "agent:a:b:main")]])]).
Proof. repeat split; vm_compute; reflexivity. Qed.

End CollectorClaims.

(* ===================================================================== *)
(** * Facts about the analytics aggregation *)
(* ===================================================================== *)

Module AnalyzerFacts.
Import Analyzer AnalyzerProps AnalyzerSamples.

Local Open Scope float_scope.

(** A loop may leave out the elements on which its body does nothing. *)
Lemma foldl_filter_skip {A B} (f : A → B → A) (P : B → Prop) `{∀ x, Decision (P x)}
    (l : list B) (a : A) :
  (∀ a x, ¬ P x → f a x = a) → foldl f a (filter P l) = foldl f a l.
Proof.
  intros Hskip. revert a. induction l as [|x l IH]; intros a; [done|].
  destruct (decide (P x)) as [HP|HP].
  - rewrite filter_cons_True by done. simpl. apply IH.
  - rewrite filter_cons_False by done. simpl. by rewrite Hskip.
Qed.

Lemma foldl_ext_in {A B} (f g : A → B → A) (l : list B) (a : A) :
  (∀ a x, x ∈ l → f a x = g a x) → foldl f a l = foldl g a l.
Proof.
  revert a. induction l as [|x l IH]; intros a Hfg; [done|]. simpl.
  rewrite Hfg by left. apply IH. intros a' y Hy. apply Hfg. by right.
Qed.

Section WithDate.
Context `{JsDate}.

(** ** Stale files *)

Lemma stale_skipped cutoff f : stale cutoff f = true → skipped cutoff f = true.
Proof. unfold stale, skipped. by destruct (f_mtimeMs f). Qed.

Lemma analytics_file_stale cutoff agentId a f :
  stale cutoff f = true → analytics_file cutoff agentId a f = a.
Proof. intros Hs. unfold analytics_file. by rewrite (stale_skipped _ _ Hs). Qed.

Lemma token_file_stale cutoff agentId a f :
  stale cutoff f = true → token_file cutoff agentId a f = a.
Proof. intros Hs. unfold token_file. by rewrite (stale_skipped _ _ Hs). Qed.

Lemma filter_names_fresh cutoff (files : list TranscriptFile) :
  filter (λ f, is_transcript_name (f_name f) = true) (filter (λ f, stale cutoff f = false) files)
  = filter (λ f, stale cutoff f = false) (filter (λ f, is_transcript_name (f_name f) = true) files).
Proof. rewrite !list_filter_filter. apply list_filter_iff. tauto. Qed.

Lemma analytics_agent_drop_stale cutoff a d :
  analytics_agent cutoff a (drop_stale_dir cutoff d) = analytics_agent cutoff a d.
Proof.
  unfold analytics_agent, drop_stale_dir. simpl.
  destruct (d_sessions d) as [[files|]|]; try done.
  rewrite filter_names_fresh. apply foldl_filter_skip.
  intros a' f Hf. apply analytics_file_stale. by destruct (stale cutoff f).
Qed.

Lemma token_agent_drop_stale cutoff a d :
  token_agent cutoff a (drop_stale_dir cutoff d) = token_agent cutoff a d.
Proof.
  unfold token_agent, drop_stale_dir. simpl.
  destruct (d_sessions d) as [[files|]|]; try done.
  rewrite filter_names_fresh. apply foldl_filter_skip.
  intros a' f Hf. apply token_file_stale. by destruct (stale cutoff f).
Qed.

Lemma agent_dirs_drop_stale cutoff agentFilter fs :
  agent_dirs agentFilter (drop_stale cutoff fs)
  = drop_stale_dir cutoff <$> agent_dirs agentFilter fs.
Proof.
  unfold agent_dirs, drop_stale. destruct fs as [dirs|]; simpl.
  - case_decide; [done|]. induction dirs as [|d dirs IH]; [done|].
    rewrite fmap_cons. destruct (decide (d_name d = agentFilter)) as [E|E].
    + rewrite !filter_cons_True by done. by rewrite fmap_cons, IH.
    + by rewrite !filter_cons_False.
  - by case_decide.
Qed.

Lemma foldl_fmap_l {A B C} (f : A → B → A) (g : C → B) (l : list C) (a : A) :
  foldl f a (g <$> l) = foldl (λ a x, f a (g x)) a l.
Proof. revert a. induction l as [|x l IH]; intros a; [done|]. simpl. apply IH. Qed.

(** C10. A transcript file whose modification time is older than the cutoff
    is skipped whole by [getAnalytics] and by [getTokenAnalytics]: whatever
    its lines are, the loop body returns every aggregate as it found it, and
    the aggregates of an archive are those of the archive with the stale
    files taken out. *)
Theorem C10_stale_files_contribute_nothing :
  (∀ cutoff agentId f a t,
     stale cutoff f = true →
     analytics_file cutoff agentId a f = a ∧ token_file cutoff agentId t f = t) ∧
  (∀ range agentFilter now fs,
     analytics range agentFilter now fs
       = analytics range agentFilter now (drop_stale (cutoffDate range now) fs) ∧
     token_analytics range agentFilter now fs
       = token_analytics range agentFilter now (drop_stale (cutoffDate range now) fs)).
Proof.
  split.
  - intros cutoff agentId f a t Hs. split.
    + by apply analytics_file_stale.
    + by apply token_file_stale.
  - intros range agentFilter now fs. unfold analytics, token_analytics.
    rewrite agent_dirs_drop_stale, !foldl_fmap_l. split; symmetry.
    + apply foldl_ext_in. intros a d _. apply analytics_agent_drop_stale.
    + apply foldl_ext_in. intros a d _. apply token_agent_drop_stale.
Qed.

(** ** The cutoff inside a transcript *)

Lemma scan_line_out cutoff s line :
  out_of_window cutoff line = true → scan_line cutoff s line = s.
Proof.
  unfold out_of_window, message_of, scan_line.
  destruct line as [[modelId|timestamp [msg|]|]|]; try done.
  by intros ->.
Qed.

Lemma scan_lines_filter cutoff s lines :
  scan_lines cutoff s lines
  = scan_lines cutoff s (filter (λ l, out_of_window cutoff l = false) lines).
Proof.
  unfold scan_lines. symmetry. apply foldl_filter_skip.
  intros s' line Hl. apply scan_line_out. by destruct (out_of_window cutoff line).
Qed.

Lemma scan_line_cost cutoff s line :
  sessionCost (scan_line cutoff s line) =
    match message_of line with
    | Some (ts, msg) => if before_cutoff cutoff ts then sessionCost s
                        else sessionCost s + cost_of msg
    | None => sessionCost s
    end.
Proof.
  unfold message_of, scan_line.
  destruct line as [[[modelId|]|timestamp [msg|]|]|]; try done.
  destruct (before_cutoff cutoff (ts_or timestamp (m_timestamp msg))); [done|].
  destruct (ts_or timestamp (m_timestamp msg)) as [t|];
    [destruct (ts_truthy (Some t)); [destruct (isoDate t)|]|];
    simpl; repeat case_match; reflexivity.
Qed.

Lemma scan_lines_cost cutoff s lines :
  sessionCost (scan_lines cutoff s lines)
  = foldl (λ acc m, acc + cost_of m) (sessionCost s) (counted cutoff lines).
Proof.
  unfold scan_lines, counted. revert s. induction lines as [|line lines IH]; intros s; [done|].
  simpl foldl. rewrite IH, scan_line_cost. simpl omap.
  destruct (message_of line) as [[ts msg]|]; [|done].
  by destruct (before_cutoff cutoff ts).
Qed.

Lemma trace_line_cost s line :
  tr_cost (trace_line s line) =
    match message_of line with
    | Some (_, msg) => tr_cost s + cost_of msg
    | None => tr_cost s
    end.
Proof.
  unfold message_of, trace_line.
  destruct line as [[[modelId|]|timestamp [msg|]|]|]; try done.
  destruct (ts_or timestamp (m_timestamp msg)) as [t|];
    [destruct (ts_truthy (Some t))|]; simpl; repeat case_match; reflexivity.
Qed.

Lemma trace_lines_cost s lines :
  tr_cost (foldl trace_line s lines)
  = foldl (λ acc m, acc + cost_of m) (tr_cost s) (messages lines).
Proof.
  unfold messages. revert s. induction lines as [|line lines IH]; intros s; [done|].
  simpl foldl. rewrite IH, trace_line_cost. simpl omap.
  by destruct (message_of line) as [[ts msg]|].
Qed.

Lemma analytics_one_file range now mtime lines :
  (mtime <? cutoffDate range now) = false →
  totalCost (analytics range "all" now (archive_of mtime lines))
  = 0 + sessionCost (scan_lines (cutoffDate range now) (new_scan [] []) lines).
Proof.
  intros Hfresh. unfold analytics, agent_dirs, archive_of. simpl default.
  rewrite decide_True by done. simpl foldl. unfold analytics_agent. simpl d_sessions.
  cbv beta iota. rewrite filter_cons_True by done. rewrite filter_nil. simpl foldl.
  unfold analytics_file, skipped. simpl f_mtimeMs. cbv beta iota. rewrite Hfresh.
  simpl f_lines. cbv beta iota. by case_match.
Qed.

Lemma counted_four cutoff old t1 t2 t3 :
  before_cutoff cutoff (Some old) = true →
  before_cutoff cutoff (Some t1) = false →
  before_cutoff cutoff (Some t2) = false →
  before_cutoff cutoff (Some t3) = false →
  cost_of <$> counted cutoff (four_messages old t1 t2 t3) = [0.01; 0.02; 0.03].
Proof.
  intros Hold H1 H2 H3. unfold counted, four_messages, assistant, message_of. simpl omap.
  assert (∀ t, before_cutoff cutoff (ts_or (Some t) None) = before_cutoff cutoff (Some t))
    as Hor.
  { intros t. unfold ts_or. destruct (ts_truthy (Some t)) eqn:E; [done|].
    unfold before_cutoff. by rewrite E. }
  rewrite !Hor, Hold, H1, H2, H3. reflexivity.
Qed.

Lemma sum_costs_fmap ms : sum_costs ms = foldl PrimFloat.add 0 (cost_of <$> ms).
Proof.
  unfold sum_costs. generalize 0. induction ms as [|m ms IH]; intros a; [done|].
  simpl. apply IH.
Qed.

(** C3 (as amended). The scan of a transcript in [getAnalytics] leaves out
    exactly the messages that carry a timestamp older than the cutoff and goes
    on with the lines after them: the session cost is the sum, in transcript
    order, of the costs of all other messages, among them the messages that
    carry no timestamp or an invalid one. [getTraces] applies no cutoff: its
    session cost is the sum over every message. In particular a transcript in
    a file that is not stale, with one message before the cutoff that costs
    100 and three messages not before it that cost 0.01, 0.02 and 0.03, gives
    [getAnalytics] the total cost 0.06. *)
Theorem C3_cost_sums_messages_not_before_cutoff :
  (∀ cutoff s lines,
     scan_lines cutoff s lines
     = scan_lines cutoff s (filter (λ l, out_of_window cutoff l = false) lines)) ∧
  (∀ cutoff dates models lines,
     sessionCost (scan_lines cutoff (new_scan dates models) lines)
     = sum_costs (counted cutoff lines)) ∧
  (∀ lines, tr_cost (foldl trace_line new_trace_scan lines) = sum_costs (messages lines)) ∧
  (∀ range now mtime old t1 t2 t3,
     (mtime <? cutoffDate range now) = false →
     before_cutoff (cutoffDate range now) (Some old) = true →
     before_cutoff (cutoffDate range now) (Some t1) = false →
     before_cutoff (cutoffDate range now) (Some t2) = false →
     before_cutoff (cutoffDate range now) (Some t3) = false →
     getAnalytics_totalCost range "all" now (archive_of mtime (four_messages old t1 t2 t3))
     = 0.06).
Proof.
  split; [apply scan_lines_filter|]. split; [|split].
  - intros. apply scan_lines_cost.
  - intros. apply trace_lines_cost.
  - intros range now mtime old t1 t2 t3 Hfresh Hold H1 H2 H3.
    unfold getAnalytics_totalCost.
    rewrite (analytics_one_file _ _ _ _ Hfresh), scan_lines_cost.
    change (sessionCost (new_scan [] [])) with 0.
    fold (sum_costs (counted (cutoffDate range now) (four_messages old t1 t2 t3))).
    rewrite sum_costs_fmap, (counted_four _ _ _ _ _ Hold H1 H2 H3).
    vm_compute. reflexivity.
Qed.

End WithDate.

Lemma C3_cost_witness :
  getAnalytics_totalCost quarter_day "all" noon (archive_of noon sample_lines) = 0.06.
Proof.
  apply (C3_cost_sums_messages_not_before_cutoff (H := first_day)); vm_compute; reflexivity.
Defined.

(** C3 fails as stated. In [getAnalytics] a message that carries no timestamp
    at all, and so none inside the window, is summed; and in [getTraces] the
    message that lies before the cutoff of the sample is summed with the
    others. *)
Lemma C3_counterexample :
  counted (cutoffDate quarter_day noon) undated_lines ≠ [] ∧
  getAnalytics_totalCost quarter_day "all" noon (archive_of noon undated_lines) = 100 ∧
  out_of_window (cutoffDate quarter_day noon) (assistant 100 (Some (TsNum 3600000))) = true ∧
  s_cost <$> map_get "agent:x:main"
               (records (getTraces (world_of ["agent:x:main"]
                                      {[ "agent:x:main.jsonl" := Some sample_lines ]})))
    = Some 100.06.
Proof. repeat split; try (vm_compute; reflexivity). vm_compute. discriminate. Qed.

Lemma C10_stale_witness :
  stale (cutoffDate quarter_day noon)
        {| f_name := "s1.jsonl"; f_mtimeMs := Some 0; f_lines := Some sample_lines |} = true ∧
  analytics_file (cutoffDate quarter_day noon) "x" no_analytics
    {| f_name := "s1.jsonl"; f_mtimeMs := Some 0; f_lines := Some sample_lines |}
  = no_analytics.
Proof.
  split; [reflexivity|].
  destruct (C10_stale_files_contribute_nothing (H := first_day)) as [Hfile _].
  apply (Hfile _ "x" _ no_analytics no_token_analytics). reflexivity.
Defined.

End AnalyzerFacts.

(* ===================================================================== *)
(** * Facts about the delegation forest *)
(* ===================================================================== *)

Module ForestFacts.
Import Analyzer AnalyzerProps AnalyzerSamples.

Local Open Scope float_scope.

(** ** Maps in insertion order *)

Lemma map_get_set {A} k k' (v : A) m :
  map_get k' (map_set k v m) = if decide (k' = k) then Some v else map_get k' m.
Proof.
  induction m as [|[k0 v0] m IH]; simpl.
  - by repeat case_decide.
  - destruct (decide (k = k0)) as [->|Hne]; simpl.
    + repeat case_decide; congruence.
    + rewrite IH. repeat case_decide; congruence.
Qed.

Lemma map_get_alter {A} (f : A → A) k k' m :
  map_get k' (map_alter f k m) = if decide (k' = k) then f <$> map_get k m else map_get k' m.
Proof.
  induction m as [|[k0 v0] m IH]; simpl.
  - by case_decide.
  - destruct (decide (k = k0)) as [->|Hne]; simpl.
    + repeat case_decide; simplify_eq/=; congruence.
    + rewrite IH. repeat case_decide; simplify_eq/=; congruence.
Qed.

Lemma map_alter_keys {A} (f : A → A) k (m : list (string * A)) : (map_alter f k m).*1 = m.*1.
Proof.
  induction m as [|[k0 v0] m IH]; [done|]. simpl map_alter.
  case_decide; rewrite !fmap_cons; [done | by rewrite IH].
Qed.

Lemma map_get_keys {A} k (m : list (string * A)) : is_Some (map_get k m) ↔ k ∈ m.*1.
Proof.
  induction m as [|[k0 v0] m IH].
  - split; [by intros [? ?] | by intros ?%elem_of_nil].
  - simpl map_get. rewrite fmap_cons, elem_of_cons. simpl.
    case_decide; [naive_solver|]. rewrite IH. naive_solver.
Qed.

(** ** Sorting keeps the elements *)

Lemma sort_insert_elem cmp x l y : y ∈ sort_insert cmp x l ↔ y = x ∨ y ∈ l.
Proof.
  induction l as [|z l IH]; simpl.
  - rewrite list_elem_of_singleton. set_solver.
  - case_match; rewrite !elem_of_cons; [done|]. rewrite IH. naive_solver.
Qed.

Lemma js_sort_elem cmp l y : y ∈ js_sort cmp l ↔ y ∈ l.
Proof.
  unfold js_sort.
  assert (∀ acc, y ∈ foldl (λ acc x, sort_insert cmp x acc) acc l ↔ y ∈ acc ∨ y ∈ l) as Hgen.
  { induction l as [|x l IH]; intros acc; simpl.
    - set_solver.
    - rewrite IH, sort_insert_elem, elem_of_cons. naive_solver. }
  rewrite Hgen. set_solver.
Qed.

Section WithDate.
Context `{JsDate}.

(** ** First pass *)

Lemma collect_entries_shaped w agentId entries m :
  shaped m → shaped (collect_entries w agentId entries m).
Proof.
  revert m. induction entries as [|[key [| |meta]] entries IH]; intros m Hm; simpl; auto.
  destruct (sm_sessionFile meta) as [file|]; [|auto].
  apply IH. intros k r. rewrite map_get_set. case_decide as Hk; [|apply Hm].
  intros [= <-]. by subst k.
Qed.

Lemma session_map_shaped w dirs : shaped (session_map w dirs).
Proof.
  unfold session_map.
  assert (∀ m, shaped m → shaped (foldl (collect_dir w) m dirs)) as Hgen.
  { induction dirs as [|d dirs IH]; intros m Hm; simpl; [done|].
    apply IH. unfold collect_dir. destruct (t_index d) as [[entries|]|]; try done.
    by apply collect_entries_shaped. }
  apply Hgen. by intros k r.
Qed.

End WithDate.

(** ** Second pass *)

Lemma push_child_shaped k pk m : shaped m → shaped (map_alter (push_child k) pk m).
Proof.
  intros Hm k' r. rewrite map_get_alter. case_decide as E; [|apply Hm].
  subst k'. destruct (map_get pk m) as [r0|] eqn:E0; simpl; [|done].
  intros [= <-]. simpl. by apply Hm.
Qed.

(** What one step of the second pass does. *)
Lemma attach_step m roots k :
  shaped m → k ∈ m.*1 →
  attach (m, roots) k =
    if isMain k then (m, roots ++ [k])
    else match parentKey k with
         | Some pk => if decide (pk ∈ m.*1) then (map_alter (push_child k) pk m, roots)
                      else (m, roots ++ [k])
         | None => (m, roots)
         end.
Proof.
  intros Hm [r Hr]%map_get_keys. unfold attach. rewrite Hr.
  destruct (Hm _ _ Hr) as (_ & -> & ->).
  destruct (isMain k); [done|]. destruct (parentKey k) as [pk|]; [|done].
  destruct (map_get pk m) as [rp|] eqn:Hp.
  - rewrite decide_True; [done|]. apply map_get_keys. eauto.
  - rewrite decide_False; [done|]. rewrite <-map_get_keys, Hp. by intros [? ?].
Qed.

Lemma attach_keys st k : shaped st.1 → k ∈ st.1.*1 → (attach st k).1.*1 = st.1.*1.
Proof.
  destruct st as [m roots]. cbn [fst snd]. intros Hm Hk. rewrite attach_step by done.
  repeat case_match; simpl; try done. apply map_alter_keys.
Qed.

Lemma attach_shaped st k : shaped st.1 → k ∈ st.1.*1 → shaped (attach st k).1.
Proof.
  destruct st as [m roots]. cbn [fst snd]. intros Hm Hk. rewrite attach_step by done.
  repeat case_match; simpl; try done. by apply push_child_shaped.
Qed.

Lemma attach_roots_mono st k x : shaped st.1 → k ∈ st.1.*1 → x ∈ st.2 → x ∈ (attach st k).2.
Proof.
  destruct st as [m roots]. cbn [fst snd]. intros Hm Hk Hx. rewrite attach_step by done.
  repeat case_match; simpl; set_solver.
Qed.

Lemma attach_children_mono st k pk x :
  shaped st.1 → k ∈ st.1.*1 →
  (∃ r, map_get pk st.1 = Some r ∧ x ∈ s_children r) →
  ∃ r, map_get pk (attach st k).1 = Some r ∧ x ∈ s_children r.
Proof.
  destruct st as [m roots]. cbn [fst snd]. intros Hm Hk (r & Hr & Hx). rewrite attach_step by done.
  destruct (isMain k); [eauto|]. destruct (parentKey k) as [p|]; [|eauto].
  case_decide; cbn [fst]; [|eauto]. rewrite map_get_alter.
  destruct (decide (pk = p)) as [->|]; [|eauto]. rewrite Hr. simpl.
  eexists. split; [done|]. simpl. set_solver.
Qed.

(** A key enters the roots only in its own step, as a main session or as an
    orphan. *)
Lemma attach_roots_origin st k x :
  shaped st.1 → k ∈ st.1.*1 → x ∈ (attach st k).2 →
  x ∈ st.2 ∨ isMain x = true ∨ ∃ pk, parentKey x = Some pk ∧ pk ∉ st.1.*1.
Proof.
  destruct st as [m roots]. cbn [fst snd]. intros Hm Hk. rewrite attach_step by done.
  destruct (isMain k) eqn:Hmain; simpl.
  - intros [?| ->%list_elem_of_singleton]%elem_of_app; auto.
  - destruct (parentKey k) as [pk|] eqn:Hpk; simpl; [|auto].
    case_decide; simpl; [auto|].
    intros [?| ->%list_elem_of_singleton]%elem_of_app; eauto.
Qed.

(** The invariants of the second pass along a list of keys. *)
Lemma attach_fold_inv L st :
  shaped st.1 → (∀ k, k ∈ L → k ∈ st.1.*1) →
  shaped (foldl attach st L).1 ∧ (foldl attach st L).1.*1 = st.1.*1 ∧
  (∀ x, x ∈ st.2 → x ∈ (foldl attach st L).2) ∧
  (∀ pk x, (∃ r, map_get pk st.1 = Some r ∧ x ∈ s_children r) →
           ∃ r, map_get pk (foldl attach st L).1 = Some r ∧ x ∈ s_children r) ∧
  (∀ x, x ∈ (foldl attach st L).2 →
        x ∈ st.2 ∨ isMain x = true ∨ ∃ pk, parentKey x = Some pk ∧ pk ∉ st.1.*1).
Proof.
  revert st. induction L as [|k L IH]; intros st Hm HL; simpl.
  - split_and!; auto.
  - assert (k ∈ st.1.*1) as Hk by (apply HL; left).
    destruct (IH (attach st k)) as (Hs & Hkeys & Hroots & Hkids & Horig).
    + by apply attach_shaped.
    + intros k' Hk'. rewrite attach_keys by done. apply HL. by right.
    + rewrite attach_keys in Hkeys, Horig by done. split_and!; auto.
      * intros x Hx. by apply Hroots, attach_roots_mono.
      * intros pk x Hx. by apply Hkids, attach_children_mono.
      * intros x Hx. destruct (Horig x Hx) as [Hin|Hrest]; [|auto].
        by apply attach_roots_origin in Hin.
Qed.

(** Where the second pass puts the session under [k]. *)
Lemma attach_fold_places L st k :
  shaped st.1 → (∀ k, k ∈ L → k ∈ st.1.*1) → k ∈ L →
  if isMain k then k ∈ (foldl attach st L).2
  else match parentKey k with
       | Some pk =>
           if decide (pk ∈ st.1.*1)
           then ∃ r, map_get pk (foldl attach st L).1 = Some r ∧ k ∈ s_children r
           else k ∈ (foldl attach st L).2
       | None => True
       end.
Proof.
  intros Hm HL Hk. apply list_elem_of_split in Hk as (L1 & L2 & ->).
  rewrite foldl_app. simpl foldl.
  destruct (attach_fold_inv L1 st) as (Hs1 & Hk1 & _); [done | set_solver |].
  destruct (foldl attach st L1) as [m1 r1]. cbn [fst snd] in *.
  assert (k ∈ m1.*1) as Hk' by (rewrite Hk1; set_solver).
  destruct (attach_fold_inv L2 (attach (m1, r1) k)) as (_ & _ & Hroots & Hkids & _).
  { by apply attach_shaped. }
  { intros k' Hk''. rewrite attach_keys by done. cbn [fst]. rewrite Hk1. set_solver. }
  revert Hroots Hkids. rewrite attach_step by done.
  destruct (isMain k).
  - intros Hroots _. apply Hroots. cbn [snd]. set_solver.
  - destruct (parentKey k) as [pk|]; [|done]. rewrite <-Hk1.
    case_decide as Hpk.
    + intros _ Hkids. apply Hkids. cbn [fst]. rewrite map_get_alter, decide_True by done.
      apply map_get_keys in Hpk as [rp ->]. simpl. eexists. split; [done|]. simpl. set_solver.
    + intros Hroots _. apply Hroots. cbn [snd]. set_solver.
Qed.

(** ** The forest of getTraces *)

Section Forest.
Context `{JsDate}.

Lemma getTraces_listed w dirs :
  w_dirs w = Some dirs →
  records (getTraces w) = (build_forest (session_map w dirs)).1 ∧
  (∀ k, is_root (getTraces w) k ↔ k ∈ (build_forest (session_map w dirs)).2).
Proof.
  intros Hd. unfold getTraces, is_root. rewrite Hd.
  destruct (build_forest (session_map w dirs)) as [m roots]. simpl.
  split; [done|]. intros k. apply js_sort_elem.
Qed.

Lemma build_forest_inv m0 :
  shaped m0 →
  (build_forest m0).1.*1 = m0.*1 ∧
  (∀ k, k ∈ m0.*1 →
        if isMain k then k ∈ (build_forest m0).2
        else match parentKey k with
             | Some pk =>
                 if decide (pk ∈ m0.*1)
                 then ∃ r, map_get pk (build_forest m0).1 = Some r ∧ k ∈ s_children r
                 else k ∈ (build_forest m0).2
             | None => True
             end) ∧
  (∀ k, k ∈ (build_forest m0).2 →
        isMain k = true ∨ ∃ pk, parentKey k = Some pk ∧ pk ∉ m0.*1).
Proof.
  intros Hm. unfold build_forest.
  destruct (attach_fold_inv m0.*1 (m0, [])) as (_ & Hkeys & _ & _ & Horig); [done..|].
  split_and!.
  - done.
  - intros k Hk. by apply (attach_fold_places m0.*1 (m0, []) k).
  - intros k Hk. destruct (Horig k Hk) as [Hnil|?]; [|done]. by apply elem_of_nil in Hnil.
Qed.

(** C4 (as amended). In the forest of [getTraces] every session whose key
    ends with [:main] or has no [:subagent:] in it is a root. A session whose
    key has [:subagent:] in it, does not end with [:main] and has at least
    four segments belongs to the parent key made of its first two segments
    and [:main]: when a record exists under the parent key the session is one
    of its children and not a root, and when none exists the session is a
    root of its own. *)
Theorem C4_roots_children_orphans w key :
  has_session (getTraces w) key →
  (JsString.endsWith ":main" key = true ∨ JsString.includes ":subagent:" key = false →
     is_root (getTraces w) key) ∧
  (JsString.includes ":subagent:" key = true → JsString.endsWith ":main" key = false →
   ∀ p0 p1 p2 p3 rest, JsString.split ":" key = p0 :: p1 :: p2 :: p3 :: rest →
     let parent := p0 +:+ ":" +:+ p1 +:+ ":main" in
     (has_session (getTraces w) parent →
        is_child_of (getTraces w) key parent ∧ ¬ is_root (getTraces w) key) ∧
     (¬ has_session (getTraces w) parent → is_root (getTraces w) key)).
Proof.
  unfold has_session, is_child_of. destruct (w_dirs w) as [dirs|] eqn:Hd.
  2:{ unfold getTraces. rewrite Hd. simpl. by intros [? ?]. }
  destruct (getTraces_listed w dirs Hd) as [-> Hroot].
  destruct (build_forest_inv (session_map w dirs) (session_map_shaped w dirs))
    as (Hkeys & Hplace & Horig).
  rewrite map_get_keys, Hkeys. intros Hkey. specialize (Hplace key Hkey). split.
  - intros Hmain. apply Hroot.
    assert (isMain key = true) as Hm.
    { unfold isMain. destruct Hmain as [->| ->]; [done | by rewrite orb_true_r]. }
    by rewrite Hm in Hplace.
  - intros Hsub Hend p0 p1 p2 p3 rest Hsplit. set (parent := p0 +:+ ":" +:+ p1 +:+ ":main").
    assert (isMain key = false) as Hm by (unfold isMain; by rewrite Hsub, Hend).
    assert (parentKey key = Some parent) as Hp by (unfold parentKey; by rewrite Hsub, Hsplit).
    rewrite Hm, Hp in Hplace. rewrite map_get_keys, Hkeys. split.
    + intros Hparent. rewrite decide_True in Hplace by done. split; [done|].
      rewrite Hroot. intros Hr. destruct (Horig key Hr) as [?|(pk & Hpk & Hno)]; [congruence|].
      rewrite Hp in Hpk. by simplify_eq.
    + intros Hparent. rewrite decide_False in Hplace by done. by apply Hroot.
Qed.

End Forest.

Lemma C4_child_witness :
  is_child_of (getTraces (world_of ["agent:x:main"; "agent:x:subagent:1"] ∅))
              "agent:x:subagent:1" "agent:x:main".
Proof.
  destruct (C4_roots_children_orphans (H := first_day)
              (world_of ["agent:x:main"; "agent:x:subagent:1"] ∅) "agent:x:subagent:1")
    as [_ Hsub].
  - vm_compute. eauto.
  - apply (Hsub eq_refl eq_refl "agent" "x" "subagent" "1" [] eq_refl).
    vm_compute. eauto.
Defined.

(** C4 fails as stated: the key [agent:x:subagent:main] has [:subagent:] in
    it and its parent [agent:x:main] has a record, yet the session is a root
    and the parent has no child. *)
Lemma C4_counterexample :
  JsString.includes ":subagent:" "agent:x:subagent:main" = true ∧
  parentKey "agent:x:subagent:main" = Some "agent:x:main" ∧
  traces (getTraces (world_of ["agent:x:main"; "agent:x:subagent:main"] ∅))
    = ["agent:x:main"; "agent:x:subagent:main"] ∧
  s_children <$> map_get "agent:x:main"
                   (records (getTraces (world_of ["agent:x:main"; "agent:x:subagent:main"] ∅)))
    = Some [].
Proof. repeat split; vm_compute; reflexivity. Qed.

(** A key with [:subagent:] in it and fewer than four segments has no parent
    key: its session is neither a root nor a child. *)
Lemma short_subagent_key_left_out :
  records (getTraces (world_of ["x:subagent:"] ∅)) ≠ [] ∧
  traces (getTraces (world_of ["x:subagent:"] ∅)) = [] ∧
  s_children <$> (records (getTraces (world_of ["x:subagent:"] ∅))).*2 = [[]].
Proof. repeat split; try (vm_compute; reflexivity). vm_compute. discriminate. Qed.

End ForestFacts.

(* ===================================================================== *)
(** * Further properties of the collector *)
(* ===================================================================== *)

Module CollectorMore.
Import Js JsFacts Collector CollectorProps CollectorRun CollectorMoreProps.
Import CollectorFacts CollectorEvents CollectorInv Samples MoreSamples.

(** ** Reachable states *)

Lemma online_reachable : reachable online.
Proof.
  unfold online, waiting, started.
  eapply reachable_step; [|apply step_message].
  eapply reachable_step; [|apply step_message].
  eapply reachable_step; [|apply step_open].
  eapply reachable_step; [|apply step_connect].
  eapply reachable_step; [|apply step_loadConfig].
  apply reachable_init.
Qed.

(** The loops over the gateways visit every entry of the map once. *)
Lemma gateway_entries_perm st : gateway_entries st ≡ₚ map_to_list (gateways st).
Proof. apply merge_sort_Permutation. Qed.

Lemma gateway_entries_elem st k r : (k, r) ∈ gateway_entries st ↔ gateways st !! k = Some r.
Proof. by rewrite gateway_entries_perm, elem_of_map_to_list. Qed.

Lemma gateway_entries_NoDup st : NoDup (gateway_entries st).*1.
Proof. rewrite gateway_entries_perm. apply NoDup_fst_map_to_list. Qed.

(** [start()], [stop()] and the ticks of the two intervals are made of
    turns of [step]. *)
Lemma connect_all_reachable ctor st : reachable st → reachable (connect_all ctor st).
Proof.
  unfold connect_all. generalize (gateway_entries st). intros l. revert st.
  induction l as [|kr l IH]; intros st Hst; simpl; [done|].
  apply IH. eapply reachable_step; [done | apply step_connect].
Qed.

Lemma start_reachable file pollMs metricsMs ctor reading rn rn' :
  reachable (core rn) → start file pollMs metricsMs ctor reading rn = Some rn' →
  reachable (core rn').
Proof.
  intros Hst. unfold start. destruct file as [cfg|]; simpl; [|done]. intros [= <-]. simpl.
  eapply reachable_step; [|apply step_hostMetrics].
  apply connect_all_reachable. eapply reachable_step; [done | apply step_loadConfig].
Qed.

Lemma stop_reachable rn : reachable (core rn) → reachable (core (stop rn)).
Proof.
  intros Hst. assert (core (stop rn) = stop_gateways (core rn)) as ->
    by (by destruct rn as [c [p|] [m|] iv nx]).
  eapply reachable_step; [done | apply step_stop].
Qed.

Lemma pollAll_reachable st : reachable st → reachable (pollAll st).2.
Proof.
  unfold pollAll. generalize (gateway_entries st). intros l.
  assert (∀ (acc : list (nat * list CallResult)) s, reachable s →
            reachable (foldl (λ '(acc, s) (kr : string * nat),
                                match pollGateway_issue kr.1 s with
                                | (Some round, s') => (acc ++ [round], s')
                                | (None, s') => (acc, s')
                                end) (acc, s) l).2) as Hgen; [|apply Hgen].
  induction l as [|kr l IH]; intros acc s Hs; simpl; [done|].
  assert (reachable (pollGateway_issue kr.1 s).2) as Hnext
    by (eapply reachable_step; [done | apply step_poll]).
  destruct (pollGateway_issue kr.1 s) as [[round|] s']; by apply IH.
Qed.

Lemma fire_interval_reachable i reading rn :
  reachable (core rn) → reachable (core (fire_interval i reading rn)).
Proof.
  intros Hst. unfold fire_interval. destruct (intervals rn !! i) as [iv|]; [|done].
  destruct (iv_action iv); simpl.
  - by apply pollAll_reachable.
  - eapply reachable_step; [done | apply step_hostMetrics].
Qed.

(** X1. In every state that the collector reaches from a new instance by
    [start()], [stop()], configuration loads, connection attempts, socket
    events, inbound frames, requests, polls, timers and readings of the host
    metrics: every state record belongs to a configured agent; every entry
    of the gateway map points to a gateway object of its own, and the agents
    listed on that object are configured agents; and an armed reconnect
    timer belongs to a registered gateway, which remembers it, so that no
    gateway ever has two reconnect timers armed. *)
Theorem X1_reachable_states_are_consistent st :
  reachable st →
  dom (state st) ⊆ dom (agents st) ∧
  (∀ k r, gateways st !! k = Some r →
     ∃ gw, gwHeap st !! r = Some gw ∧
           ∀ a, a ∈ gw_agents gw → agent_id a ∈ dom (agents st)) ∧
  (∀ k1 k2 r, gateways st !! k1 = Some r → gateways st !! k2 = Some r → k1 = k2) ∧
  (∀ t k d, timers st !! t = Some {| timer_action := TReconnect k; timer_delay := d |} →
     ∃ r gw, gw_get k st = Some (r, gw) ∧ gw_reconnectTimer gw = Some t) ∧
  (∀ t1 t2 k d1 d2,
     timers st !! t1 = Some {| timer_action := TReconnect k; timer_delay := d1 |} →
     timers st !! t2 = Some {| timer_action := TReconnect k; timer_delay := d2 |} →
     t1 = t2).
Proof.
  intros [(Href & Hlt & Hinj) Hrec Hlis Hun Hre]%reachable_inv. split_and!; [done| |done|done|].
  - intros k r Hk. destruct (Href k r Hk) as [gw Hgw]. exists gw. split; [done|].
    intros a Ha. by eapply Hlis.
  - intros t1 t2 k d1 d2 H1 H2.
    destruct (Hre _ _ _ H1) as (r1 & g1 & Hg1 & Ht1).
    destruct (Hre _ _ _ H2) as (r2 & g2 & Hg2 & Ht2). congruence.
Qed.

(** A collector that was started on a host whose metrics can be read, and
    then stopped, is in such a state. *)
Lemma stopped_reachable : reachable (core (stop measured)).
Proof.
  apply stop_reachable.
  apply (start_reachable (Some two_tokens) JUndefined JUndefined (λ _, None)
           (Some (JObj [("ts", JNum 1)])) new_runner); [apply reachable_init|].
  vm_compute. reflexivity.
Qed.

Lemma X1_reachable_witness :
  reachable (core (stop measured)) ∧
  hostMetrics (core (stop measured)) = JObj [("ts", JNum 1)] ∧
  dom (state (core (stop measured))) ⊆ dom (agents (core (stop measured))).
Proof.
  split; [apply stopped_reachable|]. split; [vm_compute; reflexivity|].
  apply (X1_reachable_states_are_consistent (core (stop measured)) stopped_reachable).
Defined.

(** ** Fields that the state updates leave alone *)

Lemma updateState_pending id partial st : pending (updateState id partial st) = pending st.
Proof. done. Qed.
Lemma updateState_resolved id partial st : resolved (updateState id partial st) = resolved st.
Proof. done. Qed.
Lemma updateState_reqCounter id partial st :
  reqCounter (updateState id partial st) = reqCounter st.
Proof. done. Qed.
Lemma updateState_sockets id partial st : sockets (updateState id partial st) = sockets st.
Proof. done. Qed.
Lemma updateState_nextSock id partial st : nextSock (updateState id partial st) = nextSock st.
Proof. done. Qed.

Lemma updateAll_pending l partial st : pending (updateAll l partial st) = pending st.
Proof. apply (foldl_preserves _ pending). intros; apply updateState_pending. Qed.
Lemma updateAll_resolved l partial st : resolved (updateAll l partial st) = resolved st.
Proof. apply (foldl_preserves _ resolved). intros; apply updateState_resolved. Qed.
Lemma updateAll_reqCounter l partial st : reqCounter (updateAll l partial st) = reqCounter st.
Proof. apply (foldl_preserves _ reqCounter). intros; apply updateState_reqCounter. Qed.
Lemma updateAll_sockets l partial st : sockets (updateAll l partial st) = sockets st.
Proof. apply (foldl_preserves _ sockets). intros; apply updateState_sockets. Qed.
Lemma updateAll_nextSock l partial st : nextSock (updateAll l partial st) = nextSock st.
Proof. apply (foldl_preserves _ nextSock). intros; apply updateState_nextSock. Qed.

(** ** Frames by their type *)

Lemma is_str_true v lit : is_str v lit = true → v = JStr lit.
Proof. destruct v; simpl; try done. by intros ->%bool_decide_eq_true. Qed.

Lemma field_is_str_obj msg k lit : is_str (field msg k) lit = true → ∃ l, msg = JObj l.
Proof. destruct msg; simpl; try done. by eexists. Qed.

Lemma handleMessage_res gwKey msg now st :
  is_str (field msg "type") "res" = true →
  handleMessage gwKey msg now st = handleMessage_obj gwKey msg now st ∧
  is_str (field msg "type") "event" = false.
Proof.
  intros Hres. destruct (field_is_str_obj _ _ _ Hres) as [l ->]. split; [done|].
  apply is_str_true in Hres. by rewrite Hres.
Qed.

(** ** The greeting *)



(** ** Calm turns *)

Lemma calm_refl st : calm st st.
Proof. by split. Qed.

Lemma calm_trans st1 st2 st3 : calm st1 st2 → calm st2 st3 → calm st1 st3.
Proof.
  intros [P1 R1 C1 T1] [P2 R2 C2 T2]. split; [congruence..|]. intros t id d Ht. eauto.
Qed.

Lemma calm_ok st st' : requests_ok st → calm st st' → requests_ok st'.
Proof.
  intros [Hids Hw Ht] [P R C T]. split.
  - intros id. rewrite P, R, C. apply Hids.
  - intros id. rewrite P, R. apply Hw.
  - intros t id d Htm. rewrite P. eauto.
Qed.

Lemma calm_other st st' :
  pending st' = pending st → resolved st' = resolved st → reqCounter st' = reqCounter st →
  timers st' = timers st → calm st st'.
Proof. intros P R C T. split; [done..|]. intros t id d. by rewrite T. Qed.

Lemma calm_fewer_timers st st' :
  pending st' = pending st → resolved st' = resolved st → reqCounter st' = reqCounter st →
  timers st' ⊆ timers st → calm st st'.
Proof.
  intros P R C T. split; [done..|]. intros t id d Ht. by eapply lookup_weaken.
Qed.

Lemma clearTimeout_calm t st : calm st (clearTimeout t st).
Proof. apply calm_fewer_timers; try done. apply delete_subseteq. Qed.

Lemma setTimeout_calm act delay st :
  (∀ id, act ≠ TRequestTimeout id) → calm st (setTimeout act delay st).2.
Proof.
  intros Hact. split; [done..|]. simpl. intros t id d Ht.
  apply lookup_insert_Some in Ht as [[_ Ht]|[_ Ht]]; [|done].
  injection Ht as Ha _. by destruct (Hact id).
Qed.

Lemma ws_close_calm s st : calm st (ws_close s st).
Proof. by apply calm_other. Qed.

Lemma updateState_calm id partial st : calm st (updateState id partial st).
Proof. by apply calm_other. Qed.

Lemma updateAll_calm l partial st : calm st (updateAll l partial st).
Proof.
  apply calm_other; auto using updateAll_pending, updateAll_resolved, updateAll_reqCounter,
    updateAll_timers.
Qed.

Lemma scheduleReconnect_calm gwKey st : calm st (scheduleReconnect gwKey st).
Proof.
  unfold scheduleReconnect. destruct (gw_get gwKey st) as [[r gw]|]; [|apply calm_refl].
  set (st1 := match gw_reconnectTimer gw with Some t => clearTimeout t st | None => st end).
  assert (calm st st1) as H1.
  { unfold st1. destruct (gw_reconnectTimer gw); [apply clearTimeout_calm | apply calm_refl]. }
  pose proof (setTimeout_calm (TReconnect gwKey) 10000 st1 ltac:(done)) as H2.
  destruct (setTimeout (TReconnect gwKey) 10000 st1) as [t st2]. simpl in H2.
  eapply calm_trans; [exact H1|]. eapply calm_trans; [exact H2|]. by apply calm_other.
Qed.

Lemma connect_calm gwKey ctor st : calm st (connect gwKey ctor st).
Proof.
  unfold connect. destruct (gw_get gwKey st) as [[r gw]|]; [|apply calm_refl].
  set (st1 := match gw_ws gw with Some s => ws_close s st | None => st end).
  assert (calm st st1) as H1.
  { unfold st1. destruct (gw_ws gw); [apply ws_close_calm | apply calm_refl]. }
  destruct ctor as [m|].
  - eapply calm_trans; [exact H1|]. eapply calm_trans; [apply updateAll_calm|].
    apply scheduleReconnect_calm.
  - eapply calm_trans; [exact H1|]. by apply calm_other.
Qed.

Lemma ws_opened_calm s gw st : calm st (ws_opened s gw st).
Proof. by apply calm_other. Qed.

Lemma on_close_calm gwKey gw code st : calm st (on_close gwKey gw code st).
Proof.
  unfold on_close. eapply calm_trans; [|apply scheduleReconnect_calm].
  eapply calm_trans; [|apply updateAll_calm]. by apply calm_other.
Qed.

Lemma ws_closed_calm s gwKey gw code st : calm st (ws_closed s gwKey gw code st).
Proof.
  unfold ws_closed. eapply calm_trans; [|apply on_close_calm]. by apply calm_other.
Qed.

Lemma ws_errored_calm s gw message st : calm st (ws_errored s gw message st).
Proof.
  unfold ws_errored, on_error. eapply calm_trans; [|apply updateAll_calm]. by apply calm_other.
Qed.

Lemma sendFrame_calm gwKey frame st : calm st (sendFrame gwKey frame st).
Proof. unfold sendFrame. case_match; [by apply calm_other | apply calm_refl]. Qed.

Lemma poll_split_calm n res now l st : calm st (outcome_state (poll_split n res now l st)).
Proof.
  revert st. induction l as [|a l IH]; intros st; simpl; [apply calm_refl|].
  destruct (agent_update n res now a) as [u|]; [|apply calm_refl].
  eapply calm_trans; [apply updateState_calm | apply IH].
Qed.

Lemma pollGateway_resume_calm gw res now st :
  calm st (outcome_state (pollGateway_resume gw res now st)).
Proof.
  unfold pollGateway_resume. cbv zeta. eapply calm_trans; [|apply poll_split_calm].
  by apply calm_other.
Qed.

Lemma prune_calm ids st : calm st (prune ids st).
Proof.
  unfold prune. generalize (map_to_list (agents st)).*1. intros l. revert st.
  induction l as [|x l IH]; intros st; simpl; [apply calm_refl|].
  eapply calm_trans; [|apply IH]. unfold prune_one. case_decide; [apply calm_refl|].
  by apply calm_other.
Qed.

Lemma add_agent_calm st a : calm st (add_agent st a).
Proof.
  unfold add_agent, ensure_record, list_agent, ensure_gateway, register_agent.
  repeat case_match; by apply calm_other.
Qed.

Lemma remove_if_empty_calm st kr : calm st (remove_if_empty st kr).
Proof.
  unfold remove_if_empty. destruct (gwHeap st !! kr.2) as [gw|]; [|apply calm_refl].
  case_decide; [|apply calm_refl].
  set (st1 := match gw_ws gw with Some s => ws_close s st | None => st end).
  assert (calm st st1) as H1.
  { unfold st1. destruct (gw_ws gw); [apply ws_close_calm | apply calm_refl]. }
  set (st2 := match gw_reconnectTimer gw with Some t => clearTimeout t st1 | None => st1 end).
  assert (calm st1 st2) as H2.
  { unfold st2. destruct (gw_reconnectTimer gw); [apply clearTimeout_calm | apply calm_refl]. }
  eapply calm_trans; [exact H1|]. eapply calm_trans; [exact H2|]. by apply calm_other.
Qed.

Lemma foldl_calm {A} (f : State → A → State) :
  (∀ s x, calm s (f s x)) → ∀ l s, calm s (foldl f s l).
Proof.
  intros Hf l. induction l as [|x l IH]; intros s; simpl; [apply calm_refl|].
  eapply calm_trans; [apply Hf | apply IH].
Qed.

Lemma loadConfig_calm cfg st : calm st (loadConfig_parsed cfg st).
Proof.
  unfold loadConfig_parsed, remove_empty, clear_agent_lists. cbv zeta.
  eapply calm_trans; [|apply foldl_calm, remove_if_empty_calm].
  eapply calm_trans; [|apply foldl_calm, add_agent_calm].
  eapply calm_trans; [|apply foldl_calm; intros; by apply calm_other].
  eapply calm_trans; [|apply prune_calm]. by apply calm_other.
Qed.

(** ** Requests and their ids *)

Lemma pretty_N_go_length x s : (String.length s ≤ String.length (pretty_N_go x s))%nat.
Proof.
  revert s. induction (N.lt_wf_0 x) as [x _ IH]; intros s.
  assert (x = 0 ∨ 0 < x)%N as [->|?] by lia; [by rewrite pretty_N_go_0|].
  rewrite pretty_N_go_step by done.
  etrans; [|by eapply IH, N.div_lt]. simpl. lia.
Qed.

Lemma pretty_N_nonempty (n : N) : pretty n ≠ "".
Proof.
  unfold pretty, pretty_N. case_decide; [done|].
  rewrite pretty_N_go_step by lia. intros Heq.
  pose proof (pretty_N_go_length (n `div` 10) (String (pretty_N_char (n `mod` 10)) "")) as Hlen.
  rewrite Heq in Hlen. simpl in Hlen. lia.
Qed.

Lemma next_reqId_ok st : requests_ok st → requests_ok (next_reqId st).2.
Proof.
  intros [Hids Hw Ht]. split; simpl; [|done..].
  intros id Hid. destruct (Hids id Hid) as (n & -> & Hn). exists n. split; [done|].
  unfold const. lia.
Qed.

Lemma fresh_id st n :
  requests_ok st → (reqCounter st < n)%N →
  pending st !! pretty n = None ∧ resolved st !! pretty n = None.
Proof.
  intros [Hids _ _] Hn.
  split; apply eq_None_not_Some; intros Hsome.
  - destruct (Hids (pretty n) (or_introl Hsome)) as (m & Hm & Hle).
    apply (inj pretty) in Hm. lia.
  - destruct (Hids (pretty n) (or_intror Hsome)) as (m & Hm & Hle).
    apply (inj pretty) in Hm. lia.
Qed.

(** What [_call] does on a gateway that is connected and whose socket is
    open. *)
Lemma call_connected gwKey method params st r gw s :
  gw_get gwKey st = Some (r, gw) → gw_state gw = Connected → open_socket gwKey st = Some s →
  let reqId := pretty (N.succ (reqCounter st)) in
  call gwKey method params st =
    (Awaiting reqId,
     st <| reqCounter := N.succ (reqCounter st) |>
        <| sockets ::= alter (λ k, k <| sock_sent ::= (λ l, l ++ [request_frame reqId method params]) |>) s |>
        <| timers ::= insert (nextTimer st) (request_timer reqId) |>
        <| nextTimer ::= S |>
        <| pending ::= insert reqId {| pend_timer := nextTimer st |} |>).
Proof.
  intros Hget Hc Hs. unfold call. rewrite Hget, Hs, Hc.
  rewrite bool_decide_eq_true_2 by done. unfold next_reqId. cbv zeta.
  unfold sendFrame.
  assert (open_socket gwKey (st <| reqCounter := N.succ (reqCounter st) |>) = Some s) as ->
    by exact Hs.
  reflexivity.
Qed.

Lemma call_cases gwKey method params st :
  call gwKey method params st = (Resolved JNull, st) ∨
  ∃ r gw s, gw_get gwKey st = Some (r, gw) ∧ gw_state gw = Connected ∧
            open_socket gwKey st = Some s.
Proof.
  unfold call. destruct (open_socket gwKey st) as [s|] eqn:Hs; [|by left].
  destruct (gw_get gwKey st) as [[r gw]|] eqn:Hget; [|by left].
  case_bool_decide; [|by left]. right. by exists r, gw, s.
Qed.

Lemma call_ok gwKey method params st :
  requests_ok st → requests_ok (call gwKey method params st).2.
Proof.
  intros Hok. destruct (call_cases gwKey method params st) as [->|(r & gw & s & Hg & Hc & Hs)];
    [done|].
  rewrite (call_connected _ _ _ _ _ _ _ Hg Hc Hs). cbv zeta. simpl.
  destruct (fresh_id st (N.succ (reqCounter st)) Hok ltac:(lia)) as [Hp Hr].
  destruct Hok as [Hids Hw Ht]. split; simpl.
  - intros id [Hid|Hid].
    + apply lookup_insert_is_Some in Hid as [<-|[_ Hid]].
      * exists (N.succ (reqCounter st)). split; [done|unfold const; lia].
      * destruct (Hids id (or_introl Hid)) as (n & -> & Hn). exists n. split; [done|unfold const; lia].
    + destruct (Hids id (or_intror Hid)) as (n & -> & Hn). exists n. split; [done|unfold const; lia].
  - intros id Hid. apply lookup_insert_is_Some in Hid as [<-|[_ Hid]]; auto.
  - intros t id d Htm. apply lookup_insert_Some in Htm as [[<- Htm]|[Hne Htm]].
    + injection Htm as <- _. eexists. by rewrite lookup_insert_eq.
    + destruct (Ht t id d Htm) as (p & Hpid & Hpt). exists p. split; [|done].
      rewrite lookup_insert_ne; [done|]. intros <-. by rewrite Hp in Hpid.
Qed.

Lemma settle_ok reqId p v st :
  requests_ok st → pending st !! reqId = Some p →
  requests_ok (resolve reqId v
                 (clearTimeout (pend_timer p) st <| pending ::= delete reqId |>)).
Proof.
  intros [Hids Hw Ht] Hp. unfold resolve. simpl.
  rewrite (Hw reqId) by (by eexists). split; simpl.
  - intros id [Hid|Hid].
    + apply lookup_delete_is_Some in Hid as [_ Hid]. destruct (Hids id (or_introl Hid)) as (n & -> & Hn). by exists n.
    + apply lookup_insert_is_Some in Hid as [<-|[_ Hid]].
      * apply Hids. left. by eexists.
      * apply Hids. by right.
  - intros id Hid. apply lookup_delete_is_Some in Hid as [Hne Hid].
    rewrite lookup_insert_ne by done. by apply Hw.
  - intros t id d Htm. apply lookup_delete_Some in Htm as [Hne Htm].
    destruct (Ht t id d Htm) as (p' & Hp' & Hpt). exists p'. split; [|done].
    rewrite lookup_delete_ne; [done|]. intros <-. congruence.
Qed.

Lemma pending_entry_Some id st reqId p :
  pending_entry id st = Some (reqId, p) → id = JStr reqId ∧ pending st !! reqId = Some p.
Proof.
  unfold pending_entry. destruct id as [| | | |s| |]; try done.
  case_decide; [done|]. destruct (pending st !! s) as [p'|] eqn:E; simpl; [|done].
  by intros [= <- <-].
Qed.

Lemma handleMessage_obj_ok gwKey msg now st :
  requests_ok st → requests_ok (outcome_state (handleMessage_obj gwKey msg now st)).
Proof.
  intros Hok. unfold handleMessage_obj. cbv zeta.
  destruct (is_str (field msg "type") "event").
  { destruct (is_str (field msg "event") "connect.challenge").
    { pose proof (next_reqId_ok st Hok) as Hq. destruct (next_reqId st) as [reqId st1].
      destruct (gw_get gwKey st) as [[r g]|]; simpl in *; [|done].
      eapply calm_ok; [exact Hq | apply sendFrame_calm]. }
    destruct (is_str (field msg "event") "health").
    { destruct (gw_get gwKey st) as [[r g]|]; simpl; [|done].
      eapply calm_ok; [done | apply updateAll_calm]. }
    destruct (is_str (field msg "event") "presence").
    { destruct (gw_get gwKey st) as [[r g]|]; simpl; [|done].
      eapply calm_ok; [done | apply updateAll_calm]. }
    destruct (is_str (field msg "event") "tick"); [|done].
    destruct (gw_get gwKey st) as [[r g]|]; simpl; [|done].
    eapply calm_ok; [done | apply updateAll_calm]. }
  destruct (is_str (field msg "type") "res"); [|done].
  destruct (truthy (field msg "ok") && _).
  { destruct (gw_get gwKey st) as [[r g]|]; simpl; [|done].
    eapply calm_ok; [done|].
    eapply calm_trans; [|by apply setTimeout_calm].
    eapply calm_trans; [|apply updateAll_calm]. by apply calm_other. }
  destruct (negb (truthy (field msg "ok")) && _).
  { destruct (gw_get gwKey st) as [[r g]|]; simpl.
    - eapply calm_ok; [done|]. eapply calm_trans; [|apply updateAll_calm]. by apply calm_other.
    - eapply calm_ok; [done|]. by apply calm_other. }
  destruct (pending_entry (field msg "id") st) as [[reqId p]|] eqn:Hp; simpl; [|done].
  apply pending_entry_Some in Hp as [_ Hp]. by apply settle_ok.
Qed.

Lemma on_message_ok gwKey parsed now st :
  requests_ok st → requests_ok (on_message gwKey parsed now st).
Proof.
  intros Hok. unfold on_message, handleMessage. destruct parsed as [msg|]; [|done].
  destruct (get msg "type"); [by apply handleMessage_obj_ok | done].
Qed.

Lemma poll_calls_ok gwKey (reqs : list (string * Json)) acc st :
  requests_ok st →
  requests_ok (foldl (λ '(acc, s) '(m, p),
                        let '(c, s') := call gwKey m p s in (acc ++ [c], s'))
                     (acc, st) reqs).2.
Proof.
  revert acc st. induction reqs as [|[m p] reqs IH]; intros acc st Hok; simpl; [done|].
  pose proof (call_ok gwKey m p st Hok) as Hc.
  destruct (call gwKey m p st) as [c s']. by apply IH.
Qed.

Lemma pollGateway_issue_ok gwKey st :
  requests_ok st → requests_ok (pollGateway_issue gwKey st).2.
Proof.
  intros Hok. unfold pollGateway_issue. destruct (gw_get gwKey st) as [[r gw]|]; [|done].
  case_decide; [|done].
  pose proof (poll_calls_ok gwKey poll_requests [] st Hok) as Hq.
  by destruct (foldl _ _ poll_requests).
Qed.

Lemma fire_timer_ok t ctor st : requests_ok st → requests_ok (fire_timer t ctor st).
Proof.
  intros Hok. unfold fire_timer. destruct (timers st !! t) as [[act d]|] eqn:Htm; [|done].
  simpl. destruct act as [k|reqId|k].
  - eapply calm_ok; [|apply connect_calm]. eapply calm_ok; [done|]. apply (clearTimeout_calm t).
  - destruct (ro_timers st Hok t reqId d Htm) as (p & Hp & <-).
    apply (settle_ok reqId p JNull st Hok Hp).
  - apply pollGateway_issue_ok. eapply calm_ok; [done|]. apply (clearTimeout_calm t).
Qed.

Lemma init_requests_ok : requests_ok init.
Proof.
  split; simpl.
  - intros id [[? H]|[? H]]; by rewrite lookup_empty in H.
  - done.
  - intros t id d H. by rewrite lookup_empty in H.
Qed.

Lemma collectHostMetrics_calm reading st : calm st (CollectorRun.collectHostMetrics reading st).
Proof. destruct reading; [by apply calm_other | apply calm_refl]. Qed.

Lemma stop_gateways_calm st : calm st (CollectorRun.stop_gateways st).
Proof.
  unfold CollectorRun.stop_gateways. generalize (CollectorRun.gateway_entries st).
  intros l. revert st. induction l as [|kr l IH]; intros st; simpl; [apply calm_refl|].
  eapply calm_trans; [|apply IH].
  unfold CollectorRun.stop_gateway. destruct (gwHeap st !! kr.2) as [gw|]; [|apply calm_refl].
  destruct (gw_reconnectTimer gw) as [t|], (gw_ws gw) as [s|].
  - eapply calm_trans; [apply clearTimeout_calm | apply ws_close_calm].
  - apply clearTimeout_calm.
  - apply ws_close_calm.
  - apply calm_refl.
Qed.

Lemma step_requests_ok st st' : requests_ok st → step st st' → requests_ok st'.
Proof.
  intros Hok Hstep. destruct Hstep.
  - eapply calm_ok; [done | apply loadConfig_calm].
  - eapply calm_ok; [done | apply connect_calm].
  - eapply calm_ok; [done | apply ws_opened_calm].
  - eapply calm_ok; [done | apply ws_closed_calm].
  - eapply calm_ok; [done | apply ws_errored_calm].
  - by apply on_message_ok.
  - by apply call_ok.
  - by apply pollGateway_issue_ok.
  - eapply calm_ok; [done | apply pollGateway_resume_calm].
  - by apply fire_timer_ok.
  - eapply calm_ok; [done | apply collectHostMetrics_calm].
  - eapply calm_ok; [done | apply stop_gateways_calm].
Qed.

Lemma reachable_requests_ok st : reachable st → requests_ok st.
Proof. induction 1; [apply init_requests_ok | by eapply step_requests_ok]. Qed.

(** ** Socket and timer numbers *)

Lemma tidy_refl st : tidy st st.
Proof. split; auto. Qed.

Lemma tidy_trans st1 st2 st3 : tidy st1 st2 → tidy st2 st3 → tidy st1 st3.
Proof.
  intros [S1 T1 K1 M1] [S2 T2 K2 M2]. split; [lia..| |].
  - intros s Hs. destruct (K2 s Hs) as [H2|H2]; [|right; lia].
    destruct (K1 s H2) as [H1|H1]; [by left | right; lia].
  - intros t Ht. destruct (M2 t Ht) as [H2|H2]; [|right; lia].
    destruct (M1 t H2) as [H1|H1]; [by left | right; lia].
Qed.

Lemma tidy_fresh st st' : stores_fresh st → tidy st st' → stores_fresh st'.
Proof.
  intros [Hs Ht] [S T K M]. split.
  - intros s Hin. destruct (K s Hin) as [H|H]; [|lia]. specialize (Hs s H). lia.
  - intros t Hin. destruct (M t Hin) as [H|H]; [|lia]. specialize (Ht t H). lia.
Qed.

Lemma tidy_other st st' :
  sockets st' = sockets st → nextSock st' = nextSock st →
  timers st' = timers st → nextTimer st' = nextTimer st → tidy st st'.
Proof. intros S N T M. split; intros *; rewrite ?S, ?N, ?T, ?M; auto. Qed.

Lemma tidy_alter_socket (f : Socket → Socket) s st : tidy st (st <| sockets ::= alter f s |>).
Proof.
  split; simpl; auto. intros s' Hs'. left.
  destruct (decide (s' = s)) as [->|Hne].
  - rewrite lookup_alter_eq in Hs'. by apply fmap_is_Some in Hs'.
  - by rewrite lookup_alter_ne in Hs'.
Qed.

Lemma clearTimeout_tidy t st : tidy st (clearTimeout t st).
Proof.
  split; simpl; auto. intros t' Ht'. left. by apply lookup_delete_is_Some in Ht' as [_ ?].
Qed.

Lemma setTimeout_tidy act delay st : tidy st (setTimeout act delay st).2.
Proof.
  split; simpl; auto. intros t Ht.
  apply lookup_insert_is_Some in Ht as [<-|[_ Ht]]; [right; lia | by left].
Qed.

Lemma ws_close_tidy s st : tidy st (ws_close s st).
Proof. apply tidy_alter_socket. Qed.

Lemma updateAll_tidy l partial st : tidy st (updateAll l partial st).
Proof.
  apply tidy_other; auto using updateAll_sockets, updateAll_nextSock, updateAll_timers,
    updateAll_nextTimer.
Qed.

Lemma scheduleReconnect_tidy gwKey st : tidy st (scheduleReconnect gwKey st).
Proof.
  unfold scheduleReconnect. destruct (gw_get gwKey st) as [[r gw]|]; [|apply tidy_refl].
  set (st1 := match gw_reconnectTimer gw with Some t => clearTimeout t st | None => st end).
  assert (tidy st st1) as H1.
  { unfold st1. destruct (gw_reconnectTimer gw); [apply clearTimeout_tidy | apply tidy_refl]. }
  pose proof (setTimeout_tidy (TReconnect gwKey) 10000 st1) as H2.
  destruct (setTimeout (TReconnect gwKey) 10000 st1) as [t st2]. simpl in H2.
  eapply tidy_trans; [exact H1|]. eapply tidy_trans; [exact H2|]. by apply tidy_other.
Qed.

Lemma connect_tidy gwKey ctor st : tidy st (connect gwKey ctor st).
Proof.
  unfold connect. destruct (gw_get gwKey st) as [[r gw]|]; [|apply tidy_refl].
  set (st1 := match gw_ws gw with Some s => ws_close s st | None => st end).
  assert (tidy st st1) as H1.
  { unfold st1. destruct (gw_ws gw); [apply ws_close_tidy | apply tidy_refl]. }
  destruct ctor as [m|].
  - eapply tidy_trans; [exact H1|]. eapply tidy_trans; [apply updateAll_tidy|].
    apply scheduleReconnect_tidy.
  - eapply tidy_trans; [exact H1|]. split; simpl; auto.
    intros s Hs. apply lookup_insert_is_Some in Hs as [<-|[_ Hs]]; [right; lia | by left].
Qed.

Lemma on_close_tidy gwKey gw code st : tidy st (on_close gwKey gw code st).
Proof.
  unfold on_close. eapply tidy_trans; [|apply scheduleReconnect_tidy].
  eapply tidy_trans; [|apply updateAll_tidy]. by apply tidy_other.
Qed.

Lemma set_readyState_tidy s rs st : tidy st (set_readyState s rs st).
Proof. apply tidy_alter_socket. Qed.

Lemma sendFrame_tidy gwKey frame st : tidy st (sendFrame gwKey frame st).
Proof. unfold sendFrame. case_match; [apply tidy_alter_socket | apply tidy_refl]. Qed.

Lemma resolve_tidy reqId v st : tidy st (resolve reqId v st).
Proof. unfold resolve. case_match; [apply tidy_refl | by apply tidy_other]. Qed.

Lemma call_tidy gwKey method params st : tidy st (call gwKey method params st).2.
Proof.
  destruct (call_cases gwKey method params st) as [->|(r & gw & s & Hg & Hc & Hs)];
    [apply tidy_refl|].
  rewrite (call_connected _ _ _ _ _ _ _ Hg Hc Hs). cbv zeta. split; simpl; auto.
  - intros s' Hs'. left. destruct (decide (s' = s)) as [->|Hne].
    + rewrite lookup_alter_eq in Hs'. by apply fmap_is_Some in Hs'.
    + by rewrite lookup_alter_ne in Hs'.
  - intros t Ht. apply lookup_insert_is_Some in Ht as [<-|[_ Ht]]; [right; lia | by left].
Qed.

Lemma foldl_tidy {A} (f : State → A → State) :
  (∀ s x, tidy s (f s x)) → ∀ l s, tidy s (foldl f s l).
Proof.
  intros Hf l. induction l as [|x l IH]; intros s; simpl; [apply tidy_refl|].
  eapply tidy_trans; [apply Hf | apply IH].
Qed.

Lemma poll_calls_tidy gwKey (reqs : list (string * Json)) acc st :
  tidy st (foldl (λ '(acc, s) '(m, p),
                    let '(c, s') := call gwKey m p s in (acc ++ [c], s'))
                 (acc, st) reqs).2.
Proof.
  revert acc st. induction reqs as [|[m p] reqs IH]; intros acc st; simpl; [apply tidy_refl|].
  pose proof (call_tidy gwKey m p st) as Hc.
  destruct (call gwKey m p st) as [c s']. eapply tidy_trans; [exact Hc | apply IH].
Qed.

Lemma pollGateway_issue_tidy gwKey st : tidy st (pollGateway_issue gwKey st).2.
Proof.
  unfold pollGateway_issue. destruct (gw_get gwKey st) as [[r gw]|]; [|apply tidy_refl].
  case_decide; [|apply tidy_refl].
  pose proof (poll_calls_tidy gwKey poll_requests [] st) as Hq.
  by destruct (foldl _ _ poll_requests).
Qed.

Lemma poll_split_tidy n res now l st : tidy st (outcome_state (poll_split n res now l st)).
Proof.
  revert st. induction l as [|a l IH]; intros st; simpl; [apply tidy_refl|].
  destruct (agent_update n res now a) as [u|]; [|apply tidy_refl].
  eapply tidy_trans; [|apply IH]. by apply tidy_other.
Qed.

Lemma handleMessage_obj_tidy gwKey msg now st :
  tidy st (outcome_state (handleMessage_obj gwKey msg now st)).
Proof.
  unfold handleMessage_obj. cbv zeta.
  destruct (is_str (field msg "type") "event").
  { destruct (is_str (field msg "event") "connect.challenge").
    { unfold next_reqId. destruct (gw_get gwKey st) as [[r g]|]; simpl.
      - eapply tidy_trans; [|apply sendFrame_tidy]. by apply tidy_other.
      - by apply tidy_other. }
    destruct (is_str (field msg "event") "health").
    { destruct (gw_get gwKey st) as [[r g]|]; simpl; [apply updateAll_tidy | apply tidy_refl]. }
    destruct (is_str (field msg "event") "presence").
    { destruct (gw_get gwKey st) as [[r g]|]; simpl; [apply updateAll_tidy | apply tidy_refl]. }
    destruct (is_str (field msg "event") "tick"); [|apply tidy_refl].
    destruct (gw_get gwKey st) as [[r g]|]; simpl; [apply updateAll_tidy | apply tidy_refl]. }
  destruct (is_str (field msg "type") "res"); [|apply tidy_refl].
  destruct (truthy (field msg "ok") && _).
  { destruct (gw_get gwKey st) as [[r g]|]; simpl; [|apply tidy_refl].
    eapply tidy_trans; [|apply setTimeout_tidy].
    eapply tidy_trans; [|apply updateAll_tidy]. by apply tidy_other. }
  destruct (negb (truthy (field msg "ok")) && _).
  { destruct (gw_get gwKey st) as [[r g]|]; simpl.
    - eapply tidy_trans; [|apply updateAll_tidy]. by apply tidy_other.
    - by apply tidy_other. }
  destruct (pending_entry (field msg "id") st) as [[reqId p]|]; simpl; [|apply tidy_refl].
  eapply tidy_trans; [|apply resolve_tidy].
  eapply tidy_trans; [apply clearTimeout_tidy | by apply tidy_other].
Qed.

Lemma loadConfig_tidy cfg st : tidy st (loadConfig_parsed cfg st).
Proof.
  unfold loadConfig_parsed, remove_empty, clear_agent_lists, prune. cbv zeta.
  eapply tidy_trans; [|apply foldl_tidy].
  2:{ intros s kr. unfold remove_if_empty. destruct (gwHeap s !! kr.2) as [gw|]; [|apply tidy_refl].
      case_decide; [|apply tidy_refl].
      set (s1 := match gw_ws gw with Some x => ws_close x s | None => s end).
      assert (tidy s s1) as H1.
      { unfold s1. destruct (gw_ws gw); [apply ws_close_tidy | apply tidy_refl]. }
      set (s2 := match gw_reconnectTimer gw with Some t => clearTimeout t s1 | None => s1 end).
      assert (tidy s1 s2) as H2.
      { unfold s2. destruct (gw_reconnectTimer gw); [apply clearTimeout_tidy | apply tidy_refl]. }
      eapply tidy_trans; [exact H1|]. eapply tidy_trans; [exact H2|]. by apply tidy_other. }
  eapply tidy_trans; [|apply foldl_tidy].
  2:{ intros s a. unfold add_agent, ensure_record, list_agent, ensure_gateway, register_agent.
      repeat case_match; by apply tidy_other. }
  eapply tidy_trans; [|apply foldl_tidy; intros; by apply tidy_other].
  eapply tidy_trans; [|apply foldl_tidy].
  2:{ intros s x. unfold prune_one. case_decide; [apply tidy_refl | by apply tidy_other]. }
  by apply tidy_other.
Qed.

Lemma fire_timer_tidy t ctor st : tidy st (fire_timer t ctor st).
Proof.
  unfold fire_timer. destruct (timers st !! t) as [[act d]|]; [|apply tidy_refl]. simpl.
  eapply tidy_trans; [apply (clearTimeout_tidy t)|]. destruct act.
  - apply connect_tidy.
  - unfold on_request_timeout. eapply tidy_trans; [|apply resolve_tidy]. by apply tidy_other.
  - apply pollGateway_issue_tidy.
Qed.

Lemma stop_gateways_tidy st : tidy st (CollectorRun.stop_gateways st).
Proof.
  unfold CollectorRun.stop_gateways. generalize (CollectorRun.gateway_entries st).
  intros l. revert st. induction l as [|kr l IH]; intros st; simpl; [apply tidy_refl|].
  eapply tidy_trans; [|apply IH].
  unfold CollectorRun.stop_gateway. destruct (gwHeap st !! kr.2) as [gw|]; [|apply tidy_refl].
  destruct (gw_reconnectTimer gw) as [t|], (gw_ws gw) as [s|].
  - eapply tidy_trans; [apply clearTimeout_tidy | apply ws_close_tidy].
  - apply clearTimeout_tidy.
  - apply ws_close_tidy.
  - apply tidy_refl.
Qed.

Lemma step_tidy st st' : step st st' → tidy st st'.
Proof.
  destruct 1.
  - apply loadConfig_tidy.
  - apply connect_tidy.
  - unfold ws_opened, on_open. eapply tidy_trans; [apply set_readyState_tidy|].
    by apply tidy_other.
  - unfold ws_closed. eapply tidy_trans; [apply set_readyState_tidy | apply on_close_tidy].
  - unfold ws_errored, on_error. eapply tidy_trans; [apply set_readyState_tidy|].
    eapply tidy_trans; [|apply updateAll_tidy]. by apply tidy_other.
  - unfold on_message, handleMessage. destruct parsed as [msg|]; [|apply tidy_refl].
    destruct (get msg "type"); [apply handleMessage_obj_tidy | apply tidy_refl].
  - apply call_tidy.
  - apply pollGateway_issue_tidy.
  - unfold pollGateway_resume. cbv zeta. eapply tidy_trans; [|apply poll_split_tidy].
    by apply tidy_other.
  - apply fire_timer_tidy.
  - destruct reading; [by apply tidy_other | apply tidy_refl].
  - apply stop_gateways_tidy.
Qed.

Lemma init_fresh : stores_fresh init.
Proof. split; intros x [? H]; simpl in H; by rewrite lookup_empty in H. Qed.

Lemma reachable_fresh st : reachable st → stores_fresh st.
Proof.
  induction 1; [apply init_fresh|]. eapply tidy_fresh; [done|]. by apply step_tidy.
Qed.

(** X3. In every state that the collector reaches (from a new instance by
    [start()], [stop()], configuration loads, connection attempts, socket
    events, inbound frames, requests, polls, timers and readings of the host
    metrics) with a request counter below 2^53, the ids of the requests that
    wait for an answer or are settled are the decimals of numbers from 1 to
    the request counter, and no waiting request is settled. So the id that
    [_call] gives a new request is neither waiting nor settled: a request
    never takes the place of another one in the pending map. *)
Theorem X3_request_ids_are_never_reused st :
  reachable st →
  (reqCounter st < 2 ^ 53)%N →
  (∀ id, is_Some (pending st !! id) ∨ is_Some (resolved st !! id) →
         ∃ n, id = pretty n ∧ (1 ≤ n ≤ reqCounter st)%N) ∧
  (∀ id, is_Some (pending st !! id) → resolved st !! id = None) ∧
  (∀ gwKey method params reqId st',
     call gwKey method params st = (Awaiting reqId, st') →
     pending st !! reqId = None ∧ resolved st !! reqId = None ∧
     ∃ p, pending st' = <[reqId := p]> (pending st)).
Proof.
  intros Hok%reachable_requests_ok _. split_and!; [apply Hok..|].
  intros gwKey method params reqId st' Hcall.
  destruct (call_cases gwKey method params st) as [Hn|(r & gw & s & Hg & Hc & Hs)];
    [congruence|].
  rewrite (call_connected _ _ _ _ _ _ _ Hg Hc Hs) in Hcall. cbv zeta in Hcall.
  injection Hcall as <- <-.
  destruct (fresh_id st (N.succ (reqCounter st)) Hok ltac:(lia)) as [Hp Hr].
  split_and!; [done..|]. by eexists.
Qed.

Lemma online_counter : (reqCounter online < 2 ^ 53)%N.
Proof. vm_compute. reflexivity. Qed.

Lemma X3_request_ids_witness :
  reachable online ∧ (reqCounter online < 2 ^ 53)%N ∧
  ∀ gwKey method params reqId st',
    call gwKey method params online = (Awaiting reqId, st') →
    pending online !! reqId = None ∧ resolved online !! reqId = None ∧
    ∃ p, pending st' = <[reqId := p]> (pending online).
Proof.
  split; [apply online_reachable|]. split; [apply online_counter|].
  apply (X3_request_ids_are_never_reused online online_reachable online_counter).
Defined.

(** A response that is neither a greeting nor a failure with an error. *)
Lemma handleMessage_plain gwKey msg now st :
  is_str (field msg "type") "res" = true →
  truthy (field msg "ok") && is_str (opt_get (field msg "payload") "type") "hello-ok" = false →
  negb (truthy (field msg "ok")) && truthy (field msg "error") = false →
  handleMessage gwKey msg now st =
    match pending_entry (field msg "id") st with
    | Some (reqId, p) =>
        Returned (resolve reqId (if truthy (field msg "ok") then field msg "payload" else JNull)
                    (clearTimeout (pend_timer p) st <| pending ::= delete reqId |>))
    | None => Returned st
    end.
Proof.
  intros Hres Hh He. destruct (handleMessage_res gwKey msg now st Hres) as [-> Hev].
  unfold handleMessage_obj. by rewrite Hev, Hres, Hh, He.
Qed.

(** X4. A request and its answer, in a state that the collector reaches
    (as in X3) with a request counter below 2^53. When [_call] has sent a
    request on a connected gateway and a response with the id of that
    request arrives (one that is neither a greeting nor a failure carrying
    an error), the promise of the request is settled with the payload of the
    response, or with [null] when [ok] is not truthy; the timeout timer of
    the request is disarmed and its entry leaves the pending map: the
    pending map and the armed timers are again what they were before the
    request, and no state record has changed. *)
Theorem X4_answer_settles_request gwKey method params st reqId st1 msg now :
  reachable st →
  (reqCounter st < 2 ^ 53)%N →
  call gwKey method params st = (Awaiting reqId, st1) →
  is_str (field msg "type") "res" = true →
  field msg "id" = JStr reqId →
  truthy (field msg "ok") && is_str (opt_get (field msg "payload") "type") "hello-ok" = false →
  negb (truthy (field msg "ok")) && truthy (field msg "error") = false →
  ∃ st2, handleMessage gwKey msg now st1 = Returned st2 ∧
    resolved st2 !! reqId
      = Some (if truthy (field msg "ok") then field msg "payload" else JNull) ∧
    pending st2 = pending st ∧
    timers st2 = timers st ∧
    state st2 = state st.
Proof.
  intros Hreach _ Hcall Hres Hid Hh He.
  pose proof (reachable_requests_ok st Hreach) as Hok.
  destruct (reachable_fresh st Hreach) as [_ Hfresh].
  destruct (call_cases gwKey method params st) as [Hn|(r & gw & s & Hg & Hc & Hs)];
    [congruence|].
  rewrite (call_connected _ _ _ _ _ _ _ Hg Hc Hs) in Hcall. cbv zeta in Hcall.
  injection Hcall as <- <-.
  destruct (fresh_id st (N.succ (reqCounter st)) Hok ltac:(lia)) as [Hp Hr].
  rewrite (handleMessage_plain _ _ _ _ Hres Hh He), Hid.
  unfold pending_entry. rewrite decide_False by apply pretty_N_nonempty.
  simpl. rewrite lookup_insert_eq. simpl.
  eexists. split; [reflexivity|]. unfold resolve. simpl. rewrite Hr. simpl.
  split_and!.
  - by rewrite lookup_insert_eq.
  - by rewrite delete_insert_eq, delete_id.
  - rewrite delete_insert_eq, delete_id; [done|].
    apply eq_None_not_Some. intros Hin. specialize (Hfresh _ Hin). lia.
  - done.
Qed.

Lemma asked_call : call key_alice "health" (JObj []) online = (Awaiting "2", asked).
Proof. vm_compute. reflexivity. Qed.

Lemma X4_answer_witness :
  ∃ st2, handleMessage key_alice answer 2000 asked = Returned st2 ∧
         resolved st2 !! "2" = Some (JObj [("agents", JArr [])]).
Proof.
  destruct (X4_answer_settles_request key_alice "health" (JObj []) online "2" asked answer 2000
              online_reachable online_counter asked_call)
    as (st2 & H1 & H2 & _); [vm_compute; reflexivity..|].
  exists st2. split; [exact H1|]. rewrite H2. vm_compute. reflexivity.
Defined.

(** X5. A failed response ([ok] not truthy) that carries a truthy [error]
    is handled as a connection error whatever its id is: every agent listed
    on the gateway is marked offline with the message of the error, the
    message is logged, and the pending map, the settled promises and the
    armed timers stay as they are. A request with the id of such a response
    keeps waiting, for its timeout. *)
Theorem X5_failed_answer_marks_offline gwKey msg now st r g :
  is_str (field msg "type") "res" = true →
  truthy (field msg "ok") = false →
  truthy (field msg "error") = true →
  gw_get gwKey st = Some (r, g) →
  ∃ st', handleMessage gwKey msg now st = Returned st' ∧
    (∀ a, a ∈ gw_agents g →
       ∃ rec, state st' !! agent_id a = Some rec ∧
              assoc "online" rec = Some (JBool false) ∧
              assoc "error" rec = Some (field (field msg "error") "message")) ∧
    pending st' = pending st ∧
    resolved st' = resolved st ∧
    timers st' = timers st ∧
    console st' = console st ++ [[JStr ("[" +:+ gwKey +:+ "] connect error:");
                                  field (field msg "error") "message"]].
Proof.
  intros Hres Hok Herr Hget.
  destruct (handleMessage_res gwKey msg now st Hres) as [-> Hev].
  unfold handleMessage_obj. rewrite Hev, Hres, Hok, Herr, Hget. cbv zeta. simpl andb. cbv iota.
  eexists. split; [reflexivity|].
  set (st1 := st <| console ::= _ |>).
  set (partial := [("online", JBool false); _]).
  split_and!.
  - intros a Ha.
    destruct (updateAll_marks (gw_agents g) a partial st1 Ha) as (rec & Hrec & Hc).
    exists rec. split; [done|]. split; by apply Hc.
  - by rewrite updateAll_pending.
  - by rewrite updateAll_resolved.
  - by rewrite updateAll_timers.
  - unfold updateAll. by rewrite (foldl_preserves _ console).
Qed.

Lemma asked_gateway : ∃ g, gw_get key_alice asked = Some (0, g) ∧ length (gw_agents g) = 2.
Proof. eexists. split; [vm_compute; reflexivity | reflexivity]. Qed.

Lemma X5_failed_answer_witness :
  ∃ st', handleMessage key_alice refusal 2000 asked = Returned st' ∧
         is_Some (pending st' !! "2").
Proof.
  destruct asked_gateway as (g & Hg & _).
  destruct (X5_failed_answer_marks_offline key_alice refusal 2000 asked 0 g)
    as (st' & H1 & _ & H2 & _); [vm_compute; reflexivity..|exact Hg|].
  exists st'. split; [exact H1|]. rewrite H2. vm_compute. by eexists.
Defined.

(** X6. A request and its timeout, in a state that the collector reaches
    (as in X3) with a request counter below 2^53. [_call] arms one timer of
    10000 ms for the request it sends. When that timer fires before an
    answer has come,
    the promise is settled with [null] and the request leaves the pending
    map, so that the pending map and the armed timers are again what they
    were before the request; an answer that arrives after that (neither a
    greeting nor a failure carrying an error) changes nothing. *)
Theorem X6_timeout_settles_with_null gwKey method params st reqId st1 ctor msg now :
  reachable st →
  (reqCounter st < 2 ^ 53)%N →
  call gwKey method params st = (Awaiting reqId, st1) →
  ∃ t, timers st1 !! t = Some (request_timer reqId) ∧
       let st2 := fire_timer t ctor st1 in
       resolved st2 !! reqId = Some JNull ∧
       pending st2 = pending st ∧
       timers st2 = timers st ∧
       (is_str (field msg "type") "res" = true →
        field msg "id" = JStr reqId →
        truthy (field msg "ok") && is_str (opt_get (field msg "payload") "type") "hello-ok"
          = false →
        negb (truthy (field msg "ok")) && truthy (field msg "error") = false →
        handleMessage gwKey msg now st2 = Returned st2).
Proof.
  intros Hreach _ Hcall.
  pose proof (reachable_requests_ok st Hreach) as Hok.
  destruct (reachable_fresh st Hreach) as [_ Hfresh].
  destruct (call_cases gwKey method params st) as [Hn|(r & gw & s & Hg & Hc & Hs)];
    [congruence|].
  rewrite (call_connected _ _ _ _ _ _ _ Hg Hc Hs) in Hcall. cbv zeta in Hcall.
  injection Hcall as <- <-.
  destruct (fresh_id st (N.succ (reqCounter st)) Hok ltac:(lia)) as [Hp Hr].
  exists (nextTimer st). split; [simpl; by rewrite lookup_insert_eq|].
  unfold fire_timer. simpl. rewrite lookup_insert_eq. simpl.
  unfold on_request_timeout, resolve. simpl. rewrite Hr. simpl.
  assert (delete (nextTimer st) (<[nextTimer st := request_timer (pretty (N.succ (reqCounter st)))]>
                                   (timers st)) = timers st) as Htimers.
  { rewrite delete_insert_eq, delete_id; [done|].
    apply eq_None_not_Some. intros Hin. specialize (Hfresh _ Hin). lia. }
  assert (delete (pretty (N.succ (reqCounter st)))
            (<[pretty (N.succ (reqCounter st)) := {| pend_timer := nextTimer st |}]> (pending st))
          = pending st) as Hpending by (by rewrite delete_insert_eq, delete_id).
  split_and!.
  - by rewrite lookup_insert_eq.
  - done.
  - done.
  - intros Hres Hid Hh He. rewrite (handleMessage_plain _ _ _ _ Hres Hh He), Hid.
    unfold pending_entry. rewrite decide_False by apply pretty_N_nonempty.
    simpl. by rewrite Hpending, Hp.
Qed.

Lemma X6_timeout_witness :
  ∃ t, timers asked !! t = Some (request_timer "2") ∧
       resolved (fire_timer t None asked) !! "2" = Some JNull.
Proof.
  destruct (X6_timeout_settles_with_null key_alice "health" (JObj []) online "2" asked None
              answer 2000 online_reachable online_counter asked_call) as (t & Ht & Hr & _).
  exists t. split; [exact Ht | exact Hr].
Defined.

End CollectorMore.


(* ===================================================================== *)
(** * Reloading the configuration of a running collector *)
(* ===================================================================== *)

Module CollectorReload.
Import Js JsFacts Collector CollectorProps CollectorRun CollectorMoreProps.
Import CollectorFacts CollectorEvents CollectorInv CollectorMore Samples MoreSamples.

(** ** What the loops of [loadConfig] emit *)

Lemma prune_fold_emitted ids L st :
  emitted (foldl (prune_one ids) st L)
  = emitted st ++ (removed_event <$> filter (λ id, id ∉ ids) L).
Proof.
  revert st. induction L as [|x L IH]; intros st; simpl foldl.
  - by rewrite filter_nil, fmap_nil, app_nil_r.
  - rewrite IH. unfold prune_one. rewrite filter_cons. case_decide as Hx.
    + by rewrite decide_False by tauto.
    + rewrite decide_True by done. simpl. by rewrite <- app_assoc.
Qed.

Lemma add_agent_emitted st a : emitted (add_agent st a) = emitted st.
Proof.
  unfold add_agent, ensure_record, list_agent, ensure_gateway, register_agent.
  by repeat case_match.
Qed.

Lemma remove_if_empty_emitted st kr : emitted (remove_if_empty st kr) = emitted st.
Proof. unfold remove_if_empty. by repeat (case_match || case_decide). Qed.

Lemma loadConfig_emitted cfg st :
  emitted (loadConfig_parsed cfg st)
  = emitted st ++ (removed_event <$>
                     filter (λ id, id ∉ (list_to_set (agent_id <$> cfg_agents cfg) : gset string))
                            (map_to_list (agents st)).*1).
Proof.
  unfold loadConfig_parsed, remove_empty. cbv zeta.
  rewrite (foldl_preserves _ emitted) by apply remove_if_empty_emitted.
  rewrite (foldl_preserves _ emitted) by apply add_agent_emitted.
  unfold clear_agent_lists. rewrite (foldl_preserves _ emitted) by done.
  unfold prune. by rewrite prune_fold_emitted.
Qed.

(** ** Links through the loop over the configured agents *)

Lemma add_agent_link st a k r gw :
  gw_wf st → gateways st !! k = Some r → gwHeap st !! r = Some gw →
  gateways (add_agent st a) !! k = Some r ∧
  ∃ gw', gwHeap (add_agent st a) !! r = Some gw' ∧ link_of gw' = link_of gw.
Proof.
  intros (Href & Hlt & Hinj) Hk Hr. rewrite add_agent_gateways, add_agent_gwHeap.
  destruct (gateways st !! gwKey_of a) as [r'|] eqn:E.
  - split; [done|]. destruct (decide (r' = r)) as [->|Hne].
    + rewrite lookup_alter_eq, Hr. simpl. by eexists.
    + rewrite lookup_alter_ne by done. by eexists.
  - split.
    + rewrite lookup_insert_ne; [done|]. intros Heq. by rewrite Heq, Hk in E.
    + exists gw. split; [|done]. rewrite lookup_insert_ne; [done|].
      intros <-. specialize (Hlt (nextGw st) ltac:(by eexists)). lia.
Qed.

Lemma add_fold_link l seen st k r gw :
  loop_inv seen st → gateways st !! k = Some r → gwHeap st !! r = Some gw →
  gateways (foldl add_agent st l) !! k = Some r ∧
  ∃ gw', gwHeap (foldl add_agent st l) !! r = Some gw' ∧ link_of gw' = link_of gw.
Proof.
  revert seen st gw. induction l as [|a l IH]; intros seen st gw H Hk Hr; simpl.
  - split; [done|]. by exists gw.
  - destruct (add_agent_link st a k r gw) as (Hk' & gw' & Hr' & Ht); [apply H|done..|].
    destruct (IH (seen ++ [a]) (add_agent st a) gw') as (Hk'' & gw'' & Hr'' & Ht');
      [by apply loop_inv_step|done..|].
    split; [done|]. exists gw''. split; [done|]. congruence.
Qed.

Lemma loaded_link cfg st k r gw :
  gw_wf st → gateways st !! k = Some r → gwHeap st !! r = Some gw →
  gateways (loaded cfg st) !! k = Some r ∧
  ∃ gw', gwHeap (loaded cfg st) !! r = Some gw' ∧ link_of gw' = link_of gw.
Proof.
  intros Hwf Hk Hr. unfold loaded.
  set (st1 := prune _ (st <| config := Some cfg |>)).
  assert (gateways st1 !! k = Some r) as Hk1 by (unfold st1; by rewrite prune_gateways).
  assert (gwHeap st1 !! r = Some gw) as Hr1 by (unfold st1; by rewrite prune_gwHeap).
  eapply (add_fold_link _ [] _ k r (clear_agents gw)).
  - apply loop_inv_start, gw_wf_prune, gw_wf_config, Hwf.
  - by rewrite clear_gateways.
  - by rewrite (clear_heap_listed st1 k r), Hr1.
Qed.

(** Gateways that the loop creates are idle. *)
Lemma add_agent_idle (known : gmap string nat) st a :
  gw_wf st →
  (∀ k r, known !! k = None → gateways st !! k = Some r →
          ∃ gw, gwHeap st !! r = Some gw ∧ idle gw) →
  ∀ k r, known !! k = None → gateways (add_agent st a) !! k = Some r →
         ∃ gw, gwHeap (add_agent st a) !! r = Some gw ∧ idle gw.
Proof.
  intros (Href & Hlt & Hinj) Hidle k r Hnone. rewrite add_agent_gateways, add_agent_gwHeap.
  destruct (gateways st !! gwKey_of a) as [r'|] eqn:E.
  - intros Hk. destruct (Hidle k r Hnone Hk) as (gw & Hgw & Hi).
    destruct (decide (r' = r)) as [->|Hne].
    + rewrite lookup_alter_eq, Hgw. simpl. by eexists.
    + rewrite lookup_alter_ne by done. by eexists.
  - destruct (decide (k = gwKey_of a)) as [->|Hne].
    + rewrite lookup_insert_eq. intros [= <-]. rewrite lookup_insert_eq. by eexists.
    + rewrite lookup_insert_ne by done. intros Hk.
      destruct (Hidle k r Hnone Hk) as (gw & Hgw & Hi). exists gw. split; [|done].
      rewrite lookup_insert_ne; [done|].
      intros <-. specialize (Hlt (nextGw st) ltac:(by eexists)). lia.
Qed.

Lemma add_fold_idle (known : gmap string nat) l seen st :
  loop_inv seen st →
  (∀ k r, known !! k = None → gateways st !! k = Some r →
          ∃ gw, gwHeap st !! r = Some gw ∧ idle gw) →
  ∀ k r, known !! k = None → gateways (foldl add_agent st l) !! k = Some r →
         ∃ gw, gwHeap (foldl add_agent st l) !! r = Some gw ∧ idle gw.
Proof.
  revert seen st. induction l as [|a l IH]; intros seen st H Hidle; simpl; [done|].
  apply (IH (seen ++ [a])); [by apply loop_inv_step|].
  apply add_agent_idle; [apply H | done].
Qed.

Lemma loaded_idle cfg st k r :
  gw_wf st → gateways st !! k = None → gateways (loaded cfg st) !! k = Some r →
  ∃ gw, gwHeap (loaded cfg st) !! r = Some gw ∧ idle gw.
Proof.
  intros Hwf Hnone. unfold loaded.
  apply (add_fold_idle (gateways st) _ []); [|  |done].
  - apply loop_inv_start, gw_wf_prune, gw_wf_config, Hwf.
  - intros k' r' Hn. rewrite clear_gateways, prune_gateways. simpl. congruence.
Qed.

(** ** Sockets and timers through a load *)





(** X7. A reload keeps what is live. After [loadConfig] on a running
    collector, an agent that stays configured keeps its state record as it
    was; an agent that left the configuration loses its record and its
    entry; the events of the load are exactly one [update] event with
    [removed: true] for each agent that left, appended to the log, and no
    other; and a gateway that is still used by a configured agent keeps its
    gateway object with its socket, its connection state and its reconnect
    timer. *)
Theorem X7_reload_keeps_what_is_live cfg st :
  gw_wf st →
  let st' := loadConfig_parsed cfg st in
  (∀ a rec, a ∈ cfg_agents cfg → state st !! agent_id a = Some rec →
            state st' !! agent_id a = Some rec) ∧
  (∀ id, id ∈ dom (agents st) → id ∉ agent_id <$> cfg_agents cfg →
         state st' !! id = None ∧ agents st' !! id = None) ∧
  (∃ left_ids, emitted st' = emitted st ++ (removed_event <$> left_ids) ∧
               NoDup left_ids ∧
               ∀ id, id ∈ left_ids ↔
                     id ∈ dom (agents st) ∧ id ∉ agent_id <$> cfg_agents cfg) ∧
  (∀ a r gw, a ∈ cfg_agents cfg → gw_get (gwKey_of a) st = Some (r, gw) →
             ∃ gw', gw_get (gwKey_of a) st' = Some (r, gw') ∧ link_of gw' = link_of gw).
Proof.
  intros Hwf st'. unfold st'. split_and!.
  - intros a rec Ha Hrec. rewrite loadConfig_state, decide_True, Hrec; [done|].
    apply list_elem_of_fmap. by exists a.
  - intros id Hid Hout. split.
    + rewrite loadConfig_state, decide_False, decide_True; done.
    + apply not_elem_of_dom. rewrite loadConfig_agents_dom, elem_of_list_to_set. done.
  - eexists. split; [apply loadConfig_emitted|]. split.
    + apply NoDup_filter, NoDup_fst_map_to_list.
    + intros id. rewrite list_elem_of_filter, elem_of_list_to_set, <-agent_keys_spec. tauto.
  - intros a r gw Ha [Hk Hr]%gw_get_Some.
    destruct (loaded_link cfg st _ r gw Hwf Hk Hr) as (Hk' & gw' & Hr' & Hl).
    exists gw'. split; [|done].
    unfold gw_get. rewrite loadConfig_gateways_lookup by done.
    rewrite decide_True by (apply list_elem_of_fmap; by exists a).
    rewrite Hk'. simpl. by rewrite loadConfig_gwHeap, Hr'.
Qed.

Lemma X7_reload_witness :
  gw_wf online ∧
  ∃ rec, state online !! "alice" = Some rec ∧
         state (loadConfig_parsed carol_joins online) !! "alice" = Some rec.
Proof.
  pose proof (inv_wf online (reachable_inv online online_reachable)) as Hwf.
  split; [exact Hwf|].
  destruct (X7_reload_keeps_what_is_live carol_joins online Hwf) as (Hkeep & _).
  assert (∃ rec, state online !! "alice" = Some rec) as [rec E]
    by (eexists; vm_compute; reflexivity).
  exists rec. split; [exact E|].
  apply (Hkeep (agent "alice" "abcdefgh-alice") rec); [|exact E].
  apply elem_of_cons. left. reflexivity.
Defined.

Lemma loadConfig_new_idle cfg st k r :
  gw_wf st → gateways st !! k = None → gateways (loadConfig_parsed cfg st) !! k = Some r →
  ∃ gw, gwHeap (loadConfig_parsed cfg st) !! r = Some gw ∧ idle gw.
Proof.
  intros Hwf Hnone Hk. rewrite loadConfig_parsed_eq in *. rewrite remove_empty_gwHeap.
  rewrite remove_empty_gateways in Hk.
  destruct (gateways (loaded cfg st) !! k) as [r'|] eqn:E; [|done].
  destruct (dropped (loaded cfg st) r'); [done|]. injection Hk as <-.
  by apply (loaded_idle cfg st k).
Qed.



End CollectorReload.


(* ===================================================================== *)
(** * Starting and stopping *)
(* ===================================================================== *)

Module CollectorRunFacts.
Import Js JsFacts Collector CollectorProps CollectorRun CollectorMoreProps.
Import CollectorFacts CollectorEvents CollectorInv CollectorMore CollectorReload.
Import Samples MoreSamples.

(** ** stop *)

Lemma stop_gateway_fields st kr :
  gateways (stop_gateway st kr) = gateways st ∧
  gwHeap (stop_gateway st kr) = gwHeap st ∧
  agents (stop_gateway st kr) = agents st ∧
  state (stop_gateway st kr) = state st ∧
  pending (stop_gateway st kr) = pending st ∧
  nextTimer (stop_gateway st kr) = nextTimer st ∧
  emitted (stop_gateway st kr) = emitted st.
Proof. unfold stop_gateway. by repeat case_match. Qed.

Lemma stop_fold_fields (L : list (string * nat)) st :
  gateways (foldl stop_gateway st L) = gateways st ∧
  gwHeap (foldl stop_gateway st L) = gwHeap st ∧
  agents (foldl stop_gateway st L) = agents st ∧
  state (foldl stop_gateway st L) = state st ∧
  pending (foldl stop_gateway st L) = pending st ∧
  nextTimer (foldl stop_gateway st L) = nextTimer st ∧
  emitted (foldl stop_gateway st L) = emitted st.
Proof.
  revert st. induction L as [|kr L IH]; intros st; simpl; [done|].
  destruct (IH (stop_gateway st kr)) as (-> & -> & -> & -> & -> & -> & ->).
  apply stop_gateway_fields.
Qed.

Lemma stop_gateway_timers st kr t :
  timers (stop_gateway st kr) !! t =
    match gwHeap st !! kr.2 with
    | Some gw => if bool_decide (gw_reconnectTimer gw = Some t) then None else timers st !! t
    | None => timers st !! t
    end.
Proof.
  unfold stop_gateway. destruct (gwHeap st !! kr.2) as [gw|]; [|done].
  destruct (gw_reconnectTimer gw) as [t'|]; destruct (gw_ws gw);
    rewrite ?ws_close_timers, ?clearTimeout_timers;
    case_bool_decide as Hb; try done.
  - injection Hb as ->. apply lookup_delete_eq.
  - rewrite lookup_delete_ne; [done|]. congruence.
  - injection Hb as ->. apply lookup_delete_eq.
  - rewrite lookup_delete_ne; [done|]. congruence.
Qed.

Lemma stop_fold_timers (L : list (string * nat)) st t x :
  timers (foldl stop_gateway st L) !! t = Some x →
  timers st !! t = Some x ∧
  ∀ kr gw, kr ∈ L → gwHeap st !! kr.2 = Some gw → gw_reconnectTimer gw ≠ Some t.
Proof.
  revert st. induction L as [|kr L IH]; intros st Ht; simpl in Ht.
  - split; [done|]. intros kr gw Hin. by apply elem_of_nil in Hin.
  - apply IH in Ht as [Ht Hrest]. rewrite stop_gateway_timers in Ht.
    destruct (stop_gateway_fields st kr) as (_ & Hheap & _). rewrite Hheap in Hrest. split.
    + destruct (gwHeap st !! kr.2); [|done]. by case_bool_decide.
    + intros kr' gw [->|Hin]%elem_of_cons Hgw; [|by eapply Hrest].
      rewrite Hgw in Ht. intros Heq. by rewrite bool_decide_eq_true_2 in Ht.
Qed.

(** A socket that is closing or closed. *)
Lemma ws_close_closing s s' st k :
  sockets (ws_close s st) !! s' = Some k →
  (s' = s ∨ ∃ k0, sockets st !! s' = Some k0 ∧
                  (sock_readyState k0 = CLOSING ∨ sock_readyState k0 = CLOSED)) →
  sock_readyState k = CLOSING ∨ sock_readyState k = CLOSED.
Proof.
  unfold ws_close. simpl. intros Hk Hs. destruct (decide (s' = s)) as [->|Hne].
  - rewrite lookup_alter_eq in Hk. destruct (sockets st !! s) as [k0|]; [|done].
    simpl in Hk. injection Hk as <-. case_decide; [by right | by left].
  - rewrite lookup_alter_ne in Hk by done. destruct Hs as [?|(k0 & Hk0 & Hc)]; [done|].
    congruence.
Qed.

Lemma stop_gateway_closing st kr s :
  (∃ gw, gwHeap st !! kr.2 = Some gw ∧ gw_ws gw = Some s) ∨
  (∀ k, sockets st !! s = Some k →
        sock_readyState k = CLOSING ∨ sock_readyState k = CLOSED) →
  ∀ k, sockets (stop_gateway st kr) !! s = Some k →
       sock_readyState k = CLOSING ∨ sock_readyState k = CLOSED.
Proof.
  intros Hs k. unfold stop_gateway.
  destruct (gwHeap st !! kr.2) as [gw|] eqn:Hgw.
  - set (st1 := match gw_reconnectTimer gw with Some t => clearTimeout t st | None => st end).
    assert (sockets st1 = sockets st) as Hsock by (unfold st1; by destruct (gw_reconnectTimer gw)).
    destruct (gw_ws gw) as [s0|] eqn:Hws.
    + intros Hk. apply (ws_close_closing s0 s st1 k Hk).
      destruct Hs as [(gw' & [= <-] & Hs)|Hs].
      * left. congruence.
      * destruct (decide (s = s0)) as [->|Hne]; [by left|]. right.
        unfold ws_close in Hk. simpl in Hk. rewrite lookup_alter_ne in Hk by done.
        exists k. split; [done|]. apply Hs. by rewrite <- Hsock.
    + rewrite Hsock. destruct Hs as [(gw' & [= <-] & Hs)|Hs]; [congruence | apply Hs].
  - destruct Hs as [(gw' & ? & _)|Hs]; [done | apply Hs].
Qed.

Lemma stop_fold_closing (L : list (string * nat)) st s :
  (∃ kr gw, kr ∈ L ∧ gwHeap st !! kr.2 = Some gw ∧ gw_ws gw = Some s) ∨
  (∀ k, sockets st !! s = Some k →
        sock_readyState k = CLOSING ∨ sock_readyState k = CLOSED) →
  ∀ k, sockets (foldl stop_gateway st L) !! s = Some k →
       sock_readyState k = CLOSING ∨ sock_readyState k = CLOSED.
Proof.
  revert st. induction L as [|kr L IH]; intros st Hs; simpl.
  - destruct Hs as [(kr & gw & Hin & _)|Hs]; [by apply elem_of_nil in Hin | done].
  - apply IH. destruct (stop_gateway_fields st kr) as (_ & -> & _).
    destruct Hs as [(kr' & gw & [->|Hin]%elem_of_cons & Hgw & Hws)|Hs].
    + right. apply stop_gateway_closing. left. eauto.
    + left. eauto.
    + right. apply stop_gateway_closing. by right.
Qed.

Lemma stop_core rn : core (stop rn) = stop_gateways (core rn).
Proof. destruct rn as [c [p|] [m|] iv nx]; reflexivity. Qed.

Lemma stop_intervals rn i :
  pollTimer rn = Some i ∨ metricsTimer rn = Some i → intervals (stop rn) !! i = None.
Proof.
  destruct rn as [c [p|] [m|] iv nx]; simpl; intros [[= <-]|[= <-]]; unfold stop; simpl.
  - destruct (decide (m = p)) as [->|Hne]; [apply lookup_delete_eq|].
    rewrite lookup_delete_ne by done. apply lookup_delete_eq.
  - apply lookup_delete_eq.
  - apply lookup_delete_eq.
  - apply lookup_delete_eq.
Qed.

(** X9. [stop()] cancels the two intervals, disarms the reconnect timer of
    every registered gateway and closes the socket of every registered
    gateway. In a state where every armed reconnect timer is the one its
    gateway remembers (every reachable state is one), no reconnect timer is
    armed afterwards and the socket of every registered gateway is closing
    or closed. The gateways, their objects, the agents, the state records
    and the pending requests stay as they are, and nothing is emitted. *)
Theorem X9_stop_disarms_and_closes rn :
  reconnects_tracked (core rn) →
  let rn' := stop rn in
  (∀ t k d, timers (core rn') !! t
            ≠ Some {| timer_action := TReconnect k; timer_delay := d |}) ∧
  (∀ k r gw s sk, gw_get k (core rn) = Some (r, gw) → gw_ws gw = Some s →
                  sockets (core rn') !! s = Some sk →
                  sock_readyState sk = CLOSING ∨ sock_readyState sk = CLOSED) ∧
  (∀ i, pollTimer rn = Some i ∨ metricsTimer rn = Some i → intervals rn' !! i = None) ∧
  gateways (core rn') = gateways (core rn) ∧
  gwHeap (core rn') = gwHeap (core rn) ∧
  agents (core rn') = agents (core rn) ∧
  state (core rn') = state (core rn) ∧
  pending (core rn') = pending (core rn) ∧
  emitted (core rn') = emitted (core rn).
Proof.
  intros Hre rn'. unfold rn'. rewrite stop_core. unfold stop_gateways.
  destruct (stop_fold_fields (gateway_entries (core rn)) (core rn))
    as (-> & -> & -> & -> & -> & _ & ->).
  split_and!; try done.
  - intros t k d Ht. apply stop_fold_timers in Ht as [Ht Hkeep].
    destruct (Hre t k d Ht) as (r & gw & [Hk Hr]%gw_get_Some & Htimer).
    apply (Hkeep (k, r) gw); [by apply gateway_entries_elem | done | done].
  - intros k r gw s sk [Hk Hr]%gw_get_Some Hws. apply stop_fold_closing.
    left. exists (k, r), gw. split_and!; [by apply gateway_entries_elem | done | done].
  - apply stop_intervals.
Qed.

Lemma running_tracked : reconnects_tracked (core running).
Proof. intros t k d Ht. vm_compute in Ht. discriminate. Qed.

Lemma X9_stop_witness :
  reconnects_tracked (core running) ∧
  gateways (core (stop running)) = gateways (core running).
Proof.
  split; [apply running_tracked|].
  apply (X9_stop_disarms_and_closes running running_tracked).
Defined.

(** X10. [stop()] leaves the handlers of the sockets in place. When the
    socket of a registered gateway reports its [close] after [stop()], the
    gateway gets a reconnect timer of 10000 ms again, and the agents listed
    on it are marked offline. *)
Theorem X10_close_after_stop_schedules_reconnect rn s k r g code :
  gw_get k (core rn) = Some (r, g) →
  let st' := ws_closed s k r code (core (stop rn)) in
  (∃ t, timers st' !! t = Some (reconnect_timer k)) ∧
  (∀ a, a ∈ gw_agents g →
     ∃ rec, state st' !! agent_id a = Some rec ∧ assoc "online" rec = Some (JBool false)).
Proof.
  intros Hget st'. unfold st'. rewrite stop_core. unfold stop_gateways.
  set (L := gateway_entries (core rn)).
  destruct (stop_fold_fields L (core rn)) as (Hgw & Hheap & _).
  set (st1 := foldl stop_gateway (core rn) L) in *.
  assert (gw_get k (set_readyState s CLOSED st1) = Some (r, g)) as Hget1.
  { unfold gw_get. simpl. rewrite Hgw, Hheap. exact Hget. }
  unfold ws_closed. split.
  - exists (nextTimer (set_readyState s CLOSED st1)).
    rewrite on_close_timers, Hget1. apply lookup_insert_eq.
  - intros a Ha. unfold on_close. cbv zeta. rewrite scheduleReconnect_state.
    rewrite gw_agents_of_alter by done.
    assert (gw_agents_of r (set_readyState s CLOSED st1) = gw_agents g) as ->.
    { unfold gw_agents_of. simpl. rewrite Hheap. by apply gw_get_Some in Hget as [_ ->]. }
    match goal with
    | |- ∃ rec, state (updateAll ?l ?p ?st) !! _ = _ ∧ _ =>
        destruct (updateAll_marks l a p st Ha) as (rec & Hrec & Hc)
    end.
    exists rec. split; [done|]. by apply Hc.
Qed.

Lemma X10_close_after_stop_witness :
  ∃ t, timers (ws_closed 0 key_alice 0 1006 (core (stop running))) !! t
       = Some (reconnect_timer key_alice).
Proof.
  destruct (X10_close_after_stop_schedules_reconnect running 0 key_alice 0
              (default (fresh_gateway "" (agent "" ""))
                 (snd <$> gw_get key_alice (core running))) 1006) as [Ht _];
    [vm_compute; reflexivity | exact Ht].
Defined.

(** ** start *)

Lemma scheduleReconnect_sockets gwKey st :
  sockets (scheduleReconnect gwKey st) = sockets st.
Proof.
  unfold scheduleReconnect. destruct (gw_get gwKey st) as [[r gw]|]; [|done].
  by destruct (gw_reconnectTimer gw).
Qed.

Lemma connected_as_ext c k st st' :
  gateways st' = gateways st → gwHeap st' = gwHeap st →
  sockets st' = sockets st → timers st' = timers st →
  connected_as c k st → connected_as c k st'.
Proof.
  intros G H S T (r & gw & Hget & Hc). exists r, gw. split.
  - unfold gw_get in *. by rewrite G, H.
  - destruct c; by rewrite ?S, ?T.
Qed.

Lemma gw_wf_alter (f : Gateway → Gateway) r st st' :
  gateways st' = gateways st → nextGw st' = nextGw st → gwHeap st' = alter f r (gwHeap st) →
  gw_wf st → gw_wf st'.
Proof.
  intros G N H (Href & Hlt & Hinj). unfold gw_wf. rewrite G, N, H. split_and!; [| |done].
  - intros k r' Hk. destruct (Href k r' Hk) as [gw Hgw]. destruct (decide (r' = r)) as [->|Hne].
    + rewrite lookup_alter_eq, Hgw. by eexists.
    + rewrite lookup_alter_ne by done. by eexists.
  - intros r' Hr'. apply Hlt. destruct (decide (r' = r)) as [->|Hne].
    + rewrite lookup_alter_eq in Hr'. by apply fmap_is_Some in Hr'.
    + by rewrite lookup_alter_ne in Hr'.
Qed.

(** [_connect] on a gateway that nothing has connected yet. *)
Lemma connect_idle k r gw c st :
  gw_wf st → stores_fresh st →
  gateways st !! k = Some r → gwHeap st !! r = Some gw → idle gw →
  let st' := connect k c st in
  gw_wf st' ∧ stores_fresh st' ∧ connected_as c k st' ∧
  gateways st' = gateways st ∧
  (∀ r', r' ≠ r → gwHeap st' !! r' = gwHeap st !! r') ∧
  (∀ c' k', k' ≠ k → connected_as c' k' st → connected_as c' k' st').
Proof.
  intros Hwf Hfresh Hk Hr (Hws & Hstate & Htimer) st'.
  assert (gw_get k st = Some (r, gw)) as Hget by (unfold gw_get; by rewrite Hk; simpl; rewrite Hr).
  assert (stores_fresh st') as Hfresh' by (eapply tidy_fresh; [done | apply connect_tidy]).
  assert (∀ k' r', k' ≠ k → gateways st !! k' = Some r' → r' ≠ r) as Hother.
  { intros k' r' Hne Hk' ->. destruct Hwf as (_ & _ & Hinj). by apply Hne, (Hinj k' k r). }
  destruct Hfresh as [Hsock Htm].
  unfold st', connect in *. rewrite Hget, Hws in *. destruct c as [m|].
  - (* the constructor throws *)
    set (st2 := updateAll (gw_agents gw) [("online", JBool false); ("error", m)] st) in *.
    assert (gw_get k st2 = Some (r, gw)) as Hget2.
    { unfold gw_get, st2. by rewrite updateAll_gateways, updateAll_gwHeap. }
    destruct (scheduleReconnect_fields k st2 r gw Hget2) as (_ & HG & HN & _ & HH & HT).
    rewrite Htimer in HT. pose proof (scheduleReconnect_sockets k st2) as HS.
    unfold st2 in HG, HN, HH, HT, HS.
    rewrite updateAll_gateways in HG. rewrite updateAll_nextGw in HN.
    rewrite updateAll_gwHeap, updateAll_nextTimer in HH.
    rewrite updateAll_timers, updateAll_nextTimer in HT. rewrite updateAll_sockets in HS.
    fold st2 in HG, HN, HH, HT, HS.
    split_and!; [by eapply gw_wf_alter | done | | done | |].
    + exists r, (gw <| gw_reconnectTimer := Some (nextTimer st) |>). split.
      * unfold gw_get. rewrite HG, Hk. simpl. by rewrite HH, lookup_alter_eq, Hr.
      * split; [done|]. split; [done|].
        exists (nextTimer st). split; [done|]. rewrite HT. apply lookup_insert_eq.
    + intros r' Hne. by rewrite HH, lookup_alter_ne.
    + intros c' k' Hne (r' & gw' & [Hk' Hr']%gw_get_Some & Hc).
      exists r', gw'. split.
      * unfold gw_get. rewrite HG, Hk'. simpl. rewrite HH, lookup_alter_ne, Hr'; [done|].
        intros Heq. by apply (Hother k' r' Hne Hk').
      * rewrite HS, HT. destruct c' as [m'|]; [|done].
        destruct Hc as (Hst & Hw & t & Ht & Harmed). split; [done|]. split; [done|].
        exists t. split; [done|]. rewrite lookup_insert_ne; [done|].
        intros <-. specialize (Htm (nextTimer st) ltac:(by eexists)). lia.
  - (* the socket is constructed *)
    split_and!;
      [by apply (gw_wf_alter (λ g : Gateway, g <| gw_ws := Some (nextSock st) |>
                                               <| gw_state := Connecting |>) r st)
      | done | | done | |].
    + eexists r, _. split.
      * unfold gw_get. simpl. rewrite Hk. simpl. by rewrite lookup_alter_eq, Hr.
      * simpl. split; [done|]. split; [done|].
        eexists (nextSock st), _. rewrite lookup_insert_eq. done.
    + intros r' Hne. simpl. by rewrite lookup_alter_ne.
    + intros c' k' Hne (r' & gw' & [Hk' Hr']%gw_get_Some & Hc).
      exists r', gw'. split.
      * unfold gw_get. simpl. rewrite Hk'. simpl. rewrite lookup_alter_ne, Hr'; [done|].
        intros Heq. by apply (Hother k' r' Hne Hk').
      * simpl. destruct c' as [m'|]; [done|].
        destruct Hc as (Hst & Ht & s & sk & Hs & Hsk & Hc). split; [done|]. split; [done|].
        exists s, sk. split; [done|]. split; [|done]. rewrite lookup_insert_ne; [done|].
        intros <-. specialize (Hsock (nextSock st) ltac:(by eexists)). lia.
Qed.

Lemma connect_fold (ctor : string → option Json) (L : list (string * nat)) st :
  NoDup L.*1 →
  gw_wf st → stores_fresh st →
  (∀ k r, (k, r) ∈ L →
     gateways st !! k = Some r ∧ ∃ gw, gwHeap st !! r = Some gw ∧ idle gw) →
  let st' := foldl (λ s (kr : string * nat), connect kr.1 (ctor kr.1) s) st L in
  gateways st' = gateways st ∧
  (∀ k, connected_as (ctor k) k st ∨ k ∈ L.*1 → connected_as (ctor k) k st').
Proof.
  revert st. induction L as [|[k r] L IH]; intros st Hnd Hwf Hfresh Hidle; simpl.
  - split; [done|]. intros k [Hk|Hk]; [done | by apply elem_of_nil in Hk].
  - apply NoDup_cons in Hnd as [Hk Hnd].
    destruct (Hidle k r ltac:(by left)) as (Hgk & gw & Hgr & Hi).
    destruct (connect_idle k r gw (ctor k) st Hwf Hfresh Hgk Hgr Hi)
      as (Hwf' & Hfresh' & Hcos & HG & HH & Hpres).
    destruct (IH (connect k (ctor k) st) Hnd Hwf' Hfresh') as (HG' & Hall).
    { intros k' r' Hin. destruct (Hidle k' r' ltac:(by right)) as (Hgk' & gw' & Hgr' & Hi').
      rewrite HG. split; [done|]. exists gw'. split; [|done]. rewrite HH; [done|].
      intros ->. destruct Hwf as (_ & _ & Hinj).
      apply Hk, list_elem_of_fmap. exists (k', r). split; [|done].
      simpl. by apply (Hinj k k' r). }
    split; [congruence|]. intros k' [Hc|[->|Hin]%elem_of_cons]; apply Hall.
    + destruct (decide (k' = k)) as [->|Hne]; [by left|]. left. by apply Hpres.
    + by left.
    + by right.
Qed.

Lemma loaded_init_fresh cfg : stores_fresh (loadConfig_parsed cfg init).
Proof. eapply tidy_fresh; [apply init_fresh | apply loadConfig_tidy]. Qed.

Lemma start_new cfg pollMs metricsMs ctor reading :
  start (Some cfg) pollMs metricsMs ctor reading new_runner =
    Some {| core := collectHostMetrics reading (connect_all ctor (loadConfig_parsed cfg init));
            pollTimer := Some 0; metricsTimer := Some 1;
            intervals :=
              <[1 := {| iv_action := ICollectHostMetrics;
                        iv_period := or metricsMs (JNum 30000) |}]>
                (<[0 := {| iv_action := IPollAll; iv_period := or pollMs (JNum 15000) |}]> ∅);
            nextInterval := 2 |}.
Proof. reflexivity. Qed.

Lemma collectHostMetrics_fields reading st :
  gateways (collectHostMetrics reading st) = gateways st ∧
  gwHeap (collectHostMetrics reading st) = gwHeap st ∧
  sockets (collectHostMetrics reading st) = sockets st ∧
  timers (collectHostMetrics reading st) = timers st ∧
  state (collectHostMetrics reading st) = state st.
Proof. by destruct reading. Qed.

(** X11. [start()] on a new collector. When the configuration can be read,
    [start()] loads it and runs [_connect] for every gateway, so that the
    gateways are those of the configured agents and each is left by the
    outcome of its own [new WebSocket(url)]: when the socket was constructed,
    the gateway is [connecting] and holds that socket, which is connecting to
    the URL of the gateway, and no reconnect timer is set; when the
    constructor threw, the gateway holds no socket, is still [disconnected],
    and its reconnect timer of 10000 ms is armed. The two intervals are armed
    with the periods of the configuration, or with 15000 ms and 30000 ms
    where the configuration gives none. When the configuration cannot be
    read, [start()] throws and nothing has changed. *)
Theorem X11_start_connects_every_gateway cfg pollMs metricsMs ctor reading :
  start None pollMs metricsMs ctor reading new_runner = None ∧
  ∃ rn, start (Some cfg) pollMs metricsMs ctor reading new_runner = Some rn ∧
    (∀ a, a ∈ cfg_agents cfg →
          connected_as (ctor (gwKey_of a)) (gwKey_of a) (core rn)) ∧
    dom (gateways (core rn)) = list_to_set (gwKey_of <$> cfg_agents cfg) ∧
    ∃ i j, i ≠ j ∧ pollTimer rn = Some i ∧ metricsTimer rn = Some j ∧
           intervals rn !! i
             = Some {| iv_action := IPollAll; iv_period := or pollMs (JNum 15000) |} ∧
           intervals rn !! j
             = Some {| iv_action := ICollectHostMetrics;
                       iv_period := or metricsMs (JNum 30000) |}.
Proof.
  split; [done|]. rewrite start_new. eexists. split; [reflexivity|]. cbn [core].
  set (st1 := loadConfig_parsed cfg init).
  pose proof (inv_wf st1 (loadConfig_inv cfg init init_inv)) as Hwf.
  destruct (connect_fold ctor (gateway_entries st1) st1) as (HG & Hall);
    [apply gateway_entries_NoDup | done | apply loaded_init_fresh | |].
  { intros k r Hin%gateway_entries_elem. split; [done|].
    by apply (loadConfig_new_idle cfg init k r init_gw_wf). }
  fold (connect_all ctor st1) in HG, Hall.
  destruct (collectHostMetrics_fields reading (connect_all ctor st1)) as (G & H & S & T & _).
  split_and!.
  - intros a Ha.
    apply (connected_as_ext _ _ (connect_all ctor st1)); [done..|].
    apply Hall. right. apply list_elem_of_fmap.
    assert (is_Some (gateways st1 !! gwKey_of a)) as [r Hr].
    { apply elem_of_dom. unfold st1. rewrite loadConfig_gateways_dom by apply init_gw_wf.
      apply elem_of_list_to_set, list_elem_of_fmap. by exists a. }
    exists (gwKey_of a, r). split; [done|]. by apply gateway_entries_elem.
  - rewrite G, HG. unfold st1. by rewrite loadConfig_gateways_dom by apply init_gw_wf.
  - exists 0, 1. cbn [pollTimer metricsTimer intervals]. split_and!; try done.
Qed.

(** On [carol_first]: with a constructor that throws for the gateway of
    alice only, carol's gateway is connecting and alice's waits for its
    reconnect timer; when every socket is constructed, carol's gateway, the
    first of the configuration, gets the first socket and alice's gets the
    second. *)
Lemma X11_start_witness :
  (∃ rn, start (Some carol_first) JUndefined JUndefined alice_refused None new_runner
           = Some rn ∧
         connected_as None key_carol (core rn) ∧
         connected_as (Some (JStr "ECONNREFUSED")) key_alice (core rn)) ∧
  (∃ rn, start (Some carol_first) JUndefined JUndefined (λ _, None) None new_runner
           = Some rn ∧
         gw_get key_carol (core rn) ≫= (λ rg, gw_ws rg.2) = Some 0 ∧
         gw_get key_alice (core rn) ≫= (λ rg, gw_ws rg.2) = Some 1).
Proof.
  split.
  - destruct (X11_start_connects_every_gateway carol_first JUndefined JUndefined
                alice_refused None) as (_ & rn & Hstart & Hall & _).
    exists rn. split; [exact Hstart|]. split.
    + apply (Hall carol). apply elem_of_cons. left. reflexivity.
    + apply (Hall (agent "alice" "abcdefgh-alice")). apply elem_of_cons. right.
      apply elem_of_cons. left. reflexivity.
  - destruct (X11_start_connects_every_gateway carol_first JUndefined JUndefined
                (λ _, None) None) as (_ & rn & Hstart & _).
    exists rn. split; [exact Hstart|].
    rewrite start_new in Hstart. injection Hstart as <-. split; vm_compute; reflexivity.
Defined.

End CollectorRunFacts.


(* ===================================================================== *)
(** * Poll rounds *)
(* ===================================================================== *)

Module CollectorPoll.
Import Js JsFacts Collector CollectorProps CollectorRun CollectorMoreProps.
Import CollectorFacts CollectorEvents CollectorInv CollectorClaims CollectorMore Samples MoreSamples.

(** ** Issuing the requests *)





(** X13. A poll tick before any gateway is connected does nothing:
    [_pollAll] sends no request, suspends no round and leaves the collector
    as it is. *)
Theorem X13_poll_without_connection_is_noop st :
  (∀ k r gw, gw_get k st = Some (r, gw) → gw_state gw ≠ Connected) →
  pollAll st = ([], st).
Proof.
  intros Hnone. unfold pollAll.
  assert (∀ L : list (string * nat),
            foldl (λ '(acc, s) (kr : string * nat),
                     match pollGateway_issue kr.1 s with
                     | (Some round, s') => (acc ++ [round], s')
                     | (None, s') => (acc, s')
                     end) ([], st) L = ([], st)) as Hfold; [|apply Hfold].
  assert (∀ k, pollGateway_issue k st = (None, st)) as Hissue.
  { intros k. unfold pollGateway_issue. destruct (gw_get k st) as [[r gw]|] eqn:Hget; [|done].
    by rewrite decide_False by eauto. }
  induction L as [|[k r] L IH]; simpl; [done|]. rewrite Hissue. exact IH.
Qed.

Lemma waiting_not_connected :
  map_Forall (λ _ gw, gw_state gw ≠ Connected) (gwHeap waiting).
Proof. apply (bool_decide_unpack _). vm_compute. exact I. Qed.

Lemma X13_poll_noop_witness : pollAll waiting = ([], waiting).
Proof.
  apply X13_poll_without_connection_is_noop.
  intros k r gw [Hk Hr]%gw_get_Some. exact (waiting_not_connected r gw Hr).
Defined.

(** ** Handing out the results *)








End CollectorPoll.

(* ===================================================================== *)
(** * The auth gate *)
(* ===================================================================== *)

Module AuthFacts.
Import Js JsString JsStringFacts Auth AuthProps AuthSamples.

Local Open Scope float_scope.

(** ** Tokens *)

Lemma hex_run_all_hex s : all_hex (hex_run s) = true.
Proof. induction s as [|c s IH]; simpl; [done|]. destruct (is_hex c) eqn:E; simpl; [|done]. by rewrite E, IH. Qed.

Lemma hex_run_app t rest : all_hex t = true → ends_token rest → hex_run (t +:+ rest) = t.
Proof.
  intros Ht Hrest. induction t as [|c t IH].
  - rewrite append_nil. destruct rest as [|c r]; [done|]. simpl in *. by rewrite Hrest.
  - rewrite append_cons. simpl in *. apply andb_true_iff in Ht as [-> Ht]. by rewrite IH.
Qed.

Lemma match_session_Some s t : match_session s = Some t → t ≠ "" ∧ all_hex t = true.
Proof.
  induction s as [|c s IH]; [done|]. cbn [match_session].
  destruct (startsWith "fmc_session=" (String c s)); [|exact IH].
  cbv zeta. case_decide as Hh; [exact IH|]. intros [= <-]. split; [done|]. apply hex_run_all_hex.
Qed.

Lemma match_session_skip pre s : no_f pre = true → match_session (pre +:+ s) = match_session s.
Proof.
  induction pre as [|c pre IH]; [done|]. rewrite append_cons. cbn [no_f match_session].
  intros [Hc Hpre]%andb_true_iff. apply negb_true_iff, bool_decide_eq_false in Hc.
  assert (startsWith "fmc_session=" (String c (pre +:+ s)) = false) as ->.
  { simpl. case_decide; [congruence | done]. }
  by apply IH.
Qed.

Lemma match_session_cookie t rest :
  t ≠ "" → all_hex t = true → ends_token rest →
  match_session (session_cookie t rest) = Some t.
Proof.
  intros Hne Ht Hrest. unfold session_cookie.
  change ("fmc_session=" +:+ t +:+ rest) with (String "f" ("mc_session=" +:+ t +:+ rest)).
  cbn [match_session].
  change (String "f" ("mc_session=" +:+ t +:+ rest)) with ("fmc_session=" +:+ (t +:+ rest)).
  rewrite startsWith_app.
  assert (drop 12 ("fmc_session=" +:+ (t +:+ rest)) = t +:+ rest) as -> by reflexivity.
  cbv zeta. rewrite hex_run_app by done. by rewrite decide_False.
Qed.

(** X15. The token that [getSessionToken] reads from the [Cookie] header is
    a non-empty string of characters [a-f0-9], whatever the header holds,
    and it is returned whatever the [Authorization] header says: a bearer
    token is used only when the cookie header holds no [fmc_session=]
    followed by such a character. *)
Theorem X15_cookie_token_is_hex req t :
  match_session (default "" (q_cookie req)) = Some t →
  getSessionToken req = Some t ∧ t ≠ "" ∧ all_hex t = true.
Proof.
  intros Hm. unfold getSessionToken. rewrite Hm. split; [done|].
  by apply match_session_Some in Hm.
Qed.

Lemma X15_cookie_token_witness :
  getSessionToken get_snapshot = Some "0123456789abcdef".
Proof.
  apply (X15_cookie_token_is_hex get_snapshot "0123456789abcdef"). vm_compute. reflexivity.
Defined.

(** X16. The session cookie comes back as the token. When the [Cookie]
    header holds [fmc_session=<token>] for a non-empty token of characters
    [a-f0-9], followed by nothing or by a character outside [a-f0-9] (such
    as the [;] before the next cookie) and preceded by text without the
    letter [f], then [getSessionToken] returns exactly that token. *)
Theorem X16_session_cookie_round_trip req pre t rest :
  t ≠ "" → all_hex t = true → ends_token rest → no_f pre = true →
  q_cookie req = Some (pre +:+ session_cookie t rest) →
  getSessionToken req = Some t.
Proof.
  intros Hne Ht Hrest Hpre Hc. unfold getSessionToken. rewrite Hc. simpl default.
  by rewrite match_session_skip, match_session_cookie.
Qed.

Lemma X16_round_trip_witness : getSessionToken get_snapshot = Some token.
Proof.
  apply (X16_session_cookie_round_trip get_snapshot "theme=dark; " token "; lang=en");
    [done | reflexivity | reflexivity | reflexivity | reflexivity].
Defined.

(** ** Sessions *)

(** X17. A session that [isValidSession] has rejected stays rejected. When
    the call returns [false], the token is not in the session map
    afterwards (an expired session is deleted, the other sessions stay),
    and every later call for that token returns [false] whatever the clock
    reads, until a new session is created under the same token. When the
    call returns [true] the session map is unchanged. *)
Theorem X17_rejected_session_stays_rejected t now srv ok srv' :
  isValidSession t now srv = (ok, srv') →
  (ok = true → srv' = srv ∧ is_Some (sessions srv !! t)) ∧
  (ok = false →
     sessions srv' !! t = None ∧
     (∀ t', t' ≠ t → sessions srv' !! t' = sessions srv !! t') ∧
     ∀ now', isValidSession t now' srv' = (false, srv')).
Proof.
  unfold isValidSession. destruct (sessions srv !! t) as [created|] eqn:E.
  - cbv zeta. destruct (_ <? _); intros [= <- <-].
    + split; [done|]. intros _. simpl. rewrite lookup_delete_eq. split_and!; [done| |].
      * intros t' Hne. by rewrite lookup_delete_ne.
      * done.
    + split; [|done]. intros _. split; [done | by eexists].
  - intros [= <- <-]. split; [done|]. intros _. split_and!; [done..|].
    intros now'. by rewrite E.
Qed.

Lemma X17_rejected_witness :
  isValidSession "never-issued" 5000 logged_in = (false, logged_in).
Proof.
  assert (isValidSession "never-issued" 1000 logged_in = (false, logged_in)) as H
    by (vm_compute; reflexivity).
  apply (X17_rejected_session_stays_rejected _ _ _ _ _ H). reflexivity.
Defined.

(** ** The gate *)

Lemma session_ok_true req now srv srv' :
  session_ok req now srv = (true, srv') →
  srv' = srv ∧
  ∃ t created, getSessionToken req = Some t ∧ t ≠ "" ∧
               sessions srv !! t = Some created ∧ expired srv created now = false.
Proof.
  unfold session_ok. destruct (getSessionToken req) as [t|]; [|done].
  case_decide as Ht; [done|]. unfold isValidSession.
  destruct (sessions srv !! t) as [created|] eqn:E; [|done]. cbv zeta.
  destruct (_ <? _) eqn:Hexp; intros [= <-]. split; [done|]. by exists t, created.
Qed.

Lemma session_ok_valid req now srv t created :
  getSessionToken req = Some t → t ≠ "" →
  sessions srv !! t = Some created → expired srv created now = false →
  session_ok req now srv = (true, srv).
Proof.
  intros Hg Hne Hs He. unfold session_ok. rewrite Hg, decide_False by done.
  unfold isValidSession. rewrite Hs. cbv zeta. unfold expired, maxAge in He. by rewrite He.
Qed.

Lemma api_route_login m c a :
  api_route {| q_method := m; q_path := "/api/login"; q_cookie := c; q_authorization := a |}
  = RStatic "/api/login".
Proof. reflexivity. Qed.

(** X18. No route without a session. Whenever the request listener goes on
    to the code of a route, that route is the login route ([POST
    /api/login]), or the request carries a non-empty token of a session that
    is in the session map and has not expired, or the path is [/api/login]
    with another method, which reaches only the lookup of a static file of
    that name. In every other case the listener has answered by itself:
    the preflight, the logout, the login page, a 401 or the redirect to
    [/login]. *)
Theorem X18_routes_need_a_session req now srv route srv' :
  listener req now srv = (Run route, srv') →
  route = RLogin ∨
  (srv' = srv ∧
   ∃ t created, getSessionToken req = Some t ∧ t ≠ "" ∧
                sessions srv !! t = Some created ∧ expired srv created now = false) ∨
  (q_path req = "/api/login" ∧ route = RStatic "/api/login").
Proof.
  unfold listener. cbv zeta.
  destruct (bool_decide (q_method req = "OPTIONS")); [done|].
  destruct (bool_decide (q_path req = "/api/login") && _); [intros [= <- <-]; by left|].
  destruct (bool_decide (q_path req = "/api/logout") && _); [done|].
  destruct (bool_decide (q_path req = "/login")) eqn:Hlogin.
  { by destruct (session_ok req now srv) as [[] ?]. }
  apply bool_decide_eq_false in Hlogin. unfold requireAuth.
  destruct (session_ok req now srv) as [[] srv1] eqn:Hs.
  - intros [= <- <-]. right. left. by apply session_ok_true in Hs.
  - case_decide as Hp.
    + intros [= <- <-]. destruct Hp as [Hp|Hp]; [done|].
      right. right. destruct req as [m p c a]. simpl in *. subst p. done.
    + by destruct (startsWith "/api/" (q_path req)).
Qed.

Lemma snapshot_served : listener get_snapshot 2000 logged_in = (Run RSnapshot, logged_in).
Proof. vm_compute. reflexivity. Qed.

Lemma X18_routes_witness :
  listener get_snapshot 2000 logged_in = (Run RSnapshot, logged_in) ∧
  (RSnapshot = RLogin ∨
   (logged_in = logged_in ∧
    ∃ t created, getSessionToken get_snapshot = Some t ∧ t ≠ "" ∧
                 sessions logged_in !! t = Some created ∧
                 expired logged_in created 2000 = false) ∨
   (q_path get_snapshot = "/api/login" ∧ RSnapshot = RStatic "/api/login")).
Proof.
  split; [apply snapshot_served|].
  apply (X18_routes_need_a_session get_snapshot 2000 logged_in RSnapshot logged_in
           snapshot_served).
Defined.

(** What the listener does with a request that carries no valid session. *)
Lemma listener_without_session req now srv srv' :
  q_method req ≠ "OPTIONS" → ¬ open_path req → q_path req ≠ "/api/login" →
  session_ok req now srv = (false, srv') →
  listener req now srv =
    (Respond (if startsWith "/api/" (q_path req)
              then json_reply 401 (JObj [("error", JStr "Unauthorized")])
              else {| rp_status := 302; rp_headers := [("Location", HStr "/login")];
                      rp_body := BNone |}), srv').
Proof.
  intros Hm Hopen Hlogin Hs. unfold listener, open_path in *. cbv zeta.
  rewrite (bool_decide_eq_false_2 (q_method req = "OPTIONS")) by done.
  rewrite (bool_decide_eq_false_2 (q_path req = "/api/login")) by done. simpl andb.
  destruct (bool_decide (q_path req = "/api/logout") && bool_decide (q_method req = "POST"))
    eqn:Hout.
  { apply andb_true_iff in Hout as [?%bool_decide_eq_true ?%bool_decide_eq_true]. tauto. }
  rewrite (bool_decide_eq_false_2 (q_path req = "/login")) by tauto.
  unfold requireAuth. rewrite Hs. rewrite decide_False by tauto.
  by destruct (startsWith "/api/" (q_path req)).
Qed.

(** X19. Logout ends the session. [POST /api/logout] answers 200 with a
    cookie that clears [fmc_session], whether or not the request carries a
    session; when it carries a non-empty token, that token leaves the
    session map, the other sessions stay, and a later request that presents
    the token is treated as one without a session: a 401 under [/api/], the
    redirect to [/login] elsewhere. *)
Theorem X19_logout_ends_the_session req now srv t :
  q_method req = "POST" → q_path req = "/api/logout" →
  getSessionToken req = Some t → t ≠ "" →
  ∃ srv', listener req now srv = (Respond logout_reply, srv') ∧
    sessions srv' !! t = None ∧
    (∀ t', t' ≠ t → sessions srv' !! t' = sessions srv !! t') ∧
    ∀ req' now',
      getSessionToken req' = Some t →
      q_method req' ≠ "OPTIONS" → ¬ open_path req' → q_path req' ≠ "/api/login" →
      listener req' now' srv' =
        (Respond (if startsWith "/api/" (q_path req')
                  then json_reply 401 (JObj [("error", JStr "Unauthorized")])
                  else {| rp_status := 302; rp_headers := [("Location", HStr "/login")];
                          rp_body := BNone |}), srv').
Proof.
  intros Hm Hp Hg Hne. exists (srv <| sessions ::= delete t |>). split_and!.
  - unfold listener. cbv zeta. rewrite Hm, Hp, Hg. simpl. by rewrite decide_False.
  - simpl. apply lookup_delete_eq.
  - intros t' Hne'. simpl. by rewrite lookup_delete_ne.
  - intros req' now' Hg' Hm' Hopen Hlogin. apply listener_without_session; [done..|].
    unfold session_ok. rewrite Hg', decide_False by done.
    unfold isValidSession. simpl. by rewrite lookup_delete_eq.
Qed.

Lemma X19_logout_witness :
  ∃ srv', listener post_logout 2000 logged_in = (Respond logout_reply, srv') ∧
          sessions srv' !! token = None.
Proof.
  destruct (X19_logout_ends_the_session post_logout 2000 logged_in token)
    as (srv' & H1 & H2 & _); [reflexivity | reflexivity | vm_compute; reflexivity | done |].
  by exists srv'.
Defined.

(** X20. Logging in. A login with the configured password creates a
    session under the fresh token and answers 200 with the session cookie,
    whose [Max-Age] is the session lifetime in seconds; a wrong password is
    answered 401 and a body that cannot be read 400, and neither changes
    the session map. After a successful login, a request that presents the
    token while the session has not expired is let through the gate to the
    route of its path, and the session map stays as it is. *)
Theorem X20_login_opens_the_gate pw t now srv :
  t ≠ "" →
  (pw ≠ auth_password srv →
     ∃ r, login (Some pw) t now srv = (r, srv) ∧ rp_status r = 401%N) ∧
  (∃ r, login None t now srv = (r, srv) ∧ rp_status r = 400%N) ∧
  (pw = auth_password srv →
     ∃ r srv1, login (Some pw) t now srv = (r, srv1) ∧
       rp_status r = 200%N ∧
       rp_headers r = [("Content-Type", HStr "application/json");
                       ("Set-Cookie", HSessionCookie t (ttl_hours srv * 3600))] ∧
       sessions srv1 = <[t := now]> (sessions srv) ∧
       ∀ req now',
         getSessionToken req = Some t →
         expired srv now now' = false →
         q_method req ≠ "OPTIONS" → ¬ open_path req →
         listener req now' srv1 = (Run (api_route req), srv1)).
Proof.
  intros Hne. split_and!.
  - intros Hpw. eexists. unfold login. rewrite decide_False by done. by split.
  - eexists. by split.
  - intros ->. eexists _, _. unfold login. rewrite decide_True by done.
    split; [reflexivity|]. split_and!; [done..|].
    intros req now' Hg Hexp Hm Hopen. unfold open_path in Hopen.
    set (srv1 := srv <| sessions ::= insert t now |>).
    assert (session_ok req now' srv1 = (true, srv1)) as Hs.
    { apply (session_ok_valid req now' srv1 t now); [done..| |done].
      unfold srv1. simpl. apply lookup_insert_eq. }
    unfold listener. cbv zeta.
    rewrite (bool_decide_eq_false_2 (q_method req = "OPTIONS")) by done.
    destruct (bool_decide (q_path req = "/api/login") && bool_decide (q_method req = "POST"))
      eqn:Hin.
    { apply andb_true_iff in Hin as [?%bool_decide_eq_true ?%bool_decide_eq_true]. tauto. }
    destruct (bool_decide (q_path req = "/api/logout") && bool_decide (q_method req = "POST"))
      eqn:Hout.
    { apply andb_true_iff in Hout as [?%bool_decide_eq_true ?%bool_decide_eq_true]. tauto. }
    rewrite (bool_decide_eq_false_2 (q_path req = "/login")) by tauto.
    unfold requireAuth. by rewrite Hs.
Qed.

Lemma X20_login_witness :
  ∃ r, login (Some "hunter2") token 1000 server = (r, logged_in) ∧ rp_status r = 200%N.
Proof.
  destruct (X20_login_opens_the_gate "hunter2" token 1000 server) as (_ & _ & H); [done|].
  destruct (H eq_refl) as (r & srv1 & Hl & Hs & _).
  exists r. split; [|exact Hs]. rewrite Hl. f_equal. unfold logged_in. by rewrite Hl.
Defined.

End AuthFacts.


(* ===================================================================== *)
(** * Further properties of the analytics aggregation *)
(* ===================================================================== *)

Module AnalyzerMore.
Import Analyzer AnalyzerProps AnalyzerSamples AnalyzerFacts AnalyzerMoreProps AnalyzerMoreSamples.

Local Open Scope float_scope.

Section WithDate.
Context `{JsDate}.

(** ** Calls *)

Lemma scan_line_calls cutoff s line :
  sessionCalls (scan_line cutoff s line) =
    match message_of line with
    | Some (ts, msg) =>
        if before_cutoff cutoff ts then sessionCalls s
        else if is_user msg then N.succ (sessionCalls s) else sessionCalls s
    | None => sessionCalls s
    end.
Proof.
  unfold message_of, scan_line.
  destruct line as [[[modelId|]|timestamp [msg|]|]|]; try done.
  destruct (before_cutoff cutoff (ts_or timestamp (m_timestamp msg))); [done|].
  destruct (ts_or timestamp (m_timestamp msg)) as [t|];
    [destruct (ts_truthy (Some t)); [destruct (isoDate t)|]|];
    simpl; repeat case_match; reflexivity.
Qed.

Lemma user_calls_cons cutoff line lines :
  user_calls cutoff (line :: lines) =
    (match message_of line with
     | Some (ts, msg) => if before_cutoff cutoff ts then 0 else if is_user msg then 1 else 0
     | None => 0
     end + user_calls cutoff lines)%nat.
Proof.
  unfold user_calls, counted. simpl omap.
  destruct (message_of line) as [[ts msg]|]; [|done].
  destruct (before_cutoff cutoff ts); [done|].
  rewrite filter_cons. destruct (is_user msg); by case_decide.
Qed.

Lemma scan_lines_calls cutoff s lines :
  sessionCalls (scan_lines cutoff s lines)
  = (sessionCalls s + N.of_nat (user_calls cutoff lines))%N.
Proof.
  unfold scan_lines. revert s. induction lines as [|line lines IH]; intros s.
  - simpl. unfold user_calls. simpl. lia.
  - simpl foldl. rewrite IH, scan_line_calls, user_calls_cons.
    destruct (message_of line) as [[ts msg]|]; [|simpl; lia].
    destruct (before_cutoff cutoff ts); [simpl; lia|]. destruct (is_user msg); lia.
Qed.

Lemma token_line_calls cutoff agentId a line :
  tk_apiCalls (token_line cutoff agentId a line) =
    match message_of line with
    | Some (ts, msg) =>
        if before_cutoff cutoff ts then tk_apiCalls a
        else if is_user msg then N.succ (tk_apiCalls a) else tk_apiCalls a
    | None => tk_apiCalls a
    end.
Proof.
  unfold message_of, token_line.
  destruct line as [[[modelId|]|timestamp [msg|]|]|]; try done.
  destruct (before_cutoff cutoff (ts_or timestamp (m_timestamp msg))); [done|].
  destruct (ts_or timestamp (m_timestamp msg)) as [t|];
    [destruct (ts_truthy (Some t)); [destruct (isoDate t)|]|];
    simpl; repeat case_match; reflexivity.
Qed.

Lemma token_lines_calls cutoff agentId a lines :
  tk_apiCalls (foldl (token_line cutoff agentId) a lines)
  = (tk_apiCalls a + N.of_nat (user_calls cutoff lines))%N.
Proof.
  revert a. induction lines as [|line lines IH]; intros a.
  - simpl. unfold user_calls. simpl. lia.
  - simpl foldl. rewrite IH, token_line_calls, user_calls_cons.
    destruct (message_of line) as [[ts msg]|]; [|simpl; lia].
    destruct (before_cutoff cutoff ts); [simpl; lia|]. destruct (is_user msg); lia.
Qed.

(** The calls counted over a list of transcripts. *)
Lemma sum_calls_app cutoff (l1 l2 : list (list Line)) :
  sum_list (user_calls cutoff <$> (l1 ++ l2))
  = (sum_list (user_calls cutoff <$> l1) + sum_list (user_calls cutoff <$> l2))%nat.
Proof. by rewrite fmap_app, sum_list_with_app. Qed.

Lemma analytics_file_calls cutoff agentId a f :
  apiCalls (analytics_file cutoff agentId a f) =
    (apiCalls a + if skipped cutoff f then 0
                  else N.of_nat (user_calls cutoff (default [] (f_lines f))))%N.
Proof.
  unfold analytics_file. destruct (skipped cutoff f); [lia|].
  assert (∀ b : Analytics, ∀ x : SessionTotal,
            apiCalls (b <| sessions ::= (λ l, l ++ [x]) |>) = apiCalls b) as Hs by done.
  destruct (f_lines f) as [lines|]; simpl default.
  - case_match; rewrite ?Hs; simpl; rewrite scan_lines_calls; simpl; lia.
  - case_match; rewrite ?Hs; simpl; unfold user_calls; simpl; lia.
Qed.

Lemma analytics_files_calls cutoff agentId a (files : list TranscriptFile) :
  apiCalls (foldl (analytics_file cutoff agentId) a files) =
    (apiCalls a + N.of_nat (sum_list (user_calls cutoff <$>
        ((λ f, default [] (f_lines f)) <$> filter (λ f, skipped cutoff f = false) files))))%N.
Proof.
  revert a. induction files as [|f files IH]; intros a; [simpl; lia|].
  simpl foldl. rewrite IH, analytics_file_calls, filter_cons.
  destruct (skipped cutoff f).
  - rewrite decide_False by done. lia.
  - rewrite decide_True by done. rewrite !fmap_cons. cbn [sum_list_with]. unfold id. lia.
Qed.

Lemma analytics_agent_calls cutoff a d :
  apiCalls (analytics_agent cutoff a d)
  = (apiCalls a + N.of_nat (sum_list (user_calls cutoff <$> dir_transcripts cutoff d)))%N.
Proof.
  unfold analytics_agent, dir_transcripts.
  destruct (d_sessions d) as [[files|]|]; [|simpl; lia..].
  apply analytics_files_calls.
Qed.

Lemma analytics_dirs_calls cutoff a (dirs : list AgentDir) :
  apiCalls (foldl (analytics_agent cutoff) a dirs)
  = (apiCalls a
     + N.of_nat (sum_list (user_calls cutoff <$> concat (dir_transcripts cutoff <$> dirs))))%N.
Proof.
  revert a. induction dirs as [|d dirs IH]; intros a; [simpl; lia|].
  simpl foldl. rewrite IH, analytics_agent_calls, fmap_cons, concat_cons, sum_calls_app. lia.
Qed.

Lemma token_file_calls cutoff agentId a f :
  tk_apiCalls (token_file cutoff agentId a f) =
    (tk_apiCalls a + if skipped cutoff f then 0
                     else N.of_nat (user_calls cutoff (default [] (f_lines f))))%N.
Proof.
  unfold token_file. destruct (skipped cutoff f); [lia|].
  destruct (f_lines f) as [lines|]; simpl default.
  - apply token_lines_calls.
  - unfold user_calls. simpl. lia.
Qed.

Lemma token_files_calls cutoff agentId a (files : list TranscriptFile) :
  tk_apiCalls (foldl (token_file cutoff agentId) a files) =
    (tk_apiCalls a + N.of_nat (sum_list (user_calls cutoff <$>
        ((λ f, default [] (f_lines f)) <$> filter (λ f, skipped cutoff f = false) files))))%N.
Proof.
  revert a. induction files as [|f files IH]; intros a; [simpl; lia|].
  simpl foldl. rewrite IH, token_file_calls, filter_cons.
  destruct (skipped cutoff f).
  - rewrite decide_False by done. lia.
  - rewrite decide_True by done. rewrite !fmap_cons. cbn [sum_list_with]. unfold id. lia.
Qed.

Lemma token_agent_calls cutoff a d :
  tk_apiCalls (token_agent cutoff a d)
  = (tk_apiCalls a + N.of_nat (sum_list (user_calls cutoff <$> dir_transcripts cutoff d)))%N.
Proof.
  unfold token_agent, dir_transcripts.
  destruct (d_sessions d) as [[files|]|]; [|simpl; lia..].
  apply token_files_calls.
Qed.

Lemma token_dirs_calls cutoff a (dirs : list AgentDir) :
  tk_apiCalls (foldl (token_agent cutoff) a dirs)
  = (tk_apiCalls a
     + N.of_nat (sum_list (user_calls cutoff <$> concat (dir_transcripts cutoff <$> dirs))))%N.
Proof.
  revert a. induction dirs as [|d dirs IH]; intros a; [simpl; lia|].
  simpl foldl. rewrite IH, token_agent_calls, fmap_cons, concat_cons, sum_calls_app. lia.
Qed.

(** X21. The number of API calls. [apiCalls] of [getAnalytics] is the number
    of messages with role [user], over all the transcripts that the call
    reads (files with a transcript name that are not skipped, of the agents
    the filter lets through), that are not left out by the cutoff; and
    [getTokenAnalytics] reports the same number for the same range, filter,
    clock and archive. *)
Theorem X21_api_calls_count_user_messages range agentFilter now fs :
  apiCalls (analytics range agentFilter now fs)
  = N.of_nat (sum_list (user_calls (cutoffDate range now)
                          <$> transcripts (cutoffDate range now) agentFilter fs)) ∧
  tk_apiCalls (token_analytics range agentFilter now fs)
  = apiCalls (analytics range agentFilter now fs).
Proof.
  unfold analytics, token_analytics, transcripts.
  rewrite analytics_dirs_calls, token_dirs_calls. simpl. split; lia.
Qed.

(** ** Keys of the aggregates *)

Lemma bump_keys {A} (zero : A) (f : A → A) k m x :
  x ∈ (bump zero f k m).*1 → x = k ∨ x ∈ m.*1.
Proof.
  induction m as [|[k' v] m IH]; simpl.
  - intros ->%list_elem_of_singleton. by left.
  - case_decide as Hk; simpl.
    + intros Hx. by right.
    + intros [->|Hx]%elem_of_cons; [right; by left|].
      destruct (IH Hx) as [->|Hin]; [by left | right; by right].
Qed.

(** The scan of a transcript keeps [byModel] within the models it started
    with and the models that the transcript has named so far. *)
Lemma scan_line_models cutoff s line (seen : list string) (known : list string) :
  (∀ m, sessionModel s = Some m → m ∈ seen) →
  (∀ m, m ∈ (byModel s).*1 → m ∈ known ∨ m ∈ seen) →
  let s' := scan_line cutoff s line in
  (∀ m, sessionModel s' = Some m → m ∈ seen ++ named_models [line]) ∧
  (∀ m, m ∈ (byModel s').*1 → m ∈ known ∨ m ∈ seen ++ named_models [line]).
Proof.
  intros Hcur Hkeys. unfold scan_line, named_models.
  destruct line as [[[modelId|]|timestamp [msg|]|]|]; simpl omap; rewrite ?app_nil_r;
    try (split; [exact Hcur | exact Hkeys]).
  - split.
    + simpl. intros m [= <-]. apply elem_of_app. right. by left.
    + simpl. intros m Hm. destruct (Hkeys m Hm) as [?|?]; [by left|].
      right. apply elem_of_app. by left.
  - destruct (before_cutoff cutoff (ts_or timestamp (m_timestamp msg)));
      [split; [exact Hcur | exact Hkeys]|].
    cbv zeta.
    set (s1 := s <| sessionCost ::= _ |> <| sessionTokens ::= _ |> <| sessionInput ::= _ |>
                 <| sessionOutput ::= _ |> <| sessionCache ::= _ |> <| sessionCalls ::= _ |>).
    assert (sessionModel s1 = sessionModel s ∧ byModel s1 = byModel s) as [Hm1 Hb1] by done.
    assert (∀ s2 : Scan, sessionModel s2 = sessionModel s → byModel s2 = byModel s →
              (∀ m, sessionModel
                      (match sessionModel s2 with
                       | Some model =>
                           s2 <| byModel ::= bump (0, 0)
                                   (add_cost_tokens (cost_of msg) (tokens_of msg)) model |>
                       | None => s2
                       end) = Some m → m ∈ seen) ∧
              (∀ m, m ∈ (byModel
                      (match sessionModel s2 with
                       | Some model =>
                           s2 <| byModel ::= bump (0, 0)
                                   (add_cost_tokens (cost_of msg) (tokens_of msg)) model |>
                       | None => s2
                       end)).*1 → m ∈ known ∨ m ∈ seen)) as Hstep.
    { intros s2 Hm2 Hb2. destruct (sessionModel s2) as [model|] eqn:E; simpl.
      - split.
        + intros m Hm. apply Hcur. congruence.
        + intros m Hm. rewrite Hb2 in Hm. apply bump_keys in Hm as [->|Hm]; [|by apply Hkeys].
          right. apply Hcur. congruence.
      - split.
        + intros m Hm. apply Hcur. congruence.
        + intros m Hm. rewrite Hb2 in Hm. by apply Hkeys. }
    destruct (ts_or timestamp (m_timestamp msg)) as [t|].
    + destruct (ts_truthy (Some t)).
      * destruct (isoDate t) as [date|]; simpl option_map; cbv beta iota.
        -- by apply Hstep.
        -- split; [intros m Hm; apply Hcur; congruence|].
           intros m Hm. apply Hkeys. by rewrite <- Hb1.
      * by apply Hstep.
    + by apply Hstep.
Qed.

Lemma scan_lines_models cutoff s lines (seen known : list string) :
  (∀ m, sessionModel s = Some m → m ∈ seen) →
  (∀ m, m ∈ (byModel s).*1 → m ∈ known ∨ m ∈ seen) →
  ∀ m, m ∈ (byModel (scan_lines cutoff s lines)).*1 →
       m ∈ known ∨ m ∈ seen ++ named_models lines.
Proof.
  unfold scan_lines. revert s seen. induction lines as [|line lines IH]; intros s seen Hcur Hkeys.
  - simpl. unfold named_models. simpl. rewrite app_nil_r. exact Hkeys.
  - simpl foldl. destruct (scan_line_models cutoff s line seen known Hcur Hkeys) as [Hc' Hk'].
    intros m Hm. destruct (IH _ _ Hc' Hk' m Hm) as [?|Hin]; [by left|]. right.
    rewrite <- app_assoc in Hin.
    assert (named_models (line :: lines) = named_models [line] ++ named_models lines) as ->
      by (unfold named_models; simpl; by destruct line as [[[?|]|? ?|]|]).
    exact Hin.
Qed.

Lemma analytics_file_models cutoff agentId a f (T : list (list Line)) :
  (∀ m, m ∈ (perModel a).*1 → ∃ lines, lines ∈ T ∧ m ∈ named_models lines) →
  (skipped cutoff f = false → default [] (f_lines f) ∈ T) →
  ∀ m, m ∈ (perModel (analytics_file cutoff agentId a f)).*1 →
       ∃ lines, lines ∈ T ∧ m ∈ named_models lines.
Proof.
  intros Hinv HT. unfold analytics_file. destruct (skipped cutoff f); [exact Hinv|].
  specialize (HT eq_refl).
  assert (∀ b : Analytics, ∀ x : SessionTotal,
            perModel (b <| sessions ::= (λ l, l ++ [x]) |>) = perModel b) as Hs by done.
  destruct (f_lines f) as [lines|]; simpl default in HT.
  - intros m Hm.
    assert (m ∈ (byModel (scan_lines cutoff (new_scan (overTime a) (perModel a)) lines)).*1)
      as Hin by (revert Hm; case_match; rewrite ?Hs; done).
    apply (scan_lines_models cutoff _ lines [] (perModel a).*1) in Hin as [Hin|Hin].
    + by apply Hinv.
    + exists lines. by split.
    + done.
    + intros m' Hm'. by left.
  - intros m Hm. apply Hinv. revert Hm. case_match; rewrite ?Hs; done.
Qed.

Lemma analytics_file_agents cutoff agentId a f :
  (∀ k, k ∈ (byAgent (analytics_file cutoff agentId a f)).*1 →
        k = agentId ∨ k ∈ (byAgent a).*1) ∧
  (∀ k, k ∈ st_agentId <$> sessions (analytics_file cutoff agentId a f) →
        k = agentId ∨ k ∈ st_agentId <$> sessions a).
Proof.
  unfold analytics_file. destruct (skipped cutoff f); [split; intros; by right|].
  set (s := match f_lines f with Some lines => _ | None => _ end).
  split.
  - intros k. case_match; simpl; apply bump_keys.
  - intros k. case_match; simpl; [|by right].
    rewrite fmap_app. intros [Hk|Hk]%elem_of_app; [by right|].
    simpl in Hk. apply list_elem_of_singleton in Hk. by left.
Qed.

Lemma analytics_files_keys cutoff agentId a (files : list TranscriptFile) (T : list (list Line)) :
  (∀ m, m ∈ (perModel a).*1 → ∃ lines, lines ∈ T ∧ m ∈ named_models lines) →
  (∀ f, f ∈ files → skipped cutoff f = false → default [] (f_lines f) ∈ T) →
  let a' := foldl (analytics_file cutoff agentId) a files in
  (∀ m, m ∈ (perModel a').*1 → ∃ lines, lines ∈ T ∧ m ∈ named_models lines) ∧
  (∀ k, k ∈ (byAgent a').*1 → k = agentId ∨ k ∈ (byAgent a).*1) ∧
  (∀ k, k ∈ st_agentId <$> sessions a' → k = agentId ∨ k ∈ st_agentId <$> sessions a).
Proof.
  revert a. induction files as [|f files IH]; intros a Hinv HT; simpl.
  - split_and!; [done | by right | by right].
  - destruct (analytics_file_agents cutoff agentId a f) as [Hb Hs].
    destruct (IH (analytics_file cutoff agentId a f)) as (Hm' & Hb' & Hs').
    + apply analytics_file_models; [done|]. apply HT. by left.
    + intros f' Hf'. apply HT. by right.
    + split_and!; [done| |].
      * intros k Hk. destruct (Hb' k Hk) as [?|?]; [by left | by apply Hb].
      * intros k Hk. destruct (Hs' k Hk) as [?|?]; [by left | by apply Hs].
Qed.

Lemma dir_transcripts_elem cutoff d files f :
  d_sessions d = Some (Some files) →
  f ∈ filter (λ f, is_transcript_name (f_name f) = true) files →
  skipped cutoff f = false →
  default [] (f_lines f) ∈ dir_transcripts cutoff d.
Proof.
  intros Hd Hf Hs. unfold dir_transcripts. rewrite Hd.
  apply list_elem_of_fmap. exists f. split; [done|]. by apply list_elem_of_filter.
Qed.

Lemma transcripts_elem cutoff agentFilter fs d lines :
  d ∈ agent_dirs agentFilter fs → lines ∈ dir_transcripts cutoff d →
  lines ∈ transcripts cutoff agentFilter fs.
Proof.
  intros Hd Hl. unfold transcripts. apply list_elem_of_In, in_concat.
  exists (dir_transcripts cutoff d). split; [|by apply list_elem_of_In].
  apply list_elem_of_In, list_elem_of_fmap. by exists d.
Qed.

Lemma analytics_dirs_keys cutoff a (dirs : list AgentDir) (T : list (list Line)) :
  (∀ m, m ∈ (perModel a).*1 → ∃ lines, lines ∈ T ∧ m ∈ named_models lines) →
  (∀ d lines, d ∈ dirs → lines ∈ dir_transcripts cutoff d → lines ∈ T) →
  let a' := foldl (analytics_agent cutoff) a dirs in
  (∀ m, m ∈ (perModel a').*1 → ∃ lines, lines ∈ T ∧ m ∈ named_models lines) ∧
  (∀ k, k ∈ (byAgent a').*1 → k ∈ d_name <$> dirs ∨ k ∈ (byAgent a).*1) ∧
  (∀ k, k ∈ st_agentId <$> sessions a' →
        k ∈ d_name <$> dirs ∨ k ∈ st_agentId <$> sessions a).
Proof.
  revert a. induction dirs as [|d dirs IH]; intros a Hinv HT; simpl.
  - split_and!; [done | by right | by right].
  - assert ((∀ m, m ∈ (perModel (analytics_agent cutoff a d)).*1 →
                  ∃ lines, lines ∈ T ∧ m ∈ named_models lines) ∧
            (∀ k, k ∈ (byAgent (analytics_agent cutoff a d)).*1 →
                  k = d_name d ∨ k ∈ (byAgent a).*1) ∧
            (∀ k, k ∈ st_agentId <$> sessions (analytics_agent cutoff a d) →
                  k = d_name d ∨ k ∈ st_agentId <$> sessions a)) as (Hm & Hb & Hs).
    { unfold analytics_agent. destruct (d_sessions d) as [[files|]|] eqn:Hd;
        [|split_and!; [done | by right | by right]..].
      apply analytics_files_keys; [done|]. intros f Hf Hsk.
      apply (HT d); [by left|]. by eapply dir_transcripts_elem. }
    destruct (IH (analytics_agent cutoff a d)) as (Hm' & Hb' & Hs');
      [done | intros d' lines Hd'; apply HT; by right |].
    split_and!; [done| |].
    + intros k Hk. destruct (Hb' k Hk) as [?|Hk']; [left; by right|].
      destruct (Hb k Hk') as [->|?]; [left; by left | by right].
    + intros k Hk. destruct (Hs' k Hk) as [?|Hk']; [left; by right|].
      destruct (Hs k Hk') as [->|?]; [left; by left | by right].
Qed.

Lemma agent_dirs_names agentFilter fs d :
  d ∈ agent_dirs agentFilter fs →
  d ∈ default [] fs ∧ (agentFilter ≠ "all" → d_name d = agentFilter).
Proof.
  unfold agent_dirs. case_decide as Hf.
  - intros Hd. by split.
  - intros [Hn Hd]%list_elem_of_filter. by split.
Qed.

(** X22. The agents of a report. In the aggregates of [getAnalytics], every
    key of [byAgent] and the [agentId] of every session collected for
    [topSessions] is the name of a directory of the archive; when the agent
    filter is not [all], it is the agent of the filter and no other. *)
Theorem X22_report_names_only_filtered_agents range agentFilter now fs k :
  let a := analytics range agentFilter now fs in
  k ∈ (byAgent a).*1 ∨ k ∈ st_agentId <$> sessions a →
  k ∈ d_name <$> default [] fs ∧ (agentFilter ≠ "all" → k = agentFilter).
Proof.
  intros a Hk. unfold a, analytics in Hk.
  destruct (analytics_dirs_keys (cutoffDate range now) no_analytics (agent_dirs agentFilter fs)
              (transcripts (cutoffDate range now) agentFilter fs)) as (_ & Hb & Hs).
  { intros m Hm. by apply elem_of_nil in Hm. }
  { intros d lines Hd Hl. by eapply transcripts_elem. }
  assert (k ∈ d_name <$> agent_dirs agentFilter fs) as Hin.
  { destruct Hk as [Hk|Hk].
    - destruct (Hb k Hk) as [?|Hn]; [done | by apply elem_of_nil in Hn].
    - destruct (Hs k Hk) as [?|Hn]; [done | by apply elem_of_nil in Hn]. }
  apply list_elem_of_fmap in Hin as (d & -> & Hd).
  apply agent_dirs_names in Hd as [Hd Hf]. split; [|done].
  apply list_elem_of_fmap. by exists d.
Qed.

(** X23. The models of a report. Every key of [byModel] in the aggregates
    of [getAnalytics] is a model id named by a [model_change] line of one of
    the transcripts that the call reads: messages of a transcript that come
    before its first [model_change] line are counted under no model. *)
Theorem X23_report_models_come_from_model_changes range agentFilter now fs m :
  m ∈ (perModel (analytics range agentFilter now fs)).*1 →
  ∃ lines, lines ∈ transcripts (cutoffDate range now) agentFilter fs ∧
           m ∈ named_models lines.
Proof.
  intros Hm. unfold analytics in Hm.
  destruct (analytics_dirs_keys (cutoffDate range now) no_analytics (agent_dirs agentFilter fs)
              (transcripts (cutoffDate range now) agentFilter fs)) as (Hmod & _).
  { intros m' Hm'. by apply elem_of_nil in Hm'. }
  { intros d lines Hd Hl. by eapply transcripts_elem. }
  by apply Hmod.
Qed.

End WithDate.

Lemma X22_report_witness :
  "y" ∈ (byAgent (analytics quarter_day "y" noon two_agents)).*1 ∧
  "y" ∈ d_name <$> default [] two_agents.
Proof.
  assert ("y" ∈ (byAgent (analytics quarter_day "y" noon two_agents)).*1) as Hin.
  { vm_compute. apply elem_of_cons. by left. }
  split; [exact Hin|].
  apply (X22_report_names_only_filtered_agents (H := first_day) quarter_day "y" noon two_agents
           "y" (or_introl Hin)).
Defined.

Lemma X23_report_models_witness :
  "anthropic/claude" ∈ (perModel (analytics quarter_day "all" noon two_agents)).*1 ∧
  ∃ lines, lines ∈ transcripts (cutoffDate quarter_day noon) "all" two_agents ∧
           "anthropic/claude" ∈ named_models lines.
Proof.
  assert ("anthropic/claude" ∈ (perModel (analytics quarter_day "all" noon two_agents)).*1)
    as Hin.
  { vm_compute. apply elem_of_cons. by left. }
  split; [exact Hin|].
  apply (X23_report_models_come_from_model_changes (H := first_day) _ _ _ _ _ Hin).
Defined.

End AnalyzerMore.


(* ===================================================================== *)
(** * The delegation forest and the list of sessions *)
(* ===================================================================== *)

Module ForestMore.
Import Js Analyzer AnalyzerProps AnalyzerMoreProps AnalyzerSamples SessionList ForestFacts.

Local Open Scope float_scope.

(** ** Keys of a map in insertion order *)

Lemma map_set_keys {A} k (v : A) m k' : k' ∈ (map_set k v m).*1 ↔ k' = k ∨ k' ∈ m.*1.
Proof.
  rewrite <-!map_get_keys, map_get_set. case_decide; [|naive_solver].
  split; [by left | by eexists].
Qed.

Lemma map_set_nodup {A} k (v : A) m : NoDup m.*1 → NoDup (map_set k v m).*1.
Proof.
  induction m as [|[k0 v0] m IH]; simpl.
  - intros _. apply NoDup_singleton.
  - rewrite !NoDup_cons. intros [Hk0 Hm]. case_decide as E; simpl.
    + by rewrite NoDup_cons.
    + rewrite NoDup_cons. split; [|by apply IH].
      rewrite map_set_keys. naive_solver.
Qed.

(** ** Sorting permutes *)

Lemma sort_insert_perm cmp x l : sort_insert cmp x l ≡ₚ x :: l.
Proof.
  induction l as [|y l IH]; simpl; [done|].
  case_match; [done|]. rewrite IH. apply Permutation_swap.
Qed.

Lemma js_sort_perm cmp l : js_sort cmp l ≡ₚ l.
Proof.
  unfold js_sort.
  assert (∀ acc, foldl (λ acc x, sort_insert cmp x acc) acc l ≡ₚ acc ++ l) as Hgen.
  { induction l as [|x l IH]; intros acc; simpl.
    - by rewrite app_nil_r.
    - rewrite IH, sort_insert_perm. simpl. apply Permutation_middle. }
  by rewrite Hgen.
Qed.

Lemma insert_entry_perm cmp x l : insert_entry cmp x l ≡ₚ x :: l.
Proof.
  induction l as [|y l IH]; simpl; [done|].
  case_match; [done|]. rewrite IH. apply Permutation_swap.
Qed.

Lemma sort_entries_perm cmp l : sort_entries cmp l ≡ₚ l.
Proof.
  unfold sort_entries.
  assert (∀ acc, foldl (λ acc x, insert_entry cmp x acc) acc l ≡ₚ acc ++ l) as Hgen.
  { induction l as [|x l IH]; intros acc; simpl.
    - by rewrite app_nil_r.
    - rewrite IH, insert_entry_perm. simpl. apply Permutation_middle. }
  by rewrite Hgen.
Qed.

(** ** The first pass *)

Section WithDate.
Context `{JsDate}.

Lemma collect_entries_fresh w agentId entries m :
  NoDup m.*1 → (∀ k r, map_get k m = Some r → s_children r = []) →
  NoDup (collect_entries w agentId entries m).*1 ∧
  (∀ k r, map_get k (collect_entries w agentId entries m) = Some r → s_children r = []).
Proof.
  revert m. induction entries as [|[key [| |meta]] rest IH]; intros m Hnd Hm; simpl;
    [done | done | by apply IH |].
  destruct (sm_sessionFile meta) as [file|]; [|by apply IH].
  apply IH; [by apply map_set_nodup|].
  intros k r. rewrite map_get_set. case_decide; [by intros [= <-] | apply Hm].
Qed.

Lemma session_map_fresh w dirs :
  NoDup (session_map w dirs).*1 ∧
  (∀ k r, map_get k (session_map w dirs) = Some r → s_children r = []).
Proof.
  unfold session_map.
  assert (∀ m, NoDup m.*1 → (∀ k r, map_get k m = Some r → s_children r = []) →
               NoDup (foldl (collect_dir w) m dirs).*1 ∧
               (∀ k r, map_get k (foldl (collect_dir w) m dirs) = Some r → s_children r = []))
    as Hgen.
  { induction dirs as [|d dirs IH]; intros m Hnd Hm; simpl; [done|].
    unfold collect_dir at 2 4. destruct (t_index d) as [[entries|]|]; [|by apply IH..].
    by apply IH; apply collect_entries_fresh. }
  apply Hgen; [apply NoDup_nil_2 | done].
Qed.

(** The keys of the first pass are among those of the list of sessions. *)
Lemma entries_same_keys w sessionId agentId entries m acc :
  (∀ k, k ∈ m.*1 ↔ k ∈ e_key <$> acc) →
  ∀ k, k ∈ (collect_entries w agentId entries m).*1 ↔
       k ∈ e_key <$> list_entries w sessionId agentId entries acc.
Proof.
  revert m acc. induction entries as [|[key [| |meta]] rest IH]; intros m acc Hm; simpl;
    [done | done | by apply IH |].
  destruct (sm_sessionFile meta) as [file|]; [|by apply IH].
  apply IH. intros k. rewrite map_set_keys, fmap_app, elem_of_app, Hm. simpl.
  rewrite list_elem_of_singleton. naive_solver.
Qed.

Lemma dirs_same_keys w sessionId dirs k :
  k ∈ (session_map w dirs).*1 ↔ k ∈ e_key <$> foldl (list_dir w sessionId) [] dirs.
Proof.
  unfold session_map.
  assert (∀ m acc, (∀ k, k ∈ m.*1 ↔ k ∈ e_key <$> acc) →
            ∀ k, k ∈ (foldl (collect_dir w) m dirs).*1 ↔
                 k ∈ e_key <$> foldl (list_dir w sessionId) acc dirs) as Hgen.
  { induction dirs as [|d dirs IH]; intros m acc Hm; simpl; [done|].
    apply IH. unfold collect_dir, list_dir.
    destruct (t_index d) as [[entries|]|]; [|done..]. by apply entries_same_keys. }
  by apply Hgen.
Qed.

End WithDate.

(** ** The second pass *)

Lemma attach_once st seen k :
  shaped st.1 → k ∈ st.1.*1 → k ∉ seen →
  placed_once st seen → placed_once (attach st k) (seen ++ [k]).
Proof.
  destruct st as [m roots]. cbn [fst snd]. intros Hm Hk Hnew [Hr Hrs Hc Hcs].
  cbn [fst snd] in *. rewrite attach_step by done.
  assert (placed_once (m, roots) (seen ++ [k])) as Hsame.
  { split; cbn [fst snd]; [done | set_solver | done |].
    intros p r x Hp Hx. destruct (Hcs p r x Hp Hx) as (? & ? & ? & ?). set_solver. }
  assert (placed_once (m, roots ++ [k]) (seen ++ [k])) as Hroot.
  { split; cbn [fst snd].
    - apply NoDup_app. split_and!; [done | | apply NoDup_singleton].
      intros x Hx ->%list_elem_of_singleton. by apply Hnew, Hrs.
    - set_solver.
    - done.
    - intros p r x Hp Hx. destruct (Hcs p r x Hp Hx) as (Hin & Hno & ? & ?).
      split_and!; [set_solver | | done..].
      intros [?| ->%list_elem_of_singleton]%elem_of_app; [done|]. by apply Hnew. }
  destruct (isMain k) eqn:Hmain; [done|].
  destruct (parentKey k) as [pk|] eqn:Hpk; [|done].
  case_decide as Hin; [|done].
  split; cbn [fst snd].
  - done.
  - set_solver.
  - intros p r. rewrite map_get_alter. case_decide as E; [|apply Hc].
    subst p. destruct (map_get pk m) as [r0|] eqn:Hr0; [|done]. simpl. intros [= <-].
    simpl. apply NoDup_app. split_and!; [by eapply Hc | | apply NoDup_singleton].
    intros x Hx ->%list_elem_of_singleton.
    destruct (Hcs pk r0 k Hr0 Hx) as (? & _). by apply Hnew.
  - intros p r x. rewrite map_get_alter. case_decide as E.
    + subst p. destruct (map_get pk m) as [r0|] eqn:Hr0; [|done]. simpl. intros [= <-].
      simpl. intros [Hx| ->%list_elem_of_singleton]%elem_of_app.
      * destruct (Hcs pk r0 x Hr0 Hx) as (? & ? & ? & ?). set_solver.
      * split_and!; [set_solver | | done..]. intros Hx. by apply Hnew, Hrs.
    + intros Hp Hx. destruct (Hcs p r x Hp Hx) as (? & ? & ? & ?). set_solver.
Qed.

Lemma attach_fold_once L st seen :
  shaped st.1 → NoDup L → (∀ k, k ∈ L → k ∈ st.1.*1 ∧ k ∉ seen) →
  placed_once st seen → placed_once (foldl attach st L) (seen ++ L).
Proof.
  revert st seen. induction L as [|k L IH]; intros st seen Hm Hnd HL Hp; simpl.
  - by rewrite app_nil_r.
  - apply NoDup_cons in Hnd as [Hk Hnd].
    destruct (HL k) as [Hin Hnew]; [by left|].
    replace (seen ++ k :: L) with ((seen ++ [k]) ++ L) by by rewrite <-app_assoc.
    apply IH.
    + by apply attach_shaped.
    + done.
    + intros k' Hk'. rewrite attach_keys by done.
      destruct (HL k') as [? ?]; [by right|]. split; [done|].
      intros [?| ->%list_elem_of_singleton]%elem_of_app; done.
    + by apply attach_once.
Qed.

Section Forest.
Context `{JsDate}.

(** X24. The forest of [getTraces] shows every session once. No key occurs
    twice among the records, among the roots or in a [children] list; every
    root and every child has a record; and a child is a sub-agent session
    whose parent key is the key of the record that holds it, and is not a
    root. *)
Theorem X24_forest_shows_each_session_once w :
  let f := getTraces w in
  NoDup (records f).*1 ∧ NoDup (traces f) ∧
  (∀ x, is_root f x → has_session f x) ∧
  (∀ p r, map_get p (records f) = Some r →
     NoDup (s_children r) ∧
     ∀ x, x ∈ s_children r →
          has_session f x ∧ ¬ is_root f x ∧ parentKey x = Some p ∧ isMain x = false).
Proof.
  intros f. unfold f, has_session, is_root, getTraces.
  destruct (w_dirs w) as [dirs|]; simpl.
  2:{ split_and!; [apply NoDup_nil_2 | apply NoDup_nil_2 | by intros x ?%elem_of_nil | done]. }
  destruct (session_map_fresh w dirs) as [Hnd Hfresh].
  pose proof (session_map_shaped w dirs) as Hshaped.
  destruct (attach_fold_inv (session_map w dirs).*1 (session_map w dirs, []))
    as (_ & Hkeys & _); [done..|].
  pose proof (attach_fold_once (session_map w dirs).*1 (session_map w dirs, []) []
                Hshaped Hnd) as Honce.
  destruct Honce as [Hr Hrs Hc Hcs].
  { intros k Hk. split; [done | by intros ?%elem_of_nil]. }
  { split; cbn [fst snd].
    - apply NoDup_nil_2.
    - done.
    - intros p r Hp. rewrite (Hfresh p r Hp). apply NoDup_nil_2.
    - intros p r x Hp. rewrite (Hfresh p r Hp). by intros ?%elem_of_nil. }
  fold (build_forest (session_map w dirs)) in *.
  destruct (build_forest (session_map w dirs)) as [m roots]. cbn [fst snd app] in *. simpl.
  split_and!.
  - by rewrite Hkeys.
  - by rewrite js_sort_perm.
  - intros x Hx%js_sort_elem. apply map_get_keys. rewrite Hkeys. by apply Hrs.
  - intros p r Hp. split; [by eapply Hc|]. intros x Hx.
    destruct (Hcs p r x Hp Hx) as (Hseen & Hno & Hpk & Hmain).
    split_and!; [|by rewrite js_sort_elem|done..].
    apply map_get_keys. by rewrite Hkeys.
Qed.

(** X25. Every session of the forest is in the list of sessions: a key
    under which [getTraces()] holds a record is the [key] of an element of
    [getAllSessions()], whatever the order of the list. (The list may hold
    more: [getTraces] leaves out the sessions that follow one whose
    transcript makes it throw.) *)
Theorem X25_forest_sessions_are_listed sessionId w k :
  has_session (getTraces w) k → k ∈ e_key <$> getAllSessions sessionId w.
Proof.
  unfold getAllSessions, has_session, getTraces. rewrite sort_entries_perm.
  destruct (w_dirs w) as [dirs|]; simpl; [|by intros [? ?]].
  rewrite <-(dirs_same_keys w sessionId dirs k).
  destruct (attach_fold_inv (session_map w dirs).*1 (session_map w dirs, []))
    as (_ & Hkeys & _); [apply session_map_shaped | done |].
  fold (build_forest (session_map w dirs)) in *.
  destruct (build_forest (session_map w dirs)) as [m roots]. cbn [fst snd] in *. simpl.
  by rewrite map_get_keys, Hkeys.
Qed.

End Forest.

Lemma X25_listed_witness :
  has_session (getTraces (H := first_day) (world_of ["agent:x:main"] ∅)) "agent:x:main" ∧
  "agent:x:main" ∈ e_key <$> getAllSessions (λ _ _, JUndefined) (world_of ["agent:x:main"] ∅).
Proof.
  assert (has_session (getTraces (H := first_day) (world_of ["agent:x:main"] ∅))
            "agent:x:main") as Hhas.
  { unfold has_session. eexists. vm_compute. reflexivity. }
  split; [exact Hhas|].
  apply (X25_forest_sessions_are_listed (H := first_day) _ _ _ Hhas).
Defined.

End ForestMore.


